(** * Swiss-system pairing engine (betap.C): a shallow embedding

    The development follows the layout of [betap.C]: the Crenshaw-Berger
    tables, the [Player] record and its sort predicate, the [Cost] record
    and its comparison, the cost functions, the pairing procedures, the
    optimiser, [FindPairings], and the tiebreak functions.

    Conventions of the embedding.
    - [size_t] indices and sizes are [nat]; every other integer
      ([integer], [smallint], [CostValue], ids, ratings) is a [Z].
    - [real] and [double] values that hold scores, random keys and
      tiebreak values are exact rationals [Q]; the one place where the
      source relies on the rounding of [double] arithmetic ([Multiple])
      models that rounding explicitly.
    - A failed [ASSERT] aborts the program, and an access outside a
      vector is undefined: a function that can do either returns an
      [option], [None] standing for "no result". *)

From Stdlib Require Import ZArith QArith Qround Qabs Lia Bool Ascii String Permutation.
From stdpp Require Import base option list strings sorting pretty gmap.

Local Open Scope Z_scope.


(** ** Small shared helpers *)

(** [ASSERT(expr)]: continue when the expression holds, abort otherwise. *)
Definition ASSERT (b : bool) : option unit := if b then Some tt else None.

(** [swap(v[i], v[j])] on a vector; both indices must be in range. *)
Definition swap {A} (v : list A) (i j : nat) : option (list A) :=
  a ← v !! i; b ← v !! j; Some (<[j:=a]> (<[i:=b]> v)).

(** A loop over a list whose body may abort. *)
Fixpoint foldlM {A B} (f : B → A → option B) (b : B) (l : list A) : option B :=
  match l with
  | [] => Some b
  | a :: l' => b' ← f b a; foldlM f b' l'
  end.

(** The loop counters [lo, lo+2, lo+4, ...] (at most [n] of them). *)
Fixpoint up2 (lo n : nat) : list nat :=
  match n with O => [] | S n' => lo :: up2 (lo + 2) n' end.

(** ** The Cost record (betap.C, struct Cost) *)

Definition MaxCostValue : Z := 2 ^ 63 - 1.

Record Cost := mkCost {
  byeChoice : Z;
  byeAgain : Z;
  playersMeetTwice : Z;
  cantPairPlayers : Z;
  teamBlocks2 : Z;
  unequalScores : Z;
  teamBlocks : Z;
  cantPairTeams : Z;
  byeAfterHalf : Z;
  lowestScoreBye : Z;
  lowestRatedBye : Z;
  oddPlayerUnrated : Z;
  oddPlayerMultipleGroups : Z;
  interchange200 : Z;
  transpose200 : Z;
  colorImbalance : Z;
  colorRepeat3 : Z;
  interchange80 : Z;
  transpose80 : Z;
  colorAlternate : Z;
  interchange0 : Z;
  transpose0 : Z;
  pairingCard : Z;
  reversedColors : Z;
  boardOverlap : Z;
  boardOrder : Z;
  players : Z   (* size_t, "for debugging/printing"; an unsigned 64-bit word *)
}.

(** [Cost::Cost()]: [memset(this, 0, sizeof( *this))]. *)
Definition Cost_zero : Cost :=
  mkCost 0 0 0 0 0 0 0 0 0 0 0 0 0 0 0 0 0 0 0 0 0 0 0 0 0 0 0.

(** The counters in their declared order, [byeChoice] first. *)
Definition counters (c : Cost) : list Z :=
  [ byeChoice c; byeAgain c; playersMeetTwice c; cantPairPlayers c;
    teamBlocks2 c; unequalScores c; teamBlocks c; cantPairTeams c;
    byeAfterHalf c; lowestScoreBye c; lowestRatedBye c; oddPlayerUnrated c;
    oddPlayerMultipleGroups c; interchange200 c; transpose200 c;
    colorImbalance c; colorRepeat3 c; interchange80 c; transpose80 c;
    colorAlternate c; interchange0 c; transpose0 c; pairingCard c;
    reversedColors c; boardOverlap c; boardOrder c ].

(** Reading a 64-bit unsigned word as a [CostValue] (two's complement). *)
Definition as_int64 (u : Z) : Z :=
  let w := u mod 2 ^ 64 in if w <? 2 ^ 63 then w else w - 2 ^ 64.

(** [sizeof(Cost)] and [sizeof(c1.COST_BEGIN)] on an LP64 target. *)
Definition sizeof_CostValue : nat := 8.
Definition sizeof_Cost : nat := 26 * 8 + 8.

(** [(&c.COST_BEGIN)[x]]: the [x]-th 8-byte word of the record read as a
    [CostValue].  Words 0..25 are the counters; word 26 is [players]. *)
Definition word (c : Cost) (x : nat) : Z :=
  match counters c !! x with
  | Some v => v
  | None => as_int64 (players c)
  end.

(** [bool operator< (const Cost &c1, const Cost &c2)]: the loop over
    [x = 0 .. sizeof(c1)/sizeof(c1.COST_BEGIN) - 1]. *)
Fixpoint Cost_lt_loop (xs : list nat) (c1 c2 : Cost) : bool :=
  match xs with
  | [] => false
  | x :: xs' =>
      if word c1 x <? word c2 x then true
      else if word c1 x >? word c2 x then false
      else Cost_lt_loop xs' c1 c2
  end.

Definition Cost_lt (c1 c2 : Cost) : bool :=
  Cost_lt_loop (seq 0 (sizeof_Cost / sizeof_CostValue)%nat) c1 c2.

Definition Cost_gt (x y : Cost) : bool := Cost_lt y x.
Definition Cost_ge (x y : Cost) : bool := negb (Cost_lt x y).
Definition Cost_le (x y : Cost) : bool := negb (Cost_lt y x).
Definition Cost_eq (x y : Cost) : bool := negb (Cost_lt x y || Cost_lt y x).
Definition Cost_ne (x y : Cost) : bool := negb (Cost_eq x y).

(** [Cost::IsZero]: compares the record with a zero record whose
    [players] field was copied from [this]. *)
Definition IsZero (c : Cost) : bool :=
  forallb (fun v => v =? 0) (counters c).

(** The order the specification describes: at the first counter where the
    two records differ, the first record is smaller. *)
Definition first_diff_smaller (c1 c2 : Cost) : Prop :=
  ∃ k v1 v2,
    counters c1 !! k = Some v1 ∧ counters c2 !! k = Some v2 ∧ v1 < v2 ∧
    ∀ j, (j < k)%nat → counters c1 !! j = counters c2 !! j.

(** ** Multiple (betap.C, cost functions)

    [Multiple] accumulates [pow(players, x)] in a [CostValue].  [pow]
    works on [double], and [result += pow(...)] converts [result] to
    [double], adds, and converts the sum back.  On the integer values that
    occur here a binary64 operation returns the exact result rounded to a
    53-bit significand (ties to even): [round_double] is that rounding. *)

Definition round_double (z : Z) : Z :=
  let a := Z.abs z in
  if a <? 2 ^ 53 then z
  else
    let e := Z.log2 a - 52 in
    let q := a / 2 ^ e in
    let r := a mod 2 ^ e in
    let half := 2 ^ (e - 1) in
    let q' := if r <? half then q
              else if r >? half then q + 1
              else if Z.even q then q else q + 1 in
    Z.sgn z * (q' * 2 ^ e).

(** [pow(players, x)] on integer arguments, both converted to [double]. *)
Definition pow_double (b e : Z) : Z :=
  round_double (round_double b ^ round_double e).

(** [double] to [int64_t]: a value outside the range gives the
    "integer indefinite" value on x86-64. *)
Definition double_to_int64 (d : Z) : Z :=
  if (- 2 ^ 63 <=? d) && (d <? 2 ^ 63) then d else - 2 ^ 63.

(** The body of [for (CostValue x = 0; x < cv; ++x)], run [n] more times. *)
Fixpoint Multiple_loop (n : nat) (x nplayers result : Z) : Z :=
  match n with
  | O => result
  | S n' =>
      let temp := result in
      let result :=
        double_to_int64
          (round_double (round_double result + pow_double nplayers x)) in
      let result := if result <? temp then MaxCostValue else result in
      Multiple_loop n' (x + 1) nplayers result
  end.

(** [CostValue Multiple (CostValue cv, size_t players, char wCode)]; the
    diagnostic line printed when [pow(players, cv)] is large is omitted. *)
Definition Multiple (cv nplayers : Z) : Z :=
  Multiple_loop (Z.to_nat cv) 0 nplayers 0.

(** ** Crenshaw-Berger tables for Round Robin *)

Definition TAB : string := String (ascii_of_nat 9) EmptyString.

(** A table row: tab-separated columns, as in the string literals. *)
Definition row3 (a b c : string) : string :=
  (TAB ++ a ++ TAB ++ b ++ TAB ++ c)%string.
Definition row4 (a b c d : string) : string :=
  (TAB ++ a ++ TAB ++ b ++ TAB ++ c ++ TAB ++ d)%string.

Definition roundRobinPairings : list string :=
  [ row3 "4" "1" "1-4 2-3"
  ; row3 "4" "2" "3-1 4-2"
  ; row3 "4" "3" "1-2 3-4"
  ; row3 "6" "1" "3-6 5-4 1-2"
  ; row3 "6" "2" "2-6 4-1 3-5"
  ; row3 "6" "3" "6-5 1-3 4-2"
  ; row3 "6" "4" "6-4 5-1 2-3"
  ; row3 "6" "5" "1-6 2-5 3-4"
  ; row3 "8" "1" "4-8 5-3 6-2 7-1"
  ; row3 "8" "2" "8-7 1-6 2-5 3-4"
  ; row3 "8" "3" "3-8 4-2 5-1 6-7"
  ; row3 "8" "4" "8-6 7-5 1-4 2-3"
  ; row3 "8" "5" "2-8 3-1 4-7 5-6"
  ; row3 "8" "6" "8-5 6-4 7-3 1-2"
  ; row3 "8" "7" "1-8 2-7 3-6 4-5"
  ; row3 "10" "1" "5-10 6-4 7-3 8-2 9-1"
  ; row3 "10" "2" "10-9 1-8 2-7 3-6 4-5"
  ; row3 "10" "3" "4-10 5-3 6-2 7-1 8-9"
  ; row3 "10" "4" "10-8 9-7 1-6 2-5 3-4"
  ; row3 "10" "5" "3-10 4-2 5-1 6-9 7-8"
  ; row3 "10" "6" "10-7 8-6 9-5 1-4 2-3"
  ; row3 "10" "7" "2-10 3-1 4-9 5-8 6-7"
  ; row3 "10" "8" "10-6 7-5 8-4 9-3 1-2"
  ; row3 "10" "9" "1-10 2-9 3-8 4-7 5-6" ].

Definition roundRobinReversals : list string :=
  [ row4 "4" "3" "1" ""
  ; row4 "4" "3" "2" "4-3"
  ; row4 "4" "3" "3" "2-1"
  ; row4 "4" "3" "4" ""
  ; row4 "6" "5" "1" "5-2 4-3"
  ; row4 "6" "5" "2" "4-3"
  ; row4 "6" "5" "3" ""
  ; row4 "6" "5" "4" "6-1 5-2"
  ; row4 "6" "5" "5" "6-1"
  ; row4 "6" "5" "6" ""
  ; row4 "8" "5" "1" "7-2 5-4"
  ; row4 "8" "5" "2" "6-3"
  ; row4 "8" "5" "3" "5-4 7-2 2-1"
  ; row4 "8" "5" "4" "6-3 3-7 7-2"
  ; row4 "8" "5" "5" "8-1 7-4 4-6 6-3"
  ; row4 "8" "5" "6" "8-2 5-4"
  ; row4 "8" "5" "7" "8-1 6-3"
  ; row4 "8" "5" "8" ""
  ; row4 "10" "7" "1" "9-2 7-4"
  ; row4 "10" "7" "2" "8-3 6-5"
  ; row4 "10" "7" "3" "7-4 9-2 2-1"
  ; row4 "10" "7" "4" "6-5 8-3 3-9 9-2"
  ; row4 "10" "7" "5" "9-2 7-4 2-1 4-8 8-3"
  ; row4 "10" "7" "6" "10-2 8-5 5-7 7-4"
  ; row4 "10" "7" "7" "10-1 6-5 9-4 4-8 8-3"
  ; row4 "10" "7" "8" "10-2 7-4"
  ; row4 "10" "7" "9" "10-1 8-3 6-5"
  ; row4 "10" "7" "10" "" ].

(** [s.substr(pos)] for [pos <= s.size()]. *)
Fixpoint substr (s : string) (pos : nat) : string :=
  match pos, s with
  | S p, String _ s' => substr s' p
  | _, _ => s
  end.

(** [s.find(c)]: the first position of [c], or [None] for [npos]. *)
Fixpoint find_char (c : ascii) (s : string) : option nat :=
  match s with
  | EmptyString => None
  | String a s' => if Ascii.eqb a c then Some 0%nat else S <$> find_char c s'
  end.

(** [s.find(c, pos)]. *)
Definition find_from (c : ascii) (s : string) (pos : nat) : option nat :=
  if (String.length s <? pos)%nat then None
  else (λ k, (pos + k)%nat) <$> find_char c (substr s pos).

Definition is_digit (a : ascii) : bool :=
  let n := nat_of_ascii a in (48 <=? n)%nat && (n <=? 57)%nat.

Definition isspace (a : ascii) : bool :=
  let n := nat_of_ascii a in (n =? 32)%nat || ((9 <=? n)%nat && (n <=? 13)%nat).

Fixpoint atoi_digits (s : string) (acc : Z) : Z :=
  match s with
  | String a s' =>
      if is_digit a then atoi_digits s' (10 * acc + (Z.of_nat (nat_of_ascii a) - 48))
      else acc
  | EmptyString => acc
  end.

Fixpoint skip_space (s : string) : string :=
  match s with
  | String a s' => if isspace a then skip_space s' else s
  | EmptyString => s
  end.

(** [atoi]: leading white space, an optional sign, then decimal digits. *)
Definition atoi (s : string) : Z :=
  match skip_space s with
  | String "-" s' => - atoi_digits s' 0
  | String "+" s' => atoi_digits s' 0
  | s' => atoi_digits s' 0
  end.

(** The state of the first loop: [opponent], [board], [color]. *)
Definition CBState : Type := Z * Z * ascii.

(** The body of [for (size_t y = 1; ; ++y)] over the pairings of a row. *)
Fixpoint CB_pairings (fuel : nat) (pairings : string) (y : Z) (player : Z)
    (st : CBState) : option CBState :=
  match fuel with
  | O => None
  | S fuel' =>
      let p1 := atoi pairings in
      dash ← find_char "-" pairings;
      let p2 := atoi (substr pairings (dash + 1)) in
      st ← (if p1 =? player then
              let '(opponent, _, color) := st in
              ASSERT ((opponent =? 0) && Ascii.eqb color "*");;
              Some (p2, y, "W"%char)
            else Some st);
      st ← (if p2 =? player then
              let '(opponent, _, color) := st in
              ASSERT ((opponent =? 0) && Ascii.eqb color "*");;
              Some (p1, y, "B"%char)
            else Some st);
      match find_from " " pairings (dash + 1) with
      | None => Some st
      | Some space => CB_pairings fuel' (substr pairings (space + 1)) (y + 1) player st
      end
  end.

(** The first loop: over the rows of [roundRobinPairings]. *)
Fixpoint CB_rows (rows : list string) (competitors round player : Z)
    (st : CBState) : option CBState :=
  match rows with
  | [] => Some st
  | row :: rows' =>
      tab ← find_char (ascii_of_nat 9) row;
      let size := atoi (substr row (tab + 1)) in
      if negb (size =? competitors) then CB_rows rows' competitors round player st
      else
        tab ← find_from (ascii_of_nat 9) row (tab + 1);
        let rnd := atoi (substr row (tab + 1)) in
        if negb (rnd =? round) then CB_rows rows' competitors round player st
        else
          tab ← find_from (ascii_of_nat 9) row (tab + 1);
          let pairings := substr row (tab + 1) in
          st ← CB_pairings (S (String.length pairings)) pairings 1 player st;
          CB_rows rows' competitors round player st
  end.

(** The state of the second loop: [color], [isReversed]. *)
Definition RevState : Type := ascii * bool.

(** The body of [for (;;)] over the reversals of a row. *)
Fixpoint CB_reversals (fuel : nat) (reversals : string)
    (player opponent competitors round rnd withdrawnPlayer : Z) (isBye : bool)
    (st : RevState) : option RevState :=
  match fuel with
  | O => None
  | S fuel' =>
      let p1 := atoi reversals in
      dash ← find_char "-" reversals;
      let p2 := atoi (substr reversals (dash + 1)) in
      let checks (st : RevState) : option unit :=
        ASSERT (negb isBye && negb (withdrawnPlayer =? competitors));;
        ASSERT (rnd <=? round);;
        ASSERT (negb st.2) in
      st ← (if (p1 =? player) && (p2 =? opponent)
            then checks st;; Some ("W"%char, true) else Some st);
      st ← (if (p2 =? player) && (p1 =? opponent)
            then checks st;; Some ("B"%char, true) else Some st);
      match find_from " " reversals (dash + 1) with
      | None => Some st
      | Some space =>
          CB_reversals fuel' (substr reversals (space + 1))
            player opponent competitors round rnd withdrawnPlayer isBye st
      end
  end.

(** The second loop: over the rows of [roundRobinReversals]. *)
Fixpoint CB_rev_rows (rows : list string)
    (player opponent competitors round withdrawnPlayer : Z) (isBye : bool)
    (st : RevState) : option RevState :=
  match rows with
  | [] => Some st
  | row :: rows' =>
      tab ← find_char (ascii_of_nat 9) row;
      let size := atoi (substr row (tab + 1)) in
      if negb (size =? competitors)
      then CB_rev_rows rows' player opponent competitors round withdrawnPlayer isBye st
      else
        tab ← find_from (ascii_of_nat 9) row (tab + 1);
        let rnd := atoi (substr row (tab + 1)) in
        tab ← find_from (ascii_of_nat 9) row (tab + 1);
        let withdraw := atoi (substr row (tab + 1)) in
        if negb (withdraw =? withdrawnPlayer)
        then CB_rev_rows rows' player opponent competitors round withdrawnPlayer isBye st
        else
          tab ← find_from (ascii_of_nat 9) row (tab + 1);
          let reversals := substr row (tab + 1) in
          st ← (if (0 <? String.length reversals)%nat
                then CB_reversals (S (String.length reversals)) reversals
                       player opponent competitors round rnd withdrawnPlayer isBye st
                else Some st);
          CB_rev_rows rows' player opponent competitors round withdrawnPlayer isBye st
  end.

(** [void CrenshawBergerLookup (competitors, round, player,
    withdrawnPlayer, integer &board, character &color)]: the result is the
    pair written to [board] and [color]. *)
Definition CrenshawBergerLookup (competitors round player withdrawnPlayer : Z)
    : option (Z * ascii) :=
  '(isBye, competitors) ←
     (if competitors mod 2 =? 1
      then ASSERT (withdrawnPlayer =? 0);; Some (true, competitors + 1)
      else Some (false, competitors));
  let withdrawnPlayer := if withdrawnPlayer =? 0 then competitors else withdrawnPlayer in
  '(opponent, board, color) ←
     CB_rows roundRobinPairings competitors round player (0, 0, "*"%char);
  ASSERT ((1 <=? opponent) && negb (opponent =? player) && (opponent <=? competitors));;
  ASSERT ((1 <=? board) && (board <=? competitors / 2));;
  ASSERT (Ascii.eqb color "W" || Ascii.eqb color "B");;
  '(color, _) ←
     CB_rev_rows roundRobinReversals player opponent competitors round
       withdrawnPlayer isBye (color, false);
  Some (board, color).

(** ** Players (betap.C, struct Player) *)

Definition BYE_ID : Z := 0.

(** [typedef string charVector]: a vector of characters. *)
Definition charVector : Type := list ascii.

(** The fields [tmt_id], [sec_id], [uscf_id], [player_name], [team_name]
    and [game_result] are only printed, and [warn_codes] with the
    [costDescription] table is only written: no pairing, color, board or
    cost depends on them, and the record leaves them out. *)
Record Player := mkPlayer {
  trn_type : ascii;
  rnd : Z;
  board_num : Z;
  board_color : ascii;
  play_id : Z;
  reentry : Z;
  team_id : Z;
  teammates : list Z;
  opponents : list string;
  score : Q;
  rating : Z;
  is_unrated : bool;
  use_rating : string;
  provisional : Z;
  rand : Q;
  bye_house : bool;
  bye_request : bool;
  unplayed_count : Z;
  half_bye_count : Z;
  bye_rounds : list Z;
  due_color : charVector;
  color_history : charVector;
  played_colors : charVector;
  first_color : ascii;
  multiround : Z;
  paired : bool;
  rank : Z;
  teammate_ranks : list Z;
  opponent_ranks : list Z
}.

(** Field updates. *)
Definition set_board (p : Player) (num : Z) (color : ascii) : Player :=
  mkPlayer (trn_type p) (rnd p) num color (play_id p) (reentry p) (team_id p)
    (teammates p) (opponents p) (score p) (rating p) (is_unrated p)
    (use_rating p) (provisional p) (rand p) (bye_house p) (bye_request p)
    (unplayed_count p) (half_bye_count p) (bye_rounds p) (due_color p)
    (color_history p) (played_colors p) (first_color p) (multiround p)
    (paired p) (rank p) (teammate_ranks p) (opponent_ranks p).

Definition set_board_num (p : Player) (num : Z) : Player :=
  set_board p num (board_color p).

Definition set_board_color (p : Player) (color : ascii) : Player :=
  set_board p (board_num p) color.

Definition set_bye_request (p : Player) (b : bool) : Player :=
  mkPlayer (trn_type p) (rnd p) (board_num p) (board_color p) (play_id p)
    (reentry p) (team_id p) (teammates p) (opponents p) (score p) (rating p)
    (is_unrated p) (use_rating p) (provisional p) (rand p) (bye_house p) b
    (unplayed_count p) (half_bye_count p) (bye_rounds p) (due_color p)
    (color_history p) (played_colors p) (first_color p) (multiround p)
    (paired p) (rank p) (teammate_ranks p) (opponent_ranks p).

(** The three fields [SetRanks] computes. *)
Definition set_ranks (p : Player) (r : Z) (due : charVector)
    (opp_ranks team_ranks : list Z) : Player :=
  mkPlayer (trn_type p) (rnd p) (board_num p) (board_color p) (play_id p)
    (reentry p) (team_id p) (teammates p) (opponents p) (score p) (rating p)
    (is_unrated p) (use_rating p) (provisional p) (rand p) (bye_house p)
    (bye_request p) (unplayed_count p) (half_bye_count p) (bye_rounds p) due
    (color_history p) (played_colors p) (first_color p) (multiround p)
    (paired p) r team_ranks opp_ranks.

(** A value-initialised [Player] (what [pl.resize] appends). *)
Definition Player_default : Player :=
  mkPlayer "000" 0 0 "000" 0 0 0 [] [] 0%Q 0 false "" 0 0%Q false false 0 0 []
    [] [] [] "000" 0 false 0 [] [].

Definition is_bye (p : Player) : bool := play_id p =? BYE_ID.

(** Comparisons of [real] and [double] values. *)
Definition Qeqb (a b : Q) : bool := Qeq_bool a b.
Definition Qltb (a b : Q) : bool :=
  match (a ?= b)%Q with Lt => true | _ => false end.
Definition Qgtb (a b : Q) : bool := Qltb b a.
Definition Qleb (a b : Q) : bool := negb (Qltb b a).
Definition Qmax (a b : Q) : Q := if Qleb b a then a else b.   (* Max(a,b) *)

(** [false < true] on [bool]. *)
Definition bool_lt (a b : bool) : bool := negb a && b.

(** The chain of [operator< (const Player &x, const Player &y)]. *)
Definition Player_lt (x y : Player) : bool :=
  bool_lt (is_bye x) (is_bye y) || (eqb (is_bye x) (is_bye y)
  && (bool_lt (bye_request x) (bye_request y) || (eqb (bye_request x) (bye_request y)
  && (bool_lt (paired x) (paired y) || (eqb (paired x) (paired y)
  && (Qgtb (score x) (score y) || (Qeqb (score x) (score y)
  && ((rating x >? rating y) || ((rating x =? rating y)
  && (Qltb (rand x) (rand y) || (Qeqb (rand x) (rand y)
  && ((play_id x <? play_id y) || ((play_id x =? play_id y)
  && (reentry x <? reentry y)))))))))))))).

(** [operator<] as called: it first asserts [x.rand != y.rand]. *)
Definition Player_less (x y : Player) : option bool :=
  ASSERT (negb (Qeqb (rand x) (rand y)));; Some (Player_lt x y).

(** [operator<=]: [!(y < x)]. *)
Definition Player_leq (x y : Player) : option bool :=
  negb <$> Player_less y x.

(** [std::sort] with a comparison: the library compares a set of pairs
    that the source does not fix, and every comparison of two players
    with [operator<] first asserts that their [rand] keys differ.
    [distinct_rand] is the condition under which no comparison can fail,
    whichever pairs are compared: the keys of the vector are pairwise
    different.  A sort of players returns only then; the order is total
    on such a vector and the sorted vector is unique. *)
Fixpoint distinct_rand (pl : list Player) : bool :=
  match pl with
  | [] => true
  | p :: pl' => forallb (λ q, negb (Qeqb (rand p) (rand q))) pl' && distinct_rand pl'
  end.

Definition not_after {A} (lt : A → A → bool) : relation A :=
  λ x y, lt y x = false.

#[global] Instance not_after_dec {A} (lt : A → A → bool) : RelDecision (not_after lt).
Proof. intros x y. unfold not_after. apply _. Defined.

Definition sort_by {A} (lt : A → A → bool) (l : list A) : list A :=
  merge_sort (not_after lt) l.

(** [std::sort] on numbers. *)
Definition sort_Z (l : list Z) : list Z := merge_sort Z.le l.
Definition sort_nat (l : list nat) : list nat := merge_sort le l.

(** [pl[i]]: reading outside the vector is undefined. *)
Definition PlayerVector : Type := list Player.
Definition IndexVector : Type := list nat.

Definition at_pair (pl : PlayerVector) (pair : IndexVector) (i : nat) : option Player :=
  r ← pair !! i; pl !! r.

(** ** Colors *)

Definition toupper (c : ascii) : ascii :=
  let n := nat_of_ascii c in
  if (97 <=? n)%nat && (n <=? 122)%nat then ascii_of_nat (n - 32) else c.
Definition tolower (c : ascii) : ascii :=
  let n := nat_of_ascii c in
  if (65 <=? n)%nat && (n <=? 90)%nat then ascii_of_nat (n + 32) else c.
Definition isupper (c : ascii) : bool :=
  let n := nat_of_ascii c in (65 <=? n)%nat && (n <=? 90)%nat.
Definition islower_az (c : ascii) : bool :=     (* 'a' <= c && c <= 'z' *)
  let n := nat_of_ascii c in (97 <=? n)%nat && (n <=? 122)%nat.

Definition SameColor (color : ascii) : ascii :=
  if Ascii.eqb (toupper color) "W" then "W"
  else if Ascii.eqb (toupper color) "B" then "B" else "x".
Definition FlipColor (color : ascii) : ascii :=
  if Ascii.eqb (toupper color) "W" then "B"
  else if Ascii.eqb (toupper color) "B" then "W" else "x".

(** [s[0]] of a [std::string]: the terminating null when [s] is empty. *)
Definition char0 (s : charVector) : ascii := default "000"%char (head s).

(** [s[z]] of a [std::string]: defined up to and including [s.size()]. *)
Definition char_at (s : charVector) (z : nat) : option ascii :=
  match s !! z with
  | Some c => Some c
  | None => if (z =? length s)%nat then Some "000"%char else None
  end.

Definition count_char (c : ascii) (s : charVector) : nat :=
  length (filter (λ a, a = c) s).

(** [h2 += history[x]] for [x = 0, multiround, 2*multiround, ...]. *)
Fixpoint every_nth (fuel : nat) (history : charVector) (step : nat) : charVector :=
  match fuel, history with
  | S fuel', c :: _ => c :: every_nth fuel' (drop step history) step
  | _, _ => []
  end.

(** [string DueColor (text history, smallint multiround)]. *)
Definition DueColor (history : charVector) (multiround : Z) : option charVector :=
  history ←
    (if negb (multiround =? 1) && (0 <? length history)%nat then
       ASSERT ((0 <? multiround) && (Z.of_nat (length history) mod multiround =? 0));;
       Some (every_nth (length history) history (Z.to_nat multiround))
     else Some history);
  let unplayed := length (filter (λ a, islower_az a = true) history) in
  if (unplayed =? length history)%nat then Some ["x"%char]
  else
    let whites := count_char "W" history in
    let blacks := count_char "B" history in
    ASSERT (whites + blacks + unplayed =? length history)%nat;;
    if (blacks <? whites)%nat then Some (replicate (whites - blacks) "B"%char)
    else if (whites <? blacks)%nat then Some (replicate (blacks - whites) "W"%char)
    else
      match filter (λ a, a = "W"%char ∨ a = "B"%char) (reverse history) with
      | c :: _ => Some [tolower (FlipColor c)]
      | [] => Some ["x"%char]
      end.

(** [S(int)]: the decimal text of an integer. *)
Definition S_ (z : Z) : string := pretty z.

(** [S(y.play_id)+"_"+S(y.reentry)]. *)
Definition player_key (y : Player) : string :=
  (S_ (play_id y) ++ "_" ++ S_ (reentry y))%string.

(** The loop of [AllocateColor] over [x.opponents]: the numbers of prior
    games against [y] with White and with Black. *)
Fixpoint match_counts (z : nat) (opps : list string) (x y : Player)
    (w b : Z) : option (Z * Z) :=
  match opps with
  | [] => Some (w, b)
  | o :: opps' =>
      if String.eqb o (player_key y) then
        c ← char_at (played_colors x) z;
        if Ascii.eqb (toupper c) "W" then match_counts (S z) opps' x y (w + 1) b
        else if Ascii.eqb (toupper c) "B" then match_counts (S z) opps' x y w (b + 1)
        else match_counts (S z) opps' x y w b
      else match_counts (S z) opps' x y w b
  end.

(** The last loop of [AllocateColor]: the most recent round in which the
    two color histories differ ([hx], [hy] are the histories reversed). *)
Fixpoint history_tiebreak (hx hy : charVector) : option ascii :=
  match hx, hy with
  | cx :: hx', cy :: hy' =>
      if negb (Ascii.eqb (SameColor cx) (SameColor cy)) then
        Some (if Ascii.eqb (SameColor cx) "x" then SameColor cy else FlipColor cx)
      else history_tiebreak hx' hy'
  | _, _ => None
  end.

(** [char AllocateColor (const Player &x, const Player &y, bool isOddBoard)]:
    the color of [x]. *)
Definition AllocateColor (x y : Player) (isOddBoard : bool) : option ascii :=
  if is_bye y then Some "W"%char
  else if is_bye x then Some "B"%char
  else
    Player_less x y ≫= λ isUpper : bool,
    if bool_decide (due_color x = ["x"%char]) && bool_decide (due_color y = ["x"%char]) then
      let same : bool := if isUpper then isOddBoard else negb isOddBoard in
      Some ((if same then SameColor else FlipColor) (first_color x))
    else
      '(matchCountWhite, matchCountBlack) ← match_counts 0 (opponents x) x y 0 0;
      if matchCountWhite <? matchCountBlack then Some "W"%char
      else if matchCountBlack <? matchCountWhite then Some "B"%char
      else if bool_decide (due_color y = ["x"%char]) then Some (SameColor (char0 (due_color x)))
      else if bool_decide (due_color x = ["x"%char]) then Some (FlipColor (char0 (due_color y)))
      else if negb (Ascii.eqb (SameColor (char0 (due_color y))) (SameColor (char0 (due_color x))))
      then Some (SameColor (char0 (due_color x)))
      else if isupper (char0 (due_color x))
              && (negb (isupper (char0 (due_color y)))
                  || (length (due_color y) <? length (due_color x))%nat)
      then Some (SameColor (char0 (due_color x)))
      else if isupper (char0 (due_color y))
              && (negb (isupper (char0 (due_color x)))
                  || (length (due_color x) <? length (due_color y))%nat)
      then Some (FlipColor (char0 (due_color y)))
      else
        ASSERT (length (color_history x) =? length (color_history y))%nat;;
        match history_tiebreak (reverse (color_history x)) (reverse (color_history y)) with
        | Some c => Some c
        | None =>
            Some (if rank x <? rank y then SameColor (char0 (due_color x))
                  else FlipColor (char0 (due_color y)))
        end.

(** ** Cost functions

    Every cost function of the source takes a warning letter [wCode] and
    records it in [warn_codes]; the embedding keeps the cost value only. *)

Definition Z_of_bool (b : bool) : Z := if b then 1 else 0.

(** Conversion of a [real]/[double] to [CostValue]: truncation. *)
Definition Qtrunc (q : Q) : Z := if Qltb q 0 then Qceiling q else Qfloor q.

(** [round]: to the nearest integer, halves away from zero. *)
Definition Qround_half_away (q : Q) : Z :=
  if Qltb q 0 then Qceiling (q - (1 # 2)) else Qfloor (q + (1 # 2)).

(** Conversion of a signed value to [size_t]. *)
Definition as_size_t (z : Z) : Z := z mod 2 ^ 64.

(** Binary floating point.  [Qlog2 a], for [a > 0], is the exponent [e]
    with [2^e <= a < 2^(e+1)].  [Qround_binary prec v] is the nearest
    number with a significand of [prec] bits, ties to even: the result
    of an operation on [float] ([prec = 24]) or [double] ([prec = 53])
    whose exact value is [v].  The exponent range is not modelled. *)
Definition Qlog2 (a : Q) : Z :=
  let e := Z.log2 (Qnum a) - Z.log2 (Zpos (Qden a)) in
  if Qleb (Qpower 2 e) a then e else e - 1.

Definition Qround_binary (prec : Z) (v : Q) : Q :=
  if Qeqb v 0 then 0%Q
  else
    let a := Qabs v in
    let ulp := Qpower 2 (Qlog2 a - prec + 1) in
    let q := (a / ulp)%Q in
    let n := Qfloor q in
    let r := (q - inject_Z n)%Q in
    let n' := if Qltb r (1 # 2) then n
              else if Qgtb r (1 # 2) then n + 1
              else if Z.even n then n else n + 1 in
    ((if Qltb v 0 then - 1 else 1) * inject_Z n' * ulp)%Q.

Definition Qround_float : Q → Q := Qround_binary 24.
Definition Qround_double : Q → Q := Qround_binary 53.

Definition ByeChoice (x y : Player) : Z :=
  if negb (is_bye x) && negb (bye_house x)
     && (if bye_request x then negb (is_bye y) else is_bye y)
  then 1 else 0.

Definition ByeAgain (x y : Player) (nplayers : nat) : Z :=
  if negb (is_bye x) && is_bye y
  then Multiple (Z.of_nat (count_char "f" (color_history x))) (Z.of_nat nplayers)
  else 0.

(** The loop of [IdenticalMatch] over [x.opponents]. *)
Fixpoint identical_count (z : nat) (opps : list string) (x y : Player)
    (xColor : ascii) (n : Z) : option Z :=
  match opps with
  | [] => Some n
  | o :: opps' =>
      if String.eqb o (player_key y) then
        c ← char_at (played_colors x) z;
        identical_count (S z) opps' x y xColor (if Ascii.eqb c xColor then n + 1 else n)
      else identical_count (S z) opps' x y xColor n
  end.

Definition IdenticalMatch (x y : Player) (nplayers : nat) (xColor : ascii) : option Z :=
  rematchX ← identical_count 0 (opponents x) x y xColor 0;
  rematchY ← identical_count 0 (opponents y) y x (FlipColor xColor) 0;
  Some (Multiple (Z.max rematchX rematchY) (Z.of_nat nplayers)).

(** [I(s)]: [atoi], which reads the [play_id] and stops at the '_'. *)
Definition I_ (s : string) : Z := atoi s.

Definition PlayersMeetTwice (x y : Player) (nplayers : nat) : Z :=
  let rematchX := Z.of_nat (length (filter (λ o, I_ o = play_id y) (opponents x))) in
  let rematchY := Z.of_nat (length (filter (λ o, I_ o = play_id x) (opponents y))) in
  Multiple (Z.max rematchX rematchY) (Z.of_nat nplayers).

(** [UnequalScores]: the weight is [Multiple] over the round number, not
    over the section size.  The scores are [float]: the difference of the
    scores is a [float] operation, the product [Multiple(...) * x.rnd] is
    an integer that the sum converts to [float], the sum is a [float]
    operation, and [round] works on its result.  Doubling a [float] is
    exact. *)
Definition UnequalScores (x y : Player) (nplayers : nat) (remainingRounds : Z) : Z :=
  if negb (Qeqb (score x) (score y)) && (rank x <? rank y) then
    let diff := Qround_float (score x - score y) in
    let weight := Multiple (Qtrunc (2 * Qabs diff)) (as_size_t (rnd x)) * rnd x in
    Qround_half_away
      (Qround_float (Qround_float (inject_Z weight) + 2 * Qmax (score x) (score y)))
  else 0.

Definition TeamBlocks (x y : Player) (nplayers : nat) : Z :=
  let team :=
    if rank x <? rank y
    then Z.of_nat (length (filter (λ t, t = play_id y) (teammates x)))
    else 0 in
  Multiple team (Z.of_nat nplayers).

Definition ByeAfterHalf (x y : Player) (nplayers : nat) : Z :=
  if negb (is_bye x) && is_bye y && negb (bye_request x)
  then Multiple (half_bye_count x) (Z.of_nat nplayers)
  else 0.

Definition LowestScoreBye (x y : Player) (nplayers : nat) (lowestScore : Q) : Z :=
  if negb (is_bye x) && is_bye y && negb (bye_request x)
     && Qgtb (score x - lowestScore) (1 # 4)
  then Multiple (Qtrunc (2 * (score x - lowestScore))) (Z.of_nat nplayers)
  else 0.

(** The section is rated: [use_rating != "none"]. *)
Definition rated_section (x : Player) : bool := negb (String.eqb (use_rating x) "none").

Definition LowestRatedBye (x y : Player) (remainingRounds : Z) : Z :=
  if negb (is_bye x) && is_bye y && negb (bye_request x)
     && is_unrated x && rated_section x
  then
    (* the sum is computed in [size_t] *)
    if as_size_t (provisional x + (rnd x + remainingRounds - unplayed_count x - 1)) <? 4
    then 2 else 1
  else 0.

Definition OddPlayerUnrated (x y : Player) : Z :=
  Z_of_bool (negb (is_bye x) && negb (is_bye y)
             && negb (Qeqb (score x) (score y)) && is_unrated x && rated_section x).

Definition OddPlayerMultipleGroups (x y : Player) (nplayers : nat) : Z :=
  if negb (is_bye x) && negb (is_bye y) && Qgtb (score x - score y) (3 # 4)
  then Multiple (Qtrunc (2 * (score x - score y - (1 # 2)))) (Z.of_nat nplayers)
  else 0.

Definition ColorImbalance (x y : Player) (xColor : ascii) : Z :=
  Z_of_bool (Ascii.eqb (char0 (due_color x)) (toupper (char0 (due_color x)))
             && negb (Ascii.eqb xColor (char0 (due_color x)))
             && negb (is_bye x) && negb (is_bye y)).

(** The loop of [ColorRepeat3] over the history, most recent round first. *)
Fixpoint repeat_count (h : charVector) (xColor yColor : ascii) (count : Z) : Z :=
  match h with
  | [] => count
  | c :: h' =>
      if Ascii.eqb c xColor then repeat_count h' xColor yColor (count + 1)
      else if Ascii.eqb c yColor then count
      else repeat_count h' xColor yColor count
  end.

Definition ColorRepeat3 (x y : Player) (xColor : ascii) : Z :=
  if is_bye x || is_bye y then 0
  else
    let yColor := FlipColor xColor in
    Z_of_bool (3 <=? repeat_count (reverse (color_history x)) xColor yColor 1).

(** The loop of [ColorAlternate]: the most recent played round. *)
Fixpoint last_played_is (h : charVector) (xColor : ascii) : Z :=
  match h with
  | [] => 0
  | c :: h' =>
      if islower_az c then last_played_is h' xColor
      else Z_of_bool (Ascii.eqb c xColor)
  end.

Definition ColorAlternate (x y : Player) (xColor : ascii) : Z :=
  if is_bye x || is_bye y then 0
  else if negb (Ascii.eqb xColor (toupper (char0 (due_color x))))
  then last_played_is (reverse (color_history x)) xColor
  else 0.

Definition MAX_RATING : Z := 30000 + 1.

(** [Interchange]; the two branches guarded by [false &&] are dead. *)
Definition Interchange (x y : Player) (nplayers : nat)
    (medianRating highestRating unratedRating : Z) (threshold : Z) : Z :=
  let dl := threshold in
  let r0 := rating x in
  let r1 := if is_unrated x && rated_section x then unratedRating else rating x in
  let r2 := rating y in
  let rm := medianRating in
  let n := Z.of_nat nplayers in
  if is_bye x then 0
  else if is_bye y then (if rm + dl <? r1 then n * MAX_RATING + r1 - rm else 0)
  else if Qeqb (score x) (score y) && (rank x >? rank y) && (rm + dl <? Z.min r0 r2)
  then n * MAX_RATING + Z.min r0 r2 - rm
  else if Qltb (score x) (score y) && (r0 + dl <? rm)
  then n * MAX_RATING + rm - r0
  else if Qgtb (score x) (score y) && (rm + dl <? r0)
  then n * MAX_RATING + r0 - rm
  else 0.

(** [IS_UNRATED(player)] of [Transpose]: it tests [use_rating[0] != 'n']. *)
Definition IS_UNRATED (p : Player) : bool :=
  is_unrated p
  && negb (Ascii.eqb (char0 (list_ascii_of_string (use_rating p))) "n").

(** The loop of [Transpose] over the boards [z, z+2, ...] below board [x]. *)
Fixpoint Transpose_loop (zs : list nat) (pl : PlayerVector) (pair : IndexVector)
    (px py : Player) (unratedRating threshold : Z) (cv : Z) : option Z :=
  match zs with
  | [] => Some cv
  | z :: zs' =>
      ASSERT (z mod 2 =? 0)%nat;;
      p1 ← at_pair pl pair z;
      p2 ← at_pair pl pair (z + 1);
      ASSERT (rank p1 <? rank p2);;
      let n := Z.of_nat (length pl) in
      let sx := score px in
      let sy := score py in
      let rx := if IS_UNRATED px then unratedRating else rating px in
      let ry := if IS_UNRATED py then unratedRating else rating py in
      let kx := rank px in
      let dl := threshold in
      let s1 := score p1 in
      let s2 := score p2 in
      let r1 := if IS_UNRATED p1 then unratedRating else rating p1 in
      let r2 := if IS_UNRATED p2 then unratedRating else rating p2 in
      let d2 := if Qeqb sy sx && Qeqb s1 s2 then Z.min (r2 - rx) (ry - r1) else r2 - rx in
      let k2 := rank p2 in
      let cv :=
        if Qeqb s1 sx && (dl <? r1 - rx)
           && (Qltb sx sy || Qgtb s1 s2 || is_bye p2)
        then cv + (n * MAX_RATING + r1 - rx) else cv in
      let cv :=
        if Qeqb s2 sx && (dl <? d2) && negb (is_bye p2)
           && (Qltb sx sy || (k2 <? kx))
        then cv + (n * MAX_RATING + d2) else cv in
      Transpose_loop zs' pl pair px py unratedRating threshold cv
  end.

(** [Transpose].  The source declares [CostValue cv;] without an
    initialiser, sets it to 0 on the first branch and on the second
    branch accumulates into it as declared: there the value it returns is
    not defined by the source.  The embedding starts the accumulation at
    0; the value enters the counters [transpose200], [transpose80] and
    [transpose0] of the cost and nothing else. *)
Definition Transpose (pl : PlayerVector) (pair : IndexVector) (x y : nat)
    (unratedRating threshold : Z) (pBegin pEnd : nat) : option Z :=
  ASSERT ((pBegin mod 2 =? 0) && (pEnd mod 2 =? 0))%nat;;
  ASSERT ((pBegin <? pEnd) && (pEnd <=? length pair))%nat;;
  ASSERT ((pBegin <=? x) && (x <? pEnd) && (pBegin <=? y) && (y <? pEnd))%nat;;
  px ← at_pair pl pair x;
  py ← at_pair pl pair y;
  if is_bye px || is_bye py then Some 0
  else
    ASSERT (if (x mod 2 =? 0)%nat then (y =? x + 1)%nat else (S y =? x)%nat);;
    ASSERT (if (x mod 2 =? 0)%nat then rank px <? rank py else rank px >? rank py);;
    if rank px <? rank py then Some 0
    else
      ASSERT (rank px >? rank py);;
      ASSERT (x mod 2 =? 1)%nat;;
      Transpose_loop (up2 (x + 1) ((pEnd - (x + 1) + 1) / 2)) pl pair px py
        unratedRating threshold 0.

(** The ratings a score group is measured with. *)
Fixpoint median_groups (xs : list nat) (pl : PlayerVector) (pair : IndexVector)
    (sc : Q) (sg1 sg2 : list Z) : option (list Z * list Z) :=
  match xs with
  | [] => Some (sg1, sg2)
  | x :: xs' =>
      px ← at_pair pl pair x;
      py ← at_pair pl pair (x + 1);
      let sg1 :=
        if Qeqb (score px) sc && Qeqb (score py) sc && negb (is_bye px) && negb (is_bye py)
        then sg1 ++ [rating px; rating py] else sg1 in
      let sg2 := if negb (is_bye px) && negb (bye_request px) then sg2 ++ [rating px] else sg2 in
      let sg2 := if negb (is_bye py) && negb (bye_request py) then sg2 ++ [rating py] else sg2 in
      median_groups xs' pl pair sc sg1 sg2
  end.

(** The middle of a sorted vector; the lower of the two middle values
    for an even size. *)
Definition lower_median (sg : list Z) : option Z :=
  let sg := sort_Z sg in
  let n := length sg in
  if (n mod 2 =? 1)%nat then sg !! (n / 2)%nat
  else a ← sg !! (n / 2)%nat; b ← sg !! (n / 2 - 1)%nat; Some (Z.min a b).

(** The boards [pBegin, pBegin+2, ..., pEnd-2]. *)
Definition boards (pBegin pEnd : nat) : list nat := up2 pBegin ((pEnd - pBegin + 1) / 2).

Definition MedianRating (pl : PlayerVector) (pair : IndexVector) (sc : Q)
    (pBegin pEnd : nat) : option Z :=
  ASSERT ((pBegin mod 2 =? 0) && (pEnd mod 2 =? 0))%nat;;
  ASSERT ((pBegin <? pEnd) && (pEnd <=? length pair))%nat;;
  '(sg1, sg2) ← median_groups (boards pBegin pEnd) pl pair sc [] [];
  if (0 <? length sg1)%nat then lower_median sg1
  else if (0 <? length sg2)%nat then lower_median sg2
  else Some 0.

Fixpoint UnratedRating_loop (xs : list nat) (pl : PlayerVector) (pair : IndexVector)
    (sc : Q) (r : Z) : option Z :=
  match xs with
  | [] => Some r
  | x :: xs' =>
      px ← at_pair pl pair x;
      UnratedRating_loop xs' pl pair sc
        (if negb (is_bye px) && negb (bye_request px) && Qeqb (score px) sc
            && (rating px <? r) && (negb (is_unrated px) || negb (rated_section px))
         then rating px else r)
  end.

Definition UnratedRating (pl : PlayerVector) (pair : IndexVector) (sc : Q)
    (pBegin pEnd : nat) : option Z :=
  ASSERT ((pBegin mod 2 =? 0) && (pEnd mod 2 =? 0))%nat;;
  ASSERT ((pBegin <? pEnd) && (pEnd <=? length pair))%nat;;
  r ← UnratedRating_loop (seq pBegin (pEnd - pBegin)) pl pair sc MAX_RATING;
  Some (if r =? MAX_RATING then 0 else r).

Fixpoint HighestRating_loop (xs : list nat) (pl : PlayerVector) (pair : IndexVector)
    (sc : Q) (r : Z) : option Z :=
  match xs with
  | [] => Some r
  | x :: xs' =>
      px ← at_pair pl pair x;
      HighestRating_loop xs' pl pair sc
        (if negb (is_bye px) && negb (bye_request px) && Qeqb (score px) sc
            && (rating px >? r)
         then rating px else r)
  end.

Definition HighestRating (pl : PlayerVector) (pair : IndexVector) (sc : Q)
    (pBegin pEnd : nat) : option Z :=
  ASSERT ((pBegin mod 2 =? 0) && (pEnd mod 2 =? 0))%nat;;
  ASSERT ((pBegin <? pEnd) && (pEnd <=? length pair))%nat;;
  HighestRating_loop (seq pBegin (pEnd - pBegin)) pl pair sc 0.

(** ** The pairable lookahead *)

Definition GridElem : Type := list Z.
Definition PairGrid : Type := list GridElem.
Definition ByeGrid : Type := list GridElem.

Definition grid_at (g : PairGrid) (r c : nat) : option Z := row ← g !! r; row !! c.

Definition grid_set (g : PairGrid) (r c : nat) (v : Z) : option PairGrid :=
  row ← g !! r; _ ← row !! c; Some (<[r := <[c := v]> row]> g).

(** The copy made before the next round: played pairings of the upper
    triangle move to the lower triangle, and the upper triangle is cleared. *)
Definition next_round_grid (grid : PairGrid) (rounds : Z) : option PairGrid :=
  let n := length grid in
  mapM (λ y,
    mapM (λ x,
      if (y <? x)%nat then Some 0
      else
        old ← grid_at grid y x;
        if (x <? y)%nat then
          up ← grid_at grid x y; Some (if up =? 0 then old else rounds)
        else Some old) (seq 0 n)) (seq 0 n).

(** [for (int z = 0; z < row; ++z) if (grid[z][col] || grid[z][row]) goto nextCol]. *)
Fixpoint column_taken (zs : list nat) (grid : PairGrid) (row col : nat) : option bool :=
  match zs with
  | [] => Some false
  | z :: zs' =>
      a ← grid_at grid z col;
      if negb (a =? 0) then Some true
      else b ← grid_at grid z row;
           if negb (b =? 0) then Some true else column_taken zs' grid row col
  end.

Section Pairable.
(** [Pairable(newGrid, rounds-1, bye)], the search of the next round. *)
Variable next_round : PairGrid → option (bool * PairGrid).
Variable rounds : Z.
Variable bye : ByeGrid.

(** The row loop of the five-argument [Pairable], from [row]; [k] bounds
      the rows left, [players - row]. *)
Fixpoint Pairable_rows (k : nat) (grid : PairGrid) (row end_ : nat)
      : option (bool * PairGrid) :=
    let nplayers := length grid in
    match k with
    | O => Some (false, grid)
    | S k' =>
        if negb ((row <? end_)%nat && (row <? nplayers)%nat) then Some (false, grid)
        else
          b ← grid_at bye row (Z.to_nat (rounds - 1));
          if negb (b =? 0) then Pairable_rows k' grid (row + 1) end_
          else
            (fix cols (m col : nat) (grid : PairGrid) : option (bool * PairGrid) :=
               match m with
               | O => Pairable_rows k' grid (row + 1) end_
               | S m' =>
                   if negb (col <? nplayers)%nat then Pairable_rows k' grid (row + 1) end_
                   else
                     bc ← grid_at bye col (Z.to_nat (rounds - 1));
                     if negb (bc =? 0) then cols m' (col + 1)%nat grid
                     else
                       g1 ← grid_at grid row col;
                       g2 ← (if negb (g1 =? 0) then Some 1 else grid_at grid col row);
                       if negb (g2 =? 0) then cols m' (col + 1)%nat grid
                       else
                         taken ← column_taken (seq 0 row) grid row col;
                         if (taken : bool) then cols m' (col + 1)%nat grid
                         else
                           grid ← grid_set grid row col rounds;
                           r ← (if (nplayers <=? end_)%nat then
                                  if rounds <=? 1 then Some (true, grid)
                                  else
                                    newGrid ← next_round_grid grid rounds;
                                    '(isFound, newGrid) ← next_round newGrid;
                                    Some (if (isFound : bool) then (true, newGrid)
                                          else (false, grid))
                                else Pairable_rows k' grid (row + 1) (end_ + 1));
                           if (r.1 : bool) then Some r
                           else
                             grid ← grid_set r.2 row col 0;
                             cols m' (col + 1)%nat grid
               end) (nplayers - (row + 1))%nat (row + 1)%nat grid
    end.

(** [bool Pairable (PairGrid &grid, int rounds, const ByeGrid &bye,
      int begin, int end)]: the result and the grid left behind. *)
Definition Pairable5 (grid : PairGrid) (begin end_ : nat) : option (bool * PairGrid) :=
    let nplayers := length grid in
    if (nplayers <=? 1)%nat then Some (true, grid)
    else Pairable_rows (nplayers - begin) grid begin end_.
End Pairable.

(** [bool Pairable (PairGrid &grid, int rounds, const ByeGrid &bye)], by
    recursion on the number of rounds. *)
Fixpoint Pairable (rounds : nat) (bye : ByeGrid) (grid : PairGrid)
    : option (bool * PairGrid) :=
  match rounds with
  | O => Some (true, grid)
  | S rounds' =>
      let nplayers := length grid in
      byes ← foldr (λ x acc, s ← acc; b ← grid_at bye x rounds'; Some (s + Z.to_nat b)%nat)
                   (Some 0%nat) (seq 0 nplayers);
      Pairable5 (Pairable rounds' bye) (Z.of_nat rounds) bye grid 0
        (nplayers - (nplayers - byes) / 2 + 1)%nat
  end.

(** The scan of [IsOneTeamMajority] over the sorted team ids. *)
Fixpoint mode_scan (team : list Z) (mode next : Z) (modeCnt nextCnt : nat) : Z * nat :=
  match team with
  | [] => (mode, modeCnt)
  | t :: team' =>
      let '(next, nextCnt) := if t =? next then (next, S nextCnt) else (t, 1%nat) in
      let '(mode, modeCnt) :=
        if (modeCnt <? nextCnt)%nat then (next, nextCnt) else (mode, modeCnt) in
      mode_scan team' mode next modeCnt nextCnt
  end.

(** [bool IsOneTeamMajority (const PlayerVector &pl)]. *)
Definition IsOneTeamMajority (pl : PlayerVector) : option bool :=
  ASSERT ((0 <? length pl)%nat && from_option is_bye false (last pl));;
  ASSERT (forallb (λ p, negb (is_bye p)) (removelast pl));;
  let team := sort_Z (team_id <$> removelast pl) in
  let '(mode, modeCnt) := mode_scan team 0 0 0%nat 0%nat in
  Some (negb (mode =? 0) && (length team <=? 2 * modeCnt)%nat).

(** [pg.at(r2).at(r1) = -1] or [pg.at(r1).at(r2) = -1]: the lower triangle. *)
Definition mark_met (pg : PairGrid) (r1 r2 : nat) : option PairGrid :=
  if (r1 <? r2)%nat then grid_set pg r2 r1 (-1) else grid_set pg r1 r2 (-1).

(** The loops over [opponent_ranks] and [teammate_ranks]. *)
Fixpoint mark_ranks (rs : list Z) (num r1 : nat) (pg : PairGrid) : option PairGrid :=
  match rs with
  | [] => Some pg
  | r :: rs' =>
      let r2 := as_size_t r in
      if Z.of_nat num <=? r2 then mark_ranks rs' num r1 pg
      else pg ← mark_met pg r1 (Z.to_nat r2); mark_ranks rs' num r1 pg
  end.

(** The loop over [bye_rounds]. *)
Fixpoint mark_byes (bs : list Z) (rounds remainingRounds : Z) (r1 : nat)
    (bye : ByeGrid) : option ByeGrid :=
  match bs with
  | [] => Some bye
  | b :: bs' =>
      let rnd := as_size_t b in
      if rounds <? rnd then mark_byes bs' rounds remainingRounds r1 bye
      else if rounds - rnd <? remainingRounds then
        bye ← grid_set bye r1 (Z.to_nat (rounds - rnd)) 1;
        mark_byes bs' rounds remainingRounds r1 bye
      else mark_byes bs' rounds remainingRounds r1 bye
  end.

(** The loop over the players that fills the two grids. *)
Fixpoint fill_grids (ps : list Player) (num : nat) (rounds remainingRounds : Z)
    (isTeam : bool) (bye : ByeGrid) (pg : PairGrid) : option (ByeGrid * PairGrid) :=
  match ps with
  | [] => Some (bye, pg)
  | p :: ps' =>
      let r1 := as_size_t (rank p) in
      if Z.of_nat num <=? r1 then fill_grids ps' num rounds remainingRounds isTeam bye pg
      else
        let r1 := Z.to_nat r1 in
        bye ← mark_byes (bye_rounds p) rounds remainingRounds r1 bye;
        pg ← mark_ranks (opponent_ranks p) num r1 pg;
        pg ← (if isTeam then mark_ranks (teammate_ranks p) num r1 pg else Some pg);
        fill_grids ps' num rounds remainingRounds isTeam bye pg
  end.

(** The loop over the current pairings. *)
Fixpoint mark_pairs (ys : list nat) (pl : PlayerVector) (pair : IndexVector)
    (pg : PairGrid) : option PairGrid :=
  match ys with
  | [] => Some pg
  | y :: ys' =>
      r1 ← pair !! y;
      r2 ← pair !! (y + 1)%nat;
      ASSERT (negb (r1 =? r2)%nat);;
      p1 ← pl !! r1;
      p2 ← (if is_bye p1 then Some p1 else pl !! r2);
      pg ← (if negb (is_bye p1) && negb (is_bye p2) then mark_met pg r1 r2 else Some pg);
      mark_pairs ys' pl pair pg
  end.

(** The conversion of [size_t remainingRounds] to the [int rounds] of
    [Pairable]. *)
Definition as_int (u : Z) : Z :=
  let w := u mod 2 ^ 32 in if w <? 2 ^ 31 then w else w - 2 ^ 32.

(** [CostValue PairableCost (char wCode, PlayerVector &pl,
    const IndexVector &pair, size_t remainingRounds, bool isTeam)]. *)
Definition PairableCost (pl : PlayerVector) (pair : IndexVector)
    (remainingRounds : Z) (isTeam : bool) : option Z :=
  if remainingRounds <=? 0 then Some 0
  else
    majority ← (if isTeam then IsOneTeamMajority pl else Some false);
    if (majority : bool) then Some 1
    else
      p0 ← pl !! 0%nat;
      let rounds := as_size_t (rnd p0 + remainingRounds) in
      let num := (length pl - 1)%nat in
      let bye := replicate num (replicate (Z.to_nat remainingRounds) 0) in
      let pg := imap (λ y row, <[y := -11]> row) (replicate num (replicate num 0)) in
      '(bye, pg) ← fill_grids (take num pl) num rounds remainingRounds isTeam bye pg;
      ASSERT (length pair mod 2 =? 0)%nat;;
      pg ← mark_pairs (boards 0 (length pair)) pl pair pg;
      '(isPairable, _) ← Pairable (Z.to_nat (as_int remainingRounds)) bye pg;
      Some (Z_of_bool (negb isPairable)).

(** ** Pairing cards and board annotations *)

Definition IndexSet : Type := gset nat.

(** [labs(pair[x] - pair[y])]. *)
Definition labs_diff (a b : nat) : Z := Z.abs (Z.of_nat a - Z.of_nat b).

(** The test shared by the two "transpose" blocks of [PairingCard]. *)
Definition card_transposed (p q : Player) : bool :=
  eqb (paired p) (paired q) && Qeqb (score p) (score q)
  && ((rating p =? rating q) || (rating p =? 0))
  && negb (is_bye p) && negb (is_bye q) && Qgtb (rand p) (rand q).

(** The inner loop of [PairingCard] over the boards [y] below board [x]. *)
Fixpoint PairingCard_inner (ys : list nat) (pl : PlayerVector) (pair : IndexVector)
    (x : nat) (num : Z) (costPlayers : IndexSet) : option (Z * IndexSet) :=
  match ys with
  | [] => Some (num, costPlayers)
  | y :: ys' =>
      rx ← pair !! x; ry ← pair !! y;
      px ← pl !! rx; py ← pl !! ry;
      let '(num, costPlayers) :=
        if card_transposed px py
        then (num + labs_diff rx ry, {[rx]} ∪ ({[ry]} ∪ costPlayers))
        else (num, costPlayers) in
      rx1 ← pair !! (x + 1)%nat; ry1 ← pair !! (y + 1)%nat;
      px1 ← pl !! rx1; py1 ← pl !! ry1;
      let '(num, costPlayers) :=
        if card_transposed px1 py1
        then (num + labs_diff rx1 ry1, {[rx1]} ∪ ({[ry1]} ∪ costPlayers))
        else (num, costPlayers) in
      PairingCard_inner ys' pl pair x num costPlayers
  end.

(** The outer loop of [PairingCard] over the boards [x]. *)
Fixpoint PairingCard_outer (xs : list nat) (pl : PlayerVector) (pair : IndexVector)
    (num : Z) (costPlayers : IndexSet) : option (Z * IndexSet) :=
  match xs with
  | [] => Some (num, costPlayers)
  | x :: xs' =>
      '(num, costPlayers) ←
        PairingCard_inner (boards (x + 2) (length pair)) pl pair x num costPlayers;
      ASSERT (x + 1 <? length pair)%nat;;
      rx ← pair !! x; rx1 ← pair !! (x + 1)%nat;
      px ← pl !! rx; px1 ← pl !! rx1;
      ASSERT (Qleb (score px1) (score px));;
      let isDropDown := negb (Qeqb (score px) (score px1)) || is_bye px1 in
      (* interchange: the comparison is with [pair[1]] *)
      r1 ← pair !! 1%nat; p1 ← pl !! r1;
      let '(num, costPlayers) :=
        if negb isDropDown
           && eqb (paired px) (paired p1) && Qeqb (score px) (score p1)
           && (rating px =? rating p1)
           && ((rating px =? rating p1) || (rating p1 =? 0))
           && negb (is_bye px) && negb (is_bye p1) && Qgtb (rand px) (rand p1)
        then (num + labs_diff rx r1, {[rx]} ∪ ({[r1]} ∪ costPlayers))
        else (num, costPlayers) in
      (* dropdown *)
      '(num, costPlayers) ←
        (if isDropDown && (0 <? x)%nat then
           rp ← pair !! (x - 1)%nat; pp ← pl !! rp;
           Some (if eqb (paired px) (paired pp) && Qeqb (score px) (score pp)
                    && (rating px =? rating pp)
                    && ((rating px =? rating pp) || (rating pp =? 0))
                    && negb (is_bye px) && negb (is_bye pp) && Qltb (rand px) (rand pp)
                 then (num + labs_diff rx rp, {[rx]} ∪ ({[rp]} ∪ costPlayers))
                 else (num, costPlayers))
         else Some (num, costPlayers));
      PairingCard_outer xs' pl pair num costPlayers
  end.

(** [size_t PairingCard (char wCode, PlayerVector &pl,
    const IndexVector &pair, IndexSet &costPlayers)]. *)
Definition PairingCard (pl : PlayerVector) (pair : IndexVector)
    (costPlayers : IndexSet) : option (Z * IndexSet) :=
  PairingCard_outer (boards 0 (length pair)) pl pair 0 costPlayers.

Definition ReversedColors (x y : Player) (xColor : ascii) : Z :=
  Z_of_bool (negb (Ascii.eqb (board_color x) xColor) && Ascii.eqb xColor "W").

Definition same_entry (x p : Player) : bool :=
  (play_id x =? play_id p) && (reentry x =? reentry p).

Fixpoint BoardOverlap_loop (zs : list nat) (pl : PlayerVector) (pair : IndexVector)
    (x : Player) (cv : Z) : option Z :=
  match zs with
  | [] => Some cv
  | z :: zs' =>
      pz1 ← at_pair pl pair (z + 1);
      if is_bye pz1 then BoardOverlap_loop zs' pl pair x cv
      else
        pz ← at_pair pl pair z;
        if same_entry x pz || same_entry x pz1 then BoardOverlap_loop zs' pl pair x cv
        else BoardOverlap_loop zs' pl pair x
               (if board_num x =? board_num pz then cv + 1 else cv)
  end.

Definition BoardOverlap (pl : PlayerVector) (pair : IndexVector) (x y : Player) : option Z :=
  if rank x <? rank y then BoardOverlap_loop (boards 0 (length pair)) pl pair x 0
  else Some 0.

Definition BoardOrder (pl : PlayerVector) (pair : IndexVector) (px py : Player)
    (x y pBegin pEnd : nat) : option Z :=
  ASSERT (Z.abs (Z.of_nat x - Z.of_nat y) =? 1);;
  let w := Nat.min x y in
  Player_less px py ≫= λ lt : bool,
  if lt && negb (is_bye px) && negb (is_bye py)
     && (pBegin + 2 <=? w)%nat && (w <? pEnd)%nat
  then
    pz2 ← at_pair pl pair (w - 2);
    pz1 ← at_pair pl pair (w - 1);
    let m := Z.min (board_num px) (board_num py) in
    Some (Z_of_bool ((board_num pz2 >? m) && (board_num pz1 >? m)
                     && eqb (paired pz1) (paired py) && eqb (paired pz2) (paired py)
                     && negb (is_bye pz1) && negb (is_bye pz2)))
  else Some 0.

(** ** The cost function *)

(** Field-wise sum of two records ([c.field += value] for every field);
    [players] is the one of the first record. *)
Definition Cost_plus (c d : Cost) : Cost :=
  mkCost (byeChoice c + byeChoice d) (byeAgain c + byeAgain d)
    (playersMeetTwice c + playersMeetTwice d) (cantPairPlayers c + cantPairPlayers d)
    (teamBlocks2 c + teamBlocks2 d) (unequalScores c + unequalScores d)
    (teamBlocks c + teamBlocks d) (cantPairTeams c + cantPairTeams d)
    (byeAfterHalf c + byeAfterHalf d) (lowestScoreBye c + lowestScoreBye d)
    (lowestRatedBye c + lowestRatedBye d) (oddPlayerUnrated c + oddPlayerUnrated d)
    (oddPlayerMultipleGroups c + oddPlayerMultipleGroups d)
    (interchange200 c + interchange200 d) (transpose200 c + transpose200 d)
    (colorImbalance c + colorImbalance d) (colorRepeat3 c + colorRepeat3 d)
    (interchange80 c + interchange80 d) (transpose80 c + transpose80 d)
    (colorAlternate c + colorAlternate d) (interchange0 c + interchange0 d)
    (transpose0 c + transpose0 d) (pairingCard c + pairingCard d)
    (reversedColors c + reversedColors d) (boardOverlap c + boardOverlap d)
    (boardOrder c + boardOrder d) (players c).

(** What one board adds to each field, in the order of the statements of
    the main loop of [CostFunction]. *)
Definition board_cost (pl : PlayerVector) (pair : IndexVector) (remainingRounds : Z)
    (pBegin pEnd : nat) (doCodes : bool) (lowestScore : Q) (x : nat)
    (px py : Player) (xColor : ascii) (mx my ux uy hx hy : Z) : option Cost :=
  let n := length pl in
  let yColor := FlipColor xColor in
  let odd := Z.rem (multiround px) 2 =? 1 in
  im1 ← IdenticalMatch px py n xColor;
  im2 ← IdenticalMatch py px n yColor;
  let interchange t := Interchange px py n mx hx ux t + Interchange py px n my hy uy t in
  let transpose t :=
    a ← Transpose pl pair x (x + 1) ux t pBegin pEnd;
    b ← Transpose pl pair (x + 1) x uy t pBegin pEnd;
    Some (a + b) in
  t200 ← transpose 200;
  t80 ← transpose 80;
  t0 ← transpose 0;
  '(overlap, order) ←
    (if doCodes then
       o1 ← BoardOverlap pl pair px py;
       o2 ← BoardOverlap pl pair py px;
       b1 ← BoardOrder pl pair px py x (x + 1) pBegin pEnd;
       b2 ← BoardOrder pl pair py px (x + 1) x pBegin pEnd;
       Some (o1 + o2, b1 + b2)
     else Some (0, 0));
  Some (mkCost
    (ByeChoice px py + ByeChoice py px)
    (ByeAgain px py n + ByeAgain py px n)
    (im1 + im2 + (PlayersMeetTwice px py n + PlayersMeetTwice py px n))
    0
    0
    (UnequalScores px py n remainingRounds + UnequalScores py px n remainingRounds)
    (TeamBlocks px py n + TeamBlocks py px n)
    0
    (ByeAfterHalf px py n + ByeAfterHalf py px n)
    (LowestScoreBye px py n lowestScore + LowestScoreBye py px n lowestScore)
    (LowestRatedBye px py remainingRounds + LowestRatedBye py px remainingRounds)
    (OddPlayerUnrated px py + OddPlayerUnrated py px)
    (OddPlayerMultipleGroups px py n + OddPlayerMultipleGroups py px n)
    (interchange 200)
    t200
    (if odd then ColorImbalance px py xColor + ColorImbalance py px yColor else 0)
    (if odd then ColorRepeat3 px py xColor + ColorRepeat3 py px yColor else 0)
    (interchange 80)
    t80
    (if odd then ColorAlternate px py xColor + ColorAlternate py px yColor else 0)
    (interchange 0)
    t0
    0
    (if doCodes then ReversedColors px py xColor + ReversedColors py px yColor else 0)
    overlap
    order
    0).

(** The loop variables of [CostFunction] that outlive one board. *)
Record CostState := mkCostState {
  cs_cost : Cost;
  cs_lastScore : Q;
  cs_lastMedian : Z;
  cs_lastUnrated : Z;
  cs_isHousePlayer : bool;
  cs_costPlayers : IndexSet
}.

(** [lastHighest] is initialised to 0 and never assigned. *)
Definition lastHighest : Z := 0.

(** The value of a score group: cached for the score of the last board,
    shared between the two players of a board, computed otherwise. *)
Definition group_value (f : Q → option Z) (last : Z) (lastScore : Q)
    (px py : Player) : option (Z * Z) :=
  vx ← (if Qeqb (score px) lastScore then Some last else f (score px));
  vy ← (if Qeqb (score py) lastScore then Some last
        else if Qeqb (score py) (score px) then Some vx else f (score py));
  Some (vx, vy).

(** The main loop of [CostFunction] over the boards [x]. *)
Fixpoint CostFunction_loop (xs : list nat) (pl : PlayerVector) (pair : IndexVector)
    (remainingRounds : Z) (pBegin pEnd : nat) (doCodes : bool) (lowestScore : Q)
    (st : CostState) : option CostState :=
  match xs with
  | [] => Some st
  | x :: xs' =>
      let lastC := cs_cost st in
      rx ← pair !! x; ry ← pair !! (x + 1)%nat;
      px ← pl !! rx; py ← pl !! ry;
      let isHousePlayer := cs_isHousePlayer st || bye_house px || bye_house py in
      xColor ← AllocateColor px py ((x / 2) mod 2 =? 0)%nat;
      let lastScore := cs_lastScore st in
      '(mx, my) ← group_value (λ sc, MedianRating pl pair sc pBegin pEnd)
                     (cs_lastMedian st) lastScore px py;
      '(ux, uy) ← group_value (λ sc, UnratedRating pl pair sc pBegin pEnd)
                     (cs_lastUnrated st) lastScore px py;
      '(hx, hy) ← group_value (λ sc, HighestRating pl pair sc pBegin pEnd)
                     lastHighest lastScore px py;
      let '(lastScore', lastMedian', lastUnrated') :=
        if negb (Qeqb lastScore (score px)) then (score px, mx, ux)
        else (lastScore, cs_lastMedian st, cs_lastUnrated st) in
      d ← board_cost pl pair remainingRounds pBegin pEnd doCodes lowestScore x
            px py xColor mx my ux uy hx hy;
      let c := Cost_plus lastC d in
      let costPlayers :=
        if Cost_ne c lastC then
          if (x + 1 <? pEnd)%nat then {[ry]} ∪ ({[rx]} ∪ cs_costPlayers st)
          else {[rx]} ∪ cs_costPlayers st
        else cs_costPlayers st in
      CostFunction_loop xs' pl pair remainingRounds pBegin pEnd doCodes lowestScore
        (mkCostState c lastScore' lastMedian' lastUnrated' isHousePlayer costPlayers)
  end.

(** [while (pBegin < pEnd && ...) pEnd -= 2]: the granted bye requests at
    the end of the range are not evaluated. *)
Fixpoint skip_granted_byes (fuel : nat) (pl : PlayerVector) (pair : IndexVector)
    (pBegin pEnd : nat) : option nat :=
  match fuel with
  | O => Some pEnd
  | S fuel' =>
      if (pBegin <? pEnd)%nat then
        p1 ← at_pair pl pair (pEnd - 1);
        if is_bye p1 then
          p2 ← at_pair pl pair (pEnd - 2);
          if bye_request p2 || bye_house p2
          then skip_granted_byes fuel' pl pair pBegin (pEnd - 2)
          else Some pEnd
        else Some pEnd
      else Some pEnd
  end.

(** The loop that finds the lowest score of the range. *)
Fixpoint lowest_score (xs : list nat) (pl : PlayerVector) (pair : IndexVector)
    (lowestScore : Q) : option Q :=
  match xs with
  | [] => Some lowestScore
  | x :: xs' =>
      px ← at_pair pl pair x; py ← at_pair pl pair (x + 1);
      let l := if Qgtb lowestScore (score px) then score px else lowestScore in
      let l := if Qgtb l (score py) then score py else l in
      lowest_score xs' pl pair l
  end.

(** [ASSERT(x == 0 || pl[x-1] < pl[x])] for every [x]. *)
Fixpoint assert_sorted (pl : PlayerVector) : option unit :=
  match pl with
  | a :: (b :: _) as pl' =>
      Player_less a b ≫= λ lt : bool, ASSERT lt;; assert_sorted pl'
  | _ => Some tt
  end.

(** Assignments to single fields. *)
Definition set_byeChoice (c : Cost) (v : Z) : Cost :=
  mkCost v (byeAgain c) (playersMeetTwice c) (cantPairPlayers c)
    (teamBlocks2 c) (unequalScores c) (teamBlocks c) (cantPairTeams c)
    (byeAfterHalf c) (lowestScoreBye c) (lowestRatedBye c)
    (oddPlayerUnrated c) (oddPlayerMultipleGroups c) (interchange200 c)
    (transpose200 c) (colorImbalance c) (colorRepeat3 c) (interchange80 c)
    (transpose80 c) (colorAlternate c) (interchange0 c) (transpose0 c)
    (pairingCard c) (reversedColors c) (boardOverlap c) (boardOrder c)
    (players c).

Definition set_cantPairPlayers (c : Cost) (v : Z) : Cost :=
  mkCost (byeChoice c) (byeAgain c) (playersMeetTwice c) v (teamBlocks2 c)
    (unequalScores c) (teamBlocks c) (cantPairTeams c) (byeAfterHalf c)
    (lowestScoreBye c) (lowestRatedBye c) (oddPlayerUnrated c)
    (oddPlayerMultipleGroups c) (interchange200 c) (transpose200 c)
    (colorImbalance c) (colorRepeat3 c) (interchange80 c) (transpose80 c)
    (colorAlternate c) (interchange0 c) (transpose0 c) (pairingCard c)
    (reversedColors c) (boardOverlap c) (boardOrder c) (players c).

Definition set_pairingCard (c : Cost) (v : Z) : Cost :=
  mkCost (byeChoice c) (byeAgain c) (playersMeetTwice c) (cantPairPlayers c)
    (teamBlocks2 c) (unequalScores c) (teamBlocks c) (cantPairTeams c)
    (byeAfterHalf c) (lowestScoreBye c) (lowestRatedBye c)
    (oddPlayerUnrated c) (oddPlayerMultipleGroups c) (interchange200 c)
    (transpose200 c) (colorImbalance c) (colorRepeat3 c) (interchange80 c)
    (transpose80 c) (colorAlternate c) (interchange0 c) (transpose0 c) v
    (reversedColors c) (boardOverlap c) (boardOrder c) (players c).

Definition set_players (c : Cost) (v : Z) : Cost :=
  mkCost (byeChoice c) (byeAgain c) (playersMeetTwice c) (cantPairPlayers c)
    (teamBlocks2 c) (unequalScores c) (teamBlocks c) (cantPairTeams c)
    (byeAfterHalf c) (lowestScoreBye c) (lowestRatedBye c)
    (oddPlayerUnrated c) (oddPlayerMultipleGroups c) (interchange200 c)
    (transpose200 c) (colorImbalance c) (colorRepeat3 c) (interchange80 c)
    (transpose80 c) (colorAlternate c) (interchange0 c) (transpose0 c)
    (pairingCard c) (reversedColors c) (boardOverlap c) (boardOrder c) v.

(** [Cost CostFunction (PlayerVector &pl, const IndexVector &pair,
    size_t remainingRounds, size_t pBegin, size_t pEnd, bool doCodes,
    const bool usePairableCost, IndexSet &costPlayers)]: the cost and the
    set left in [costPlayers]. *)
Definition CostFunction (pl : PlayerVector) (pair : IndexVector) (remainingRounds : Z)
    (pBegin pEnd : nat) (doCodes usePairableCost : bool) (costPlayers : IndexSet)
    : option (Cost * IndexSet) :=
  ASSERT (length pair mod 2 =? 0)%nat;;
  ASSERT ((1 <=? length pl)%nat && from_option is_bye false (last pl));;
  assert_sorted pl;;
  ASSERT ((pBegin mod 2 =? 0) && (pEnd mod 2 =? 0))%nat;;
  ASSERT ((pBegin <=? pEnd) && (pEnd <=? length pair))%nat;;
  pEnd ← skip_granted_byes pEnd pl pair pBegin pEnd;
  let c := set_players Cost_zero (Z.of_nat (length pl) - 1) in
  first ← (if (length pl <=? 0)%nat || (length pair <=? 0)%nat then Some 0%Q
           else score <$> at_pair pl pair 0);
  lowestScore ← lowest_score (boards pBegin pEnd) pl pair first;
  st ← CostFunction_loop (boards pBegin pEnd) pl pair remainingRounds pBegin pEnd
         doCodes lowestScore (mkCostState c (-1)%Q 0 0 false costPlayers);
  let c := cs_cost st in
  forced ← (if negb (cs_isHousePlayer st) && (0 <? pEnd)%nat then
              p1 ← at_pair pl pair (pEnd - 1);
              if is_bye p1 then
                p2 ← at_pair pl pair (pEnd - 2); Some (negb (bye_request p2))
              else Some false
            else Some false);
  let c := set_byeChoice c (byeChoice c - Z_of_bool forced) in
  c ← (if usePairableCost then
         v ← PairableCost pl pair remainingRounds false; Some (set_cantPairPlayers c v)
       else Some c);
  '(card, costPlayers) ← PairingCard pl pair (cs_costPlayers st);
  Some (set_pairingCard c card, costPlayers).

(** The overload without [costPlayers]. *)
Definition CostFunction' (pl : PlayerVector) (pair : IndexVector) (remainingRounds : Z)
    (pBegin pEnd : nat) (doCodes usePairableCost : bool) : option Cost :=
  fst <$> CostFunction pl pair remainingRounds pBegin pEnd doCodes usePairableCost ∅.

(** ** Pairing procedures *)

Local Open Scope nat_scope.

(** [void AssertNoDuplicates (const PlayerVector &pl, const IndexVector &pair)]. *)
Fixpoint no_duplicate_ids (ps : list Player) : bool :=
  match ps with
  | [] => true
  | p :: ps' =>
      forallb (λ q, negb (play_id p =? play_id q)%Z || is_bye p) ps'
      && no_duplicate_ids ps'
  end.

Definition AssertNoDuplicates (pl : PlayerVector) (pair : IndexVector) : option unit :=
  ps ← mapM (λ r, pl !! r) pair;
  ASSERT (no_duplicate_ids ps).

(** The test of [SortBoards] under which the insertion stops: board
    [(a, b)] stays before board [(c, d)]. *)
Definition boards_in_order (a b c d : Player) : option bool :=
  if bool_lt (paired a) (paired c) then Some true
  else if negb (eqb (paired a) (paired c)) then Some false
  else if bool_lt (is_bye b) (is_bye d) then Some true
  else if negb (eqb (is_bye b) (is_bye d)) then Some false
  else if bool_lt (bye_request a) (bye_request c) then Some true
  else if negb (eqb (bye_request a) (bye_request c)) then Some false
  else if Qgtb (score a) (score c) then Some true
  else if negb (Qeqb (score a) (score c)) then Some false
  else if Qgtb (score b) (score d) then Some true
  else if negb (Qeqb (score b) (score d)) then Some false
  else if (rating a >? rating c)%Z then Some true
  else if negb (rating a =? rating c)%Z then Some false
  else if (rating b >? rating d)%Z then Some true
  else if negb (rating b =? rating d)%Z then Some false
  else Player_leq a c.

(** [for (size_t y = x; y > 0; y -= 2)] with [y = 2 * k]. *)
Fixpoint SortBoards_insert (k : nat) (pl : PlayerVector) (pair : IndexVector)
    : option IndexVector :=
  match k with
  | O => Some pair
  | S k' =>
      let y := 2 * k in
      ra ← pair !! (y - 2); rb ← pair !! (y - 1);
      rc ← pair !! y; rd ← pair !! (y + 1);
      ASSERT (negb (rd =? rc) && negb (rd =? ra) && negb (rc =? rb)
              && negb (rc =? ra) && negb (rb =? ra));;
      a ← pl !! ra; b ← pl !! rb; c ← pl !! rc; d ← pl !! rd;
      ASSERT (negb (rd =? rb) || (is_bye d && is_bye b));;
      boards_in_order a b c d ≫= λ stop : bool,
      if stop then Some pair
      else
        ASSERT (negb (is_bye c) && negb (is_bye a));;
        pair ← swap pair y (y - 2);
        pair ← swap pair (y + 1) (y - 1);
        SortBoards_insert k' pl pair
  end.

(** The outer loop of [SortBoards] over the boards [x]. *)
Fixpoint SortBoards_loop (xs : list nat) (pl : PlayerVector) (pair : IndexVector)
    : option IndexVector :=
  match xs with
  | [] => Some pair
  | x :: xs' =>
      r ← pair !! x; r1 ← pair !! (x + 1);
      ASSERT ((r <? length pl) && (r1 <? length pl));;
      pair ← SortBoards_insert (x / 2) pl pair;
      SortBoards_loop xs' pl pair
  end.

(** [void SortBoards (const PlayerVector &pl, IndexVector &pair)]. *)
Definition SortBoards (pl : PlayerVector) (pair : IndexVector) : option IndexVector :=
  back ← last pl;
  ASSERT (is_bye back);;
  ASSERT (length pair mod 2 =? 0);;
  SortBoards_loop (boards 0 (length pair)) pl pair.

(** [ASSERT(pl[x].rank == integer(x))] for every [x]. *)
Definition assert_ranks (pl : PlayerVector) : option unit :=
  ASSERT (forallb (λ xp, (rank xp.2 =? Z.of_nat xp.1)%Z) (imap pair pl)).

(** [std::multimap<integer, size_t>::insert]: after the entries whose key
    is not greater. *)
Fixpoint multimap_insert (k : Z) (v : nat) (m : list (Z * nat)) : list (Z * nat) :=
  match m with
  | [] => [(k, v)]
  | e :: m' => if (k <? e.1)%Z then (k, v) :: m else e :: multimap_insert k v m'
  end.

(** The three vectors [HintPairings] fills: the preserved pairings, the
    orphans that need pairing, and the boards that are kept apart. *)
Record Hint := mkHint { h_pair : IndexVector; h_single : IndexVector; h_other : IndexVector }.

(** "service only p1". *)
Definition hint_single (h : Hint) (p1 : Player) (byeIndex : nat) (collapseByes : bool) : Hint :=
  if paired p1 || bye_request p1 || negb collapseByes
  then mkHint (h_pair h) (h_single h) (h_other h ++ [Z.to_nat (rank p1); byeIndex])
  else mkHint (h_pair h) (h_single h ++ [Z.to_nat (rank p1)]) (h_other h).

(** The loop of [HintPairings] over the map, in key order. *)
Fixpoint hint_loop (m : list (Z * nat)) (pl : PlayerVector) (byeIndex : nat)
    (collapseByes : bool) (h : Hint) : option Hint :=
  match m with
  | [] => Some h
  | e1 :: m' =>
      p1 ← pl !! e1.2;
      match m' with
      | [] => Some (hint_single h p1 byeIndex collapseByes)
      | e2 :: rest =>
          p2 ← pl !! e2.2;
          if negb (board_num p2 =? board_num p1)%Z || negb (eqb (paired p2) (paired p1))
             || (negb (paired p1) && (bye_request p1 || bye_request p2))
          then hint_loop m' pl byeIndex collapseByes (hint_single h p1 byeIndex collapseByes)
          else
            let both := [Z.to_nat (rank p1); Z.to_nat (rank p2)] in
            hint_loop rest pl byeIndex collapseByes
              (if paired p1 then mkHint (h_pair h) (h_single h) (h_other h ++ both)
               else mkHint (h_pair h ++ both) (h_single h) (h_other h))
      end
  end.

(** [if (pl[pair[x]].rank > pl[pair[x+1]].rank) swap(pair[x], pair[x+1])]
    for every board. *)
Fixpoint order_boards_by_rank (xs : list nat) (pl : PlayerVector) (pair : IndexVector)
    : option IndexVector :=
  match xs with
  | [] => Some pair
  | x :: xs' =>
      p ← at_pair pl pair x; q ← at_pair pl pair (x + 1);
      pair ← (if (rank p >? rank q)%Z then swap pair x (x + 1) else Some pair);
      order_boards_by_rank xs' pl pair
  end.

(** [void HintPairings (const PlayerVector &pl, IndexVector &pair,
    bool collapseByes)]: the vector left in [pair]. *)
Definition HintPairings (pl : PlayerVector) (collapseByes : bool) : option IndexVector :=
  ASSERT ((0 <? length pl) && from_option is_bye false (last pl));;
  assert_sorted pl;;
  assert_ranks pl;;
  let m := foldl (λ m xp, if negb (board_num xp.2 =? -1)%Z
                          then multimap_insert (board_num xp.2) xp.1 m else m)
                 [] (imap pair (removelast pl)) in
  let byeIndex := length pl - 1 in
  h ← hint_loop m pl byeIndex collapseByes (mkHint [] [] []);
  let pair := h_pair h ++ h_single h in
  let pair := if negb (length pair mod 2 =? 0) then pair ++ [byeIndex] else pair in
  let pair := pair ++ h_other h in
  pair ← order_boards_by_rank (boards 0 (length pair)) pl pair;
  SortBoards pl pair.

(** [pair[i] = v]. *)
Definition set_at (pair : IndexVector) (i v : nat) : option IndexVector :=
  if i <? length pair then Some (<[i := v]> pair) else None.

(** The end of the score group that starts at [x]: the first [y > x] with
    [y >= players] or [pl[y].score != scoreGroup]. *)
Fixpoint group_end (fuel : nat) (pl : PlayerVector) (nplayers : nat) (scoreGroup : Q)
    (y : nat) : option nat :=
  match fuel with
  | O => None
  | S fuel' =>
      if nplayers <=? y then Some y
      else p ← pl !! y;
           if negb (Qeqb (score p) scoreGroup) then Some y
           else group_end fuel' pl nplayers scoreGroup (y + 1)
  end.

(** [pair[x+z] = upper; pair[x+z+1] = lower] for [z = 0, 2, ...]. *)
Fixpoint pair_halves (zs : list nat) (x n : nat) (pair : IndexVector) : option IndexVector :=
  match zs with
  | [] => Some pair
  | z :: zs' =>
      let upper := x + z / 2 in
      let lower := x + n / 2 + z / 2 in
      pair ← set_at pair (x + z) upper;
      pair ← set_at pair (x + z + 1) lower;
      pair_halves zs' x n pair
  end.

(** The loop of [FirstPairings] over the score groups; [num] is the
    vector of group sizes indexed by twice the score. *)
Fixpoint FirstPairings_loop (fuel : nat) (pl : PlayerVector) (nplayers : nat)
    (x : nat) (num : list nat) (pair : IndexVector) : option IndexVector :=
  match fuel with
  | O => None
  | S fuel' =>
      if negb (x <? nplayers) then Some pair
      else
        AssertNoDuplicates pl pair;;
        ASSERT (x mod 2 =? 0);;
        px ← pl !! x;
        let scoreGroup := score px in
        let idx := Z.to_nat (Qtrunc (2 * scoreGroup)) in
        y ← group_end (S nplayers) pl nplayers scoreGroup (x + 1);
        old ← num !! idx;
        let n := old + (y - x) in
        let num := <[idx := n]> num in
        ASSERT (n =? y - x);;
        pair ← pair_halves (up2 0 (n / 2)) x n pair;
        AssertNoDuplicates pl pair;;
        if n mod 2 =? 0 then FirstPairings_loop fuel' pl nplayers y num pair
        else if y <? nplayers then
          pair ← set_at pair (y - 1) (y - 1);
          pair ← set_at pair y y;
          FirstPairings_loop fuel' pl nplayers (y + 1) num pair
        else
          pair ← set_at pair (y - 1) (y - 1);
          ASSERT (y <? length pl);;
          pb ← at_pair pl pair y;
          ASSERT (is_bye pb);;
          FirstPairings_loop fuel' pl nplayers y num pair
  end.

(** [void FirstPairings (PlayerVector &pl, IndexVector &pair,
    size_t players, smallint totalRounds)]; [ColorLookahead] changes
    nothing and is left out. *)
Definition FirstPairings (pl : PlayerVector) (pair : IndexVector) (nplayers : nat)
    : option IndexVector :=
  ASSERT (nplayers <=? length pair);;
  ps ← mapM (λ r, pl !! r) (take nplayers pair);
  ASSERT (forallb (λ p, negb (is_bye p)) ps);;
  let pair := sort_nat (take nplayers pair) ++ drop nplayers pair in
  AssertNoDuplicates pl pair;;
  odd ← (if nplayers mod 2 =? 0 then Some true
         else if nplayers <? length pair then is_bye <$> at_pair pl pair nplayers
         else Some false);
  ASSERT odd;;
  let size := match pl with [] => 0 | p0 :: _ => Z.to_nat (Qtrunc (2 * score p0 + 1)) end in
  FirstPairings_loop (S nplayers) pl nplayers 0 (replicate size 0) pair.

Local Close Scope nat_scope.

(** ** Rotations *)

Local Open Scope nat_scope.

Definition BoolVector : Type := list bool.

(** The loop counters [hi, hi-2, hi-4, ...] (at most [n] of them). *)
Fixpoint down2 (hi n : nat) : list nat :=
  match n with O => [] | S n' => hi :: down2 (hi - 2) n' end.

Definition nat_of_bool (b : bool) : nat := if b then 1 else 0.

(** [swap(pair[a+shift[a]], pair[b+shift[b]])]. *)
Definition swap_shift (shift : BoolVector) (pair : IndexVector) (a b : nat)
    : option IndexVector :=
  sa ← shift !! a; sb ← shift !! b;
  swap pair (a + nat_of_bool sa) (b + nat_of_bool sb).

(** [for (z = lo; z+2 <= hi; z += 2) swap(pair[z+shift[z]], pair[z+2+shift[z+2]])]. *)
Definition rotate_up_to (shift : BoolVector) (lo hi : nat) (pair : IndexVector)
    : option IndexVector :=
  foldlM (λ pair z, swap_shift shift pair z (z + 2)) pair (up2 lo ((hi - lo) / 2)).

(** [for (z = hi; z >= lo+2; z -= 2) swap(pair[z+shift[z]], pair[z-2+shift[z-2]])]. *)
Definition rotate_down_to (shift : BoolVector) (hi lo : nat) (pair : IndexVector)
    : option IndexVector :=
  foldlM (λ pair z, swap_shift shift pair z (z - 2)) pair (down2 hi ((hi - lo) / 2)).

(** [void RotatePairDown (IndexVector &pair, size_t x, size_t y,
    size_t pBegin, size_t pEnd, bool oddDropDown, bool oddPullUp,
    const BoolVector &shift)]. *)
Definition RotatePairDown (pair : IndexVector) (x y pBegin pEnd : nat)
    (oddDropDown oddPullUp : bool) (shift : BoolVector) : option IndexVector :=
  ASSERT ((pBegin mod 2 =? 0) && (pBegin <=? x) && (x <? y) && (y <=? pEnd)
          && (pEnd mod 2 =? 0));;
  '(y, pEnd) ←
    (if oddDropDown then
       ASSERT ((y mod 2 =? 0) && (y + 2 =? pEnd));; Some (y - 1, pEnd - 2)
     else Some (y, pEnd));
  '(x, pBegin, pair) ←
    (if oddPullUp then
       ASSERT ((x mod 2 =? 1) && (x =? pBegin + 1));;
       pair ← swap pair x (x + 1);
       Some (x + 1, pBegin + 2, pair)
     else Some (x, pBegin, pair));
  ASSERT ((pBegin mod 2 =? 0) && (pBegin <=? x) && (x <=? y) && (y <=? pEnd)
          && (pEnd mod 2 =? 0));;
  pair ←
    (if x mod 2 =? 0 then
       if y mod 2 =? 0 then rotate_up_to shift x y pair
       else
         pair ← rotate_up_to shift x (pEnd - 1) pair;
         pair ← swap pair (pEnd - 2) (pBegin + 1);
         rotate_up_to shift (pBegin + 1) y pair
     else
       if y mod 2 =? 0 then
         pair ← rotate_up_to shift y (pEnd - 1) pair;
         pair ← swap pair (pEnd - 2) (pBegin + 1);
         rotate_up_to shift (pBegin + 1) x pair
       else rotate_up_to shift x y pair);
  if oddDropDown then swap pair y (y + 1) else Some pair.

(** [void RotatePairUp (...)], same parameters. *)
Definition RotatePairUp (pair : IndexVector) (x y pBegin pEnd : nat)
    (oddDropDown oddPullUp : bool) (shift : BoolVector) : option IndexVector :=
  ASSERT ((pBegin mod 2 =? 0) && (pBegin <=? x) && (x <? y) && (y <=? pEnd)
          && (pEnd mod 2 =? 0));;
  '(y, pEnd, pair) ←
    (if oddDropDown then
       ASSERT ((y mod 2 =? 0) && (y + 2 =? pEnd));;
       pair ← swap pair y (y - 1);
       Some (y - 1, pEnd - 2, pair)
     else Some (y, pEnd, pair));
  '(x, pBegin) ←
    (if oddPullUp then
       ASSERT ((x mod 2 =? 1) && (x =? pBegin + 1));; Some (x + 1, pBegin + 2)
     else Some (x, pBegin));
  ASSERT ((pBegin mod 2 =? 0) && (pBegin <=? x) && (x <=? y) && (y <=? pEnd)
          && (pEnd mod 2 =? 0));;
  pair ←
    (if x mod 2 =? 0 then
       if y mod 2 =? 0 then rotate_down_to shift y x pair
       else
         pair ← rotate_down_to shift y pBegin pair;
         pair ← swap pair (pBegin + 1) (pEnd - 2);
         rotate_down_to shift (pEnd - 2) x pair
     else
       if y mod 2 =? 0 then
         pair ← rotate_down_to shift x pBegin pair;
         pair ← swap pair (pBegin + 1) (pEnd - 2);
         rotate_down_to shift (pEnd - 2) y pair
       else rotate_down_to shift y x pair);
  if oddPullUp then swap pair x (x - 1) else Some pair.

(** [OPP(v)]: the other player of the board of slot [v]. *)
Definition OPP (pl : PlayerVector) (pair : IndexVector) (v : nat) : option Player :=
  if v mod 2 =? 0 then at_pair pl pair (v + 1)
  else if 0 <? v then at_pair pl pair (v - 1) else None.

(** [COLOR(v)]: the color expected at slot [v]. *)
Definition COLOR (pl : PlayerVector) (pair : IndexVector) (isFlipX : bool) (v : nat)
    : option ascii :=
  pv ← at_pair pl pair v;
  if negb (Ascii.eqb (char0 (due_color pv)) "x") then Some (toupper (char0 (due_color pv)))
  else
    po ← OPP pl pair v;
    Some (toupper
      (if Ascii.eqb (char0 (due_color po)) "x" then (if v mod 2 =? 0 then "W"%char else "B"%char)
       else if isFlipX then char0 (due_color po)
       else FlipColor (char0 (due_color po)))).

(** [for (top = x/2*2+2; top < y/2*2 && COLOR(top) == xColor; top += 2)]. *)
Fixpoint find_color_change (fuel : nat) (pl : PlayerVector) (pair : IndexVector)
    (isFlipX : bool) (xColor : ascii) (y top : nat) : option nat :=
  match fuel with
  | O => None
  | S fuel' =>
      if negb (top <? y / 2 * 2) then Some top
      else
        c ← COLOR pl pair isFlipX top;
        if Ascii.eqb c xColor
        then find_color_change fuel' pl pair isFlipX xColor y (top + 2)
        else Some top
  end.

(** [for (size_t z = top; ; z -= 2)] of the first half of [RotateColor]. *)
Fixpoint pull_to_top (fuel : nat) (pair : IndexVector) (x z : nat) : option IndexVector :=
  match fuel with
  | O => None
  | S fuel' =>
      if (z =? x) || (z + 1 =? x) then swap pair x (z + 2)
      else
        pair ← swap pair z (z + 2);
        if z <? 2 then None else pull_to_top fuel' pair x (z - 2)
  end.

(** [for (size_t z = w + 2; z < y; z += 2)] of the second half. *)
Fixpoint color_walk_down (zs : list nat) (pl : PlayerVector) (isFlipX : bool)
    (yColor : ascii) (pBegin pEnd : nat) (pair : IndexVector) (w : nat)
    : option (IndexVector * nat) :=
  match zs with
  | [] => Some (pair, w)
  | z :: zs' =>
      ASSERT ((pBegin <=? z - 2) && (z - 2 <=? pEnd));;
      c ← COLOR pl pair isFlipX z;
      if Ascii.eqb c yColor then
        pair ← swap pair w z;
        color_walk_down zs' pl isFlipX yColor pBegin pEnd pair z
      else color_walk_down zs' pl isFlipX yColor pBegin pEnd pair w
  end.

(** [for (size_t z = w + 1; z > top+2; z -= 2)] of the second half. *)
Fixpoint color_walk_up (zs : list nat) (pl : PlayerVector) (isFlipX : bool)
    (xColor : ascii) (pBegin pEnd : nat) (pair : IndexVector) (w : nat)
    : option (IndexVector * nat) :=
  match zs with
  | [] => Some (pair, w)
  | z :: zs' =>
      ASSERT ((pBegin <=? z) && (z <=? pEnd));;
      c ← COLOR pl pair isFlipX (z - 2);
      if Ascii.eqb c xColor then
        pair ← swap pair w (z - 2);
        color_walk_up zs' pl isFlipX xColor pBegin pEnd pair (z - 2)
      else color_walk_up zs' pl isFlipX xColor pBegin pEnd pair w
  end.

(** [bool RotateColor (const PlayerVector &pl, IndexVector &pair, size_t x,
    size_t y, size_t pBegin, size_t pEnd, bool oddDropDown, bool oddPullUp)]:
    whether the vector changed, and the vector left in [pair]. *)
Definition RotateColor (pl : PlayerVector) (pair : IndexVector) (x y pBegin pEnd : nat)
    (oddDropDown oddPullUp : bool) : option (bool * IndexVector) :=
  if y / 2 <=? x / 2 + 1 then Some (false, pair)
  else
    px ← at_pair pl pair x; py ← at_pair pl pair y;
    if negb (Qeqb (score px) (score py)) then Some (false, pair)
    else
      let dx := char0 (due_color px) in
      let dy := char0 (due_color py) in
      let xColor := toupper (if Ascii.eqb dx "x" then FlipColor dy else dx) in
      let yColor := toupper (if Ascii.eqb dy "x" then FlipColor dx else dy) in
      if Ascii.eqb xColor yColor then Some (false, pair)
      else
        ASSERT (negb (Ascii.eqb xColor "X") && negb (Ascii.eqb yColor "X"));;
        let isFlipX := Ascii.eqb xColor (toupper dx) && Ascii.eqb yColor (toupper dy) in
        first ←
          (if oddPullUp || (x mod 2 =? 0) then
             ox ← (if oddPullUp then OPP pl pair x else Some px);
             ASSERT (negb oddPullUp || Qgtb (score ox) (score px));;
             top ← find_color_change (S (length pair)) pl pair isFlipX xColor y (x / 2 * 2 + 2);
             if negb (top <? y / 2 * 2) then Some None
             else pair ← pull_to_top (S (length pair)) pair x top; Some (Some (pair, top + 1))
           else Some (Some (pair, x)));
        match first with
        | None => Some (false, pair)
        | Some first =>
            let pair := first.1 in
            let top := first.2 in
            ASSERT (top mod 2 =? 1);;
            pair ←
              (if oddDropDown || (y mod 2 =? 0) then
                 '(pair, w) ← color_walk_down (up2 (top + 2) ((y - (top + 2) + 1) / 2))
                                pl isFlipX yColor pBegin pEnd pair top;
                 pair ← swap pair w y;
                 '(pair, _) ← color_walk_up (down2 (y + 1) ((y + 1 - (top + 2)) / 2 + (y + 1 - (top + 2)) mod 2))
                                pl isFlipX xColor pBegin pEnd pair y;
                 Some pair
               else
                 pair ← foldlM (λ pair z, ASSERT ((pBegin <=? z) && (z <=? pEnd));;
                                          swap pair z (z - 2))
                          pair (down2 top ((top - (x + 2)) / 2));
                 swap pair top y);
            Some (true, pair)
        end.

(** ** The optimiser *)

(** The search state of [MinimizePairingCost].  [os_accepted] is a ghost
    field: the costs of the pairings adopted so far, most recent first. *)
Record OptState := mkOptState {
  os_bestPair : IndexVector;
  os_bestCost : Cost;
  os_bestCostPlayers : IndexSet;
  os_isFoundBetter : bool;
  os_accepted : list Cost
}.

(** The increment of the index vector [i]:
    [for (j = 0; j < i.size() && (++i[j] >= pEnd || pl[bestPair[i[j]]].play_id == BYE_ID); ++j)
       i[j] = pBegin;] *)
Fixpoint next_index (i : list nat) (pl : PlayerVector) (bestPair : IndexVector)
    (pBegin pEnd : nat) : option (list nat) :=
  match i with
  | [] => Some []
  | ij :: rest =>
      let v := ij + 1 in
      carry ← (if pEnd <=? v then Some true else is_bye <$> at_pair pl bestPair v);
      if (carry : bool) then
        rest' ← next_index rest pl bestPair pBegin pEnd; Some (pBegin :: rest')
      else Some (v :: rest)
  end.

(** The filter on the index vector ("don't do things twice", and the
    cost-guided pruning): [true] means [goto nextI]. *)
Fixpoint skip_index (d : nat) (isCostSearch : bool) (prev : option nat) (i : list nat)
    (bestPair : IndexVector) (bestCostPlayers : IndexSet) : option bool :=
  match i with
  | a :: b :: rest =>
      if match prev with
         | Some p => if d <=? 1 then a <=? p else a <? p
         | None => false
         end
         || (if d <=? 1 then b <=? a else b <? a)
      then Some true
      else
        ra ← bestPair !! a;
        pruned ← (if isCostSearch && negb (bool_decide (ra ∈ bestCostPlayers)) then
                    rb ← bestPair !! b; Some (negb (bool_decide (rb ∈ bestCostPlayers)))
                  else Some false);
        if (pruned : bool) then Some true
        else skip_index d isCostSearch (Some a) rest bestPair bestCostPlayers
  | _ => Some false
  end.

(** [maxChange]: the largest [i[j+1] - i[j]]. *)
Fixpoint max_change (d : nat) (i : list nat) (m : nat) : option nat :=
  match i with
  | a :: b :: rest =>
      ASSERT (if d <=? 1 then a <? b else a <=? b);;
      max_change d rest (if m <? b - a then b - a else m)
  | _ => Some m
  end.

(** The start of the score group of slot [a]. *)
Fixpoint group_begin (fuel : nat) (pl : PlayerVector) (testPair : IndexVector)
    (sc : Q) (pBegin sBegin : nat) : option nat :=
  match fuel with
  | O => None
  | S fuel' =>
      if pBegin <? sBegin then
        p2 ← at_pair pl testPair (sBegin - 2);
        if Qeqb (score p2) sc then
          p1 ← at_pair pl testPair (sBegin - 1);
          if Qeqb (score p1) sc then group_begin fuel' pl testPair sc pBegin (sBegin - 2)
          else Some sBegin
        else Some sBegin
      else Some sBegin
  end.

(** The end of the score group of slot [b]. *)
Fixpoint group_finish (fuel : nat) (pl : PlayerVector) (testPair : IndexVector)
    (sc : Q) (pEnd2 sEnd : nat) : option nat :=
  match fuel with
  | O => None
  | S fuel' =>
      if sEnd <? pEnd2 then
        p0 ← at_pair pl testPair sEnd;
        if Qeqb (score p0) sc then
          p1 ← at_pair pl testPair (sEnd + 1);
          if Qeqb (score p1) sc then group_finish fuel' pl testPair sc pEnd2 (sEnd + 2)
          else Some sEnd
        else Some sEnd
      else Some sEnd
  end.

(** The [shift] vector of the moves 6 and 7. *)
Fixpoint color_shifts (cs : list nat) (pl : PlayerVector) (testPair : IndexVector)
    (startColor : ascii) (shift : BoolVector) : option BoolVector :=
  match cs with
  | [] => Some shift
  | c :: cs' =>
      p ← at_pair pl testPair c; q ← at_pair pl testPair (c + 1);
      col ← AllocateColor p q ((c / 2) mod 2 =? 0);
      ASSERT (c <? length shift);;
      color_shifts cs' pl testPair startColor (<[c := negb (Ascii.eqb startColor col)]> shift)
  end.

(** One swap pair [(a, b) = (i[j], i[j+1])] of the move [s] applied to
    [testPair].  The inner [None] stands for [goto nextS]. *)
Definition apply_move (pl : PlayerVector) (pBegin pEnd : nat) (hasBye : bool) (d s : nat)
    (testPair : IndexVector) (a b : nat) : option (option IndexVector) :=
  if b <=? a then ASSERT ((2 <=? d) && (a =? b));; Some (Some testPair)
  else
    let hasBye2 := hasBye && ((pEnd - 2 <=? a) || (pEnd - 2 <=? b)) in
    let pEnd2 := if hasBye && negb hasBye2 then pEnd - 2 else pEnd in
    let noShift := replicate pEnd false in
    match s with
    | 0 => Some <$> swap testPair a b
    | 1 =>
        pb ← at_pair pl testPair b; ASSERT (negb (is_bye pb));;
        Some <$> RotatePairDown testPair a b pBegin pEnd2 hasBye2 false noShift
    | 2 => Some <$> RotatePairUp testPair a b pBegin pEnd2 hasBye2 false noShift
    | 3 | 4 | 5 =>
        pa ← at_pair pl testPair a; pb ← at_pair pl testPair b;
        let sc := score pa in
        if negb (Qeqb (score pb) sc) then Some None
        else
          sBegin ← group_begin (S (length testPair)) pl testPair sc pBegin (a / 2 * 2);
          oddPullUp ← (if a =? sBegin + 1
                       then p ← at_pair pl testPair sBegin; Some (Qgtb (score p) sc)
                       else Some false);
          sEnd ← group_finish (S (length testPair)) pl testPair sc pEnd2 (b / 2 * 2 + 2);
          oddDropDown ← (if b + 2 =? sEnd
                         then p ← at_pair pl testPair (sEnd - 1);
                              Some (Qltb (score p) sc || is_bye p)
                         else Some false);
          ASSERT ((pBegin <=? sBegin) && (sBegin <=? a) && (a <? b) && (b <=? sEnd)
                  && (sEnd <=? pEnd2));;
          ASSERT (negb hasBye2 || (sEnd =? pEnd2));;
          match s with
          | 3 => Some <$> RotatePairDown testPair a b sBegin sEnd oddDropDown oddPullUp noShift
          | 4 => Some <$> RotatePairUp testPair a b sBegin sEnd oddDropDown oddPullUp noShift
          | _ =>
              '(isChanged, testPair) ← RotateColor pl testPair a b sBegin sEnd oddDropDown oddPullUp;
              Some (if (isChanged : bool) then Some testPair else None)
          end
    | 6 | 7 =>
        pb ← at_pair pl testPair b; ASSERT (negb (is_bye pb));;
        p0 ← at_pair pl testPair pBegin;
        q0 ← at_pair pl testPair (if pBegin mod 2 =? 0 then pBegin + 1 else pBegin - 1);
        startColor ← AllocateColor p0 q0 ((pBegin / 2) mod 2 =? 0);
        shift ← color_shifts (up2 (pBegin / 2 * 2 + 2) ((pEnd2 - (pBegin / 2 * 2 + 2) + 1) / 2))
                  pl testPair startColor (replicate pEnd2 false);
        Some <$> (if s =? 6
                  then RotatePairDown testPair a b pBegin pEnd2 hasBye2 false shift
                  else RotatePairUp testPair a b pBegin pEnd2 hasBye2 false shift)
    | _ => None
    end.

(** The loop over the swap pairs of [i] for one move [s]. *)
Fixpoint apply_moves (pl : PlayerVector) (pBegin pEnd : nat) (hasBye : bool) (d s : nat)
    (i : list nat) (testPair : IndexVector) : option (option IndexVector) :=
  match i with
  | a :: b :: rest =>
      r ← apply_move pl pBegin pEnd hasBye d s testPair a b;
      match r with
      | None => Some None
      | Some testPair => apply_moves pl pBegin pEnd hasBye d s rest testPair
      end
  | _ => Some (Some testPair)
  end.

(** "don't put ranks out of order":
    [if (testPair[y] >= testPair[y+1]) swap(testPair[y], testPair[y+1])]. *)
Definition order_ranks (testPair : IndexVector) : option IndexVector :=
  foldlM (λ tp y, r ← tp !! y; r1 ← tp !! (y + 1);
                  if r1 <=? r then swap tp y (y + 1) else Some tp)
         testPair (boards 0 (length testPair)).

(** The body of [for (size_t s = 0; ...; ++s)]: build the candidate,
    evaluate it, and adopt it iff [testCost < bestCost]. *)
Definition try_move (pl : PlayerVector) (remainingRounds : Z) (pBegin pEnd : nat)
    (hasBye usePairableCost : bool) (d : nat) (i : list nat) (st : OptState) (s : nat)
    : option OptState :=
  r ← apply_moves pl pBegin pEnd hasBye d s i (os_bestPair st);
  match r with
  | None => Some st
  | Some testPair =>
      testPair ← order_ranks testPair;
      testPair ← SortBoards pl testPair;
      '(testCost, testCostPlayers) ←
        CostFunction pl testPair remainingRounds pBegin pEnd false usePairableCost ∅;
      if Cost_lt testCost (os_bestCost st)
      then Some (mkOptState testPair testCost testCostPlayers true
                   (testCost :: os_accepted st))
      else Some st
  end.

(** [while (!bestCost.IsZero())] for one search depth [d]. *)
Fixpoint search_cycle (fuel : nat) (pl : PlayerVector) (remainingRounds : Z)
    (pBegin pEnd : nat) (hasBye usePairableCost : bool) (d : nat) (i : list nat)
    (st : OptState) : option OptState :=
  match fuel with
  | O => None
  | S fuel' =>
      if IsZero (os_bestCost st) then Some st
      else
        i ← next_index i pl (os_bestPair st) pBegin pEnd;
        if bool_decide (i = replicate (2 * d) pBegin) then Some st
        else
          skip ← skip_index d true None i (os_bestPair st) (os_bestCostPlayers st);
          if (skip : bool)
          then search_cycle fuel' pl remainingRounds pBegin pEnd hasBye usePairableCost d i st
          else
            maxChange ← max_change d i 0;
            st ← foldlM (try_move pl remainingRounds pBegin pEnd hasBye usePairableCost d i)
                   st (seq 0 (if maxChange <=? 2 then 1 else 8));
            search_cycle fuel' pl remainingRounds pBegin pEnd hasBye usePairableCost d i st
      end.

(** [for (int d = 1; pBegin < pEnd && d <= depth; ++d)], with [--d] after
    a cycle that found something better. *)
Fixpoint search_depths (fuel : nat) (pl : PlayerVector) (remainingRounds : Z)
    (pBegin pEnd : nat) (hasBye usePairableCost : bool) (depth : Z) (d : nat)
    (st : OptState) : option OptState :=
  match fuel with
  | O => None
  | S fuel' =>
      if negb ((pBegin <? pEnd) && (Z.of_nat d <=? depth)%Z) then Some st
      else
        st ← search_cycle fuel pl remainingRounds pBegin pEnd hasBye usePairableCost d
               (replicate (2 * d) pBegin)
               (mkOptState (os_bestPair st) (os_bestCost st) (os_bestCostPlayers st)
                  false (os_accepted st));
        search_depths fuel' pl remainingRounds pBegin pEnd hasBye usePairableCost depth
          (if os_isFoundBetter st then d else d + 1) st
  end.

(** One activation of [MinimizePairingCost] up to [pair = bestPair]: the
    range end, the starting cost, and the search. *)
Definition minimize_search (fuel : nat) (pl : PlayerVector) (pair : IndexVector)
    (remainingRounds : Z) (depth : Z) (pBegin pEndConst : nat) (usePairableCost : bool)
    : option (nat * OptState) :=
  let hasBye := negb (pEndConst mod 2 =? 0) in
  pEnd ← (if hasBye && (pEndConst <? length pair) then
            p ← at_pair pl pair pEndConst;
            Some (if is_bye p then pEndConst + 1 else pEndConst)
          else Some pEndConst);
  ASSERT ((pBegin mod 2 =? 0) && (pEnd mod 2 =? 0));;
  ASSERT ((pBegin <=? pEnd) && (pEnd <=? length pair));;
  '(bestCost, bestCostPlayers) ←
    CostFunction pl pair remainingRounds pBegin pEnd false usePairableCost ∅;
  st ← search_depths fuel pl remainingRounds pBegin pEnd hasBye usePairableCost depth 1
         (mkOptState pair bestCost bestCostPlayers false []);
  Some (pEnd, st).

(** [Cost MinimizePairingCost (PlayerVector &pl, IndexVector &pair,
    const size_t remainingRounds, const int depth, const size_t pBegin,
    const size_t pEndConst, const bool usePairableCost)], called with
    [usePairableCost = false]: the search, the check with the lookahead,
    the search again with the lookahead when the check differs, and the
    final evaluation.  The result is the vector left in [pair], the cost,
    and (ghost) the accepted costs of the first and of the second search. *)
Definition MinimizePairingCost (fuel : nat) (pl : PlayerVector) (pair : IndexVector)
    (remainingRounds : Z) (depth : Z) (pBegin pEndConst : nat)
    : option (IndexVector * Cost * (list Cost * list Cost)) :=
  '(pEnd, st) ← minimize_search fuel pl pair remainingRounds depth pBegin pEndConst false;
  let pair := os_bestPair st in
  c ← CostFunction' pl pair remainingRounds pBegin pEnd false true;
  if Cost_ne c (os_bestCost st) then
    '(pEnd', st') ← minimize_search fuel pl pair remainingRounds depth pBegin pEnd true;
    let pair := os_bestPair st' in
    c ← CostFunction' pl pair remainingRounds pBegin pEnd' true true;
    Some (pair, c, (os_accepted st, os_accepted st'))
  else
    c ← CostFunction' pl pair remainingRounds pBegin pEnd true true;
    Some (pair, c, (os_accepted st, [])).

Local Close Scope nat_scope.

(** ** Canonical form of the player vector *)

(** The first loop of [SetRanks]: the map from [play_id] to rank;
    [std::map::insert] keeps the entry of a key that is already present. *)
Definition rank_map (pl : PlayerVector) : gmap Z Z :=
  foldl (λ m xp, match m !! play_id xp.2 with
                 | Some _ => m
                 | None => <[play_id xp.2 := Z.of_nat xp.1]> m
                 end) ∅ (imap pair pl).

(** [void SetRanks (PlayerVector &pl)]. *)
Definition SetRanks (pl : PlayerVector) : option PlayerVector :=
  ASSERT (forallb (λ xp, if (S xp.1 =? length pl)%nat then is_bye xp.2
                         else negb (is_bye xp.2)) (imap pair pl));;
  let rankMap := rank_map pl in
  mapM (λ xp : nat * Player,
          let p := xp.2 in
          due ← DueColor (color_history p) (multiround p);
          Some (set_ranks p (Z.of_nat xp.1) due
                  (omap (λ o, rankMap !! I_ o) (opponents p))
                  (omap (λ t, rankMap !! t) (teammates p))))
       (imap pair pl).

(** The sentinel that [CanonicalPlayerVector] appends. *)
Definition bye_sentinel (first : Player) : Player :=
  mkPlayer "000" (rnd first) (-1) "000" BYE_ID 0 0 [] [] 0%Q 0 false "" 0 0%Q
    false false 0 0 [] [] [] [] "000" (multiround first) false 0 [] [].

(** [void CanonicalPlayerVector (PlayerVector &pl)].  Its
    [sort(pl.begin(), pl.end())] runs [operator<] with the assertion
    [x.rand != y.rand]: see [distinct_rand]. *)
Definition CanonicalPlayerVector (pl : PlayerVector) : option PlayerVector :=
  let pl :=
    if (length pl <=? 0)%nat || negb (from_option is_bye false (last pl))
    then pl ++ [bye_sentinel (default Player_default (head pl))]
    else pl in
  ASSERT (distinct_rand pl);;
  pl ← SetRanks (sort_by Player_lt pl);
  ASSERT (from_option is_bye false (last pl));;
  ASSERT (forallb (λ p, negb (is_bye p)) (removelast pl));;
  Some pl.

Definition LessRobinSort (x y : Player) : bool :=
  bool_lt (is_bye x) (is_bye y) || (eqb (is_bye x) (is_bye y) && Qltb (rand x) (rand y)).

(** ** FindPairings *)

(** The loop that finds the withdrawn player of a round robin. *)
Fixpoint withdrawn_player (xps : list (nat * Player)) (n : nat) (totalRounds : Z)
    (withdrawnPlayer : Z) : option Z :=
  match xps with
  | [] => Some withdrawnPlayer
  | (x, px) :: xps' =>
      ASSERT (negb (is_bye px) || (S x =? n)%nat);;
      match bye_rounds px with
      | b :: _ =>
          if b <=? (totalRounds + 1) `quot` 2 then
            ASSERT (withdrawnPlayer =? 0);;
            withdrawn_player xps' n totalRounds (Z.of_nat x + 1)
          else withdrawn_player xps' n totalRounds withdrawnPlayer
      | [] => withdrawn_player xps' n totalRounds withdrawnPlayer
      end
  end.

(** The bye of a round robin: the first player on the board of the
    sentinel gets White, the sentinel Black. *)
Fixpoint robin_bye (ps : list Player) (back : Player) : list Player * Player :=
  match ps with
  | [] => ([], back)
  | p :: ps' =>
      if board_num p =? board_num back
      then (set_board_color p "W" :: ps', set_board_color back "B")
      else let '(ps'', back') := robin_bye ps' back in (p :: ps'', back')
  end.

(** The short-cut for round robin pairings. *)
Definition RoundRobinPairings (pl : PlayerVector) (totalRounds firstBoardNum : Z)
    : option PlayerVector :=
  let pl := sort_by LessRobinSort pl in
  p0 ← head pl;
  ASSERT (negb (multiround p0 =? 0));;          (* a division by zero otherwise *)
  let totalRounds := totalRounds `quot` multiround p0 in
  ASSERT (Z.of_nat (length pl) - 1 =? totalRounds);;
  withdrawnPlayer ← withdrawn_player (imap pair pl) (length pl) totalRounds 0;
  pl ← mapM (λ xp : nat * Player,
               let px := xp.2 in
               ASSERT (negb (multiround px =? 0));;
               '(board, color) ←
                 CrenshawBergerLookup (Z.of_nat (length pl))
                   (as_size_t ((rnd px - 1) `quot` multiround px + 1))
                   (Z.of_nat xp.1 + 1) withdrawnPlayer;
               Some (set_board px (board + (firstBoardNum - 1)) color))
            (imap pair pl);
  back ← last pl;
  if is_bye back then
    let '(ps, back) := robin_bye (removelast pl) back in
    ASSERT (Ascii.eqb (board_color back) "B");;
    Some (ps ++ [back])
  else Some pl.

(** The insertion test of the final sort: board [(a, b)] stays before
    board [(c, d)]. *)
Definition final_in_order (a b c d : Player) : option bool :=
  Player_less a b ≫= λ ab : bool,
  Player_less c d ≫= λ cd : bool,
  let z1 := if ab then a else b in
  let z2 := if cd then c else d in
  let b1 := is_bye a || is_bye b in
  let b2 := is_bye c || is_bye d in
  if bool_lt b1 b2 then Some true
  else if eqb b1 b2 then Player_less z1 z2 else Some false.

(** [for (size_t y = x; y > 0; y -= 2)] of the final sort, [y = 2 * k]. *)
Fixpoint final_insert (k : nat) (pl : PlayerVector) (pair : IndexVector)
    : option IndexVector :=
  match k with
  | O => Some pair
  | S k' =>
      let y := (2 * k)%nat in
      a ← at_pair pl pair (y - 2); b ← at_pair pl pair (y - 1);
      c ← at_pair pl pair y; d ← at_pair pl pair (y + 1);
      final_in_order a b c d ≫= λ stop : bool,
      if stop then Some pair
      else
        pair ← swap pair y (y - 2);
        pair ← swap pair (y + 1) (y - 1);
        final_insert k' pl pair
  end.

(** "first sort by rank (putting byes last)". *)
Definition final_sort (pl : PlayerVector) (pair : IndexVector) : option IndexVector :=
  foldlM (λ pair x, final_insert (x / 2) pl pair) pair (boards 2 (length pair)).

(** "set boards": board number and colors of one board. *)
Definition set_board_of (firstBoardNum : Z) (pl : PlayerVector) (pair : IndexVector)
    (x : nat) : option PlayerVector :=
  rx ← pair !! x; ry ← pair !! (x + 1)%nat;
  px ← pl !! rx;
  ASSERT (negb (is_bye px));;
  py ← pl !! ry;
  let num := firstBoardNum + Z.of_nat (x / 2) in
  color ← AllocateColor py px ((x / 2) mod 2 =? 0)%nat;
  (* the two board numbers, then the color of [pair[x+1]], then of [pair[x]] *)
  let pl := <[rx := set_board_num px num]> pl in
  py ← pl !! ry;
  let pl := <[ry := set_board py num color]> pl in
  px ← pl !! rx;
  let pl := <[rx := set_board_color px (FlipColor color)]> pl in
  px ← pl !! rx; py ← pl !! ry;
  ASSERT (board_num px =? board_num py);;
  ASSERT ((Ascii.eqb (board_color px) "W" && Ascii.eqb (board_color py) "B")
          || (Ascii.eqb (board_color px) "B" && Ascii.eqb (board_color py) "W"));;
  Some pl.

(** "set colors": the closing assertions on one player. *)
Fixpoint check_boards (ys : list nat) (pl : PlayerVector) (pair : IndexVector)
    (p : Player) : option unit :=
  match ys with
  | [] => Some tt
  | y :: ys' =>
      py1 ← at_pair pl pair (y + 1);
      if is_bye py1 then check_boards ys' pl pair p
      else
        py ← at_pair pl pair y;
        ASSERT (board_num py =? board_num py1);;
        if same_entry py p || same_entry py1 p then check_boards ys' pl pair p
        else ASSERT (negb (board_num py =? board_num p));; check_boards ys' pl pair p
  end.

Definition check_player (pl : PlayerVector) (pair : IndexVector) (p : Player)
    : option unit :=
  ASSERT (Ascii.eqb (board_color p) "W" || Ascii.eqb (board_color p) "B" || is_bye p);;
  check_boards (boards 0 (length pair)) pl pair p.

(** What [FindPairings] leaves behind: the player vector, the returned
    cost, and (ghost) the local vector [pair] and the costs accepted by
    the two searches of the optimiser. *)
Record Pairings := mkPairings {
  fp_players : PlayerVector;
  fp_cost : Cost;
  fp_pair : IndexVector;
  fp_accepted : list Cost * list Cost
}.

(** The checks around [FirstPairings]: the last player to pair wants a
    pairing, the first one after them does not. *)
Definition check_split (pl : PlayerVector) (pair : IndexVector) (nplayers : nat)
    : option unit :=
  (if (0 <? nplayers)%nat then
     p ← at_pair pl pair (nplayers - 1);
     ASSERT (negb (bye_request p) && negb (paired p))
   else Some tt);;
  (if (nplayers <? length pair)%nat then
     p ← at_pair pl pair nplayers;
     if negb (is_bye p) then ASSERT (bye_request p || paired p) else Some tt
   else Some tt).

(** "request bye for one odd house player": the index of the last house
    player among those to pair, and their number. *)
Definition house_player (pl : PlayerVector) : option nat * nat :=
  foldl (λ acc xp,
           let p := xp.2 in
           if negb (bye_request p) && negb (paired p) && negb (is_bye p)
           then (if bye_house p then Some xp.1 else acc.1, S acc.2)
           else acc)
        (None, 0%nat) (imap pair pl).

(** The consistency check on [multiround] at the start of [FindPairings]
    (its loops over the opponents only print). *)
Definition check_multiround (pl : PlayerVector) : option unit :=
  match pl with
  | p0 :: _ :: _ =>
      if negb (multiround p0 =? 1) then
        ASSERT (forallb (λ p, multiround p =? multiround p0) pl);;
        (* [y += mr] does not advance for [mr <= 0] *)
        ASSERT ((0 <? multiround p0) || forallb (λ p, bool_decide (opponents p = [])) pl)
      else Some tt
  | _ => Some tt
  end.

(** "request bye for one odd house player": the vector with the request
    set, and the number of players to pair. *)
Definition request_house_bye (pl : PlayerVector) : PlayerVector * nat :=
  let '(housePlayer, nplayers) := house_player pl in
  let housePlayer := if (nplayers mod 2 =? 0)%nat then None else housePlayer in
  match housePlayer with
  | Some h => (alter (λ p, set_bye_request p true) h pl, (nplayers - 1)%nat)
  | None => (pl, nplayers)
  end.

(** The part of [FindPairings] after the round-robin short-cut, on the
    canonical vector [pl] with [nplayers] players to pair. *)
Definition SwissPairings (fuel : nat) (pl : PlayerVector) (nplayers : nat)
    (totalRounds firstBoardNum : Z) (depth : Z) (useFirstPairings skipOptimize : bool)
    : option Pairings :=
  p0 ← head pl;
  ASSERT (forallb (λ xp, if (S xp.1 =? length pl)%nat then is_bye xp.2
                         else negb (is_bye xp.2)) (imap pair pl));;
  let lowBoard := foldl (λ low p, if negb (is_bye p) && (low >? board_num p)
                                  then board_num p else low)
                        (2 ^ 31 - 1) pl in
  let firstBoardNum := if firstBoardNum =? 0 then lowBoard else firstBoardNum in
  pair ← HintPairings pl true;
  check_split pl pair nplayers;;
  pair ← (if useFirstPairings then FirstPairings pl pair nplayers else Some pair);
  check_split pl pair nplayers;;
  let remainingRounds := as_size_t (totalRounds - rnd p0) in
  '(pair, cost, accepted) ←
    (if skipOptimize then
       c ← CostFunction' pl pair remainingRounds 0 ((nplayers + 1) / 2 * 2)%nat true true;
       Some (pair, c, ([], []))
     else MinimizePairingCost fuel pl pair remainingRounds depth 0 nplayers);
  ASSERT (length pair mod 2 =? 0)%nat;;
  pair ← final_sort pl pair;
  pl ← foldlM (λ pl x, set_board_of firstBoardNum pl pair x) pl (boards 0 (length pair));
  mapM (check_player pl pair) pl;;
  back ← last pl;
  ASSERT (is_bye back);;
  let pl := <[(length pl - 1)%nat := set_board_num back (-1)]> pl in
  Some (mkPairings pl cost pair accepted).

(** [Cost FindPairings (PlayerVector &pl, smallint totalRounds,
    integer firstBoardNum, int depth, bool useFirstPairings,
    bool skipOptimize, const string &secName)].  [fuel] bounds the number
    of steps of the optimiser's loops. *)
Definition FindPairings (fuel : nat) (pl : PlayerVector) (totalRounds firstBoardNum : Z)
    (depth : Z) (useFirstPairings skipOptimize : bool) : option Pairings :=
  check_multiround pl;;
  let '(pl, nplayers) := request_house_bye pl in
  pl ← CanonicalPlayerVector pl;
  p0 ← head pl;
  if Ascii.eqb (trn_type p0) "R" || Ascii.eqb (trn_type p0) "D" then
    pl ← RoundRobinPairings pl totalRounds firstBoardNum;
    Some (mkPairings pl Cost_zero [] ([], []))
  else
    SwissPairings fuel pl nplayers totalRounds firstBoardNum depth
      useFirstPairings skipOptimize.

(** ** Tiebreak functions

    The scores ([real]) are sums of halves and whole points and the
    sums of ratings are sums of integers: these are exact in [float] and
    [double].  The quotients by a number of games and the sums of
    performance ratings are [double] operations and are rounded with
    [Qround_double]. *)

Record PlayerResult := mkPlayerResult {
  (* input fields *)
  player : string;
  pr_rating : Z;
  opponent : list string;
  color : charVector;
  result : charVector;
  (* calculation fields *)
  rawScore : Q;
  adjScore : Q;
  cumScore : Q;
  byeScore : Q;
  head2head : Q;
  byeCnt : Z;
  blackCnt : Z;
  kashdan : Z;
  winCnt : Z;
  firstLossRound : nat;
  performanceRating : Q;
  coinFlip : Q;
  (* output fields *)
  tiebreak_code : charVector;
  tiebreak_value : list Q
}.

(** [typedef map<text, PlayerResult> PlayerResultMap]; the map is walked
    in the order of its keys. *)
Definition PlayerResultMap : Type := gmap string PlayerResult.

#[global] Instance string_leb_dec : RelDecision (λ a b : string, String.leb a b = true).
Proof. intros a b. apply _. Defined.

Definition ordered_keys (prm : PlayerResultMap) : list string :=
  merge_sort (λ a b : string, String.leb a b = true) (map_to_list prm).*1.

(** The accumulators of the loop of [TiebreakPlayer]. *)
Record Tally := mkTally {
  t_raw : Q; t_adj : Q; t_cum : Q; t_bye : Q;
  t_kashdan : Z; t_byeCnt : Z; t_blackCnt : Z; t_winCnt : Z; t_firstLoss : nat
}.

Definition is_black (c : ascii) : Z := Z_of_bool (Ascii.eqb c "B").

(** One round of [TiebreakPlayer]: the [switch] on the result letter. *)
Definition tally_round (x : nat) (res col : ascii) (t : Tally) : option Tally :=
  let fl := (t_firstLoss t + nat_of_bool (t_firstLoss t =? x)%nat)%nat in
  let upd (raw adj bye : Q) (k b bl w : Z) (fl : nat) : option Tally :=
    let r := (t_raw t + raw)%Q in
    Some (mkTally r (t_adj t + adj)%Q (t_cum t + r)%Q (t_bye t + bye)%Q
            (t_kashdan t + k) (t_byeCnt t + b) (t_blackCnt t + bl) (t_winCnt t + w) fl) in
  match res with
  | "$"%char => upd 2%Q 2%Q 0%Q (4 + 4) 0 1 2 fl
  | "#"%char => upd (3 # 2) (3 # 2) 0%Q (4 + 2) 0 1 1 fl
  | "%"%char => upd 1%Q 1%Q 0%Q (2 + 2) 0 1 0 fl
  | "W"%char | "N"%char => upd 1%Q 1%Q 0%Q 4 0 (is_black col) 1 fl
  | "B"%char | "X"%char => upd 1%Q (1 # 2) 1%Q 0 1 0 0 fl
  | "D"%char | "R"%char => upd (1 # 2) (1 # 2) 0%Q 2 0 (is_black col) 0 fl
  | "H"%char | "Z"%char => upd (1 # 2) (1 # 2) (1 # 2) 0 1 0 0 fl
  | "L"%char | "S"%char =>
      upd 0%Q 0%Q 0%Q 1 0 (is_black col) 0 (fl - nat_of_bool (fl =? x + 1)%nat)%nat
  | "U"%char | "F"%char | "*"%char => upd 0%Q (1 # 2) 0%Q 0 1 0 0 fl
  | _ => None
  end.

Fixpoint tally_rounds (x : nat) (ress cols : charVector) (t : Tally) : option Tally :=
  match ress, cols with
  | res :: ress', col :: cols' =>
      t ← tally_round x res col t; tally_rounds (S x) ress' cols' t
  | _, _ => Some t
  end.

(** [void TiebreakPlayer (PlayerResult &p, const text &byeKey)]. *)
Definition TiebreakPlayer (p : PlayerResult) (byeKey : string) : option PlayerResult :=
  let rounds := length (color p) in
  ASSERT ((length (opponent p) =? rounds)%nat && (length (result p) =? rounds)%nat);;
  let reset (t : Tally) (fl : nat) :=
    mkPlayerResult (player p) (pr_rating p) (opponent p) (color p) (result p)
      (t_raw t) (t_adj t) (t_cum t) (t_bye t) (head2head p)
      (t_byeCnt t) (t_blackCnt t) (t_kashdan t) (t_winCnt t) fl
      (performanceRating p) (-1)%Q (tiebreak_code p) (tiebreak_value p) in
  let zero := mkTally 0 0 0 0 0 0 0 0 0%nat in
  if String.eqb (player p) byeKey then
    ASSERT (pr_rating p =? 0);; Some (reset zero 0%nat)
  else
    t ← tally_rounds 0 (result p) (color p) zero;
    Some (reset (mkTally (t_raw t) (t_adj t) (t_cum t - t_bye t)%Q (t_bye t)
                   (t_kashdan t) (t_byeCnt t) (t_blackCnt t) (t_winCnt t) (t_firstLoss t))
                (S (t_firstLoss t))).

Definition set_coinFlip (p : PlayerResult) (v : Q) : PlayerResult :=
  mkPlayerResult (player p) (pr_rating p) (opponent p) (color p) (result p)
    (rawScore p) (adjScore p) (cumScore p) (byeScore p) (head2head p)
    (byeCnt p) (blackCnt p) (kashdan p) (winCnt p) (firstLossRound p)
    (performanceRating p) v (tiebreak_code p) (tiebreak_value p).

(** The prefix of a list before the first element that satisfies [f]. *)
Fixpoint take_until {A} (f : A → bool) (l : list A) : list A :=
  match l with
  | [] => []
  | a :: l' => if f a then [] else a :: take_until f l'
  end.

(** [void TiebreakCoinFlip (const PlayerResultMap &prm, PlayerResult &p,
    const text &byeKey)].  [rand()] is the next value of the stream
    [rnd]; the state is the number of values consumed.  [fuel] bounds the
    retries of [goto nextFlip]. *)
Fixpoint TiebreakCoinFlip_loop (fuel : nat) (rnd : nat → Z) (k : nat)
    (before : list PlayerResult) : option (Q * nat) :=
  match fuel with
  | O => None
  | S fuel' =>
      let flip := inject_Z (rnd k) in
      if existsb (λ q, Qeqb (coinFlip q) flip) before
      then TiebreakCoinFlip_loop fuel' rnd (S k) before
      else Some (flip, S k)
  end.

Definition TiebreakCoinFlip (fuel : nat) (rnd : nat → Z) (k : nat)
    (prm : PlayerResultMap) (p : PlayerResult) (byeKey : string)
    : option (PlayerResult * nat) :=
  if String.eqb (player p) byeKey then Some (p, k)
  else
    '(flip, k) ← TiebreakCoinFlip_loop fuel rnd k
                   (take_until (λ q, String.eqb (player q) (player p))
                      (omap (λ key, prm !! key) (ordered_keys prm)));
    Some (set_coinFlip p flip, k).

(** The scores are multiples of one half: [x * 2 == int(x * 2)]. *)
Definition is_half_integral (x : Q) : bool := Qeqb (x * 2) (inject_Z (Qtrunc (x * 2))).

(** One round of [TiebreakPerformance]: [head2head], [ratingSum],
    [playerCnt]. *)
Definition performance_round (prm : PlayerResultMap) (p : PlayerResult)
    (opp : string) (res : ascii) (acc : Q * Q * Z) : option (Q * Q * Z) :=
  let '(h2h, ratingSum, playerCnt) := acc in
  o ← prm !! opp;
  ASSERT (negb (String.eqb (player o) (player p)));;
  ASSERT (is_half_integral (rawScore o));;
  if Qeqb (rawScore o) (rawScore p) then
    match res with
    | "$"%char => Some ((h2h + (2 - 0))%Q, ratingSum, playerCnt)
    | "#"%char => Some ((h2h + ((3 # 2) - (1 # 2)))%Q, ratingSum, playerCnt)
    | "%"%char => Some ((h2h + ((1 # 2) - (1 # 2)))%Q, ratingSum, playerCnt)
    | "W"%char | "N"%char => Some ((h2h + (1 - 0))%Q, ratingSum, playerCnt)
    | "B"%char | "X"%char => Some acc
    | "D"%char | "R"%char => Some ((h2h + ((1 # 2) - (1 # 2)))%Q, ratingSum, playerCnt)
    | "H"%char | "Z"%char => Some acc
    | "L"%char | "S"%char => Some ((h2h + (0 - 1))%Q, ratingSum, playerCnt)
    | "U"%char | "F"%char | "*"%char => Some acc
    | _ => None
    end
  else
    let counted (d : Q) := Some (h2h, (ratingSum + d + inject_Z (pr_rating o))%Q, playerCnt + 1) in
    match res with
    | "$"%char => counted 400%Q
    | "#"%char => counted 200%Q
    | "%"%char => counted 0%Q
    | "W"%char | "N"%char => counted 400%Q
    | "B"%char | "X"%char => Some acc
    | "D"%char | "R"%char => counted 0%Q
    | "H"%char | "Z"%char => Some acc
    | "L"%char | "S"%char => counted (-400)%Q
    | "U"%char | "F"%char | "*"%char => Some acc
    | _ => None
    end.

Fixpoint performance_rounds (prm : PlayerResultMap) (p : PlayerResult)
    (opps : list string) (ress : charVector) (n : nat) (acc : Q * Q * Z)
    : option (Q * Q * Z) :=
  match n with
  | O => Some acc
  | S n' =>
      match opps, ress with
      | opp :: opps', res :: ress' =>
          acc ← performance_round prm p opp res acc;
          performance_rounds prm p opps' ress' n' acc
      | [], [] => Some acc
      | _, _ => None
      end
  end.

Definition set_performance (p : PlayerResult) (h2h perf : Q) : PlayerResult :=
  mkPlayerResult (player p) (pr_rating p) (opponent p) (color p) (result p)
    (rawScore p) (adjScore p) (cumScore p) (byeScore p) h2h
    (byeCnt p) (blackCnt p) (kashdan p) (winCnt p) (firstLossRound p)
    perf (coinFlip p) (tiebreak_code p) (tiebreak_value p).

(** [void TiebreakPerformance (const PlayerResultMap &prm, PlayerResult &p,
    const text &byeKey)]. *)
Definition TiebreakPerformance (prm : PlayerResultMap) (p : PlayerResult)
    (byeKey : string) : option PlayerResult :=
  let rounds := length (color p) in
  ASSERT (is_half_integral (rawScore p));;
  '(h2h, ratingSum, playerCnt) ←
    (if String.eqb (player p) byeKey then Some (0%Q, 0%Q, 0)
     else performance_rounds prm p (opponent p) (result p) rounds (0%Q, 0%Q, 0));
  Some (set_performance p h2h
          (if playerCnt <=? 0 then inject_Z (pr_rating p)
           else Qround_double (ratingSum / inject_Z playerCnt))).

Definition TiebreakPlayed (res : ascii) : bool :=
  match res with
  | "B"%char | "X"%char | "H"%char | "Z"%char | "U"%char | "F"%char | "*"%char => false
  | _ => true
  end.

(** The accumulators of the loop of [TiebreakOpponent]. *)
Record Opposition := mkOpposition {
  o_adj : list Q; o_adjSum : Q; o_cumSum : Q; o_ratSum : Q; o_perfSum : Q;
  o_partial : Q; o_playCnt : Z
}.

(** The [switch] on the result for the partial score; a case without
    [break] falls through to the next one. *)
Definition partial_score (res : ascii) (raw : Q) : option Q :=
  let w := raw in
  let pct := (raw / 2 + raw / 2 + w)%Q in
  let hash := (raw + raw / 2 + pct)%Q in
  match res with
  | "$"%char => Some (raw + raw + hash)%Q
  | "#"%char => Some hash
  | "%"%char => Some pct
  | "W"%char | "N"%char => Some w
  | "B"%char | "X"%char => Some 0%Q
  | "D"%char | "R"%char => Some (raw / 2)%Q
  | "H"%char | "Z"%char => Some 0%Q
  | "L"%char | "S"%char => Some 0%Q
  | "U"%char | "F"%char | "*"%char => Some 0%Q
  | _ => None
  end.

Definition opposition_round (prm : PlayerResultMap) (opp : string) (res : ascii)
    (a : Opposition) : option Opposition :=
  o ← prm !! opp;
  let isPlayed := TiebreakPlayed res in
  let played := if isPlayed then adjScore o else 0%Q in
  ps ← partial_score res (rawScore o);
  Some (mkOpposition (o_adj a ++ [played]) (o_adjSum a + played)%Q
          (o_cumSum a + cumScore o)%Q
          (if isPlayed then (o_ratSum a + inject_Z (pr_rating o))%Q else o_ratSum a)
          (if isPlayed then Qround_double (o_perfSum a + performanceRating o)
           else o_perfSum a)
          (o_partial a + ps)%Q
          (if isPlayed then o_playCnt a + 1 else o_playCnt a)).

Fixpoint opposition_rounds (prm : PlayerResultMap) (opps : list string)
    (ress : charVector) (n : nat) (a : Opposition) : option Opposition :=
  match n with
  | O => Some a
  | S n' =>
      match opps, ress with
      | opp :: opps', res :: ress' =>
          a ← opposition_round prm opp res a;
          opposition_rounds prm opps' ress' n' a
      | [], [] => Some a
      | _, _ => None
      end
  end.

Definition Qsort (l : list Q) : list Q := sort_by Qltb l.

Definition set_tiebreaks (p : PlayerResult) (codes : charVector) (values : list Q)
    : PlayerResult :=
  mkPlayerResult (player p) (pr_rating p) (opponent p) (color p) (result p)
    (rawScore p) (adjScore p) (cumScore p) (byeScore p) (head2head p)
    (byeCnt p) (blackCnt p) (kashdan p) (winCnt p) (firstLossRound p)
    (performanceRating p) (coinFlip p)
    (tiebreak_code p ++ codes) (tiebreak_value p ++ values).

Definition Q_of_bool (b : bool) : Q := if b then 1%Q else 0%Q.

(** [void TiebreakOpponent (const PlayerResultMap &prm, PlayerResult &p,
    const text &byeKey)]. *)
Definition TiebreakOpponent (prm : PlayerResultMap) (p : PlayerResult)
    (byeKey : string) : option PlayerResult :=
  let rounds := length (color p) in
  let zero := mkOpposition [] 0 0 0 0 0 0 in
  a ← (if String.eqb (player p) byeKey then Some zero
       else opposition_rounds prm (opponent p) (result p) rounds zero);
  let adj := Qsort (o_adj a) in
  let adjSum := o_adjSum a in
  let ratAvg := if o_playCnt a <=? 0 then inject_Z (pr_rating p)
                else Qround_double (o_ratSum a / inject_Z (o_playCnt a)) in
  let perfAvg := if o_playCnt a <=? 0 then performanceRating p
                 else Qround_double (o_perfSum a / inject_Z (o_playCnt a)) in
  let twice := inject_Z (Qround_half_away (rawScore p * 2)) in
  let r := inject_Z (Z.of_nat rounds) in
  let high := Q_of_bool (Qleb r twice) in       (* round(rawScore*2) >= rounds *)
  let low := Q_of_bool (Qleb twice r) in        (* round(rawScore*2) <= rounds *)
  M ← (if (rounds <? 2)%nat then Some 0%Q
       else if (rounds <? 9)%nat then
         front ← head adj; back ← last adj;
         Some (adjSum - high * front - low * back)%Q
       else
         a0 ← adj !! 0%nat; a1 ← adj !! 1%nat;
         b2 ← adj !! (rounds - 2)%nat; b1 ← adj !! (rounds - 1)%nat;
         Some (adjSum - high * (a0 + a1) - low * (b2 + b1))%Q);
  B ← (if (rounds <=? 2)%nat then Some 0%Q
       else if (rounds <? 9)%nat then
         front ← head adj; back ← last adj;
         Some (adjSum - front - back)%Q
       else
         a0 ← adj !! 0%nat; a1 ← adj !! 1%nat;
         b2 ← adj !! (rounds - 2)%nat; b1 ← adj !! (rounds - 1)%nat;
         Some (adjSum - a0 - a1 - b2 - b1)%Q);
  Some (set_tiebreaks p
          ["M"; "S"; "C"; "B"; "H"; "T"; "K"; "R"; "O"; "P"; "A"; "W"; "L"; "Z"]%char
          [ M; adjSum; cumScore p; B; head2head p; inject_Z (blackCnt p);
            inject_Z (kashdan p); o_partial a; o_cumSum a; perfAvg; ratAvg;
            inject_Z (winCnt p); inject_Z (Z.of_nat (firstLossRound p)); coinFlip p ]).

(** The first loop of [TiebreakCalculation]. *)
Fixpoint tiebreak_first_pass (keys : list string) (fuel : nat) (rnd : nat → Z) (k : nat)
    (prm : PlayerResultMap) (byeKey : string) : option (PlayerResultMap * nat) :=
  match keys with
  | [] => Some (prm, k)
  | key :: keys' =>
      p ← prm !! key;
      ASSERT (String.eqb key (player p));;
      p ← TiebreakPlayer p byeKey;
      let prm := <[key := p]> prm in
      '(p, k) ← TiebreakCoinFlip fuel rnd k prm p byeKey;
      tiebreak_first_pass keys' fuel rnd k (<[key := p]> prm) byeKey
  end.

(** The second and third loops. *)
Definition tiebreak_pass (f : PlayerResultMap → PlayerResult → string → option PlayerResult)
    (prm : PlayerResultMap) (byeKey : string) : option PlayerResultMap :=
  foldlM (λ prm key, p ← prm !! key; p ← f prm p byeKey; Some (<[key := p]> prm))
         prm (ordered_keys prm).

(** [void TiebreakCalculation (PlayerResultMap &prm, const text &byeKey)]:
    the map left behind and the number of [rand()] values consumed. *)
Definition TiebreakCalculation (fuel : nat) (rnd : nat → Z) (prm : PlayerResultMap)
    (byeKey : string) : option (PlayerResultMap * nat) :=
  '(prm, k) ← tiebreak_first_pass (ordered_keys prm) fuel rnd 0 prm byeKey;
  bye ← prm !! byeKey;
  ASSERT (String.eqb (player bye) byeKey);;
  prm ← tiebreak_pass TiebreakPerformance prm byeKey;
  prm ← tiebreak_pass TiebreakOpponent prm byeKey;
  bye ← prm !! byeKey;
  back ← last (tiebreak_value bye);
  ASSERT (forallb (λ v, Qeqb v 0) (removelast (tiebreak_value bye)));;
  ASSERT (Qeqb back (-1));;
  Some (prm, k).

(** ** Reference definitions and sample inputs used by the statements *)

(** The loop of [operator<] run over explicit word lists. *)
Fixpoint lex_lt (l1 l2 : list Z) : bool :=
  match l1, l2 with
  | v1 :: l1', v2 :: l2' =>
      if v1 <? v2 then true else if v1 >? v2 then false else lex_lt l1' l2'
  | _, _ => false
  end.

(** Two records with the same counters and different section sizes. *)
Definition cost_of_3 : Cost :=
  mkCost 0 0 0 0 0 0 0 0 0 0 0 0 0 0 0 0 0 0 0 0 0 0 0 0 0 0 3.
Definition cost_of_4 : Cost :=
  mkCost 0 0 0 0 0 0 0 0 0 0 0 0 0 0 0 0 0 0 0 0 0 0 0 0 0 0 4.


(** The weight the specification gives: the sum of [N^k] for [k < c]. *)
Fixpoint geometric_sum (c : nat) (N : Z) : Z :=
  match c with
  | O => 0
  | S c' => geometric_sum c' N + N ^ Z.of_nat c'
  end.

(** The reversal column of the rows of [roundRobinReversals] that the
    second loop of [CrenshawBergerLookup] selects (same size, same
    withdrawn player). *)
Fixpoint selected_reversals (rows : list string) (competitors withdrawnPlayer : Z)
    : option (list string) :=
  match rows with
  | [] => Some []
  | row :: rows' =>
      tab ← find_char (ascii_of_nat 9) row;
      let size := atoi (substr row (tab + 1)) in
      tab ← find_from (ascii_of_nat 9) row (tab + 1);
      tab ← find_from (ascii_of_nat 9) row (tab + 1);
      let withdraw := atoi (substr row (tab + 1)) in
      tab ← find_from (ascii_of_nat 9) row (tab + 1);
      rest ← selected_reversals rows' competitors withdrawnPlayer;
      Some (if (size =? competitors) && (withdraw =? withdrawnPlayer)
            then substr row (tab + 1) :: rest else rest)
  end.

(** The pairings column of the rows of [roundRobinPairings] that the first
    loop selects (same size, same round). *)
Fixpoint selected_pairings (rows : list string) (competitors round : Z)
    : option (list string) :=
  match rows with
  | [] => Some []
  | row :: rows' =>
      tab ← find_char (ascii_of_nat 9) row;
      let size := atoi (substr row (tab + 1)) in
      tab ← find_from (ascii_of_nat 9) row (tab + 1);
      let rnd := atoi (substr row (tab + 1)) in
      tab ← find_from (ascii_of_nat 9) row (tab + 1);
      rest ← selected_pairings rows' competitors round;
      Some (if (size =? competitors) && (rnd =? round)
            then substr row (tab + 1) :: rest else rest)
  end.

(** Scenario S4 as the specification words it: size 4, round 3, withdrawn
    player 2; pairing "1-2 3-4"; reversal "2-1"; player 2 has Black. *)
Definition S4_as_claimed : Prop :=
  selected_pairings roundRobinPairings 4 3 = Some ["1-2 3-4"%string] ∧
  selected_reversals roundRobinReversals 4 2 = Some ["2-1"%string] ∧
  CrenshawBergerLookup 4 3 2 2 = Some (1, "B"%char).

(** A round-robin section of three players after their first round, with
    distinct scores, colors and opponents. *)
Definition robin_player (id : Z) (r : Q) (opps : list string) (hist : charVector)
    (sc : Q) : Player :=
  mkPlayer "R" 2 0 "W" id 0 0 [] opps sc 1500 false "uscf" 10 r false false 0 0 []
    [] hist hist "W" 1 false 0 [] [].

Definition robin3 : PlayerVector :=
  [ robin_player 11 (3 # 10) ["12_0"%string] ["W"%char] 1;
    robin_player 12 (1 # 10) ["11_0"%string] ["B"%char] 0;
    robin_player 13 (2 # 10) [] ["f"%char] 1 ].

(** The canonical vector of [robin3]: the three players and the bye. *)
Definition robin3_players : PlayerVector :=
  default [] (CanonicalPlayerVector robin3).

(** The tournament types of the short-cut. *)
Definition is_round_robin (p : Player) : Prop :=
  trn_type p = "R"%char ∨ trn_type p = "D"%char.

(** The round that the short-cut passes to the lookup for a player. *)
Definition robin_round (px : Player) : Z :=
  as_size_t ((rnd px - 1) `quot` multiround px + 1).

(** Position [x] of [out] is the first one, before the last, whose board
    is the board of the last player. *)
Definition first_on_last_board (out : PlayerVector) (x : nat) : Prop :=
  ∃ qx back, out !! x = Some qx ∧ last out = Some back ∧
             (x < length out - 1)%nat ∧ board_num qx = board_num back ∧
             ∀ y qy, (y < x)%nat → out !! y = Some qy → board_num qy ≠ board_num back.

(** The color [c] that the short-cut leaves at position [x], where the
    tables gave [color]: when the last player of [sorted] is the bye, the
    bye has Black and the first player on its board has White; every
    other player has the color of the tables. *)
Definition robin_color_rule (sorted out : PlayerVector) (x : nat) (color c : ascii) : Prop :=
  match last sorted with
  | Some back =>
      if is_bye back then
        (x = (length sorted - 1)%nat → c = "B"%char) ∧
        ((x < length sorted - 1)%nat →
           (first_on_last_board out x → c = "W"%char) ∧
           (¬ first_on_last_board out x → c = color))
      else c = color
  | None => True
  end.

(** What the short-cut leaves of the vector [sorted], with the withdrawn
    player [w] and the first board number [firstBoardNum]: every player
    has the board of the tables, moved by [firstBoardNum - 1], the color
    of [robin_color_rule], and is otherwise as before. *)
Definition seated_by_the_tables (sorted : PlayerVector) (w firstBoardNum : Z)
    (out : PlayerVector) : Prop :=
  length out = length sorted ∧
  ∀ x px, sorted !! x = Some px →
    ∃ board color qx,
      CrenshawBergerLookup (Z.of_nat (length sorted)) (robin_round px)
        (Z.of_nat x + 1) w = Some (board, color) ∧
      out !! x = Some qx ∧
      qx = set_board px (board + (firstBoardNum - 1)) (board_color qx) ∧
      robin_color_rule sorted out x color (board_color qx).

(** A section of three players, two of them of team 7. *)
Definition team_player (id team : Z) (r : Q) : Player :=
  mkPlayer "S" 1 0 "W" id 0 team [] [] 0%Q 1500 false "uscf" 10 r false false 0 0 []
    [] [] [] "W" 1 false 0 [] [].

Definition team_section : list Player :=
  [ team_player 1 7 (1 # 10); team_player 2 7 (2 # 10); team_player 3 0 (3 # 10) ].

(** A result map of two players and the bye after one round, and a
    generator of [rand()] values that repeats every value once. *)
Definition result_entry (name : string) (rating : Z) (opps : list string)
    (cols ress : charVector) : PlayerResult :=
  mkPlayerResult name rating opps cols ress 0 0 0 0 0 0 0 0 0 0%nat 0 0 [] [].

Definition sample_results : PlayerResultMap :=
  list_to_map
    [ ("A"%string, result_entry "A" 1500 ["B"%string] ["W"%char] ["W"%char]);
      ("B"%string, result_entry "B" 1400 ["A"%string] ["B"%char] ["L"%char]);
      ("BYE"%string, result_entry "BYE" 0 [] [] []) ].

Definition sample_rand (i : nat) : Z := Z.of_nat (Nat.div2 i) + 41.

(** What the first loop of [TiebreakCalculation] has established for the
    keys [done]: the entries carry their keys, the bye has the coin flip
    -1, every other entry a value of [rand()], and no two coin flips are
    equal. *)
Definition flips_assigned (rnd : nat → Z) (byeKey : string) (done : list string)
    (prm : gmap string PlayerResult) : Prop :=
  (∀ key, key ∈ done →
     ∃ p, prm !! key = Some p ∧ player p = key ∧
          (key = byeKey → coinFlip p = (-1)%Q) ∧
          (key ≠ byeKey → ∃ j, coinFlip p = inject_Z (rnd j))) ∧
  (∀ k1 k2 p1 p2, k1 ∈ done → k2 ∈ done → k1 ≠ k2 →
     prm !! k1 = Some p1 → prm !! k2 = Some p2 →
     ¬ (coinFlip p1 == coinFlip p2)%Q).

(** The order of the specification together with the comparison of the
    code: [b] is below [a]. *)
Definition lex_below (b a : Cost) : Prop :=
  Cost_lt b a = true ∧ first_diff_smaller b a.

(** A sequence of costs, in the order of their acceptance, in which every
    cost is below the one before it. *)
Fixpoint strictly_decreasing (cs : list Cost) : Prop :=
  match cs with
  | a :: (b :: _) as rest => lex_below b a ∧ strictly_decreasing rest
  | _ => True
  end.

(** The costs accepted during one call of [MinimizePairingCost] from
    [FindPairings], in the order of their acceptance: those of the first
    search, then those of the search with the lookahead. *)
Definition accepted_sequence (accepted : list Cost * list Cost) : list Cost :=
  rev accepted.1 ++ rev accepted.2.

(** Five players before their third round of five; the boards of the
    second round are the hints. *)
Definition round3_player (id : Z) (bn : Z) (bc : ascii) (opps : list string)
    (sc : Q) (rating : Z) (hist played : charVector) : Player :=
  mkPlayer "S" 3 bn bc id 0 0 [] opps sc rating false "uscf" 10 (inject_Z id / 10) false
    false 0 0 [] [] hist played "W" 1 false 0 [] [].

Definition c3_section : PlayerVector :=
  [ round3_player 5 1 "W" ["2_0"%string] 1 1400 ["f"; "W"]%char ["W"]%char;
    round3_player 2 1 "B" ["3_0"; "5_0"]%string (3 # 2) 1800 ["W"; "B"]%char ["W"; "B"]%char;
    round3_player 1 3 "W" ["4_0"%string] (3 # 2) 1700 ["B"; "f"]%char ["B"]%char;
    round3_player 3 2 "W" ["2_0"; "4_0"]%string (1 # 2) 1500 ["B"; "W"]%char ["B"; "W"]%char;
    round3_player 4 2 "B" ["1_0"; "3_0"]%string (3 # 2) 1500 ["W"; "B"]%char ["W"; "B"]%char ].

(** What a search of the optimiser maintains: the costs accepted so far,
    from the cost [start] of the starting pairing on, are strictly
    decreasing; the current best cost is the last of them; and all carry
    the section size [n]. *)
Definition accepted_chain (n : Z) (start : Cost) (st : OptState) : Prop :=
  strictly_decreasing (start :: rev (os_accepted st)) ∧
  last (start :: rev (os_accepted st)) = Some (os_bestCost st) ∧
  Forall (λ c, players c = n) (start :: rev (os_accepted st)).

(** The canonical vector of [c3_section] and the pairing its hints give. *)
Definition c3_players : PlayerVector := default [] (CanonicalPlayerVector c3_section).
Definition c3_start : IndexVector := default [] (HintPairings c3_players true).

(** ** The pairing vector as a list of boards *)

(** The boards [(pair[0], pair[1]), (pair[2], pair[3]), ...]. *)
Fixpoint to_boards (pair : list nat) : list (nat * nat) :=
  match pair with
  | a :: b :: rest => (a, b) :: to_boards rest
  | _ => []
  end.

Fixpoint of_boards (bs : list (nat * nat)) : list nat :=
  match bs with
  | [] => []
  | b :: bs' => b.1 :: b.2 :: of_boards bs'
  end.

(** [pl[r]] for a rank that is in range. *)
Definition player_at (pl : list Player) (r : nat) : Player :=
  default Player_default (pl !! r).

(** The three leading keys of the comparison of [SortBoards], as a
    number: [paired] of the first player, whether the second one is the
    bye, [bye_request] of the first player. *)
Definition board_class (pl : list Player) (b : nat * nat) : nat :=
  (if paired (player_at pl b.1) then 4 else 0)
  + (if is_bye (player_at pl b.2) then 2 else 0)
  + (if bye_request (player_at pl b.1) then 1 else 0).

Definition class_le (pl : list Player) (u v : nat * nat) : Prop :=
  (board_class pl u <= board_class pl v)%nat.

(** A player who is to be paired: no bye request, not paired by hand,
    not the bye. *)
Definition is_free (p : Player) : bool :=
  negb (bye_request p) && negb (paired p) && negb (is_bye p).

(** The two kinds of boards [HintPairings] makes: a board of players to
    be paired (the second one may be the bye), and a board that is kept
    apart (two players paired by hand, or a player with the bye who is
    paired by hand or has asked for the bye). *)
Definition free_board (pl : list Player) (b : nat * nat) : Prop :=
  is_free (player_at pl b.1) = true ∧
  (is_free (player_at pl b.2) = true ∨ is_bye (player_at pl b.2) = true).

Definition kept_board (pl : list Player) (b : nat * nat) : Prop :=
  let a := player_at pl b.1 in
  let c := player_at pl b.2 in
  is_bye a = false ∧
  ((paired a = true ∧ paired c = true ∧ is_bye c = false) ∨
   (is_bye c = true ∧ paired a || bye_request a = true)).

Definition hint_board (pl : list Player) (b : nat * nat) : Prop :=
  free_board pl b ∨ kept_board pl b.

(** The vector [pl] as [HintPairings] and [SwissPairings] assert it:
    every player carries its index as rank, and the bye is the last
    entry and the only one. *)
Definition ranked (pl : list Player) : Prop :=
  ∀ x p, pl !! x = Some p →
    rank p = Z.of_nat x ∧ (is_bye p = true ↔ S x = length pl).

(** The number of slots of a pairing vector that hold the rank [r]. *)
Definition occurrences (r : nat) (pair : list nat) : nat :=
  count_occ Nat.eq_dec pair r.
Arguments occurrences : simpl never.

(** The number of players of [pl] who are to be paired. *)
Definition free_count (pl : list Player) : nat :=
  length (filter (λ p, is_free p = true) pl).

(** ** The boards of the final pairing *)

(** [pl'] differs from [pl] in board numbers and board colors only. *)
Definition same_but_boards (pl pl' : list Player) : Prop :=
  length pl' = length pl ∧
  ∀ r p', pl' !! r = Some p' → ∃ p bn bc, pl !! r = Some p ∧ p' = set_board p bn bc.

(** The two colors of a board, one White and one Black. *)
Definition white_and_black (ca cb : ascii) : Prop :=
  (ca = "W"%char ∧ cb = "B"%char) ∨ (ca = "B"%char ∧ cb = "W"%char).

(** Board [k] of the final pairing, [b = (pair[2k], pair[2k+1])], in a
    vector [pl] whose last rank [n] is the bye: the first player is an
    active one, the second another active one or the bye; the active
    players carry the board number [first + k]; the colors are White and
    Black, and White is with the player who has the bye. *)
Definition board_done (pl : list Player) (n : nat) (first : Z) (k : nat)
    (b : nat * nat) : Prop :=
  let pa := player_at pl b.1 in
  let pb := player_at pl b.2 in
  (b.1 < n)%nat ∧ (b.2 <= n)%nat ∧ b.1 ≠ b.2 ∧
  board_num pa = first + Z.of_nat k ∧
  ((b.2 < n)%nat → board_num pb = first + Z.of_nat k) ∧
  white_and_black (board_color pa) (board_color pb) ∧
  (b.2 = n → board_color pa = "W"%char ∧ board_color pb = "B"%char).

(** A Swiss section or a round robin: what the test on [trn_type] at the
    start of [FindPairings] decides, for every player. *)
Definition is_swiss (p : Player) : Prop :=
  trn_type p ≠ "R"%char ∧ trn_type p ≠ "D"%char.

(** The player comes with a board hint. *)
Definition has_hint (p : Player) : Prop := board_num p ≠ -1.

(** Players before the first round of a Swiss section. *)
Definition round1_player (id bn : Z) (breq : bool) (rating : Z) : Player :=
  mkPlayer "S" 1 bn "W" id 0 0 [] [] 0 rating false "uscf" 10 (inject_Z id / 10) false
    breq 0 0 [] [] [] [] "W" 1 false 0 [] [].

(** Four players, two of whom have asked for a bye. *)
Definition two_byes : PlayerVector :=
  [ round1_player 1 1 false 1800; round1_player 2 1 false 1700;
    round1_player 3 2 true 1600; round1_player 4 3 true 1500 ].

(** Five players; the fourth one comes without a board hint. *)
Definition one_without_hint : PlayerVector :=
  [ round1_player 1 1 false 1800; round1_player 2 1 false 1700;
    round1_player 3 2 false 1600; round1_player 4 (-1) false 1500;
    round1_player 5 3 true 1400 ].

(** The canonical vector of [two_byes]. *)
Definition two_byes_players : PlayerVector :=
  default [] (CanonicalPlayerVector two_byes).

(** The numbers 0 to 7 in order, a pairing vector of four boards. *)
Definition eight_slots : IndexVector := seq 0 8.

(** Seven players with one point each before their second round, with
    the colors of the first round, and their canonical vector. *)
Definition round2_player (id bn : Z) (rating : Z) (c : ascii) : Player :=
  mkPlayer "S" 2 bn "W" id 0 0 [] [] 1 rating false "uscf" 10 (inject_Z id / 10) false
    false 0 0 [] [] [c] [c] "W" 1 false 0 [] [].

Definition color_section : PlayerVector :=
  [ round2_player 1 1 1800 "W"; round2_player 2 1 1750 "W"; round2_player 3 2 1700 "W";
    round2_player 4 2 1650 "B"; round2_player 5 3 1600 "B"; round2_player 6 3 1550 "W";
    round2_player 7 4 1500 "B" ].

Definition color_players : PlayerVector :=
  default [] (CanonicalPlayerVector color_section).



(** From the state [st] of a search to a later state [st']: the accepted
    costs have grown by [ext], and when nothing was accepted the best
    pairing and its cost are those of [st]. *)
Definition kept_unless_accepted (st st' : OptState) : Prop :=
  ∃ ext, os_accepted st' = ext ++ os_accepted st ∧
         (ext = [] → os_bestPair st' = os_bestPair st ∧ os_bestCost st' = os_bestCost st).

(** ** The round-robin tables *)

(** The size of the table that [CrenshawBergerLookup] reads: an odd
    number of competitors is raised by one. *)
Definition seats (competitors : Z) : Z :=
  if competitors mod 2 =? 1 then competitors + 1 else competitors.

(** The player numbers that the loop over the pairings of a row reads. *)
Fixpoint pairing_numbers (fuel : nat) (pairings : string) : list Z :=
  match fuel with
  | O => []
  | S fuel' =>
      match find_char "-" pairings with
      | None => []
      | Some dash =>
          atoi pairings :: atoi (substr pairings (dash + 1)) ::
          match find_from " " pairings (dash + 1) with
          | None => []
          | Some space => pairing_numbers fuel' (substr pairings (space + 1))
          end
      end
  end.

(** Size, round and player numbers of a row of [roundRobinPairings]. *)
Definition row_numbers (row : string) : option (Z * Z * list Z) :=
  tab ← find_char (ascii_of_nat 9) row;
  let size := atoi (substr row (tab + 1)) in
  tab ← find_from (ascii_of_nat 9) row (tab + 1);
  let rnd := atoi (substr row (tab + 1)) in
  tab ← find_from (ascii_of_nat 9) row (tab + 1);
  let pairings := substr row (tab + 1) in
  Some (size, rnd, pairing_numbers (S (String.length pairings)) pairings).

Definition row_in_range (row : string) : bool :=
  match row_numbers row with
  | Some (size, rnd, nums) =>
      (4 <=? size) && (size <=? 10) && (size mod 2 =? 0) && (1 <=? rnd) && (rnd <? size)
      && forallb (λ p, (1 <=? p) && (p <=? size)) nums
  | None => false
  end.

(** The answers of the lookup for the players of one round. *)
Definition round_seats (n r w : Z) : list (Z * option (Z * ascii)) :=
  map (λ p, (p, CrenshawBergerLookup n r p w)) (seqZ 1 (seats n)).

Definition has_seat (b : Z) (c : ascii) (e : Z * option (Z * ascii)) : bool :=
  match e.2 with
  | Some (b', c') => (b' =? b) && Ascii.eqb c' c
  | None => false
  end.

Definition one_on_each_seat (n : Z) (tbl : list (Z * option (Z * ascii))) : bool :=
  forallb (λ e, match e.2 with Some _ => true | None => false end) tbl
  && forallb (λ b, forallb (λ c, match List.filter (has_seat b c) tbl with
                                 | [_] => true
                                 | _ => false
                                 end) ["W"; "B"]%char)
             (seqZ 1 (seats n / 2)).

(** The withdrawn players that the lookup admits: none (0) for an odd
    number of competitors. *)
Definition withdrawals (n : Z) : list Z :=
  if n mod 2 =? 1 then [0] else seqZ 0 (n + 1).

(** The boards of all rounds of a table without a withdrawal. *)
Definition schedule (n : Z) : list (Z * list (Z * option Z)) :=
  map (λ r, (r, map (λ p, (p, fst <$> CrenshawBergerLookup n r p 0)) (seqZ 1 (seats n))))
      (seqZ 1 (seats n - 1)).

Definition board_in (tbl : list (Z * option Z)) (p : Z) : option Z :=
  mjoin (snd <$> List.find (λ e, e.1 =? p) tbl).

Definition meet_in (p q : Z) (e : Z * list (Z * option Z)) : bool :=
  match board_in e.2 p, board_in e.2 q with
  | Some b1, Some b2 => b1 =? b2
  | _, _ => false
  end.

(** Two players sit at the same board in a round. *)
Definition same_board (n r p q : Z) : Prop :=
  ∃ b c1 c2, CrenshawBergerLookup n r p 0 = Some (b, c1) ∧
             CrenshawBergerLookup n r q 0 = Some (b, c2).

(** * Properties of the embedding *)

(** ** The comparison of Cost records *)

Lemma Cost_lt_loop_lex xs c1 c2 :
  Cost_lt_loop xs c1 c2 = lex_lt (map (word c1) xs) (map (word c2) xs).
Proof.
  induction xs as [|x xs IH]; simpl; [done|].
  destruct (word c1 x <? word c2 x); [done|].
  destruct (word c1 x >? word c2 x); [done|]. apply IH.
Qed.

Lemma words_of_Cost c :
  map (word c) (seq 0 (sizeof_Cost / sizeof_CostValue)%nat)
  = counters c ++ [as_int64 (players c)].
Proof. destruct c. reflexivity. Qed.

Lemma length_counters c : length (counters c) = 26%nat.
Proof. reflexivity. Qed.

Lemma lex_lt_snoc_same l1 l2 a :
  length l1 = length l2 → lex_lt (l1 ++ [a]) (l2 ++ [a]) = lex_lt l1 l2.
Proof.
  revert l2. induction l1 as [|v1 l1 IH]; intros [|v2 l2] Hlen; simpl in *;
    try discriminate.
  - rewrite Z.ltb_irrefl, Z.gtb_ltb, Z.ltb_irrefl. done.
  - destruct (v1 <? v2); [done|]. destruct (v1 >? v2); [done|].
    apply IH. lia.
Qed.

Lemma lex_lt_first_diff l1 l2 :
  lex_lt l1 l2 = true ↔
  ∃ k v1 v2, l1 !! k = Some v1 ∧ l2 !! k = Some v2 ∧ v1 < v2 ∧
             ∀ j, (j < k)%nat → l1 !! j = l2 !! j.
Proof.
  revert l2. induction l1 as [|a l1 IH]; intros l2.
  { simpl. split; [done|]. intros (k & v1 & v2 & H & _). by destruct k. }
  destruct l2 as [|b l2].
  { simpl. split; [done|]. intros (k & v1 & v2 & _ & H & _). by destruct k. }
  simpl. destruct (Z.ltb_spec a b) as [Hab|Hab].
  { split; [|done]. intros _. exists 0%nat, a, b. repeat split; try done. lia. }
  rewrite Z.gtb_ltb. destruct (Z.ltb_spec b a) as [Hba|Hba].
  { split; [done|]. intros (k & v1 & v2 & H1 & H2 & Hlt & Hpre).
    destruct k as [|k]; simpl in *.
    - simplify_eq. lia.
    - specialize (Hpre 0%nat ltac:(lia)). simpl in Hpre. simplify_eq. lia. }
  assert (a = b) as -> by lia. rewrite IH. split.
  - intros (k & v1 & v2 & H1 & H2 & Hlt & Hpre).
    exists (S k), v1, v2. repeat split; try done.
    intros [|j] Hj; simpl; [done|]. apply Hpre. lia.
  - intros (k & v1 & v2 & H1 & H2 & Hlt & Hpre).
    destruct k as [|k]; simpl in *; [simplify_eq; lia|].
    exists k, v1, v2. repeat split; try done.
    intros j Hj. apply (Hpre (S j)). lia.
Qed.

(** On records of one section (equal [players]) the comparison is the
    lexicographic order over the 26 counters. *)
Lemma Cost_lt_same_players c1 c2 :
  players c1 = players c2 →
  Cost_lt c1 c2 = true ↔ first_diff_smaller c1 c2.
Proof.
  intros Hp. unfold Cost_lt, first_diff_smaller.
  rewrite Cost_lt_loop_lex, !words_of_Cost, Hp.
  rewrite lex_lt_snoc_same by (by rewrite !length_counters).
  apply lex_lt_first_diff.
Qed.

(** C2: [operator<] runs over [sizeof(Cost)/sizeof(CostValue)] = 27 words,
    so it also compares the trailing [players] field: two records whose
    26 counters all agree (both are [IsZero]) are nevertheless ordered, and
    no counter is "the first where they differ". *)
Theorem C2_Cost_lt_compares_players :
  counters cost_of_3 = counters cost_of_4 ∧
  IsZero cost_of_3 = true ∧ IsZero cost_of_4 = true ∧
  Cost_lt cost_of_3 cost_of_4 = true ∧
  ¬ first_diff_smaller cost_of_3 cost_of_4.
Proof.
  repeat split; try reflexivity.
  intros (k & v1 & v2 & H1 & H2 & Hlt & _).
  change (counters cost_of_4) with (counters cost_of_3) in H2.
  rewrite H1 in H2. simplify_eq. lia.
Qed.

(** ** Multiple *)

Lemma round_double_small z : Z.abs z <= 2 ^ 53 → round_double z = z.
Proof.
  intros Hz. unfold round_double.
  destruct (Z.ltb_spec (Z.abs z) (2 ^ 53)) as [|Hge]; [done|].
  assert (Z.abs z = 2 ^ 53) as Habs by lia.
  rewrite Habs. destruct (Z.abs_eq_or_opp z) as [Hp|Hn].
  - rewrite Hp in Habs. subst z. reflexivity.
  - assert (z = - 2 ^ 53) as -> by lia. reflexivity.
Qed.

Lemma geometric_sum_nonneg c N : 0 <= N → 0 <= geometric_sum c N.
Proof. induction c; simpl; intros; [lia|]. assert (0 <= N ^ Z.of_nat c) by (apply Z.pow_nonneg; lia). lia. Qed.

Lemma geometric_sum_mono c c' N :
  0 <= N → (c <= c')%nat → geometric_sum c N <= geometric_sum c' N.
Proof.
  intros HN Hle. induction Hle; [lia|]. simpl.
  assert (0 <= N ^ Z.of_nat m) by (apply Z.pow_nonneg; lia). lia.
Qed.

(** One pass of the loop adds [N^k] exactly while the running sum stays
    within the 53-bit integers. *)
Lemma Multiple_loop_exact n k N :
  0 <= N → Z.of_nat (k + n) <= 2 ^ 53 →
  geometric_sum (k + n) N <= 2 ^ 53 →
  Multiple_loop n (Z.of_nat k) N (geometric_sum k N) = geometric_sum (k + n) N.
Proof.
  intros HN. revert k. induction n as [|n IH]; intros k Hc Hsum.
  { simpl. by rewrite Nat.add_0_r. }
  cbn [Multiple_loop].
  assert (Hk1 : geometric_sum (S k) N <= 2 ^ 53).
  { etrans; [|exact Hsum]. apply geometric_sum_mono; [done|lia]. }
  pose proof (geometric_sum_nonneg k N HN) as Hk0.
  assert (Hpow0 : 0 <= N ^ Z.of_nat k) by (apply Z.pow_nonneg; lia).
  simpl in Hk1.
  assert (Hpow : pow_double N (Z.of_nat k) = N ^ Z.of_nat k).
  { unfold pow_double. rewrite (round_double_small (Z.of_nat k)) by lia.
    destruct k as [|k].
    - simpl. rewrite Z.pow_0_r. reflexivity.
    - assert (Z.abs N <= 2 ^ 53).
      { destruct (Z.eq_dec N 0) as [->|]; [done|].
        assert (N <= N ^ Z.of_nat (S k)); [|lia].
        rewrite <- (Z.pow_1_r N) at 1. apply Z.pow_le_mono_r; lia. }
      rewrite (round_double_small N) by done.
      apply round_double_small. lia. }
  rewrite Hpow, (round_double_small (geometric_sum k N)) by lia.
  rewrite round_double_small by lia.
  unfold double_to_int64.
  assert (- 2 ^ 63 <= geometric_sum k N + N ^ Z.of_nat k < 2 ^ 63) as [H1 H2] by lia.
  apply Z.leb_le in H1. apply Z.ltb_lt in H2. rewrite H1, H2. simpl.
  destruct (Z.ltb_spec (geometric_sum k N + N ^ Z.of_nat k) (geometric_sum k N)); [lia|].
  replace (Z.of_nat k + 1) with (Z.of_nat (S k)) by lia.
  change (geometric_sum k N + N ^ Z.of_nat k) with (geometric_sum (S k) N).
  rewrite IH; [f_equal; lia| |]; by replace (S k + n)%nat with (k + S n)%nat by lia.
Qed.

(** Below 2^53 the weight is the geometric sum. *)
Lemma Multiple_exact c N :
  0 <= c <= 2 ^ 53 → 0 <= N →
  geometric_sum (Z.to_nat c) N <= 2 ^ 53 →
  Multiple c N = geometric_sum (Z.to_nat c) N.
Proof.
  intros Hc HN Hsum. unfold Multiple.
  apply (Multiple_loop_exact (Z.to_nat c) 0 N); simpl; [done|lia|done].
Qed.

(** C7: at [cv = 54], [players = 2] the geometric sum is [2^54 - 1], well
    below the maximum [CostValue], but the last addition is done in
    [double], where [2^54 - 1] is not representable: the function returns
    [2^54]. *)
Theorem C7_Multiple_rounds_in_double :
  geometric_sum 54 2 = 2 ^ 54 - 1 ∧
  geometric_sum 54 2 <= MaxCostValue ∧
  Multiple 54 2 = 2 ^ 54 ∧
  Multiple 54 2 ≠ geometric_sum 54 2.
Proof. by vm_compute. Qed.

(** ** The Crenshaw-Berger lookup *)

(** C6 (as stated): the row for size 4 and withdrawn player 2 holds the
    reversal "4-3", not "2-1". *)
Lemma C6_S4_reversal_is_not_2_1 : ¬ S4_as_claimed.
Proof. intros (_ & H & _). vm_compute in H. discriminate. Qed.

(** C6 (amended): for size 4, round 3 and withdrawn player 2 the lookup
    takes the pairing "1-2 3-4" and the reversal "4-3": players 1 and 2
    keep the table's colors on board 1 (player 2 has Black), and on board
    2 player 4 has White and player 3 Black, the reverse of the table. *)
Theorem C6_S4_lookup :
  selected_pairings roundRobinPairings 4 3 = Some ["1-2 3-4"%string] ∧
  selected_reversals roundRobinReversals 4 2 = Some ["4-3"%string] ∧
  CrenshawBergerLookup 4 3 1 2 = Some (1, "W"%char) ∧
  CrenshawBergerLookup 4 3 2 2 = Some (1, "B"%char) ∧
  CrenshawBergerLookup 4 3 3 2 = Some (2, "B"%char) ∧
  CrenshawBergerLookup 4 3 4 2 = Some (2, "W"%char) ∧
  CrenshawBergerLookup 4 3 3 0 = Some (2, "W"%char) ∧
  CrenshawBergerLookup 4 3 4 0 = Some (2, "B"%char).
Proof. by vm_compute. Qed.

(** ** The canonical player vector *)

Lemma ASSERT_Some b u : ASSERT b = Some u → b = true.
Proof. by destruct b. Qed.

(** Inversion of one step [x ← m; k] of a computation that returned. *)
Ltac inv_bind H :=
  match type of H with
  | mbind _ ?m = Some _ =>
      let E := fresh "E" in
      destruct m eqn:E;
      [ match type of H with
        | mbind ?g (Some ?v) = ?r => change (g v = r) in H; cbv beta in H
        end
      | discriminate H ]
  end.

(** Inversion of [let '(x, y) := p in k] on a variable or a test. *)
Ltac inv_let H :=
  match type of H with
  | context [match ?p with _ => _ end] => is_var p; destruct p; cbv beta iota in H
  | context [match (if ?b then _ else _) with _ => _ end] =>
      destruct b; cbv beta iota in H
  end.

(** The same for [ASSERT b;; k], keeping [b = true]. *)
Ltac inv_assert H :=
  match type of H with
  | mbind _ (ASSERT ?b) = Some _ =>
      let E := fresh "E" in
      destruct (ASSERT b) as [[]|] eqn:E;
      [ apply ASSERT_Some in E;
        match type of H with
        | mbind ?g (Some ?v) = ?r => change (g v = r) in H; cbv beta in H
        end
      | discriminate H ]
  end.

Ltac inv_steps H := repeat first [inv_assert H | inv_bind H | inv_let H].

(** Inversion of every computation in the context that returned, also
    through tests. *)
Ltac inv_hyp H :=
  lazymatch type of H with
  | mbind _ (ASSERT _) = Some _ => inv_assert H
  | mbind _ _ = Some _ => inv_bind H
  | (if ?b then _ else _) = Some _ => let E := fresh "Eb" in destruct b eqn:E
  | (match ?p with _ => _ end) = Some _ => is_var p; destruct p; cbv beta iota in H
  | fmap _ _ = Some _ =>
      let x := fresh "x" in let E := fresh "E" in
      apply fmap_Some in H; destruct H as (x & H & E)
  | Some _ = Some _ => progress simplify_eq
  end.
Ltac inv_all :=
  repeat match goal with H : _ = Some _ |- _ => progress (inv_hyp H) end.

(** [SetRanks] keeps every player in place and changes only the rank
    fields and the due color. *)
Lemma SetRanks_lookup pl pl' i p' :
  SetRanks pl = Some pl' → pl' !! i = Some p' →
  ∃ p due o t, pl !! i = Some p ∧ p' = set_ranks p (Z.of_nat i) due o t.
Proof.
  unfold SetRanks. intros H Hi.
  destruct (ASSERT _) as [[]|]; [simpl in H|done].
  apply mapM_Some_1 in H.
  rewrite Forall2_lookup in H. specialize (H i).
  unfold PlayerVector in *. rewrite list_lookup_imap, Hi in H.
  destruct (pl !! i) as [p|] eqn:Hp; simpl in H; inversion H as [xp q Hq|]; subst.
  simpl in Hq. destruct (DueColor _ _) as [due|]; [|done]. simpl in Hq.
  injection Hq as <-. eauto 10.
Qed.

Lemma SetRanks_length pl pl' : SetRanks pl = Some pl' → length pl' = length pl.
Proof.
  unfold SetRanks. intros H.
  destruct (ASSERT _) as [[]|]; [simpl in H|done].
  apply length_mapM in H. by rewrite length_imap in H.
Qed.

(** The vector that [CanonicalPlayerVector] sorts. *)
Lemma CanonicalPlayerVector_inv pl pl' :
  CanonicalPlayerVector pl = Some pl' →
  ∃ src sorted,
    (src = pl ∨ src = pl ++ [bye_sentinel (default Player_default (head pl))]) ∧
    sorted ≡ₚ src ∧ SetRanks sorted = Some pl' ∧
    from_option is_bye false (last pl') = true ∧
    forallb (λ p, negb (is_bye p)) (removelast pl') = true.
Proof.
  unfold CanonicalPlayerVector. intros H.
  match type of H with context [SetRanks (sort_by Player_lt ?s)] => set (src := s) in * end.
  destruct (ASSERT (distinct_rand src)) as [[]|] eqn:E0; [simpl in H|done].
  destruct (SetRanks (sort_by Player_lt src)) as [pl1|] eqn:E; [simpl in H|done].
  destruct (ASSERT (from_option _ _ _)) as [[]|] eqn:E1; [simpl in H|done].
  destruct (ASSERT (forallb _ _)) as [[]|] eqn:E2; [simpl in H|done].
  injection H as <-. exists src, (sort_by Player_lt src).
  split_and!; [unfold src; case_match; auto|apply merge_sort_Permutation|done| |].
  - by apply ASSERT_Some in E1.
  - by apply ASSERT_Some in E2.
Qed.

(** ** The round-robin short-cut *)

Lemma head_canonical_round_robin pl pl' p0 :
  pl ≠ [] → Forall is_round_robin pl →
  CanonicalPlayerVector pl = Some pl' → head pl' = Some p0 →
  is_round_robin p0.
Proof.
  intros Hne Hall Hc Hh.
  destruct (CanonicalPlayerVector_inv _ _ Hc) as (src & sorted & Hsrc & Hperm & Hset & Hlast & Hrest).
  rewrite head_lookup in Hh.
  destruct (SetRanks_lookup _ _ _ _ Hset Hh) as (p & due & o & t & Hp & ->).
  unfold is_round_robin. simpl. change (is_round_robin p).
  assert (Hin : p ∈ src) by (rewrite <- Hperm; by eapply list_elem_of_lookup_2).
  destruct Hsrc as [->| ->]; [by eapply Forall_forall|].
  apply elem_of_app in Hin as [Hin|Hin]; [by eapply Forall_forall|].
  apply list_elem_of_singleton in Hin. exfalso.
  assert (Hlen : (2 <= length pl')%nat).
  { rewrite (SetRanks_length _ _ Hset), Hperm, length_app. simpl.
    destruct pl; [done|simpl; lia]. }
  destruct pl' as [|q [|q' rest]]; simpl in Hlen; try lia.
  simpl in Hh. injection Hh as ->.
  simpl in Hrest. apply andb_true_iff in Hrest as [Hq _].
  by rewrite Hin in Hq.
Qed.

Lemma set_board_color_id p : set_board_color p (board_color p) = p.
Proof. by destruct p. Qed.

(** [robin_bye] changes colors only: White for the first player on the
    board of [back], Black for [back] when there is such a player. *)
Lemma robin_bye_spec : ∀ ps back ps' back',
  robin_bye ps back = (ps', back') →
  length ps' = length ps ∧
  (back' = back ∨ back' = set_board_color back "B") ∧
  ∀ x p, ps !! x = Some p →
    ∃ c, ps' !! x = Some (set_board_color p c) ∧
      let first := board_num p = board_num back ∧
                   ∀ y p', (y < x)%nat → ps !! y = Some p' →
                           board_num p' ≠ board_num back in
      (first → c = "W"%char) ∧ (¬ first → c = board_color p).
Proof.
  induction ps as [|p0 ps IH]; intros back ps' back' H.
  { simpl in H. injection H as <- <-. split_and!; [done|by left|]. by intros x p Hx. }
  cbn [robin_bye] in H. destruct (Z.eqb_spec (board_num p0) (board_num back)) as [He|Hne].
  - injection H as <- <-. split_and!; [done|by right|].
    intros [|x] p Hx; simpl in Hx.
    + injection Hx as ->. exists "W"%char. split; [done|]. split; [done|].
      intros Hn. exfalso. apply Hn. split; [done|]. intros y p' Hy. lia.
    + exists (board_color p). rewrite set_board_color_id. split; [done|].
      split; [|done]. intros [_ Hf]. exfalso.
      apply (Hf 0%nat p0); [lia|done|done].
  - destruct (robin_bye ps back) as [ps'' back''] eqn:E. injection H as <- <-.
    destruct (IH _ _ _ E) as (Hlen & Hback & Hall).
    split_and!; [simpl; by rewrite Hlen|done|].
    intros [|x] p Hx; simpl in Hx.
    + injection Hx as ->. exists (board_color p). rewrite set_board_color_id.
      split; [done|]. split; [|done]. by intros [? _].
    + destruct (Hall x p Hx) as (c & Hc & Hw & Hk). exists c. split; [done|].
      cbv zeta in *. split.
      * intros [Hb Hf]. apply Hw. split; [done|].
        intros y p' Hy Hp'. apply (Hf (S y) p'); [lia|done].
      * intros Hn. apply Hk. intros [Hb Hf]. apply Hn. split; [done|].
        intros [|y] p' Hy Hp'; simpl in Hp'; [by injection Hp' as <-|].
        apply (Hf y p'); [lia|done].
Qed.

Lemma set_board_twice p b c c' :
  set_board_color (set_board p b c) c' = set_board p b c'.
Proof. done. Qed.

Lemma last_lookup_length {A} (l : list A) : last l = l !! (length l - 1)%nat.
Proof. rewrite last_lookup. f_equal. lia. Qed.

(** The round-robin short-cut seats the sorted vector by the tables. *)
Lemma RoundRobinPairings_seats pl totalRounds firstBoardNum out :
  RoundRobinPairings pl totalRounds firstBoardNum = Some out →
  ∃ p0 w,
    head (sort_by LessRobinSort pl) = Some p0 ∧
    withdrawn_player (imap pair (sort_by LessRobinSort pl))
      (length (sort_by LessRobinSort pl)) (totalRounds `quot` multiround p0) 0 = Some w ∧
    seated_by_the_tables (sort_by LessRobinSort pl) w firstBoardNum out.
Proof.
  unfold RoundRobinPairings. intros H. cbv zeta in H.
  set (sorted := sort_by LessRobinSort pl) in *.
  inv_bind H. inv_assert H. inv_assert H. inv_bind H. inv_bind H. inv_bind H.
  match goal with Hm : mapM _ _ = Some ?v |- _ =>
    rename v into looked; rename Hm into Hmap end.
  match goal with Hl : last looked = Some ?v |- _ => rename v into back; rename Hl into Hlast end.
  match goal with Hh : head sorted = Some ?p |- _ => rename p into hd end.
  match goal with Hw : withdrawn_player _ _ _ _ = Some ?v |- _ => rename v into w end.
  exists hd, w. split; [done|]. split; [done|].
  unfold seated_by_the_tables, robin_color_rule, first_on_last_board.
  unfold PlayerVector in *.
  apply mapM_Some_1 in Hmap.
  pose proof (Forall2_length _ _ _ Hmap) as Hlen. rewrite length_imap in Hlen.
  (* every player of [looked] is the sorted one with the board of the tables *)
  assert (Hlook : ∀ x px, sorted !! x = Some px →
    ∃ board color,
      CrenshawBergerLookup (Z.of_nat (length sorted)) (robin_round px)
        (Z.of_nat x + 1) w = Some (board, color) ∧
      looked !! x = Some (set_board px (board + (firstBoardNum - 1)) color)).
  { intros x px Hx.
    assert (Hi : imap pair sorted !! x = Some (x, px)) by (by rewrite list_lookup_imap, Hx).
    destruct (Forall2_lookup_l _ _ _ _ _ Hmap Hi) as (lx & Hlx & Hf).
    cbn [fst snd] in Hf. cbv zeta in Hf. inv_assert Hf. inv_bind Hf.
    match goal with Hc : CrenshawBergerLookup _ _ _ _ = Some ?v |- _ =>
      destruct v as [board color] end.
    injection Hf as <-. by exists board, color. }
  assert (Hne : (0 < length sorted)%nat) by (destruct sorted; [done|simpl; lia]).
  assert (Hsl : ∃ sback, last sorted = Some sback ∧ is_bye sback = is_bye back).
  { destruct (sorted !! (length sorted - 1)%nat) as [sb|] eqn:Es.
    2: { apply lookup_ge_None in Es. lia. }
    exists sb. split; [by rewrite last_lookup_length|].
    destruct (Hlook _ _ Es) as (b & c & _ & Hl).
    rewrite last_lookup_length, <- Hlen, Hl in Hlast. by injection Hlast as <-. }
  destruct Hsl as (sback & Hsb & Hbye).
  destruct (is_bye back) eqn:Eb.
  - (* the bye is last: [robin_bye] *)
    destruct (robin_bye (removelast looked) back) as [ps back'] eqn:Er.
    inv_assert H. injection H as <-.
    destruct (robin_bye_spec _ _ _ _ Er) as (Hplen & Hback & Hall).
    assert (Hrl : length (removelast looked) = (length sorted - 1)%nat).
    { rewrite removelast_firstn_len, length_take. lia. }
    assert (Hbn : board_num back' = board_num back) by (by destruct Hback as [->| ->]).
    assert (Houtlast : last (ps ++ [back']) = Some back') by apply last_snoc.
    assert (Hrm : ∀ x, (x < length sorted - 1)%nat → removelast looked !! x = looked !! x).
    { intros x Hx. rewrite removelast_firstn_len. apply lookup_take_lt. lia. }
    assert (Hout : ∀ y, (y < length sorted - 1)%nat →
              (ps ++ [back']) !! y = ps !! y).
    { intros y Hy. apply lookup_app_l. lia. }
    split; [rewrite length_app; simpl; lia|].
    intros x px Hx. destruct (Hlook x px Hx) as (board & color & Hcb & Hl).
    exists board, color.
    pose proof (lookup_lt_Some _ _ _ Hx) as Hxlt.
    destruct (decide (x = (length sorted - 1)%nat)) as [->|Hxn].
    + (* the bye itself *)
      exists back'.
      assert (Hb : back = set_board px (board + (firstBoardNum - 1)) color).
      { rewrite last_lookup_length, <- Hlen, Hl in Hlast. by injection Hlast. }
      split; [done|]. split.
      { rewrite lookup_app_r by lia. replace (_ - _)%nat with 0%nat by lia. done. }
      match goal with Hc : (_ =? _)%char = true |- _ => apply Ascii.eqb_eq in Hc; rename Hc into HB end.
      split.
      { destruct Hback as [->| ->]; rewrite Hb; [|done].
        rewrite <- (set_board_twice px _ color (board_color _)).
        rewrite <- Hb. by rewrite set_board_color_id. }
      rewrite Hsb, Hbye.
      split; [done|]. intros; lia.
    + assert (Hx' : (x < length sorted - 1)%nat) by lia.
      rewrite <- Hrm in Hl by done.
      destruct (Hall x _ Hl) as (c & Hc & Hw & Hk). cbv zeta in Hw, Hk.
      rewrite set_board_twice in Hc.
      exists (set_board px (board + (firstBoardNum - 1)) c).
      split; [done|]. split; [by rewrite Hout|]. split; [done|].
      rewrite Hsb, Hbye. split; [intros; lia|]. intros _.
      cbn [board_color set_board].
      assert (Hfirst : first_on_last_board (ps ++ [back']) x ↔
        board_num (set_board px (board + (firstBoardNum - 1)) color) = board_num back ∧
        ∀ y p', (y < x)%nat → removelast looked !! y = Some p' →
                board_num p' ≠ board_num back).
      { unfold first_on_last_board. rewrite Houtlast. split.
        - intros (qx & bk & Hq & [= <-] & _ & Hbq & Hf).
          rewrite Hout, Hc in Hq by done. injection Hq as <-.
          split; [by rewrite <- Hbn|].
          intros y p' Hy Hp'. destruct (Hall y p' Hp') as (c' & Hc' & _).
          rewrite <- Hbn. apply (Hf y (set_board_color p' c')); [done|].
          rewrite Hout by lia. done.
        - intros [Hbq Hf]. eexists _, back'. split; [by rewrite Hout, Hc|].
          split; [done|]. split; [rewrite length_app; simpl; lia|].
          split; [by rewrite Hbn|].
          intros y qy Hy Hqy. rewrite Hout in Hqy by lia.
          destruct (removelast looked !! y) as [p'|] eqn:Ep.
          2: { apply lookup_ge_None in Ep. lia. }
          destruct (Hall y p' Ep) as (c' & Hc' & _). rewrite Hc' in Hqy.
          injection Hqy as <-. rewrite Hbn. by apply (Hf y p'). }
      split.
      * intros Hf. apply Hw. by apply Hfirst.
      * intros Hf. rewrite Hk; [done|]. intros Hn. apply Hf. by apply Hfirst.
  - (* no bye: the colors of the tables *)
    injection H as <-. split; [done|].
    intros x px Hx. destruct (Hlook x px Hx) as (board & color & Hcb & Hl).
    exists board, color, (set_board px (board + (firstBoardNum - 1)) color).
    split; [done|]. split; [done|]. split; [done|].
    by rewrite Hsb, Hbye.
Qed.

(** C10: on a section all of whose players have the tournament type 'R'
    or 'D', whenever [FindPairings] returns it has taken the round-robin
    short-cut.  The players it leaves are those of the canonical vector
    in the order of [LessRobinSort], each with the board that
    [CrenshawBergerLookup] gives for the size of the vector, the player's
    round, the player's position and the withdrawn player, moved by
    [firstBoardNum - 1], and with the color of the lookup (the bye, when
    it is last, gets Black and the first player on its board White);
    nothing else of a player changes.  The returned cost is the all-zero
    record (its 26 counters are 0) and the optimiser accepted no pairing,
    whatever the opponents, colors, scores and bye requests of the
    players are. *)
Theorem C10_round_robin_returns_zero_cost
    fuel pl totalRounds firstBoardNum depth useFirstPairings skipOptimize out :
  pl ≠ [] → Forall is_round_robin pl →
  FindPairings fuel pl totalRounds firstBoardNum depth useFirstPairings skipOptimize
    = Some out →
  (∃ pl' p0 w,
     CanonicalPlayerVector (request_house_bye pl).1 = Some pl' ∧
     RoundRobinPairings pl' totalRounds firstBoardNum = Some (fp_players out) ∧
     head (sort_by LessRobinSort pl') = Some p0 ∧
     withdrawn_player (imap pair (sort_by LessRobinSort pl'))
       (length (sort_by LessRobinSort pl')) (totalRounds `quot` multiround p0) 0
       = Some w ∧
     seated_by_the_tables (sort_by LessRobinSort pl') w firstBoardNum (fp_players out)) ∧
  fp_cost out = Cost_zero ∧ IsZero (fp_cost out) = true ∧
  Forall (λ v, v = 0) (counters (fp_cost out)) ∧ fp_accepted out = ([], []).
Proof.
  intros Hne Hall H. unfold FindPairings in H.
  destruct (check_multiround pl) as [[]|]; [simpl in H|done].
  destruct (request_house_bye pl) as [pl2 n2] eqn:Eh. simpl.
  assert (pl2 ≠ [] ∧ Forall is_round_robin pl2) as [Hne2 Hall2].
  { unfold request_house_bye in Eh. destruct (house_player pl) as [hp np].
    destruct (if (np mod 2 =? 0)%nat then None else hp) as [h|];
      injection Eh as <- <-; [|done]. split.
    - intros E. apply (f_equal length) in E. unfold PlayerVector in *.
      rewrite length_alter in E. by destruct pl.
    - apply Forall_alter; [done|]. by intros x _ Hx. }
  destruct (CanonicalPlayerVector pl2) as [pl'|] eqn:Hc; [simpl in H|done].
  destruct (head pl') as [p0|] eqn:Hh; [simpl in H|done].
  assert (Hrr : ∃ plr, RoundRobinPairings pl' totalRounds firstBoardNum = Some plr ∧
                       out = mkPairings plr Cost_zero [] ([], [])).
  { pose proof (head_canonical_round_robin _ _ _ Hne2 Hall2 Hc Hh) as [E|E];
      rewrite E in H; simpl in H;
      (destruct (RoundRobinPairings _ _ _) as [plr|] eqn:Er; [simpl in H|done]);
      injection H as <-; by exists plr. }
  destruct Hrr as (plr & Hr & ->). cbn [fp_players fp_cost fp_accepted].
  split_and!; try reflexivity.
  - destruct (RoundRobinPairings_seats _ _ _ _ Hr) as (q0 & w & Hq0 & Hw & Hs).
    exists pl', q0, w. by split_and!.
  - by vm_compute; repeat constructor.
Qed.

(** The three-player section [robin3] in its second round: the players
    have met, have different scores and colors; each of them and the bye
    have the seat of the tables for four, and the cost is zero. *)
Lemma C10_round_robin_returns_zero_cost_witness :
  robin3 ≠ [] ∧ Forall is_round_robin robin3 ∧
  ∃ out, FindPairings 0 robin3 3 1 1 false false = Some out ∧
         fp_cost out = Cost_zero ∧
         ∃ pl' w, seated_by_the_tables (sort_by LessRobinSort pl') w 1 (fp_players out) ∧
                  length (fp_players out) = 4%nat.
Proof.
  split; [discriminate|]. split; [repeat constructor|].
  destruct (FindPairings 0 robin3 3 1 1 false false) as [out|] eqn:E;
    [|vm_compute in E; discriminate].
  exists out. split; [reflexivity|].
  destruct (C10_round_robin_returns_zero_cost 0 robin3 3 1 1 false false out)
    as ((pl' & p0 & w & Hc & Hr & Hh & Hw & Hs) & Hz & _);
    [discriminate|repeat constructor|exact E|].
  split; [exact Hz|]. exists pl', w. split; [exact Hs|].
  vm_compute in E. injection E as <-. reflexivity.
Defined.

(** ** The team-majority short-circuit of the lookahead *)

(** A run that cannot reach the best count leaves the mode alone. *)
Lemma mode_scan_short team mode next modeCnt nextCnt :
  (nextCnt + length team <= modeCnt)%nat →
  mode_scan team mode next modeCnt nextCnt = (mode, modeCnt).
Proof.
  revert next nextCnt. induction team as [|x team IH]; intros next nextCnt H; [done|].
  simpl in *. destruct (x =? next).
  - destruct (Nat.ltb_spec modeCnt (S nextCnt)); [lia|]. apply IH. lia.
  - destruct (Nat.ltb_spec modeCnt 1); [lia|]. apply IH. lia.
Qed.

(** Ids other than [t] in front: the scan goes on from some state whose
    counts are bounded by the number of elements read. *)
Lemma mode_scan_others t front rest mode next modeCnt nextCnt :
  Forall (λ x, x ≠ t) front → next ≠ t →
  ∃ mode' next' modeCnt' nextCnt',
    mode_scan (front ++ rest) mode next modeCnt nextCnt
      = mode_scan rest mode' next' modeCnt' nextCnt' ∧
    next' ≠ t ∧
    (modeCnt' <= Nat.max modeCnt (nextCnt + length front))%nat ∧
    (nextCnt' <= nextCnt + length front)%nat.
Proof.
  intros Hfront. revert mode next modeCnt nextCnt.
  induction Hfront as [|x front Hx _ IH]; intros mode next modeCnt nextCnt Hn.
  { exists mode, next, modeCnt, nextCnt. simpl. split_and!; [done|done|lia|lia]. }
  simpl. destruct (x =? next) eqn:E.
  - destruct (Nat.ltb_spec modeCnt (S nextCnt)).
    + destruct (IH next next (S nextCnt) (S nextCnt) Hn) as (m & n & mc & nc & -> & ? & ? & ?).
      exists m, n, mc, nc. split_and!; [done|done|lia|lia].
    + destruct (IH mode next modeCnt (S nextCnt) Hn) as (m & n & mc & nc & -> & ? & ? & ?).
      exists m, n, mc, nc. split_and!; [done|done|lia|lia].
  - destruct (Nat.ltb_spec modeCnt 1).
    + destruct (IH x x 1%nat 1%nat Hx) as (m & n & mc & nc & -> & ? & ? & ?).
      exists m, n, mc, nc. split_and!; [done|done|lia|lia].
    + destruct (IH mode x modeCnt 1%nat Hx) as (m & n & mc & nc & -> & ? & ? & ?).
      exists m, n, mc, nc. split_and!; [done|done|lia|lia].
Qed.

(** A run of [k] more ids [t] after [j] of them. *)
Lemma mode_scan_run t k rest mode modeCnt j :
  (j <= modeCnt)%nat →
  mode_scan (replicate k t ++ rest) mode t modeCnt j
  = mode_scan rest (if (modeCnt <? j + k)%nat then t else mode) t
      (Nat.max modeCnt (j + k)) (j + k).
Proof.
  revert mode modeCnt j. induction k as [|k IH]; intros mode modeCnt j Hj.
  { simpl. rewrite Nat.add_0_r.
    destruct (Nat.ltb_spec modeCnt j); [lia|]. by rewrite Nat.max_l by lia. }
  simpl. rewrite Z.eqb_refl.
  destruct (Nat.ltb_spec modeCnt (S j)).
  - rewrite IH by lia. replace (S j + k)%nat with (j + S k)%nat by lia.
    destruct (Nat.ltb_spec (S j) (j + S k)), (Nat.ltb_spec modeCnt (j + S k));
      try lia; f_equal; lia.
  - rewrite IH by lia. replace (S j + k)%nat with (j + S k)%nat by lia.
    destruct (Nat.ltb_spec modeCnt (j + S k)); f_equal; lia.
Qed.

(** The scan of a list in which the ids [t] stand together and outnumber
    the others. *)
Lemma mode_scan_majority t front c back :
  t ≠ 0 → Forall (λ x, x ≠ t) front → Forall (λ x, x ≠ t) back →
  (length front + length back < c)%nat →
  mode_scan (front ++ replicate c t ++ back) 0 0 0%nat 0%nat = (t, c).
Proof.
  intros Ht Hf Hb Hc.
  destruct (mode_scan_others t front (replicate c t ++ back) 0 0 0%nat 0%nat Hf)
    as (m & n & mc & nc & -> & Hn & Hmc & Hnc); [done|].
  destruct c as [|c]; [lia|]. simpl.
  destruct (Z.eqb_spec t n) as [->|_]; [done|].
  assert (E : ∀ mode modeCnt, (1 <= modeCnt)%nat → (modeCnt <= S c)%nat →
    (modeCnt <? 1 + c)%nat = true ∨ mode = t →
    mode_scan (replicate c t ++ back) mode t modeCnt 1%nat = (t, S c)).
  { intros mode modeCnt H1 H2 H3. rewrite mode_scan_run by done.
    assert (Hr : (if (modeCnt <? 1 + c)%nat then t else mode) = t)
      by (destruct H3 as [-> | ->]; [done|by case_match]).
    rewrite Hr, Nat.max_r by lia.
    destruct Hb as [|b back Hb1 Hb2]; [done|]. simpl.
    destruct (Z.eqb_spec b t) as [->|_]; [done|].
    destruct (Nat.ltb_spec (S c) 1); [lia|].
    apply mode_scan_short. simpl in Hc. lia. }
  destruct (Nat.ltb_spec mc 1).
  - apply E; [lia|lia|by right].
  - apply E; [lia|lia|]. left. apply Nat.ltb_lt. lia.
Qed.

(** In a sorted list the ids [t] stand together. *)
Lemma sorted_run t (l : list Z) :
  StronglySorted Z.le l →
  ∃ front back,
    l = front ++ replicate (length (filter (λ x, x = t) l)) t ++ back ∧
    Forall (λ x, x < t) front ∧ Forall (λ x, t < x) back.
Proof.
  induction 1 as [|x l Hs (front & back & Hl & Hf & Hb) Hx].
  { exists [], []. by repeat constructor. }
  rewrite filter_cons. destruct (decide (x = t)) as [->|Hne].
  - exists [], back. split_and!; [|done|done].
    destruct front as [|y front].
    + simpl. f_equal. by rewrite Hl at 1.
    + exfalso. apply Forall_cons in Hf as [Hy _].
      rewrite Hl in Hx. apply Forall_cons in Hx as [Hx _]. lia.
  - destruct (Z.lt_ge_cases x t) as [Hlt|Hge].
    + exists (x :: front), back. split_and!; [|by constructor|done].
      simpl. f_equal. by rewrite Hl at 1.
    + exists [], (x :: back).
      destruct front as [|y front].
      * destruct (length (filter (λ x0, x0 = t) l)) as [|c] eqn:Ec.
        -- simpl in *. split_and!; [by rewrite Hl at 1|done|constructor; [lia|done]].
        -- exfalso. rewrite Hl in Hx. simpl in Hx.
           apply Forall_cons in Hx as [Hx _]. lia.
      * exfalso. apply Forall_cons in Hf as [Hy _].
        rewrite Hl in Hx. apply Forall_cons in Hx as [Hx _]. lia.
Qed.

Lemma length_filter_team t (ps : list Player) :
  length (filter (λ x, x = t) (team_id <$> ps))
  = length (filter (λ p, team_id p = t) ps).
Proof.
  induction ps as [|p ps IH]; [done|].
  rewrite fmap_cons, !filter_cons. destruct (decide (team_id p = t)); simpl; lia.
Qed.

(** The majority test on a vector of active players followed by the
    sentinel. *)
Lemma IsOneTeamMajority_majority (ps : list Player) b t :
  is_bye b = true → Forall (λ p, is_bye p = false) ps →
  t ≠ 0 →
  (length ps < 2 * length (filter (λ p, team_id p = t) ps))%nat →
  IsOneTeamMajority (ps ++ [b]) = Some true.
Proof.
  intros Hb Hps Ht Hmaj. unfold IsOneTeamMajority.
  rewrite last_snoc, removelast_last, length_app. simpl. rewrite Hb.
  replace (0 <? length ps + 1)%nat with true by (symmetry; apply Nat.ltb_lt; lia).
  simpl.
  assert (Hall : forallb (λ p, negb (is_bye p)) ps = true).
  { apply forallb_forall. intros p Hp. rewrite Forall_forall in Hps.
    rewrite Hps; [done|]. by apply list_elem_of_In. }
  rewrite Hall. simpl.
  set (team := sort_Z (team_id <$> ps)).
  assert (Hperm : team ≡ₚ team_id <$> ps) by apply merge_sort_Permutation.
  assert (Hsorted : StronglySorted Z.le team).
  { apply StronglySorted_merge_sort; apply _. }
  destruct (sorted_run t team Hsorted) as (front & back & Hl & Hf & Hk).
  set (c := length (filter (λ x, x = t) team)) in *.
  assert (Hc : c = length (filter (λ p, team_id p = t) ps)).
  { unfold c. rewrite Hperm. apply length_filter_team. }
  assert (Hlen : (length front + c + length back = length ps)%nat).
  { rewrite <- (length_fmap team_id ps), <- Hperm, Hl, !length_app, length_replicate. lia. }
  rewrite Hl at 1.
  rewrite (mode_scan_majority t front c back); [|done| | |lia].
  - destruct (Z.eqb_spec t 0); [done|]. simpl.
    f_equal. apply Nat.leb_le.
    rewrite Hperm, length_fmap. lia.
  - eapply Forall_impl; [exact Hf|]. simpl. lia.
  - eapply Forall_impl; [exact Hk|]. simpl. lia.
Qed.

(** C5: when the players of one team (players who share a team id other
    than 0, the id of players without a team) are more than half of the
    active players of the section, the lookahead with [isTeam = true]
    reports the section as not pairable without looking at the pairing:
    [PairableCost] returns 1 for every candidate [pair] and every positive
    number of remaining rounds. *)
Theorem C5_team_majority_short_circuit (ps : list Player) b pair remainingRounds t :
  is_bye b = true → Forall (λ p, is_bye p = false) ps →
  t ≠ 0 →
  (length ps < 2 * length (filter (λ p, team_id p = t) ps))%nat →
  0 < remainingRounds →
  PairableCost (ps ++ [b]) pair remainingRounds true = Some 1.
Proof.
  intros Hb Hps Ht Hmaj Hr. unfold PairableCost.
  destruct (Z.leb_spec remainingRounds 0); [lia|].
  by rewrite (IsOneTeamMajority_majority ps b t).
Qed.

(** Two players of team 7 among three, two rounds left. *)
Lemma C5_team_majority_short_circuit_witness :
  PairableCost (team_section ++ [bye_sentinel Player_default]) [0; 1; 2; 3]%nat 2 true
  = Some 1.
Proof.
  apply (C5_team_majority_short_circuit team_section (bye_sentinel Player_default)
           [0; 1; 2; 3]%nat 2 7);
    [reflexivity|repeat constructor|discriminate|vm_compute; lia|lia].
Defined.

(** ** Tiebreaks *)

Lemma ordered_keys_insert (prm : gmap string PlayerResult) key p p' :
  prm !! key = Some p → ordered_keys (<[key := p']> prm) = ordered_keys prm.
Proof.
  intros H. unfold ordered_keys. f_equal.
  apply elem_of_map_to_list, list_elem_of_lookup_1 in H as [j Hj].
  unfold PlayerResultMap in *.
  rewrite (map_to_list_update prm j key p p' Hj), list_fmap_insert. simpl.
  apply list_insert_id. by rewrite list_lookup_fmap, Hj.
Qed.

Lemma elem_of_ordered_keys (prm : gmap string PlayerResult) key :
  key ∈ ordered_keys prm ↔ is_Some (prm !! key).
Proof.
  unfold ordered_keys. rewrite merge_sort_Permutation, list_elem_of_fmap. split.
  - intros ([k p] & -> & H). apply elem_of_map_to_list in H. by exists p.
  - intros [p H]. exists (key, p). split; [done|]. by apply elem_of_map_to_list.
Qed.

Lemma NoDup_ordered_keys (prm : gmap string PlayerResult) : NoDup (ordered_keys prm).
Proof.
  unfold ordered_keys. rewrite merge_sort_Permutation. apply NoDup_fst_map_to_list.
Qed.

Lemma TiebreakPlayer_inv p byeKey p' :
  TiebreakPlayer p byeKey = Some p' →
  player p' = player p ∧ coinFlip p' = (-1)%Q.
Proof.
  unfold TiebreakPlayer. intros H. inv_assert H.
  destruct (player p =? byeKey)%string.
  - inv_assert H. by injection H as <-.
  - inv_bind H. by injection H as <-.
Qed.

Lemma TiebreakCoinFlip_loop_inv fuel rnd k before flip k' :
  TiebreakCoinFlip_loop fuel rnd k before = Some (flip, k') →
  (∃ j, flip = inject_Z (rnd j)) ∧
  Forall (λ q, ¬ (coinFlip q == flip)%Q) before.
Proof.
  revert k. induction fuel as [|fuel IH]; intros k H; [done|]. simpl in H.
  destruct (existsb _ before) eqn:E; [by eapply IH|].
  injection H as <- <-. split; [by eexists|].
  apply Forall_forall. intros q Hq Heq.
  assert (existsb (λ q, Qeqb (coinFlip q) (inject_Z (rnd k))) before = true); [|congruence].
  apply existsb_exists. exists q. split; [by apply list_elem_of_In|].
  by apply Qeq_bool_iff.
Qed.

Lemma take_until_app {A} (f : A → bool) l1 x l2 :
  Forall (λ a, f a = false) l1 → f x = true →
  take_until f (l1 ++ x :: l2) = l1.
Proof.
  intros H Hx. induction H as [|a l1 Ha _ IH]; simpl; [by rewrite Hx|].
  by rewrite Ha, IH.
Qed.

(** The coin flip of an entry differs from those of the entries that
    precede it in the map. *)
Lemma TiebreakCoinFlip_inv fuel rnd k (prm : gmap string PlayerResult) p byeKey p' k'
    done rest :
  ordered_keys prm = done ++ player p :: rest →
  prm !! player p = Some p →
  (∀ key, key ∈ done → ∃ q, prm !! key = Some q ∧ player q = key) →
  player p ∉ done →
  TiebreakCoinFlip fuel rnd k prm p byeKey = Some (p', k') →
  player p' = player p ∧
  (player p = byeKey → p' = p) ∧
  (player p ≠ byeKey →
     (∃ j, coinFlip p' = inject_Z (rnd j)) ∧
     ∀ key q, key ∈ done → prm !! key = Some q →
              ¬ (coinFlip q == coinFlip p')%Q).
Proof.
  intros Hkeys Hp Hdone Hnotin H. unfold TiebreakCoinFlip in H.
  destruct (String.eqb_spec (player p) byeKey) as [Hb|Hb].
  { injection H as <- <-. done. }
  inv_bind H. destruct p0 as [flip k1].
  injection H as <- <-. simpl. split; [done|]. split; [done|]. intros _.
  apply TiebreakCoinFlip_loop_inv in E as [Hj Hall]. split; [done|].
  unfold PlayerResultMap in *.
  rewrite Hkeys, omap_app in Hall. simpl in Hall. rewrite Hp in Hall.
  rewrite take_until_app in Hall.
  - intros key q Hkey Hq. rewrite Forall_forall in Hall. apply Hall.
    apply list_elem_of_omap. eauto.
  - apply Forall_forall. intros q Hq.
    apply list_elem_of_omap in Hq as (key & Hkey & Hq).
    destruct (Hdone key Hkey) as (q' & Hq' & Hpl).
    assert (q' = q) as -> by congruence.
    apply String.eqb_neq. congruence.
  - apply String.eqb_refl.
Qed.

Lemma Qeq_flip_bye z : 0 <= z → ¬ (inject_Z z == (-1)%Q)%Q.
Proof. unfold Qeq. simpl. lia. Qed.

(** The first loop establishes [flips_assigned] key by key. *)
Lemma tiebreak_first_pass_inv fuel rnd byeKey rest :
  (∀ i, 0 <= rnd i) →
  ∀ done prm k prm' k',
    NoDup (done ++ rest) → ordered_keys prm = done ++ rest →
    flips_assigned rnd byeKey done prm →
    tiebreak_first_pass rest fuel rnd k prm byeKey = Some (prm', k') →
    ordered_keys prm' = done ++ rest ∧ flips_assigned rnd byeKey (done ++ rest) prm'.
Proof.
  intros Hrnd. unfold PlayerResultMap in *.
  induction rest as [|key rest IH]; intros done prm k prm' k' Hnd Hkeys Hinv H.
  { simpl in H. injection H as <- <-. by rewrite app_nil_r in *. }
  simpl in H. inv_bind H. rename p into p0, E into Hp0.
  inv_assert H. apply String.eqb_eq in E. subst key.
  inv_bind H. rename p into pmid, E into Hmid.
  inv_bind H. destruct p as [p1 k1]. rename E into Hflip.
  destruct (TiebreakPlayer_inv _ _ _ Hmid) as [Hplayer Hminus].
  assert (Hnotin : player p0 ∉ done).
  { apply NoDup_app in Hnd as (_ & Hnd & _). intros Hin.
    apply (Hnd _ Hin). by left. }
  destruct Hinv as [Hinv1 Hinv2].
  assert (Hlk : ∀ key, key ∈ done →
            <[player p0 := pmid]> prm !! key = prm !! key).
  { intros key Hkey. apply lookup_insert_ne. congruence. }
  destruct (TiebreakCoinFlip_inv _ _ _ _ _ _ _ _ done rest
              ltac:(rewrite Hplayer; by erewrite ordered_keys_insert)
              ltac:(rewrite Hplayer; apply lookup_insert_eq)
              ltac:(intros key Hkey; rewrite (Hlk key Hkey);
                    destruct (Hinv1 key Hkey) as (q & ? & ? & _); eauto)
              ltac:(by rewrite Hplayer) Hflip) as (Hpl1 & Hbye & Hother).
  rewrite Hplayer in Hpl1, Hbye, Hother.
  assert (Hlk2 : ∀ key, key ∈ done →
            <[player p0 := p1]> (<[player p0 := pmid]> prm) !! key = prm !! key).
  { intros key Hkey. rewrite lookup_insert_ne by congruence. by apply Hlk. }
  assert (Hlk3 : <[player p0 := p1]> (<[player p0 := pmid]> prm) !! player p0 = Some p1)
    by apply lookup_insert_eq.
  assert (Hnew : flips_assigned rnd byeKey (done ++ [player p0])
                    (<[player p0 := p1]> (<[player p0 := pmid]> prm))).
  2: { destruct (IH (done ++ [player p0]) _ _ _ _
                   ltac:(by rewrite <- app_assoc)
                   ltac:(rewrite <- app_assoc; simpl;
                         erewrite ordered_keys_insert by apply lookup_insert_eq;
                         by erewrite ordered_keys_insert)
                   Hnew H) as [IH1 IH2].
       by rewrite <- app_assoc in IH1, IH2. }
  split.
  - intros key Hkey. apply elem_of_app in Hkey as [Hkey|Hkey].
    + rewrite (Hlk2 key Hkey). by apply Hinv1.
    + apply list_elem_of_singleton in Hkey as ->. exists p1.
      split_and!; [done|done| |].
      * intros Hb. by rewrite (Hbye Hb).
      * intros Hb. by apply Hother.
  - intros ka kb pa pb Ha Hb Hne Hpa Hpb.
    apply elem_of_app in Ha as [Ha|Ha], Hb as [Hb|Hb].
    + rewrite Hlk2 in Hpa, Hpb by done. exact (Hinv2 ka kb pa pb Ha Hb Hne Hpa Hpb).
    + apply list_elem_of_singleton in Hb as ->.
      rewrite Hlk2 in Hpa by done. rewrite Hlk3 in Hpb. injection Hpb as <-.
      destruct (decide (player p0 = byeKey)) as [Hbk|Hbk].
      * rewrite (Hbye Hbk), Hminus.
        destruct (Hinv1 ka Ha) as (q & Hq & _ & _ & Hj).
        assert (q = pa) as -> by congruence.
        destruct Hj as [j ->]; [congruence|]. by apply Qeq_flip_bye.
      * destruct (Hother Hbk) as [_ Hd]. apply (Hd ka); [done|].
        by rewrite Hlk.
    + apply list_elem_of_singleton in Ha as ->.
      rewrite Hlk2 in Hpb by done. rewrite Hlk3 in Hpa. injection Hpa as <-.
      intros Heq. symmetry in Heq. revert Heq.
      destruct (decide (player p0 = byeKey)) as [Hbk|Hbk].
      * rewrite (Hbye Hbk), Hminus.
        destruct (Hinv1 kb Hb) as (q & Hq & _ & _ & Hj).
        assert (q = pb) as -> by congruence.
        destruct Hj as [j ->]; [congruence|]. by apply Qeq_flip_bye.
      * destruct (Hother Hbk) as [_ Hd]. apply (Hd kb); [done|].
        by rewrite Hlk.
    + apply list_elem_of_singleton in Ha as ->.
      apply list_elem_of_singleton in Hb as ->. done.
Qed.

(** A loop that rewrites the entry of every key once relates the old and
    the new entry of a key by the relation of the rewriting function. *)
Lemma tiebreak_pass_inv
    (f : PlayerResultMap → PlayerResult → string → option PlayerResult)
    (R : PlayerResult → PlayerResult → Prop) byeKey (prm prm' : gmap string PlayerResult) :
  (∀ m p p', f m p byeKey = Some p' → R p p') →
  tiebreak_pass f prm byeKey = Some prm' →
  ∀ key p', prm' !! key = Some p' → ∃ p, prm !! key = Some p ∧ R p p'.
Proof.
  intros Hf H. unfold tiebreak_pass in H.
  assert (Hgen : ∀ keys (m m' : gmap string PlayerResult),
    NoDup keys →
    foldlM (λ prm key, p ← prm !! key; p ← f prm p byeKey; Some (<[key := p]> prm))
           m keys = Some m' →
    ∀ key, (key ∈ keys → ∃ p p', m !! key = Some p ∧ m' !! key = Some p' ∧ R p p') ∧
           (key ∉ keys → m' !! key = m !! key)).
  { clear H. unfold PlayerResultMap in *.
    induction keys as [|k keys IH]; intros m m' Hnd H key.
    { simpl in H. injection H as <-. split; [by intros ?%not_elem_of_nil|done]. }
    simpl in H. inv_bind H. inv_bind E. inv_bind E. rename E0 into Hp, E1 into Hfp.
    injection E as <-.
    apply NoDup_cons in Hnd as [Hk Hnd].
    destruct (IH _ _ Hnd H key) as [IH1 IH2].
    destruct (decide (key = k)) as [->|Hne].
    - split; [intros _|intros []; by left].
      exists p, p0. rewrite (IH2 Hk), lookup_insert_eq. eauto.
    - split.
      + intros [?|Hin]%elem_of_cons; [done|].
        destruct (IH1 Hin) as (q & q' & Hq & Hq' & HR).
        rewrite lookup_insert_ne in Hq by done. eauto.
      + intros Hnotin. rewrite IH2 by (intros ?; apply Hnotin; by right).
        by rewrite lookup_insert_ne. }
  intros key p' Hp'.
  destruct (Hgen _ _ _ (NoDup_ordered_keys prm) H key) as [H1 H2].
  destruct (decide (key ∈ ordered_keys prm)) as [Hin|Hnotin].
  - destruct (H1 Hin) as (p & q & Hp & Hq & HR). exists p. split; [done|]. congruence.
  - rewrite (H2 Hnotin) in Hp'. exfalso. apply Hnotin, elem_of_ordered_keys. eauto.
Qed.

Lemma TiebreakPerformance_inv m p byeKey p' :
  TiebreakPerformance m p byeKey = Some p' →
  coinFlip p' = coinFlip p.
Proof.
  unfold TiebreakPerformance. intros H. inv_assert H. inv_bind H.
  destruct p0 as [[h2h ratingSum] playerCnt]. by injection H as <-.
Qed.

Lemma TiebreakOpponent_inv m p byeKey p' :
  TiebreakOpponent m p byeKey = Some p' →
  coinFlip p' = coinFlip p ∧ last (tiebreak_value p') = Some (coinFlip p).
Proof.
  unfold TiebreakOpponent. intros H. inv_bind H. inv_bind H. inv_bind H.
  injection H as <-. simpl. split; [done|]. by rewrite last_app.
Qed.

(** C9: when [TiebreakCalculation] completes (with [rand()] values that
    are not negative), the tiebreak values of the bye entry are all 0
    except the last one, its coin flip -1; the last tiebreak value of
    every entry is its coin flip; and the coin flips of two different
    entries of the map are different. *)
Theorem C9_tiebreak_bye_and_coin_flips fuel rnd (prm : PlayerResultMap) byeKey
    (prm' : gmap string PlayerResult) k :
  (∀ i, 0 <= rnd i) →
  TiebreakCalculation fuel rnd prm byeKey = Some (prm', k) →
  (∃ bye back, prm' !! byeKey = Some bye ∧
     last (tiebreak_value bye) = Some back ∧ (back == -1)%Q ∧
     Forall (λ v, (v == 0)%Q) (removelast (tiebreak_value bye))) ∧
  (∀ key p, prm' !! key = Some p → last (tiebreak_value p) = Some (coinFlip p)) ∧
  (∀ k1 k2 p1 p2, k1 ≠ k2 → prm' !! k1 = Some p1 → prm' !! k2 = Some p2 →
     ¬ (coinFlip p1 == coinFlip p2)%Q).
Proof.
  intros Hrnd H. unfold TiebreakCalculation in H.
  inv_bind H. destruct p as [prm1 k1]. rename E into Hfirst.
  inv_bind H. rename p into bye1. inv_assert H.
  inv_bind H. rename p into prm2, E1 into Hsecond.
  inv_bind H. rename p into prm3, E1 into Hthird.
  inv_bind H. rename p into bye3, E1 into Hbye3.
  inv_bind H. rename q into back, E1 into Hback.
  inv_assert H. inv_assert H. injection H as <- <-.
  destruct (tiebreak_first_pass_inv fuel rnd byeKey (ordered_keys prm) Hrnd
              [] prm 0%nat prm1 k1 (NoDup_ordered_keys prm) eq_refl) as [Hk1 [_ Hdist]];
    [|exact Hfirst|].
  { split; [by intros ? ?%not_elem_of_nil|by intros ? ? ? ? ?%not_elem_of_nil]. }
  simpl in Hk1, Hdist.
  pose proof (tiebreak_pass_inv TiebreakPerformance
                (λ p p', coinFlip p' = coinFlip p) byeKey prm1 prm2
                (λ m p p', TiebreakPerformance_inv m p byeKey p') Hsecond) as H2.
  pose proof (tiebreak_pass_inv TiebreakOpponent
                (λ p p', coinFlip p' = coinFlip p ∧
                         last (tiebreak_value p') = Some (coinFlip p)) byeKey prm2 prm3
                (λ m p p', TiebreakOpponent_inv m p byeKey p') Hthird) as H3.
  split_and!.
  - exists bye3, back. split_and!; [done|done|by apply Qeq_bool_iff|].
    apply Forall_forall. intros v Hv.
    rewrite forallb_forall in E1. apply Qeq_bool_iff, (E1 v).
    by apply list_elem_of_In.
  - intros key p Hp. destruct (H3 key p Hp) as (q & _ & Hc & Hl). by rewrite Hc.
  - intros ka kb pa pb Hne Hpa Hpb.
    destruct (H3 ka pa Hpa) as (qa & Hqa & Hca & _).
    destruct (H3 kb pb Hpb) as (qb & Hqb & Hcb & _).
    destruct (H2 ka qa Hqa) as (ra & Hra & Hca').
    destruct (H2 kb qb Hqb) as (rb & Hrb & Hcb').
    rewrite Hca, Hcb, Hca', Hcb'.
    apply (Hdist ka kb ra rb); [| |done|done|done];
      rewrite <- Hk1; apply elem_of_ordered_keys; eauto.
Qed.

(** Two players and the bye after one round; the generator returns 41
    twice, so the second player draws again. *)
Lemma C9_tiebreak_bye_and_coin_flips_witness :
  ∃ prm' k, TiebreakCalculation 5 sample_rand sample_results "BYE" = Some (prm', k) ∧
    ∀ k1 k2 p1 p2, k1 ≠ k2 → prm' !! k1 = Some p1 → prm' !! k2 = Some p2 →
      ¬ (coinFlip p1 == coinFlip p2)%Q.
Proof.
  destruct (TiebreakCalculation 5 sample_rand sample_results "BYE") as [[prm' k]|] eqn:E;
    [|vm_compute in E; discriminate].
  exists prm', k. split; [done|].
  apply (C9_tiebreak_bye_and_coin_flips 5 sample_rand sample_results "BYE" prm' k);
    [intros i; unfold sample_rand; generalize (Nat.div2 i); lia|exact E].
Defined.

(** ** The costs accepted by the optimiser *)

Lemma foldlM_inv {A B} (P : B → Prop) (f : B → A → option B) l b b' :
  (∀ b a b', P b → f b a = Some b' → P b') →
  P b → foldlM f b l = Some b' → P b'.
Proof.
  intros Hf. revert b. induction l as [|a l IH]; intros b Hb H; simpl in H.
  - by injection H as <-.
  - inv_bind H. eauto.
Qed.

(** Every cost that [CostFunction] returns carries the section size. *)
Lemma CostFunction_loop_players xs pl pair rr pBegin pEnd doCodes lowestScore st st' :
  CostFunction_loop xs pl pair rr pBegin pEnd doCodes lowestScore st = Some st' →
  players (cs_cost st') = players (cs_cost st).
Proof.
  revert st. induction xs as [|x xs IH]; intros st H; simpl in H.
  { by injection H as <-. }
  inv_steps H; apply IH in H; exact H.
Qed.

Lemma CostFunction_players pl pair rr pBegin pEnd doCodes usePairableCost cp c s :
  CostFunction pl pair rr pBegin pEnd doCodes usePairableCost cp = Some (c, s) →
  players c = Z.of_nat (length pl) - 1.
Proof.
  unfold CostFunction. intros H. inv_steps H.
  injection H as <- <-. apply CostFunction_loop_players in E7. simpl in E7.
  assert (players c1 = players (cs_cost c0)) as Hc1.
  { destruct usePairableCost; [inv_bind E9|]; by injection E9 as <-. }
  simpl. by rewrite Hc1, E7.
Qed.

(** What the search maintains: the costs accepted so far, from the cost
    of the starting pairing on, are strictly decreasing, the current best
    cost is the last of them, and all carry the same section size. *)
Lemma decreasing_snoc cs b c :
  strictly_decreasing cs → last cs = Some b → lex_below c b →
  strictly_decreasing (cs ++ [c]).
Proof.
  intros Hd Hl Hc. induction cs as [|a [|a' cs] IH]; [done| |].
  - simpl in *. injection Hl as ->. done.
  - destruct Hd as [Ha Hd]. split; [done|]. by apply IH.
Qed.

Lemma lex_below_same_players b a :
  players b = players a → Cost_lt b a = true → lex_below b a.
Proof. intros Hp Hlt. split; [done|]. by apply Cost_lt_same_players. Qed.

Lemma try_move_chain pl rr pBegin pEnd hasBye upc d i st s st' start :
  accepted_chain (Z.of_nat (length pl) - 1) start st →
  try_move pl rr pBegin pEnd hasBye upc d i st s = Some st' →
  accepted_chain (Z.of_nat (length pl) - 1) start st'.
Proof.
  intros (Hd & Hl & Hp) H. unfold try_move in H. inv_bind H.
  destruct o as [testPair|]; [|by injection H as <-].
  inv_steps H. apply CostFunction_players in E2.
  destruct (Cost_lt c (os_bestCost st)) eqn:Hlt; injection H as <-; [|done].
  unfold accepted_chain. cbn [os_accepted os_bestCost].
  replace (start :: rev (c :: os_accepted st))
    with ((start :: rev (os_accepted st)) ++ [c]) by done.
  assert (players (os_bestCost st) = Z.of_nat (length pl) - 1) as Hb.
  { rewrite Forall_forall in Hp. apply Hp.
    apply last_Some in Hl as [l' ->]. apply elem_of_app. right. by left. }
  split_and!.
  - eapply decreasing_snoc; [done|done|]. apply lex_below_same_players; congruence.
  - by rewrite last_snoc.
  - apply Forall_app. split; [done|]. by constructor.
Qed.

Lemma search_cycle_chain fuel pl rr pBegin pEnd hasBye upc d start :
  ∀ i st st',
    accepted_chain (Z.of_nat (length pl) - 1) start st →
    search_cycle fuel pl rr pBegin pEnd hasBye upc d i st = Some st' →
    accepted_chain (Z.of_nat (length pl) - 1) start st'.
Proof.
  induction fuel as [|fuel IH]; intros i st st' Hc H; [done|].
  cbn [search_cycle] in H.
  destruct (IsZero (os_bestCost st)); [by injection H as <-|].
  inv_bind H. destruct (bool_decide _); [by injection H as <-|].
  inv_bind H. destruct b; [by eapply IH|].
  inv_bind H. inv_bind H. eapply IH; [|exact H].
  eapply (foldlM_inv (accepted_chain _ start)); [|exact Hc|exact E2].
  intros b a b' Hb Hf. by eapply try_move_chain.
Qed.

Lemma search_depths_chain fuel pl rr pBegin pEnd hasBye upc depth start :
  ∀ d st st',
    accepted_chain (Z.of_nat (length pl) - 1) start st →
    search_depths fuel pl rr pBegin pEnd hasBye upc depth d st = Some st' →
    accepted_chain (Z.of_nat (length pl) - 1) start st'.
Proof.
  induction fuel as [|fuel IH]; intros d st st' Hc H; [done|].
  cbn [search_depths] in H.
  destruct (negb _); [by injection H as <-|].
  inv_bind H. eapply IH; [|exact H].
  eapply search_cycle_chain; [|exact E]. exact Hc.
Qed.

(** One search: the accepted costs start below the cost of the pairing
    the search starts from. *)
Lemma minimize_search_chain fuel pl pair rr depth pBegin pEndConst upc pEnd st :
  minimize_search fuel pl pair rr depth pBegin pEndConst upc = Some (pEnd, st) →
  ∃ start costPlayers,
    CostFunction pl pair rr pBegin pEnd false upc ∅ = Some (start, costPlayers) ∧
    accepted_chain (Z.of_nat (length pl) - 1) start st.
Proof.
  unfold minimize_search. intros H. inv_steps H. injection H as <- <-.
  exists c, i. split; [done|].
  eapply search_depths_chain; [|exact E3].
  split_and!; simpl; [done|done|].
  constructor; [|done]. by eapply CostFunction_players.
Qed.

(** C3 (as stated): in the section [c3_section] the first search accepts
    four pairings and ends with a cost that the lookahead does not
    confirm; the search is done again with the lookahead, and the first
    cost it accepts is larger than the last cost the first search
    accepted.  Over the whole run the accepted costs are not strictly
    decreasing. *)
Lemma C3_accepted_costs_rise_between_the_searches :
  ∃ out, FindPairings 30 c3_section 5 1 1 false false = Some out ∧
         ¬ strictly_decreasing (accepted_sequence (fp_accepted out)).
Proof.
  destruct (FindPairings 30 c3_section 5 1 1 false false) as [out|] eqn:E;
    [|vm_compute in E; discriminate].
  exists out. split; [done|].
  vm_compute in E. injection E as <-.
  intros H. vm_compute in H.
  destruct H as (_ & _ & _ & [Hlt _] & _). discriminate.
Qed.

(** C3 (amended): a candidate is adopted only when its cost is below the
    current best cost, so within each search of [MinimizePairingCost]
    the accepted costs are strictly decreasing in the lexicographic
    order of the counters: those of the first search start below the
    cost of the given pairing, and, when the check with the lookahead
    makes the function search again, those of the second search start
    below the cost with the lookahead of the pairing the first search
    ended with. *)
Theorem C3_accepted_costs_decrease_within_each_search
    fuel pl pair rr depth pBegin pEndConst pair' c a1 a2 :
  MinimizePairingCost fuel pl pair rr depth pBegin pEndConst = Some (pair', c, (a1, a2)) →
  ∃ pEnd st1 start1 cp1,
    minimize_search fuel pl pair rr depth pBegin pEndConst false = Some (pEnd, st1) ∧
    a1 = os_accepted st1 ∧
    CostFunction pl pair rr pBegin pEnd false false ∅ = Some (start1, cp1) ∧
    strictly_decreasing (start1 :: rev a1) ∧
    (a2 = [] ∨
     ∃ pEnd' start2 cp2,
       CostFunction pl (os_bestPair st1) rr pBegin pEnd' false true ∅
         = Some (start2, cp2) ∧
       strictly_decreasing (start2 :: rev a2)).
Proof.
  unfold MinimizePairingCost. intros H. inv_bind H. destruct p as [pEnd st1].
  cbv beta iota in H. inv_bind H.
  destruct (minimize_search_chain _ _ _ _ _ _ _ _ _ _ E) as (start1 & cp1 & Hs1 & Hd1 & _).
  exists pEnd, st1, start1, cp1.
  destruct (Cost_ne c0 (os_bestCost st1)).
  - inv_bind H. destruct p as [pEnd' st2]. cbv beta iota in H. inv_bind H.
    injection H as <- <- <- <-.
    destruct (minimize_search_chain _ _ _ _ _ _ _ _ _ _ E1) as (start2 & cp2 & Hs2 & Hd2 & _).
    split_and!; [done|done|done|done|]. right. eauto.
  - inv_bind H. injection H as <- <- <- <-. split_and!; [done|done|done|done|by left].
Qed.

(** The run on [c3_section]: four costs accepted by the first search, one
    by the second. *)
Lemma C3_accepted_costs_decrease_within_each_search_witness :
  ∃ pair' c a1 a2,
    MinimizePairingCost 30 c3_players c3_start 2 1 0 5 = Some (pair', c, (a1, a2)) ∧
    length a1 = 4%nat ∧ length a2 = 1%nat ∧
    ∃ start1, strictly_decreasing (start1 :: rev a1).
Proof.
  destruct (MinimizePairingCost 30 c3_players c3_start 2 1 0 5)
    as [[[pair' c] [a1 a2]]|] eqn:E; [|vm_compute in E; discriminate].
  exists pair', c, a1, a2. split; [done|].
  destruct (C3_accepted_costs_decrease_within_each_search
              30 c3_players c3_start 2 1 0 5%nat pair' c a1 a2 E)
    as (pEnd & st1 & start1 & cp1 & _ & _ & _ & Hd & _).
  vm_compute in E. injection E as <- <- <- <-. eauto.
Defined.

(** ** The moves of the optimiser rearrange the pairing vector *)

Lemma swap_perm {A} (v v' : list A) i j : swap v i j = Some v' → v' ≡ₚ v.
Proof.
  unfold swap. intros H. inv_bind H. inv_bind H. injection H as <-.
  by eapply Permutation_insert_swap.
Qed.

Lemma swap_length {A} (v v' : list A) i j : swap v i j = Some v' → length v' = length v.
Proof. intros H. by rewrite (swap_perm _ _ _ _ H). Qed.

(** Forward reasoning: a hypothesis [f ... pair = Some pair'] of a known
    move is turned into [pair' ≡ₚ pair]; the goal is then closed by
    transitivity. *)
Ltac perm_hyp H := apply swap_perm in H.
Ltac perm_fwd :=
  repeat match goal with H : _ = Some _ |- _ => progress (perm_hyp H) end.
Ltac perm_done :=
  perm_fwd; repeat (etransitivity; [eassumption|]); try reflexivity; try done.

Lemma foldlM_perm {A B} (f : list B → A → option (list B)) l v v' :
  (∀ v a v', f v a = Some v' → v' ≡ₚ v) →
  foldlM f v l = Some v' → v' ≡ₚ v.
Proof.
  intros Hf. revert v. induction l as [|a l IH]; intros v H.
  - by injection H as <-.
  - cbn [foldlM] in H. inv_bind H. rewrite (IH _ H). eauto.
Qed.

Lemma swap_shift_perm shift pair a b pair' :
  swap_shift shift pair a b = Some pair' → pair' ≡ₚ pair.
Proof. unfold swap_shift. intros H. inv_steps H. perm_done. Qed.

Lemma rotate_up_to_perm shift lo hi pair pair' :
  rotate_up_to shift lo hi pair = Some pair' → pair' ≡ₚ pair.
Proof.
  unfold rotate_up_to. apply foldlM_perm. intros v a v'. apply swap_shift_perm.
Qed.

Lemma rotate_down_to_perm shift hi lo pair pair' :
  rotate_down_to shift hi lo pair = Some pair' → pair' ≡ₚ pair.
Proof.
  unfold rotate_down_to. apply foldlM_perm. intros v a v'. apply swap_shift_perm.
Qed.

Ltac perm_hyp H ::=
  first [ apply swap_perm in H | apply swap_shift_perm in H
        | apply rotate_up_to_perm in H | apply rotate_down_to_perm in H ].

Lemma RotatePairDown_perm pair x y pBegin pEnd oddDropDown oddPullUp shift pair' :
  RotatePairDown pair x y pBegin pEnd oddDropDown oddPullUp shift = Some pair' →
  pair' ≡ₚ pair.
Proof.
  unfold RotatePairDown. intros H. inv_all; perm_done.
Qed.

Lemma RotatePairUp_perm pair x y pBegin pEnd oddDropDown oddPullUp shift pair' :
  RotatePairUp pair x y pBegin pEnd oddDropDown oddPullUp shift = Some pair' →
  pair' ≡ₚ pair.
Proof.
  unfold RotatePairUp. intros H. inv_all; perm_done.
Qed.

Ltac perm_hyp H ::=
  first [ apply swap_perm in H | apply swap_shift_perm in H
        | apply rotate_up_to_perm in H | apply rotate_down_to_perm in H
        | apply RotatePairDown_perm in H | apply RotatePairUp_perm in H ].

Lemma pull_to_top_perm fuel pair x z pair' :
  pull_to_top fuel pair x z = Some pair' → pair' ≡ₚ pair.
Proof.
  revert pair z. induction fuel as [|fuel IH]; intros pair z H; [done|].
  cbn [pull_to_top] in H. inv_all;
    repeat match goal with
           | H : pull_to_top _ _ _ _ = Some _ |- _ => apply IH in H
           end; perm_done.
Qed.

Lemma color_walk_down_perm zs pl isFlipX yColor pBegin pEnd pair w pair' w' :
  color_walk_down zs pl isFlipX yColor pBegin pEnd pair w = Some (pair', w') →
  pair' ≡ₚ pair.
Proof.
  revert pair w. induction zs as [|z zs IH]; intros pair w H.
  { by injection H as <- <-. }
  cbn [color_walk_down] in H. inv_all;
    repeat match goal with
           | H : color_walk_down _ _ _ _ _ _ _ _ = Some _ |- _ => apply IH in H
           end; perm_done.
Qed.

Lemma color_walk_up_perm zs pl isFlipX xColor pBegin pEnd pair w pair' w' :
  color_walk_up zs pl isFlipX xColor pBegin pEnd pair w = Some (pair', w') →
  pair' ≡ₚ pair.
Proof.
  revert pair w. induction zs as [|z zs IH]; intros pair w H.
  { by injection H as <- <-. }
  cbn [color_walk_up] in H. inv_all;
    repeat match goal with
           | H : color_walk_up _ _ _ _ _ _ _ _ = Some _ |- _ => apply IH in H
           end; perm_done.
Qed.

Ltac perm_hyp H ::=
  first [ apply swap_perm in H | apply swap_shift_perm in H
        | apply rotate_up_to_perm in H | apply rotate_down_to_perm in H
        | apply RotatePairDown_perm in H | apply RotatePairUp_perm in H
        | apply pull_to_top_perm in H | apply color_walk_down_perm in H
        | apply color_walk_up_perm in H ].

Lemma RotateColor_perm pl pair x y pBegin pEnd oddDropDown oddPullUp changed pair' :
  RotateColor pl pair x y pBegin pEnd oddDropDown oddPullUp = Some (changed, pair') →
  pair' ≡ₚ pair.
Proof.
  unfold RotateColor. intros H. inv_all; try done; perm_fwd.
  all: try (match goal with
            | H : foldlM _ _ _ = Some _ |- _ =>
                apply foldlM_perm in H; [|intros ? ? ? Hs; inv_all; perm_done]
            end).
  all: perm_done.
Qed.

Ltac perm_hyp H ::=
  first [ apply swap_perm in H | apply swap_shift_perm in H
        | apply rotate_up_to_perm in H | apply rotate_down_to_perm in H
        | apply RotatePairDown_perm in H | apply RotatePairUp_perm in H
        | apply pull_to_top_perm in H | apply color_walk_down_perm in H
        | apply color_walk_up_perm in H | apply RotateColor_perm in H ].

Lemma apply_move_perm pl pBegin pEnd hasBye d s testPair a b testPair' :
  apply_move pl pBegin pEnd hasBye d s testPair a b = Some (Some testPair') →
  testPair' ≡ₚ testPair.
Proof.
  unfold apply_move. intros H.
  destruct (b <=? a)%nat; [by inv_all|].
  do 8 (try destruct s as [|s]); inv_all; perm_done.
Qed.

Lemma apply_moves_perm pl pBegin pEnd hasBye d s i testPair testPair' :
  apply_moves pl pBegin pEnd hasBye d s i testPair = Some (Some testPair') →
  testPair' ≡ₚ testPair.
Proof.
  assert (Hgen : ∀ n i testPair, (length i <= n)%nat →
            apply_moves pl pBegin pEnd hasBye d s i testPair = Some (Some testPair') →
            testPair' ≡ₚ testPair); [|by eapply Hgen].
  clear i testPair. induction n as [|n IH]; intros i testPair Hn H.
  { destruct i; [by injection H as <-|simpl in Hn; lia]. }
  destruct i as [|a [|b rest]]; try by injection H as <-.
  cbn [apply_moves] in H. inv_bind H. destruct o as [tp|]; [|done].
  apply apply_move_perm in E. rewrite <- E.
  apply (IH rest); [simpl in Hn; lia|exact H].
Qed.

Lemma order_ranks_perm testPair testPair' :
  order_ranks testPair = Some testPair' → testPair' ≡ₚ testPair.
Proof.
  unfold order_ranks. apply foldlM_perm. intros v a v' H. inv_all; perm_done.
Qed.

Lemma SortBoards_insert_perm k pl pair pair' :
  SortBoards_insert k pl pair = Some pair' → pair' ≡ₚ pair.
Proof.
  revert pair. induction k as [|k IH]; intros pair H.
  { by injection H as <-. }
  cbn [SortBoards_insert] in H. inv_all; [done|].
  apply IH in H. perm_done.
Qed.

Lemma SortBoards_loop_perm xs pl pair pair' :
  SortBoards_loop xs pl pair = Some pair' → pair' ≡ₚ pair.
Proof.
  revert pair. induction xs as [|x xs IH]; intros pair H.
  { by injection H as <-. }
  cbn [SortBoards_loop] in H. inv_all. apply IH in H.
  apply SortBoards_insert_perm in E2. perm_done.
Qed.

Lemma SortBoards_perm pl pair pair' :
  SortBoards pl pair = Some pair' → pair' ≡ₚ pair.
Proof. unfold SortBoards. intros H. inv_all. by eapply SortBoards_loop_perm. Qed.

Ltac perm_hyp H ::=
  first [ apply swap_perm in H | apply swap_shift_perm in H
        | apply rotate_up_to_perm in H | apply rotate_down_to_perm in H
        | apply RotatePairDown_perm in H | apply RotatePairUp_perm in H
        | apply pull_to_top_perm in H | apply color_walk_down_perm in H
        | apply color_walk_up_perm in H | apply RotateColor_perm in H
        | apply apply_moves_perm in H | apply order_ranks_perm in H
        | apply SortBoards_perm in H ].

Lemma try_move_perm pl rr pBegin pEnd hasBye upc d i st s st' :
  try_move pl rr pBegin pEnd hasBye upc d i st s = Some st' →
  os_bestPair st' ≡ₚ os_bestPair st.
Proof.
  unfold try_move. intros H. inv_bind H.
  destruct o as [testPair|]; [|by injection H as <-].
  inv_all; [|done]. cbn [os_bestPair]. perm_done.
Qed.

Lemma search_cycle_perm fuel pl rr pBegin pEnd hasBye upc d :
  ∀ i st st',
    search_cycle fuel pl rr pBegin pEnd hasBye upc d i st = Some st' →
    os_bestPair st' ≡ₚ os_bestPair st.
Proof.
  induction fuel as [|fuel IH]; intros i st st' H; [done|].
  cbn [search_cycle] in H.
  destruct (IsZero (os_bestCost st)); [by injection H as <-|].
  inv_bind H. destruct (bool_decide _); [by injection H as <-|].
  inv_bind H. destruct b; [by eapply IH|].
  inv_bind H. inv_bind H. rewrite (IH _ _ _ H).
  eapply (foldlM_inv (λ s, os_bestPair s ≡ₚ os_bestPair st)); [|done|exact E2].
  intros b a b' Hb Hf. by rewrite (try_move_perm _ _ _ _ _ _ _ _ _ _ _ Hf).
Qed.

Lemma search_depths_perm fuel pl rr pBegin pEnd hasBye upc depth :
  ∀ d st st',
    search_depths fuel pl rr pBegin pEnd hasBye upc depth d st = Some st' →
    os_bestPair st' ≡ₚ os_bestPair st.
Proof.
  induction fuel as [|fuel IH]; intros d st st' H; [done|].
  cbn [search_depths] in H.
  destruct (negb _); [by injection H as <-|].
  inv_bind H. rewrite (IH _ _ _ H).
  by rewrite (search_cycle_perm _ _ _ _ _ _ _ _ _ _ _ E).
Qed.

Lemma minimize_search_perm fuel pl pair rr depth pBegin pEndConst upc pEnd st :
  minimize_search fuel pl pair rr depth pBegin pEndConst upc = Some (pEnd, st) →
  os_bestPair st ≡ₚ pair.
Proof.
  unfold minimize_search. intros H. inv_steps H. injection H as <- <-.
  by rewrite (search_depths_perm _ _ _ _ _ _ _ _ _ _ _ E3).
Qed.

Lemma MinimizePairingCost_perm fuel pl pair rr depth pBegin pEndConst pair' c acc :
  MinimizePairingCost fuel pl pair rr depth pBegin pEndConst = Some (pair', c, acc) →
  pair' ≡ₚ pair.
Proof.
  unfold MinimizePairingCost. intros H. inv_bind H. destruct p as [pEnd st1].
  cbv beta iota in H. inv_bind H. apply minimize_search_perm in E.
  destruct (Cost_ne _ _).
  - inv_bind H. destruct p as [pEnd' st2]. cbv beta iota in H. inv_bind H.
    injection H as <- <- <-. apply minimize_search_perm in E1. by rewrite E1.
  - inv_bind H. by injection H as <- <- <-.
Qed.

Lemma final_insert_perm k pl pair pair' :
  final_insert k pl pair = Some pair' → pair' ≡ₚ pair.
Proof.
  revert pair. induction k as [|k IH]; intros pair H.
  { by injection H as <-. }
  cbn [final_insert] in H. inv_all; [done|].
  apply IH in H. perm_done.
Qed.

Lemma final_sort_perm pl pair pair' :
  final_sort pl pair = Some pair' → pair' ≡ₚ pair.
Proof.
  unfold final_sort. apply foldlM_perm. intros v a v'. apply final_insert_perm.
Qed.

Lemma order_boards_by_rank_perm xs pl pair pair' :
  order_boards_by_rank xs pl pair = Some pair' → pair' ≡ₚ pair.
Proof.
  revert pair. induction xs as [|x xs IH]; intros pair H.
  { by injection H as <-. }
  cbn [order_boards_by_rank] in H. inv_all; apply IH in H; perm_done.
Qed.

(** ** SortBoards sorts the boards by their class *)

Local Open Scope nat_scope.

Lemma of_boards_app bs1 bs2 : of_boards (bs1 ++ bs2) = of_boards bs1 ++ of_boards bs2.
Proof. induction bs1 as [|b bs1 IH]; simpl; [done|]. by rewrite IH. Qed.

Lemma length_of_boards bs : length (of_boards bs) = 2 * length bs.
Proof. induction bs as [|b bs IH]; simpl; lia. Qed.

Lemma of_to_boards_aux n : ∀ pair,
  length pair = 2 * n → of_boards (to_boards pair) = pair ∧ length (to_boards pair) = n.
Proof.
  induction n as [|n IH]; intros pair H.
  - by destruct pair.
  - destruct pair as [|a [|b pair]]; simpl in H; try lia.
    destruct (IH pair ltac:(lia)) as [IH1 IH2]. simpl. by rewrite IH1, IH2.
Qed.

Lemma of_to_boards pair :
  length pair mod 2 = 0 → of_boards (to_boards pair) = pair.
Proof.
  intros H. apply (of_to_boards_aux (length pair / 2)).
  pose proof (Nat.div_mod_eq (length pair) 2). lia.
Qed.

Lemma length_to_boards pair :
  length pair mod 2 = 0 → length (to_boards pair) = length pair / 2.
Proof.
  intros H. apply (of_to_boards_aux (length pair / 2)).
  pose proof (Nat.div_mod_eq (length pair) 2). lia.
Qed.

Lemma of_boards_perm bs1 bs2 : bs1 ≡ₚ bs2 → of_boards bs1 ≡ₚ of_boards bs2.
Proof.
  induction 1 as [|b bs1 bs2 _ IH|b1 b2 bs|bs1 bs2 bs3 _ IH1 _ IH2]; simpl.
  - done.
  - by rewrite IH.
  - apply (Permutation_app_swap_app [b2.1; b2.2] [b1.1; b1.2] (of_boards bs)).
  - by rewrite IH1.
Qed.

Lemma lookup_app_plus {A} (L X : list A) i : (L ++ X) !! (length L + i) = X !! i.
Proof. rewrite lookup_app_r by lia. f_equal. lia. Qed.

Lemma lookup_app_at {A} (L X : list A) i j :
  i = length L + j → (L ++ X) !! i = X !! j.
Proof. intros ->. apply lookup_app_plus. Qed.

(** Exchanging two neighbouring boards, as the two [swap]s of the
    insertion loops do. *)
Lemma swap_app_4 {A} (L T : list A) a b c d i0 i1 i2 i3 pair1 pair2 :
  i0 = length L + 0 → i1 = length L + 1 → i2 = length L + 2 → i3 = length L + 3 →
  swap (L ++ a :: b :: c :: d :: T) i2 i0 = Some pair1 →
  swap pair1 i3 i1 = Some pair2 →
  pair2 = L ++ c :: d :: a :: b :: T.
Proof.
  unfold swap. intros -> -> -> -> H1 H2.
  inv_bind H1. inv_bind H1. rewrite lookup_app_plus in E, E0.
  simpl in E, E0. injection E as <-. injection E0 as <-.
  rewrite !insert_app_r in H1. simpl in H1. injection H1 as <-.
  inv_bind H2. inv_bind H2. rewrite lookup_app_plus in E, E0.
  simpl in E, E0. injection E as <-. injection E0 as <-.
  rewrite !insert_app_r in H2. simpl in H2. by injection H2 as <-.
Qed.

Lemma boards_in_order_class pl ra rb rc rd a b c d stop :
  pl !! ra = Some a → pl !! rb = Some b → pl !! rc = Some c → pl !! rd = Some d →
  boards_in_order a b c d = Some stop →
  if stop then class_le pl (ra, rb) (rc, rd) else class_le pl (rc, rd) (ra, rb).
Proof.
  intros Ha Hb Hc Hd H. unfold class_le, board_class, player_at. simpl.
  rewrite Ha, Hb, Hc, Hd. simpl. unfold boards_in_order, bool_lt in H.
  destruct (paired a), (paired c), (is_bye b), (is_bye d),
    (bye_request a), (bye_request c); simpl in H;
    try (injection H as <-); try lia; destruct stop; lia.
Qed.

Lemma class_le_trans pl u v w : class_le pl u v → class_le pl v w → class_le pl u w.
Proof. unfold class_le. lia. Qed.

(** One insertion: the board [v] at position [k] is moved into the
    sorted boards before it. *)
Lemma SortBoards_insert_sorted pl : ∀ k P v R r,
  length P = k → StronglySorted (class_le pl) P →
  SortBoards_insert k pl (of_boards (P ++ v :: R)) = Some r →
  ∃ P', P' ≡ₚ P ++ [v] ∧ StronglySorted (class_le pl) P' ∧ r = of_boards (P' ++ R).
Proof.
  induction k as [|k IH]; intros P v R r Hlen Hs H.
  { destruct P; [|done]. injection H as <-. exists [v].
    split_and!; [done|repeat constructor|done]. }
  destruct P as [|u P0 _] using rev_ind; [done|].
  rewrite length_app in Hlen. simpl in Hlen.
  apply StronglySorted_app in Hs as (Hcross & Hs0 & _).
  rewrite <- app_assoc, of_boards_app in H. simpl in H.
  set (L := of_boards P0) in *.
  assert (HL : length L = 2 * k) by (unfold L; rewrite length_of_boards; lia).
  cbn [SortBoards_insert] in H.
  inv_bind H. inv_bind H. inv_bind H. inv_bind H.
  rewrite (lookup_app_at L _ _ 0) in E by lia.
  rewrite (lookup_app_at L _ _ 1) in E0 by lia.
  rewrite (lookup_app_at L _ _ 2) in E1 by lia.
  rewrite (lookup_app_at L _ _ 3) in E2 by lia.
  simpl in E, E0, E1, E2.
  injection E as <-. injection E0 as <-. injection E1 as <-. injection E2 as <-.
  inv_assert H. inv_bind H. inv_bind H. inv_bind H. inv_bind H. inv_assert H.
  inv_bind H.
  pose proof (boards_in_order_class pl _ _ _ _ _ _ _ _ _ E0 E1 E2 E3 E5) as Hcls.
  destruct u as [u1 u2], v as [v1 v2]. simpl in *.
  destruct b.
  - injection H as <-. exists ((P0 ++ [(u1, u2)]) ++ [(v1, v2)]). split_and!.
    + done.
    + apply StronglySorted_app. split_and!.
      * intros x y Hx ->%list_elem_of_singleton.
        apply elem_of_app in Hx as [Hx| ->%list_elem_of_singleton]; [|done].
        eapply class_le_trans; [|exact Hcls]. apply Hcross; [done|by left].
      * apply StronglySorted_app. split_and!; [done|done|repeat constructor].
      * repeat constructor.
    + rewrite <- !app_assoc, !of_boards_app. done.
  - inv_assert H. inv_bind H. inv_bind H.
    unshelve epose proof (swap_app_4 L (of_boards R) u1 u2 v1 v2 _ _ _ _ _ _
                            _ _ _ _ E7 E8) as ->; [lia..|].
    destruct (IH P0 (v1, v2) ((u1, u2) :: R) r ltac:(lia) Hs0) as (P0' & Hp & Hs' & ->).
    { rewrite of_boards_app. exact H. }
    exists (P0' ++ [(u1, u2)]). split_and!.
    + rewrite Hp, <- !app_assoc. apply Permutation_app_head. apply perm_swap.
    + apply StronglySorted_app. split_and!; [|done|repeat constructor].
      intros x y Hx ->%list_elem_of_singleton.
      rewrite Hp in Hx.
      apply elem_of_app in Hx as [Hx| ->%list_elem_of_singleton]; [|done].
      apply Hcross; [done|by left].
    + by rewrite <- app_assoc.
Qed.

Lemma SortBoards_loop_sorted pl : ∀ R P r,
  StronglySorted (class_le pl) P →
  SortBoards_loop (up2 (2 * length P) (length R)) pl (of_boards (P ++ R)) = Some r →
  ∃ P', P' ≡ₚ P ++ R ∧ StronglySorted (class_le pl) P' ∧ r = of_boards P'.
Proof.
  induction R as [|v R IH]; intros P r Hs H.
  { injection H as <-. rewrite app_nil_r. by exists P. }
  cbn [length up2 SortBoards_loop] in H. inv_bind H. inv_bind H. inv_assert H.
  inv_bind H.
  match type of E2 with
  | SortBoards_insert ?k _ _ = _ =>
      replace k with (length P) in E2
        by (rewrite Nat.mul_comm; symmetry; apply Nat.div_mul; lia)
  end.
  destruct (SortBoards_insert_sorted pl _ P v R _ eq_refl Hs E2) as (P1 & Hp1 & Hs1 & ->).
  assert (Hlen : length P1 = length P + 1) by (by rewrite Hp1, length_app).
  replace (2 * length P + 2) with (2 * length P1) in H by lia.
  destruct (IH P1 r Hs1 H) as (P' & Hp' & Hs' & ->).
  exists P'. split_and!; [|done|done].
  by rewrite Hp', Hp1, <- app_assoc.
Qed.

(** [SortBoards] rearranges the boards, keeps each board as it is, and
    leaves them sorted by class. *)
Lemma SortBoards_sorted pl pair r :
  SortBoards pl pair = Some r →
  ∃ B, B ≡ₚ to_boards pair ∧ StronglySorted (class_le pl) B ∧ r = of_boards B.
Proof.
  unfold SortBoards. intros H. inv_bind H. inv_assert H. inv_assert H.
  apply Nat.eqb_eq in E1.
  apply (SortBoards_loop_sorted pl (to_boards pair) []); [constructor|].
  simpl. rewrite of_to_boards, length_to_boards by done.
  unfold boards in H.
  replace ((length pair - 0 + 1) / 2) with (length pair / 2) in H; [done|].
  pose proof (Nat.div_mod_eq (length pair) 2).
  apply (Nat.div_unique _ _ _ 1); lia.
Qed.

Local Close Scope nat_scope.

(** ** The pairing that HintPairings builds *)

Local Open Scope nat_scope.

Lemma occurrences_app r l1 l2 :
  occurrences r (l1 ++ l2) = occurrences r l1 + occurrences r l2.
Proof. apply count_occ_app. Qed.

Lemma occurrences_cons r x l :
  occurrences r (x :: l) = (if decide (x = r) then 1 else 0) + occurrences r l.
Proof.
  unfold occurrences. simpl. destruct (Nat.eq_dec x r), (decide (x = r)); done || lia.
Qed.

Lemma occurrences_nil r : occurrences r [] = 0.
Proof. done. Qed.

Lemma occurrences_perm r l1 l2 : l1 ≡ₚ l2 → occurrences r l1 = occurrences r l2.
Proof. intros H. by apply Permutation_count_occ. Qed.

Lemma occurrences_seq r i n :
  occurrences r (seq i n) = if decide (i <= r < i + n) then 1 else 0.
Proof.
  revert i. induction n as [|n IH]; intros i; cbn [seq].
  { rewrite occurrences_nil. case_decide; [lia|done]. }
  rewrite occurrences_cons, IH. repeat case_decide; lia.
Qed.

Lemma occurrences_elem_of r l : r ∈ l ↔ 0 < occurrences r l.
Proof. rewrite list_elem_of_In. apply count_occ_In. Qed.

(** The rewriting system for counting occurrences. *)
Ltac occ_simpl :=
  repeat first [ rewrite occurrences_app | rewrite occurrences_cons
               | rewrite occurrences_nil ].
Ltac occ_simpl_in H :=
  repeat first [ rewrite occurrences_app in H | rewrite occurrences_cons in H
               | rewrite occurrences_nil in H ].

Lemma multimap_insert_occ r k v m :
  occurrences r (multimap_insert k v m).*2 = occurrences r (v :: m.*2).
Proof.
  induction m as [|e m IH]; [done|]. cbn [multimap_insert].
  destruct (k <? e.1)%Z; [done|]. rewrite !fmap_cons.
  rewrite !occurrences_cons in *. rewrite IH. lia.
Qed.

(** The map of [HintPairings] holds every index once when every player
    has a board hint. *)
Lemma hint_map_occ r : ∀ (ps : list Player) i0 m0,
  Forall (λ p, board_num p ≠ (-1)%Z) ps →
  occurrences r
    (foldl (λ m xp, if negb (board_num xp.2 =? -1)%Z
                    then multimap_insert (board_num xp.2) xp.1 m else m)
           m0 (imap (λ i, pair (i0 + i)) ps)).*2
  = occurrences r m0.*2 + (if decide (i0 <= r < i0 + length ps) then 1 else 0).
Proof.
  induction ps as [|p ps IH]; intros i0 m0 Hps.
  { cbn [imap foldl length]. case_decide; lia. }
  apply Forall_cons in Hps as [Hp Hps]. rewrite imap_cons. cbn [foldl].
  rewrite (imap_ext _ (λ i, pair (S i0 + i))) by (intros; simpl; f_equal; lia).
  rewrite IH by done. cbn [fst snd length].
  destruct (Z.eqb_spec (board_num p) (-1)); [done|]. cbn [negb].
  rewrite multimap_insert_occ, occurrences_cons, Nat.add_0_r.
  repeat case_decide; lia.
Qed.

Lemma ranked_player_at pl x p : pl !! x = Some p → player_at pl x = p.
Proof. unfold player_at. by intros ->. Qed.

Lemma ranked_bye pl :
  ranked pl → 0 < length pl → is_bye (player_at pl (length pl - 1)) = true.
Proof.
  intros Hr Hlen. destruct (lookup_lt_is_Some_2 pl (length pl - 1)) as [b Hb]; [lia|].
  rewrite (ranked_player_at _ _ _ Hb). apply (Hr _ _ Hb). lia.
Qed.

Lemma ranked_active pl x p :
  ranked pl → pl !! x = Some p → x < length pl - 1 →
  is_bye p = false ∧ Z.to_nat (rank p) = x.
Proof.
  intros Hr Hp Hx. destruct (Hr _ _ Hp) as [Hrank Hbye]. split; [|lia].
  destruct (is_bye p); [|done]. destruct Hbye as [Hbye _]. specialize (Hbye eq_refl). lia.
Qed.

(** "service only p1". *)
Lemma hint_single_spec pl h x p1 :
  ranked pl → pl !! x = Some p1 → x < length pl - 1 →
  ∃ ds dox,
    hint_single h p1 (length pl - 1) true
      = mkHint (h_pair h) (h_single h ++ ds) (h_other h ++ of_boards dox) ∧
    Forall (λ r, is_free (player_at pl r) = true) ds ∧
    Forall (kept_board pl) dox ∧
    ∀ r, r ≠ length pl - 1 →
         occurrences r (ds ++ of_boards dox) = if decide (x = r) then 1 else 0.
Proof.
  intros Hr Hp Hx. destruct (ranked_active _ _ _ Hr Hp Hx) as [Hnb Hrk].
  unfold hint_single. rewrite Hrk.
  destruct (paired p1 || bye_request p1 || negb true) eqn:Hc.
  - exists [], [(x, length pl - 1)]. split_and!; [by rewrite app_nil_r|done| |].
    + constructor; [|done]. unfold kept_board. simpl.
      rewrite (ranked_player_at _ _ _ Hp), ranked_bye by (done || lia).
      split; [done|]. right. split; [done|]. by rewrite orb_false_r in Hc.
    + intros r Hne. simpl. occ_simpl. repeat case_decide; lia.
  - exists [x], []. split_and!; [by rewrite app_nil_r| |done|].
    + constructor; [|done]. rewrite (ranked_player_at _ _ _ Hp).
      unfold is_free. rewrite Hnb.
      by destruct (paired p1), (bye_request p1).
    + intros r Hne. simpl. occ_simpl. repeat case_decide; lia.
Qed.

(** What the loop over the map adds to the three vectors. *)
Lemma hint_loop_inv pl :
  ranked pl →
  ∀ n m h h',
    length m <= n → (∀ e, e ∈ m → e.2 < length pl - 1) →
    hint_loop m pl (length pl - 1) true h = Some h' →
    ∃ dp ds dox,
      h_pair h' = h_pair h ++ dp ∧ h_single h' = h_single h ++ ds ∧
      h_other h' = h_other h ++ of_boards dox ∧
      Forall (λ r, is_free (player_at pl r) = true) (dp ++ ds) ∧
      length dp mod 2 = 0 ∧
      Forall (kept_board pl) dox ∧
      ∀ r, r ≠ length pl - 1 →
           occurrences r (dp ++ ds ++ of_boards dox) = occurrences r m.*2.
Proof.
  intros Hr. induction n as [|n IH]; intros m h h' Hn Hm H.
  { destruct m; [|simpl in Hn; lia]. injection H as <-.
    exists [], [], []. by rewrite !app_nil_r. }
  destruct m as [|e1 m']; [injection H as <-; exists [], [], []; by rewrite !app_nil_r|].
  cbn [hint_loop] in H. inv_bind H. rename p into p1, E into Hp1.
  assert (Hx1 : e1.2 < length pl - 1) by (apply Hm; by left).
  destruct (hint_single_spec pl h _ _ Hr Hp1 Hx1) as (ds1 & dox1 & Hs1 & Hf1 & Hk1 & Ho1).
  destruct m' as [|e2 rest].
  { injection H as <-. rewrite Hs1. exists [], ds1, dox1.
    split_and!; try done; try (by rewrite app_nil_r).
    all: intros r Hne; rewrite fmap_cons, fmap_nil; simpl; rewrite (Ho1 r Hne);
      occ_simpl; lia. }
  inv_bind H. rename p into p2, E into Hp2.
  assert (Hx2 : e2.2 < length pl - 1) by (apply Hm; right; by left).
  match type of H with (if ?c then _ else _) = _ => destruct c eqn:Hc end.
  - rewrite Hs1 in H.
    destruct (IH (e2 :: rest) _ h' ltac:(simpl in *; lia)
                ltac:(intros e He; apply Hm; by right) H)
      as (dp & ds & dox & Hdp & Hds & Hdo & Hf & Hev & Hk & Ho).
    simpl in Hdp, Hds, Hdo.
    exists dp, (ds1 ++ ds), (dox1 ++ dox). split_and!.
    + done.
    + by rewrite Hds, app_assoc.
    + by rewrite Hdo, of_boards_app, app_assoc.
    + apply Forall_app in Hf as [Hfp Hfs]. rewrite !Forall_app. done.
    + done.
    + by apply Forall_app.
    + intros r Hne. specialize (Ho r Hne). specialize (Ho1 r Hne).
      rewrite of_boards_app, !fmap_cons.
      occ_simpl. occ_simpl_in Ho. occ_simpl_in Ho1.
      rewrite fmap_cons in Ho. occ_simpl_in Ho. lia.
  - destruct (ranked_active _ _ _ Hr Hp1 Hx1) as [Hnb1 Hrk1].
    destruct (ranked_active _ _ _ Hr Hp2 Hx2) as [Hnb2 Hrk2].
    rewrite Hrk1, Hrk2 in H.
    apply orb_false_iff in Hc as [Hc Hc3]. apply orb_false_iff in Hc as [_ Hc2].
    apply negb_false_iff, eqb_prop in Hc2.
    destruct (IH rest _ h' ltac:(simpl in *; lia)
                ltac:(intros e He; apply Hm; right; by right) H)
      as (dp & ds & dox & Hdp & Hds & Hdo & Hf & Hev & Hk & Ho).
    destruct (paired p1) eqn:Hpd; simpl in Hdp, Hds, Hdo.
    + exists dp, ds, ((e1.2, e2.2) :: dox). split_and!; try done.
      * by rewrite Hdo, <- app_assoc.
      * constructor; [|done]. unfold kept_board. simpl.
        rewrite (ranked_player_at _ _ _ Hp1), (ranked_player_at _ _ _ Hp2).
        split; [done|]. left. by rewrite Hpd, Hc2.
      * intros r Hne. specialize (Ho r Hne). rewrite !fmap_cons. simpl.
        occ_simpl. occ_simpl_in Ho. lia.
    + exists ([e1.2; e2.2] ++ dp), ds, dox. split_and!; try done.
      * by rewrite Hdp, <- app_assoc.
      * rewrite <- app_assoc. apply Forall_app. split; [|done].
        simpl in Hc3. apply orb_false_iff in Hc3 as [Hb1 Hb2].
        repeat constructor;
          [rewrite (ranked_player_at _ _ _ Hp1)|rewrite (ranked_player_at _ _ _ Hp2)];
          unfold is_free; rewrite ?Hb1, ?Hb2, ?Hpd, ?Hc2, ?Hnb1, ?Hnb2; done.
      * rewrite length_app. cbn [length].
        pose proof (Nat.div_mod_eq (length dp) 2).
        symmetry. apply (Nat.mod_unique _ _ (1 + length dp / 2)); lia.
      * intros r Hne. specialize (Ho r Hne). rewrite !fmap_cons. simpl.
        occ_simpl. occ_simpl_in Ho. lia.
Qed.

Lemma to_of_boards bs : to_boards (of_boards bs) = bs.
Proof. induction bs as [|[a b] bs IH]; simpl; [done|]. by rewrite IH. Qed.

(** The players to be paired, two by two; an odd one gets the bye. *)
Lemma free_boards pl bye : ∀ n X,
  Forall (λ r, is_free (player_at pl r) = true) X →
  is_bye (player_at pl bye) = true →
  (length X = 2 * n →
     Forall (free_board pl) (to_boards X) ∧ of_boards (to_boards X) = X) ∧
  (length X = 2 * n + 1 →
     Forall (free_board pl) (to_boards (X ++ [bye])) ∧
     of_boards (to_boards (X ++ [bye])) = X ++ [bye]).
Proof.
  induction n as [|n IH]; intros X HX Hbye.
  - split; intros Hlen.
    + destruct X; [done|simpl in Hlen; lia].
    + destruct X as [|a [|b X]]; simpl in Hlen; try lia.
      apply Forall_cons in HX as [Ha _]. simpl. split; [|done].
      constructor; [|done]. split; [done|by right].
  - split; intros Hlen.
    + destruct X as [|a [|b X]]; simpl in Hlen; try lia.
      apply Forall_cons in HX as [Ha HX]. apply Forall_cons in HX as [Hb HX].
      destruct (IH X HX Hbye) as [[IH1 IH2] _]; [lia|]. simpl. rewrite IH2.
      split; [|done]. constructor; [|done]. split; [done|by left].
    + destruct X as [|a [|b X]]; simpl in Hlen; try lia.
      apply Forall_cons in HX as [Ha HX]. apply Forall_cons in HX as [Hb HX].
      destruct (IH X HX Hbye) as [_ [IH1 IH2]]; [lia|]. simpl. rewrite IH2.
      split; [|done]. constructor; [|done]. split; [done|by left].
Qed.

Lemma swap_app_2 {A} (L T : list A) a b i j r :
  i = length L + 0 → j = length L + 1 →
  swap (L ++ a :: b :: T) i j = Some r → r = L ++ b :: a :: T.
Proof.
  unfold swap. intros -> -> H. inv_bind H. inv_bind H.
  rewrite lookup_app_plus in E, E0. simpl in E, E0.
  injection E as <-. injection E0 as <-.
  rewrite !insert_app_r in H. simpl in H. by injection H as <-.
Qed.

(** Exchanging the two players of a board keeps its kind. *)
Lemma hint_board_swap pl a b p q :
  ranked pl → pl !! a = Some p → pl !! b = Some q →
  (rank p >? rank q)%Z = true →
  hint_board pl (a, b) → hint_board pl (b, a).
Proof.
  intros Hr Hp Hq Hgt Hk.
  assert (Hnb : is_bye q = false).
  { destruct (is_bye q) eqn:Hb; [|done]. exfalso.
    destruct (Hr _ _ Hp) as [Hrp _]. destruct (Hr _ _ Hq) as [Hrq Hbq].
    apply Hbq in Hb. apply lookup_lt_Some in Hp. lia. }
  unfold hint_board, free_board, kept_board in *. simpl in *.
  rewrite (ranked_player_at _ _ _ Hp), (ranked_player_at _ _ _ Hq) in *.
  destruct Hk as [[Hf [Hq'|Hq']]|[Hb [(H1 & H2 & H3)|[Hq' _]]]]; try congruence.
  - left. split; [done|by left].
  - right. split; [done|]. left. done.
Qed.

Lemma order_boards_by_rank_kinds pl :
  ranked pl →
  ∀ R P r,
    Forall (hint_board pl) R →
    order_boards_by_rank (up2 (2 * length P) (length R)) pl (of_boards (P ++ R)) = Some r →
    ∃ R', r = of_boards (P ++ R') ∧ Forall (hint_board pl) R'.
Proof.
  intros Hr. induction R as [|v R IH]; intros P r HR H.
  { injection H as <-. by exists []. }
  apply Forall_cons in HR as [Hv HR].
  cbn [length up2 order_boards_by_rank] in H.
  unfold at_pair in H. rewrite of_boards_app in H. cbn [of_boards] in H.
  inv_bind H. inv_bind E. inv_bind H. inv_bind E1.
  rewrite (lookup_app_at (of_boards P) _ _ 0) in E0 by (rewrite length_of_boards; lia).
  rewrite (lookup_app_at (of_boards P) _ _ 1) in E2 by (rewrite length_of_boards; lia).
  simpl in E0, E2. injection E0 as <-. injection E2 as <-.
  inv_bind H. rename select IndexVector into pair1.
  rename select (_ = Some pair1) into Hsw.
  destruct v as [a b]. cbn [fst snd] in *.
  assert (∃ v', hint_board pl v' ∧ pair1 = of_boards P ++ v'.1 :: v'.2 :: of_boards R)
    as (v' & Hv' & ->).
  { destruct (rank p >? rank p0)%Z eqn:Hgt.
    - exists (b, a). split; [by eapply hint_board_swap|].
      eapply swap_app_2; [| |exact Hsw]; rewrite length_of_boards; lia.
    - injection Hsw as <-. by exists (a, b). }
  destruct (IH (P ++ [v']) r HR) as (R' & -> & HR').
  { rewrite length_app, <- app_assoc, of_boards_app. cbn [length app of_boards].
    replace (2 * (length P + 1)) with (2 * length P + 2) by lia. exact H. }
  exists (v' :: R'). split; [by rewrite <- app_assoc|by constructor].
Qed.

Lemma length_removelast {A} (l : list A) : length (removelast l) = length l - 1.
Proof. rewrite removelast_firstn_len, length_take. lia. Qed.

Lemma boards_of_even k : boards 0 (2 * k) = up2 0 k.
Proof.
  unfold boards. f_equal. rewrite Nat.sub_0_r.
  symmetry. apply (Nat.div_unique _ _ _ 1); lia.
Qed.

(** [HintPairings] on a vector in which every player has a board hint:
    the boards are of the two kinds, sorted by class, and every player
    stands in the vector once. *)
Lemma HintPairings_spec pl pair0 :
  ranked pl → Forall (λ p, board_num p ≠ (-1)%Z) (removelast pl) →
  HintPairings pl true = Some pair0 →
  ∃ B, pair0 = of_boards B ∧ StronglySorted (class_le pl) B ∧
       Forall (hint_board pl) B ∧
       ∀ r, r < length pl - 1 → occurrences r pair0 = 1.
Proof.
  intros Hr Hhint H. unfold HintPairings in H.
  inv_assert H. inv_bind H. inv_bind H. cbv zeta in H.
  apply andb_true_iff in E as [Hlen _]. apply Nat.ltb_lt in Hlen.
  match type of H with
  | context [hint_loop ?m0 _ _ _ _] => set (m := m0) in *
  end.
  assert (Hm : ∀ r, occurrences r m.*2 = if decide (r < length pl - 1) then 1 else 0).
  { intros r. pose proof (hint_map_occ r (removelast pl) 0 [] Hhint) as Hh.
    rewrite length_removelast, fmap_nil, occurrences_nil in Hh.
    unfold m. etrans; [exact Hh|]. repeat case_decide; lia. }
  inv_bind H. rename h into h1, E into Hloop.
  assert (Hbound : ∀ e, e ∈ m → e.2 < length pl - 1).
  { intros e He. assert (Hin : e.2 ∈ m.*2) by (apply list_elem_of_fmap; eauto).
    apply occurrences_elem_of in Hin. rewrite Hm in Hin. case_decide; lia. }
  destruct (hint_loop_inv pl Hr (length m) m _ _ (le_n _) Hbound Hloop)
    as (dp & ds & dox & Hdp & Hds & Hdo & Hf & Hev & Hk & Ho).
  simpl in Hdp, Hds, Hdo. rewrite Hdp, Hds, Hdo in H. clear Hdp Hds Hdo.
  set (X := dp ++ ds) in *.
  assert (Hbye : is_bye (player_at pl (length pl - 1)) = true) by by apply ranked_bye.
  assert (∃ BF, Forall (free_board pl) BF ∧
            of_boards BF = (if negb (length X mod 2 =? 0) then X ++ [length pl - 1] else X) ∧
            ∀ r, r ≠ length pl - 1 → occurrences r (of_boards BF) = occurrences r X)
    as (BF & HBF & HBFeq & HBFocc).
  { pose proof (Nat.div_mod_eq (length X) 2) as Hdm.
    pose proof (Nat.mod_upper_bound (length X) 2 ltac:(lia)) as Hub.
    destruct (free_boards pl (length pl - 1) (length X / 2) X Hf Hbye) as [He Ho'].
    destruct (Nat.eqb_spec (length X mod 2) 0) as [H0|H0]; simpl.
    - destruct He as [He1 He2]; [lia|]. exists (to_boards X).
      split_and!; [done|done|]. intros r _. by rewrite He2.
    - destruct Ho' as [Ho1 Ho2]; [lia|]. exists (to_boards (X ++ [length pl - 1])).
      split_and!; [done|done|]. intros r Hne. rewrite Ho2. occ_simpl.
      case_decide; lia. }
  rewrite <- HBFeq, <- of_boards_app in H.
  set (Bpre := BF ++ dox) in *.
  rewrite length_of_boards, boards_of_even in H.
  inv_bind H. rename E into Horder, H into Hsort. rename select IndexVector into r1.
  pose proof (order_boards_by_rank_perm _ _ _ _ Horder) as Hp1.
  pose proof (SortBoards_perm _ _ _ Hsort) as Hp2.
  destruct (order_boards_by_rank_kinds pl Hr Bpre [] r1) as (R' & -> & HR').
  { apply Forall_app. split; [|by eapply Forall_impl; [exact Hk|]; right].
    eapply Forall_impl; [exact HBF|]. by left. }
  { exact Horder. }
  destruct (SortBoards_sorted _ _ _ Hsort) as (B & HB & HBs & ->).
  simpl in HB. rewrite to_of_boards in HB.
  exists B. split_and!; [done|done|by rewrite HB|].
  intros r Hlt. rewrite (occurrences_perm _ _ _ Hp2), (occurrences_perm _ _ _ Hp1).
  unfold Bpre. rewrite of_boards_app, occurrences_app, HBFocc by lia.
  specialize (Ho r ltac:(lia)). rewrite Hm in Ho. unfold X.
  occ_simpl. occ_simpl_in Ho. case_decide; lia.
Qed.

Local Close Scope nat_scope.

(** ** The players to pair stand first in the canonical vector *)

Local Open Scope nat_scope.

Lemma free_count_nil : free_count [] = 0.
Proof. done. Qed.

Lemma free_count_cons p l :
  free_count (p :: l) = (if is_free p then 1 else 0) + free_count l.
Proof.
  unfold free_count. rewrite filter_cons.
  destruct (is_free p); case_decide; done.
Qed.

Lemma free_count_app l1 l2 : free_count (l1 ++ l2) = free_count l1 + free_count l2.
Proof. unfold free_count. by rewrite filter_app, length_app. Qed.

Lemma free_count_perm l1 l2 : l1 ≡ₚ l2 → free_count l1 = free_count l2.
Proof. intros H. unfold free_count. by rewrite H. Qed.

Lemma free_count_Forall2 l1 l2 :
  Forall2 (λ p q, is_free q = is_free p) l1 l2 → free_count l2 = free_count l1.
Proof.
  induction 1 as [|p q l1 l2 Hpq _ IH]; [done|].
  by rewrite !free_count_cons, Hpq, IH.
Qed.

Lemma free_count_zero l :
  free_count l = 0 → ∀ p, p ∈ l → is_free p = false.
Proof.
  induction l as [|a l IH]; intros H p Hp; [by apply elem_of_nil in Hp|].
  rewrite free_count_cons in H. apply elem_of_cons in Hp as [->|Hp].
  - destruct (is_free a); [lia|done].
  - apply IH; [lia|done].
Qed.

(** [house_player] counts the players to pair, and the house player it
    names is one of them. *)
Lemma house_player_fold : ∀ (ps : list Player) i0 (acc : option nat * nat),
  let r := foldl (λ acc xp,
           let p := xp.2 in
           if negb (bye_request p) && negb (paired p) && negb (is_bye p)
           then (if bye_house p then Some xp.1 else acc.1, S acc.2)
           else acc) acc (imap (λ i, pair (i0 + i)) ps) in
  r.2 = acc.2 + free_count ps ∧
  (r.1 = acc.1 ∨
   ∃ h p, r.1 = Some (i0 + h) ∧ ps !! h = Some p ∧ is_free p = true ∧ bye_house p = true).
Proof.
  induction ps as [|p ps IH]; intros i0 acc.
  { cbn [imap foldl]. rewrite free_count_nil. split; [lia|by left]. }
  cbv zeta. rewrite imap_cons. cbn [foldl].
  rewrite (imap_ext _ (λ i, pair (S i0 + i))) by (intros; simpl; f_equal; lia).
  match goal with |- context [foldl _ ?a _] => specialize (IH (S i0) a) end.
  cbv zeta in IH. destruct IH as [IH1 IH2]. rewrite IH1, free_count_cons.
  cbn [fst snd] in *. fold (is_free p) in *.
  destruct (is_free p) eqn:Ef.
  - split; [cbn [snd]; lia|]. destruct IH2 as [IH2|(h & q & E1 & E2 & E3 & E4)].
    + rewrite IH2. cbn [fst]. destruct (bye_house p) eqn:Eh; [|by left].
      right. exists 0, p. split_and!; [f_equal; lia|done|done|done].
    + right. exists (S h), q. split_and!; [rewrite E1; f_equal; lia|done|done|done].
  - split; [lia|]. destruct IH2 as [IH2|(h & q & E1 & E2 & E3 & E4)]; [by left|].
    right. exists (S h), q. split_and!; [rewrite E1; f_equal; lia|done|done|done].
Qed.

Lemma free_count_alter (l : list Player) h p :
  l !! h = Some p → is_free p = true →
  free_count (alter (λ p, set_bye_request p true) h l) = free_count l - 1.
Proof.
  revert h. induction l as [|a l IH]; intros [|h] Hh Hp; try done.
  - simpl in Hh. injection Hh as ->. cbn [alter list_alter].
    rewrite !free_count_cons, Hp.
    replace (is_free (set_bye_request p true)) with false by done. lia.
  - simpl in Hh. cbn [alter list_alter]. rewrite !free_count_cons.
    change (list_alter ?f h l) with (alter f h l). rewrite (IH h Hh Hp).
    assert (0 < free_count l); [|lia].
    apply list_elem_of_split_length in Hh as (l1 & l2 & -> & _).
    rewrite free_count_app, free_count_cons, Hp. lia.
Qed.

Lemma alter_bye_request_hint (l : list Player) h :
  Forall (λ p, board_num p ≠ (-1)%Z) l →
  Forall (λ p, board_num p ≠ (-1)%Z) (alter (λ p, set_bye_request p true) h l).
Proof.
  intros H. rewrite Forall_lookup in *. intros i q Hq.
  destruct (decide (i = h)) as [->|Hne].
  - rewrite list_lookup_alter_eq in Hq.
    destruct (l !! h) as [p|] eqn:Hp; [|done]. injection Hq as <-.
    exact (H _ _ Hp).
  - rewrite list_lookup_alter_ne in Hq by done. exact (H _ _ Hq).
Qed.

(** What [request_house_bye] returns: the number of players to pair in
    the vector it returns; board hints stay. *)
Lemma request_house_bye_spec pl pl2 np :
  request_house_bye pl = (pl2, np) →
  np = free_count pl2 ∧
  (Forall (λ p, board_num p ≠ (-1)%Z) pl → Forall (λ p, board_num p ≠ (-1)%Z) pl2).
Proof.
  unfold request_house_bye, house_player.
  pose proof (house_player_fold pl 0 (None, 0)) as Hf. cbv zeta in Hf.
  rewrite (imap_ext _ pair) in Hf by done.
  match type of Hf with context [foldl ?f ?a ?l] => destruct (foldl f a l) as [hp n] end.
  cbn [fst snd] in Hf. destruct Hf as [-> Hh].
  destruct (_ =? 0) eqn:Ep.
  { intros [= <- <-]. split; [lia|done]. }
  destruct Hh as [->|(h & p & -> & Hp & Hfree & _)].
  { intros [= <- <-]. split; [lia|done]. }
  change (0 + h) with h. intros [= <- <-]. split.
  - symmetry. exact (free_count_alter _ _ _ Hp Hfree).
  - apply alter_bye_request_hint.
Qed.

Lemma forallb_lookup {A} (f : A → bool) (l : list A) :
  forallb f l = true ↔ ∀ i x, l !! i = Some x → f x = true.
Proof.
  rewrite forallb_forall. split.
  - intros H i x Hx. apply H, list_elem_of_In. by eapply list_elem_of_lookup_2.
  - intros H x Hx. apply list_elem_of_In, list_elem_of_lookup_1 in Hx as [i Hi]. eauto.
Qed.

Lemma elem_of_removelast {A} (l : list A) x : x ∈ removelast l → x ∈ l.
Proof.
  intros H. destruct (decide (l = [])) as [->|Hne]; [done|].
  rewrite (app_removelast_last x Hne). apply elem_of_app. by left.
Qed.

(** [CanonicalPlayerVector] keeps the number of players to pair and the
    board hints of the players. *)
Lemma canonical_free pl2 plc :
  CanonicalPlayerVector pl2 = Some plc →
  free_count plc = free_count pl2 ∧
  (Forall (λ p, board_num p ≠ (-1)%Z) pl2 →
   Forall (λ p, board_num p ≠ (-1)%Z) (removelast plc)).
Proof.
  intros H. apply CanonicalPlayerVector_inv in H
    as (src & sorted & Hsrc & Hperm & Hset & _ & Hrl).
  assert (HF : Forall2 (λ p q, is_free q = is_free p ∧ board_num q = board_num p ∧
                               is_bye q = is_bye p) sorted plc).
  { apply Forall2_same_length_lookup_2; [symmetry; by apply SetRanks_length|].
    intros i p q Hp Hq.
    destruct (SetRanks_lookup _ _ _ _ Hset Hq) as (p' & due & o & t & Hp' & ->).
    unfold PlayerVector in *. rewrite Hp in Hp'. injection Hp' as <-. done. }
  split.
  - rewrite (free_count_Forall2 sorted plc), (free_count_perm _ _ Hperm).
    + destruct Hsrc as [->| ->]; [done|]. rewrite free_count_app.
      rewrite free_count_cons, free_count_nil.
      replace (is_free (bye_sentinel _)) with false by done. lia.
    + eapply Forall2_impl; [exact HF|]. by intros ?? (? & _).
  - intros Hh. apply Forall_forall. intros q Hq.
    rewrite forallb_forall in Hrl. pose proof (Hrl q ltac:(by apply list_elem_of_In)) as Hnb.
    apply elem_of_removelast, list_elem_of_lookup_1 in Hq as [i Hi].
    destruct (Forall2_lookup_r _ _ _ _ _ HF Hi) as (p & Hp & _ & Hbn & Hbye).
    rewrite Hbn. apply list_elem_of_lookup_2 in Hp. rewrite Hperm in Hp.
    destruct Hsrc as [->| ->].
    + rewrite Forall_forall in Hh. by apply Hh.
    + apply elem_of_app in Hp as [Hp|Hp].
      * rewrite Forall_forall in Hh. by apply Hh.
      * apply list_elem_of_singleton in Hp. subst p.
        rewrite Hbye in Hnb. done.
Qed.

(** The assertions of [SwissPairings] and [HintPairings] on the ranks
    and on the bye. *)
Lemma ranked_of_asserts (pl : list Player) :
  forallb (λ xp : nat * Player, if S xp.1 =? length pl then is_bye xp.2
                                else negb (is_bye xp.2)) (imap pair pl) = true →
  assert_ranks pl = Some tt → ranked pl.
Proof.
  intros H1 H2 x p Hp. unfold assert_ranks in H2. apply ASSERT_Some in H2.
  rewrite forallb_lookup in H1, H2.
  specialize (H1 x (x, p)). specialize (H2 x (x, p)).
  unfold PlayerVector in *. rewrite list_lookup_imap, Hp in H1, H2.
  specialize (H1 eq_refl). specialize (H2 eq_refl). cbn [fst snd] in *.
  split; [by apply Z.eqb_eq|].
  destruct (Nat.eqb_spec (S x) (length pl)); destruct (is_bye p); naive_solver.
Qed.

(** In the order of the vector a player to pair comes before all the
    others. *)
Lemma Player_lt_free a b :
  Player_lt a b = true → is_free b = true → is_free a = true.
Proof.
  unfold Player_lt, is_free.
  destruct (is_bye a), (is_bye b), (bye_request a), (bye_request b),
    (paired a), (paired b); simpl; done.
Qed.

Lemma assert_sorted_free : ∀ (pl : list Player) u, assert_sorted pl = Some u →
  ∀ i j p q, i ≤ j → pl !! i = Some p → pl !! j = Some q →
    is_free q = true → is_free p = true.
Proof.
  induction pl as [|a pl IH]; intros u H i j p q Hij Hp Hq Hfree; [done|].
  destruct pl as [|b rest].
  { destruct i, j; simpl in *; try done. by simplify_eq. }
  cbn [assert_sorted] in H. inv_bind H. inv_assert H. subst.
  unfold Player_less in E. inv_assert E. injection E as Hlt.
  destruct i as [|i], j as [|j]; try lia; simpl in Hp, Hq.
  - by simplify_eq.
  - injection Hp as <-. apply (Player_lt_free _ _ Hlt).
    apply (IH _ H 0 j b q); [lia|done|done|done].
  - apply (IH _ H i j p q); [lia|done|done|done].
Qed.

Lemma free_prefix : ∀ (l : list Player),
  (∀ i j p q, i ≤ j → l !! i = Some p → l !! j = Some q →
     is_free q = true → is_free p = true) →
  ∀ i p, l !! i = Some p → (is_free p = true ↔ i < free_count l).
Proof.
  induction l as [|a l IH]; intros Hc i p Hp; [done|].
  rewrite free_count_cons.
  assert (Hc' : ∀ i j p q, i ≤ j → l !! i = Some p → l !! j = Some q →
     is_free q = true → is_free p = true).
  { intros i' j' p' q' ?. apply (Hc (S i') (S j')). lia. }
  destruct (is_free a) eqn:Ea.
  - destruct i as [|i]; simpl in Hp.
    + injection Hp as <-. split; [lia|done].
    + rewrite (IH Hc' i p Hp). lia.
  - assert (Hall : ∀ j q, l !! j = Some q → is_free q = false).
    { intros j q Hq. destruct (is_free q) eqn:Eq; [|done].
      rewrite <- Ea. symmetry. apply (Hc 0 (S j) a q); [lia|done|done|done]. }
    assert (free_count l = 0) as ->.
    { clear -Hall. induction l as [|b l IH]; [done|].
      rewrite free_count_cons, (Hall 0 b eq_refl), IH; [done|].
      intros j q. apply (Hall (S j)). }
    destruct i as [|i]; simpl in Hp.
    + injection Hp as <-. rewrite Ea. split; [done|lia].
    + rewrite (Hall i p Hp). split; [done|lia].
Qed.

(** ** FirstPairings rearranges the players to pair *)

Local Open Scope nat_scope.

Lemma group_end_bounds : ∀ fuel pl np sg y0 y,
  group_end fuel pl np sg y0 = Some y → y0 ≤ np → y0 ≤ y ≤ np.
Proof.
  induction fuel as [|fuel IH]; intros pl np sg y0 y H Hle; [done|].
  cbn [group_end] in H. destruct (Nat.leb_spec np y0).
  - injection H as <-. lia.
  - inv_bind H. destruct (negb _).
    + injection H as <-. lia.
    + apply IH in H; lia.
Qed.

Lemma set_at_app (P D : list nat) k v r :
  set_at (P ++ D) k v = Some r → k = length P →
  ∃ a D', D = a :: D' ∧ r = (P ++ [v]) ++ D'.
Proof.
  unfold set_at, IndexVector. intros H ->. destruct (Nat.ltb_spec (length P) (length (P ++ D))); [|done].
  injection H as <-. rewrite length_app in *. destruct D as [|a D']; [simpl in *; lia|].
  exists a, D'. split; [done|].
  rewrite insert_app_r_alt by lia. rewrite Nat.sub_diag. by rewrite <- app_assoc.
Qed.

(** The upper half of a score group meets its lower half. *)
Lemma pair_halves_spec x n : ∀ c j0 (P D pair' : list nat),
  length P = x + 2 * j0 →
  pair_halves (up2 (2 * j0) c) x n (P ++ D) = Some pair' →
  pair' = P ++ of_boards (map (λ j, (x + j, x + n / 2 + j)) (seq j0 c)) ++ drop (2 * c) D.
Proof.
  induction c as [|c IH]; intros j0 P D pair' HP H.
  { simpl in H. by injection H as <-. }
  cbn [up2 pair_halves] in H. cbv zeta in H.
  replace (2 * j0 / 2) with j0 in H
    by (rewrite Nat.mul_comm; symmetry; apply Nat.div_mul; lia).
  inv_bind H. inv_bind H.
  apply set_at_app in E as (a & D1 & -> & ->); [|lia].
  apply set_at_app in E0 as (b & D2 & -> & ->); [|rewrite length_app; simpl; lia].
  replace (2 * j0 + 2) with (2 * S j0) in H by lia.
  apply IH in H; [|rewrite !length_app; simpl; lia].
  rewrite H. replace (2 * S c) with (S (S (2 * c))) by lia.
  cbn [seq map of_boards fst snd drop]. by rewrite <- !app_assoc.
Qed.

Lemma occ_halves r x h : ∀ c j0,
  occurrences r (of_boards (map (λ j, (x + j, x + h + j)) (seq j0 c)))
  = (if decide (x + j0 ≤ r < x + j0 + c) then 1 else 0)
    + (if decide (x + h + j0 ≤ r < x + h + j0 + c) then 1 else 0).
Proof.
  induction c as [|c IH]; intros j0; cbn [seq map of_boards fst snd].
  { rewrite occurrences_nil. repeat case_decide; lia. }
  rewrite !occurrences_cons, IH. repeat case_decide; lia.
Qed.

(** The loop of [FirstPairings] writes the ranks below [x] into the
    slots below [x] and leaves the slots from [nplayers] on. *)
Lemma FirstPairings_loop_inv pl np : ∀ fuel x num (PRE D pair1 : list nat),
  FirstPairings_loop fuel pl np x num (PRE ++ D) = Some pair1 →
  length PRE = x → x ≤ np →
  (∀ r, occurrences r PRE = if decide (r < x) then 1 else 0) →
  ∃ PRE1, pair1 = PRE1 ++ drop (np - x) D ∧ length PRE1 = np ∧
          ∀ r, occurrences r PRE1 = if decide (r < np) then 1 else 0.
Proof.
  induction fuel as [|fuel IH]; intros x num PRE D pair1 H HP Hx Hocc; [done|].
  cbn [FirstPairings_loop] in H. destruct (Nat.ltb_spec x np) as [Hlt|Hge]; cbn [negb] in H.
  2: { injection H as <-. exists PRE. replace (np - x) with 0 by lia.
       split_and!; [done|lia|]. intros r. rewrite Hocc. repeat case_decide; lia. }
  inv_bind H. inv_assert H. inv_bind H. inv_bind H. inv_bind H. cbv zeta in H.
  inv_assert H.
  match goal with Ho : num !! _ = Some ?o |- _ => rename o into old end.
  match goal with Hy : group_end _ _ _ _ _ = Some ?v |- _ =>
    rename v into y; apply group_end_bounds in Hy; [|lia] end.
  match goal with Hn : (_ =? _) = true |- _ =>
    apply Nat.eqb_eq in Hn; rewrite Hn in H; clear Hn end.
  inv_bind H. inv_bind H.
  match goal with Hh : pair_halves _ _ _ _ = Some ?v |- _ =>
    apply (pair_halves_spec x (y - x) _ 0) in Hh; [|lia]; subst v end.
  pose proof (Nat.div_mod_eq (y - x) 2) as Hdm.
  pose proof (Nat.mod_upper_bound (y - x) 2 ltac:(lia)) as Hub.
  set (h := (y - x) / 2) in *.
  set (W := of_boards _) in *.
  assert (HW : length W = 2 * h).
  { unfold W. by rewrite length_of_boards, length_map, length_seq. }
  assert (HWocc : ∀ r, occurrences r W = if decide (x ≤ r < x + 2 * h) then 1 else 0).
  { intros r. unfold W. rewrite occ_halves. repeat case_decide; lia. }
  rewrite app_assoc in H.
  destruct (Nat.eqb_spec ((y - x) mod 2) 0) as [Hev|Hodd].
  - apply IH in H as (PRE1 & -> & HL & HO).
    + exists PRE1. split_and!; [|done|done]. rewrite drop_drop. do 2 f_equal. lia.
    + rewrite length_app. lia.
    + lia.
    + intros r. rewrite occurrences_app, Hocc, HWocc. repeat case_decide; lia.
  - destruct (Nat.ltb_spec y np) as [Hynp|Hynp].
    + inv_bind H. inv_bind H.
      match goal with Hs : set_at _ (y - 1) _ = Some _ |- _ =>
        apply set_at_app in Hs as (a & D1 & HD1 & ->); [|rewrite length_app; lia] end.
      match goal with Hs : set_at _ y _ = Some _ |- _ =>
        apply set_at_app in Hs as (b & D2 & -> & ->); [|rewrite !length_app; simpl; lia] end.
      apply IH in H as (PRE1 & -> & HL & HO).
      * exists PRE1. split_and!; [|done|done]. f_equal.
        assert (D2 = drop 2 (drop (2 * h) D)) as -> by by rewrite HD1.
        rewrite !drop_drop. f_equal. lia.
      * rewrite !length_app. simpl. lia.
      * lia.
      * intros r. rewrite !occurrences_app, !occurrences_cons, occurrences_nil, Hocc, HWocc.
        repeat case_decide; lia.
    + inv_bind H. inv_assert H. inv_bind H. inv_assert H.
      match goal with Hs : set_at _ (y - 1) _ = Some _ |- _ =>
        apply set_at_app in Hs as (a & D1 & HD1 & ->); [|rewrite length_app; lia] end.
      apply IH in H as (PRE1 & -> & HL & HO).
      * exists PRE1. split_and!; [|done|done]. f_equal.
        assert (D1 = drop 1 (drop (2 * h) D)) as -> by by rewrite HD1.
        rewrite !drop_drop. f_equal. lia.
      * rewrite !length_app. simpl. lia.
      * lia.
      * intros r. rewrite !occurrences_app, !occurrences_cons, occurrences_nil, Hocc, HWocc.
        repeat case_decide; lia.
Qed.

Lemma of_boards_lookup : ∀ B i r, of_boards B !! i = Some r →
  ∃ B1 a b B2, B = B1 ++ (a, b) :: B2 ∧ length B1 = i / 2 ∧ (r = a ∨ r = b).
Proof.
  induction B as [|[a b] B IH]; intros i r H; [done|].
  destruct i as [|[|i]]; cbn [of_boards fst snd] in H; simpl in H.
  - injection H as <-. exists [], a, b, B. split_and!; [done|done|by left].
  - injection H as <-. exists [], a, b, B. split_and!; [done|done|by right].
  - apply IH in H as (B1 & a' & b' & B2 & -> & HL & Hr).
    exists ((a, b) :: B1), a', b', B2. split_and!; [done| |done].
    replace (S (S i)) with (i + 1 * 2) by lia. rewrite Nat.div_add by lia.
    cbn [length]. lia.
Qed.

Lemma kept_board_not_free pl b :
  kept_board pl b →
  is_free (player_at pl b.1) = false ∧ is_free (player_at pl b.2) = false.
Proof.
  unfold kept_board, is_free. cbv zeta.
  destruct (is_bye (player_at pl b.1)), (is_bye (player_at pl b.2)),
    (paired (player_at pl b.1)), (paired (player_at pl b.2)),
    (bye_request (player_at pl b.1)), (bye_request (player_at pl b.2));
    simpl; intuition discriminate.
Qed.

Lemma hint_board_class pl b :
  hint_board pl b →
  (free_board pl b ∧ board_class pl b ≤ 2) ∨ (kept_board pl b ∧ 3 ≤ board_class pl b).
Proof.
  intros [H|H]; [left|right]; (split; [done|]); revert H;
    unfold free_board, kept_board, is_free, board_class; cbv zeta;
    destruct (is_bye (player_at pl b.1)), (is_bye (player_at pl b.2)),
      (paired (player_at pl b.1)), (paired (player_at pl b.2)),
      (bye_request (player_at pl b.1)), (bye_request (player_at pl b.2));
    simpl; intuition (discriminate || lia).
Qed.

Lemma count_below (L : list nat) k : (∀ f, f < k → f ∈ L) → k ≤ length L.
Proof.
  intros H. rewrite <- (length_seq k 0). apply submseteq_length.
  apply NoDup_submseteq; [apply NoDup_seq|]. intros x Hx.
  apply elem_of_seq in Hx. apply H. lia.
Qed.

(** The slots below the number of players to pair hold players to pair. *)
Lemma free_slots pl B np :
  (∀ r p, pl !! r = Some p → (is_free p = true ↔ r < np)) →
  np < length pl →
  StronglySorted (class_le pl) B → Forall (hint_board pl) B →
  (∀ r, r < np → occurrences r (of_boards B) = 1) →
  ∀ i r p, i < np → of_boards B !! i = Some r → pl !! r = Some p →
    is_bye p = false → is_free p = true.
Proof.
  intros Hfree Hnp HS HK Hocc i r p Hi Hr Hp Hnb.
  destruct (is_free p) eqn:Ef; [done|exfalso].
  apply of_boards_lookup in Hr as (B1 & a & b & B2 & -> & HL & Hab).
  apply StronglySorted_app in HS as (_ & _ & HS).
  apply StronglySorted_cons in HS as [HS _].
  apply Forall_app in HK as [_ HK]. apply Forall_cons in HK as [Hk HK].
  assert (Hpa : player_at pl r = p) by by apply ranked_player_at.
  assert (Hc : 3 ≤ board_class pl (a, b)).
  { destruct (hint_board_class _ _ Hk) as [[[F1 F2] _]|[_ ?]]; [exfalso|done].
    cbn [fst snd] in *. destruct Hab as [->| ->]; [congruence|].
    destruct F2; congruence. }
  assert (Hkept : Forall (kept_board pl) ((a, b) :: B2)).
  { apply Forall_cons. split.
    - destruct (hint_board_class _ _ Hk) as [[_ ?]|[? _]]; [lia|done].
    - apply Forall_forall. intros c Hc'. rewrite Forall_forall in HS, HK.
      specialize (HS c Hc'). unfold class_le in HS.
      destruct (hint_board_class _ _ (HK c Hc')) as [[_ ?]|[? _]]; [lia|done]. }
  assert (Hnf : ∀ f, f ∈ of_boards ((a, b) :: B2) → is_free (player_at pl f) = false).
  { clear -Hkept. induction Hkept as [|c l Hc _ IH]; intros f Hf; [by apply elem_of_nil in Hf|].
    cbn [of_boards] in Hf. apply kept_board_not_free in Hc as [H1 H2].
    rewrite !elem_of_cons in Hf. destruct Hf as [->|[->|Hf]]; auto. }
  assert (np ≤ length (of_boards B1)); [|rewrite length_of_boards in *;
    pose proof (Nat.div_mod_eq i 2); lia].
  apply count_below. intros f Hf.
  specialize (Hocc f Hf). rewrite of_boards_app, occurrences_app in Hocc.
  destruct (lookup_lt_is_Some_2 pl f ltac:(lia)) as [pf Hpf].
  assert (is_free (player_at pl f) = true).
  { rewrite (ranked_player_at _ _ _ Hpf). by apply (Hfree f pf Hpf). }
  apply occurrences_elem_of.
  destruct (decide (f ∈ of_boards ((a, b) :: B2))) as [Hin|Hnin].
  { apply Hnf in Hin. congruence. }
  rewrite occurrences_elem_of in Hnin. lia.
Qed.

(** [FirstPairings] rearranges the vector that [HintPairings] has made. *)
Lemma FirstPairings_perm pl B np pair1 :
  (∀ r p, pl !! r = Some p → (is_free p = true ↔ r < np)) →
  np < length pl →
  StronglySorted (class_le pl) B → Forall (hint_board pl) B →
  (∀ r, r < length pl - 1 → occurrences r (of_boards B) = 1) →
  FirstPairings pl (of_boards B) np = Some pair1 →
  pair1 ≡ₚ of_boards B.
Proof.
  intros Hfree Hnp HS HK Hocc H. unfold FirstPairings in H.
  inv_assert H. inv_bind H. inv_assert H. cbv zeta in H.
  inv_bind H. inv_bind H. inv_assert H.
  rename select (mapM _ _ = Some _) into Hps.
  rename select (forallb _ _ = true) into Hnb.
  rename select ((np <=? _) = true) into Hle. apply Nat.leb_le in Hle.
  set (pair0 := of_boards B) in *.
  assert (Hin : ∀ r, r ∈ take np pair0 → r < np).
  { intros r Hr. apply list_elem_of_lookup_1 in Hr as [i Hi].
    apply mapM_Some_1 in Hps.
    destruct (Forall2_lookup_l _ _ _ _ _ Hps Hi) as (p & Hp1 & Hp2).
    rewrite forallb_lookup in Hnb. specialize (Hnb _ _ Hp1).
    apply negb_true_iff in Hnb.
    pose proof (lookup_lt_Some _ _ _ Hi) as Hlt. rewrite length_take in Hlt.
    rewrite lookup_take_lt in Hi by lia.
    apply (Hfree r p Hp2).
    apply (free_slots pl B np Hfree Hnp HS HK (λ r Hr, Hocc r ltac:(lia)) i r p);
      [lia|done|done|done]. }
  assert (Hperm : take np pair0 ≡ₚ seq 0 np).
  { apply submseteq_length_Permutation.
    - apply NoDup_submseteq.
      + apply NoDup_ListNoDup, (proj2 (NoDup_count_occ Nat.eq_dec _)). intros r.
        destruct (decide (r ∈ take np pair0)) as [Hr|Hr].
        * specialize (Hocc r ltac:(specialize (Hin r Hr); lia)).
          rewrite <- (take_drop np pair0) in Hocc.
          rewrite occurrences_app in Hocc. unfold occurrences in Hocc. lia.
        * rewrite occurrences_elem_of in Hr. unfold occurrences in Hr. lia.
      + intros r Hr. apply elem_of_seq. specialize (Hin r Hr). lia.
    - rewrite length_seq, length_take. lia. }
  pose proof (FirstPairings_loop_inv pl np (S np) 0 _ [] _ pair1 H eq_refl
                ltac:(lia)) as (PRE1 & -> & HL & HO).
  { intros r. rewrite occurrences_nil. case_decide; [lia|done]. }
  rewrite Nat.sub_0_r, drop_app_length'.
  2: { unfold sort_nat. by rewrite merge_sort_Permutation, length_take, Nat.min_l. }
  rewrite <- (take_drop np pair0) at 2. apply Permutation_app_tail.
  rewrite Hperm. apply (Permutation_count_occ Nat.eq_dec). intros r.
  fold (occurrences r PRE1). fold (occurrences r (seq 0 np)).
  rewrite HO, occurrences_seq. repeat case_decide; lia.
Qed.

Local Close Scope nat_scope.

(** ** Setting the boards *)

Lemma same_but_boards_refl pl : same_but_boards pl pl.
Proof.
  split; [done|]. intros r p Hp. exists p, (board_num p), (board_color p).
  split; [done|]. by destruct p.
Qed.

Lemma same_but_boards_insert pl l i q bn bc :
  same_but_boards pl l → l !! i = Some q →
  same_but_boards pl (<[i := set_board q bn bc]> l).
Proof.
  intros [HL H] Hq. split; [by rewrite length_insert|].
  intros r p' Hp'. destruct (decide (r = i)) as [->|Hne].
  - rewrite list_lookup_insert_eq in Hp' by (by eapply lookup_lt_Some).
    injection Hp' as <-. destruct (H _ _ Hq) as (p & bn' & bc' & Hp & ->).
    by exists p, bn, bc.
  - rewrite list_lookup_insert_ne in Hp' by done. by apply H.
Qed.

Lemma same_but_boards_trans pl1 pl2 pl3 :
  same_but_boards pl1 pl2 → same_but_boards pl2 pl3 → same_but_boards pl1 pl3.
Proof.
  intros [L1 H1] [L2 H2]. split; [congruence|]. intros r p3 Hp3.
  destruct (H2 _ _ Hp3) as (p2 & bn & bc & Hp2 & ->).
  destruct (H1 _ _ Hp2) as (p1 & bn' & bc' & Hp1 & ->).
  by exists p1, bn, bc.
Qed.

Lemma same_but_boards_bye pl l r p' :
  same_but_boards pl l → l !! r = Some p' →
  ∃ p, pl !! r = Some p ∧ is_bye p' = is_bye p ∧ rank p' = rank p.
Proof.
  intros [_ H] Hp'. destruct (H _ _ Hp') as (p & bn & bc & Hp & ->). by exists p.
Qed.

(** One board of "set boards": both players get the number of the
    board, the colors are the one of [AllocateColor] and the other one,
    and no other player changes. *)
Lemma set_board_of_spec fb (pl : list Player) (pair : list nat) x pl' :
  set_board_of fb pl pair x = Some pl' →
  ∃ rx ry px py, pair !! x = Some rx ∧ pair !! (x + 1)%nat = Some ry ∧
    pl !! rx = Some px ∧ is_bye px = false ∧ pl !! ry = Some py ∧
    same_but_boards pl pl' ∧
    (∀ r, r ≠ rx → r ≠ ry → pl' !! r = pl !! r) ∧
    (rx ≠ ry →
      ∃ px' py', pl' !! rx = Some px' ∧ pl' !! ry = Some py' ∧
        board_num px' = fb + Z.of_nat (x / 2) ∧
        board_num py' = fb + Z.of_nat (x / 2) ∧
        white_and_black (board_color px') (board_color py') ∧
        (is_bye py = true → board_color px' = "W"%char ∧ board_color py' = "B"%char)).
Proof.
  unfold set_board_of. intros H. unfold PlayerVector, IndexVector in *.
  inv_bind H. inv_bind H. inv_bind H. inv_assert H. inv_bind H. cbv zeta in H.
  set (num := fb + Z.of_nat (x / 2)) in *.
  inv_bind H. inv_bind H. inv_bind H. inv_bind H. inv_bind H.
  inv_assert H. inv_assert H.
  match goal with E : pair !! x = Some ?r |- _ => rename r into rx, E into Hrx end.
  match goal with E : pair !! (x + 1)%nat = Some ?r |- _ => rename r into ry, E into Hry end.
  match goal with E : pl !! rx = Some ?q |- _ => rename q into px, E into Hpx end.
  match goal with E : pl !! ry = Some ?q |- _ => rename q into py, E into Hpy end.
  match goal with E : AllocateColor _ _ _ = Some ?c |- _ => rename c into color, E into Hc end.
  match goal with E : negb (is_bye px) = true |- _ =>
    apply negb_true_iff in E; rename E into Hnb end.
  match goal with E : <[rx:=set_board_num px num]> pl !! ry = Some ?q |- _ =>
    rename q into py1, E into Hpy1 end.
  set (pl1 := <[rx:=set_board_num px num]> pl) in *.
  match goal with E : <[ry:=_]> pl1 !! rx = Some ?q |- _ =>
    rename q into px2, E into Hpx2 end.
  set (pl2 := <[ry:=set_board py1 num color]> pl1) in *.
  set (pl3 := <[rx:=set_board_color px2 (FlipColor color)]> pl2) in *.
  assert (pl' = pl3) as -> by congruence. clear H.
  match goal with E : pl3 !! rx = Some ?q |- _ => rename q into px3, E into Hpx3 end.
  match goal with E : pl3 !! ry = Some ?q |- _ => rename q into py3, E into Hpy3 end.
  match goal with E : (board_num _ =? _) = true |- _ =>
    apply Z.eqb_eq in E; rename E into Hbn end.
  match goal with E : (_ || _) = true |- _ => rename E into Hcol end.
  exists rx, ry, px, py. split_and!; try done.
  - apply same_but_boards_insert; [|done].
    apply same_but_boards_insert; [|done].
    apply (same_but_boards_insert pl pl rx px num (board_color px)); [|done].
    apply same_but_boards_refl.
  - intros r H1 H2. unfold pl3, pl2, pl1.
    rewrite (list_lookup_insert_ne _ rx r) by congruence.
    rewrite (list_lookup_insert_ne _ ry r) by congruence.
    rewrite (list_lookup_insert_ne _ rx r) by congruence. done.
  - intros Hne. exists px3, py3. split_and!; try done.
    + unfold pl3 in Hpx3.
      rewrite list_lookup_insert_eq in Hpx3 by (by eapply lookup_lt_Some).
      injection Hpx3 as <-. unfold pl2 in Hpx2.
      rewrite list_lookup_insert_ne in Hpx2 by congruence. unfold pl1 in Hpx2.
      rewrite list_lookup_insert_eq in Hpx2 by (by eapply lookup_lt_Some).
      by injection Hpx2 as <-.
    + unfold pl3 in Hpy3. rewrite list_lookup_insert_ne in Hpy3 by congruence.
      unfold pl2 in Hpy3.
      rewrite list_lookup_insert_eq in Hpy3 by (by eapply lookup_lt_Some).
      by injection Hpy3 as <-.
    + unfold white_and_black.
      apply orb_true_iff in Hcol as [Hcol|Hcol]; apply andb_true_iff in Hcol as [C1 C2];
        apply Ascii.eqb_eq in C1, C2; auto.
    + intros Hbye. unfold AllocateColor in Hc. rewrite Hnb, Hbye in Hc.
      injection Hc as <-.
      unfold pl3 in Hpx3, Hpy3.
      rewrite list_lookup_insert_eq in Hpx3 by (by eapply lookup_lt_Some).
      rewrite list_lookup_insert_ne in Hpy3 by congruence. unfold pl2 in Hpy3.
      rewrite list_lookup_insert_eq in Hpy3 by (by eapply lookup_lt_Some).
      injection Hpx3 as <-. injection Hpy3 as <-. done.
Qed.

Lemma elem_of_of_boards r : ∀ Bs, r ∈ of_boards Bs →
  ∃ j a b, Bs !! j = Some (a, b) ∧ (r = a ∨ r = b).
Proof.
  intros Bs Hr. apply list_elem_of_lookup_1 in Hr as [i Hi].
  apply of_boards_lookup in Hi as (B1 & a & b & B2 & -> & HL & Hab).
  exists (length B1), a, b. split; [|done].
  by rewrite (lookup_app_at B1 ((a, b) :: B2) (length B1) 0) by lia.
Qed.

(** "set boards" over all the boards of a vector in which no active
    player stands twice. *)
Lemma set_boards_fold fb n (pair : list nat) :
  (∀ r, (r < n)%nat → (occurrences r pair <= 1)%nat) →
  ∀ Bs Bpre (pl plf : list Player),
  pair = of_boards (Bpre ++ Bs) →
  length pl = S n →
  (∀ r p, pl !! r = Some p → (is_bye p = true ↔ r = n)) →
  foldlM (λ pl x, set_board_of fb pl pair x) pl
    (up2 (2 * length Bpre) (length Bs)) = Some plf →
  same_but_boards pl plf ∧
  (∀ r, r ∉ of_boards Bs → plf !! r = pl !! r) ∧
  ∀ j b, Bs !! j = Some b → board_done plf n fb (length Bpre + j) b.
Proof.
  intros Hocc. induction Bs as [|[a b] Bs IH]; intros Bpre pl plf Hpair Hlen Hbye H.
  { simpl in H. injection H as <-. split_and!; [apply same_but_boards_refl|done|done]. }
  cbn [length up2 foldlM] in H. inv_bind H.
  rename select (set_board_of _ _ _ _ = Some _) into Hstep.
  rename select PlayerVector into pl1. unfold PlayerVector in *.
  apply set_board_of_spec in Hstep
    as (rx & ry & px & py & Hrx & Hry & Hpx & Hnb & Hpy & Hsame & Hframe & Hset).
  assert (Hpa : pair = of_boards Bpre ++ a :: b :: of_boards Bs).
  { by rewrite Hpair, of_boards_app. }
  assert (rx = a ∧ ry = b) as [-> ->].
  { rewrite Hpa in Hrx, Hry.
    rewrite (lookup_app_at _ _ (2 * length Bpre) 0) in Hrx
      by (rewrite length_of_boards; lia).
    rewrite (lookup_app_at _ _ (2 * length Bpre + 1) 1) in Hry
      by (rewrite length_of_boards; lia).
    simpl in Hrx, Hry. by simplify_eq. }
  assert (Ha : (a < n)%nat).
  { pose proof (lookup_lt_Some _ _ _ Hpx). destruct (decide (a = n)) as [->|]; [|lia].
    apply Hbye in Hpx. rewrite Hnb in Hpx. discriminate (proj2 Hpx eq_refl). }
  assert (Hb : (b <= n)%nat) by (pose proof (lookup_lt_Some _ _ _ Hpy); lia).
  pose proof (Hocc a Ha) as Hoa. rewrite Hpa in Hoa.
  rewrite occurrences_app, !occurrences_cons in Hoa.
  rewrite decide_True in Hoa by done.
  assert (Hab : a ≠ b).
  { intros <-. rewrite decide_True in Hoa by done. lia. }
  assert (Hna : a ∉ of_boards Bs).
  { rewrite occurrences_elem_of. lia. }
  assert (Hnb' : (b < n)%nat → b ∉ of_boards Bs).
  { intros Hlt. pose proof (Hocc b Hlt) as Hob. rewrite Hpa in Hob.
    rewrite occurrences_app, !occurrences_cons in Hob.
    rewrite (decide_True (P := b = b)) in Hob by done.
    rewrite occurrences_elem_of. lia. }
  destruct (Hset Hab) as (px' & py' & Hpx' & Hpy' & Hbx & Hby & Hwb & Hbw).
  replace (2 * length Bpre + 2)%nat with (2 * length (Bpre ++ [(a, b)]))%nat in H
    by (rewrite length_app; simpl; lia).
  apply IH in H as (Hsame2 & Hframe2 & Hdone).
  2: { by rewrite <- app_assoc. }
  2: { destruct Hsame as [-> _]. done. }
  2: { intros r p' Hp'. destruct (same_but_boards_bye _ _ _ _ Hsame Hp') as (p & Hp & -> & _).
       by apply Hbye. }
  replace (2 * length Bpre / 2)%nat with (length Bpre) in *
    by (rewrite Nat.mul_comm; symmetry; apply Nat.div_mul; lia).
  split_and!.
  - by eapply same_but_boards_trans.
  - intros r Hr. cbn [of_boards fst snd] in Hr. rewrite !not_elem_of_cons in Hr.
    destruct Hr as (? & ? & ?). rewrite Hframe2 by done. by apply Hframe.
  - intros [|j] c Hc; simpl in Hc.
    + injection Hc as <-. unfold board_done. cbn [fst snd].
      assert (Hfa : player_at plf a = px').
      { apply ranked_player_at. by rewrite Hframe2. }
      rewrite Hfa, Nat.add_0_r.
      assert (Hbn : b = n → board_color (player_at plf b) = "B"%char).
      { intros ->. destruct (decide (n ∈ of_boards Bs)) as [Hin|Hnin].
        - apply elem_of_of_boards in Hin as (j & a' & b' & Hj & Hor).
          destruct (Hdone _ _ Hj) as (Ha' & _ & _ & _ & _ & _ & Hc').
          cbn [fst snd] in *. destruct Hor as [->| ->]; [lia|]. by apply Hc'.
        - rewrite (ranked_player_at plf n py') by by rewrite Hframe2.
          apply Hbw. by apply (Hbye n py Hpy). }
      split_and!; try done.
      * intros Hlt. rewrite (ranked_player_at plf b py'); [done|].
        rewrite Hframe2; [done|by apply Hnb'].
      * destruct (decide (b = n)) as [Hbn'|Hbn'].
        -- left. split; [|by apply Hbn]. apply Hbw. subst b. by apply (Hbye n py Hpy).
        -- rewrite (ranked_player_at plf b py'); [done|].
           rewrite Hframe2; [done|apply Hnb'; lia].
      * intros Hbn'. split; [|by apply Hbn]. apply Hbw. subst b. by apply (Hbye n py Hpy).
    + specialize (Hdone j c Hc). rewrite length_app in Hdone. simpl in Hdone.
      by replace (length Bpre + S j)%nat with (length Bpre + 1 + j)%nat by lia.
Qed.

(** ** The final pairing of a Swiss section *)

Lemma HintPairings_asserts pl pair0 :
  HintPairings pl true = Some pair0 →
  (0 < length pl)%nat ∧ assert_sorted pl = Some tt ∧ assert_ranks pl = Some tt.
Proof.
  unfold HintPairings. intros H. inv_assert H. inv_bind H. inv_bind H.
  repeat match goal with u : () |- _ => destruct u end.
  apply andb_true_iff in E as [Hlen _]. apply Nat.ltb_lt in Hlen. done.
Qed.

Lemma ranked_same_but_boards pl l : ranked pl → same_but_boards pl l → ranked l.
Proof.
  intros Hr Hs x p' Hp'. destruct (same_but_boards_bye _ _ _ _ Hs Hp') as (p & Hp & -> & ->).
  destruct Hs as [-> _]. by apply Hr.
Qed.

Lemma player_at_insert_ne (l : list Player) i r q :
  r ≠ i → player_at (<[i := q]> l) r = player_at l r.
Proof. intros H. unfold player_at. by rewrite list_lookup_insert_ne by congruence. Qed.

Lemma player_at_insert_eq (l : list Player) i q :
  (i < length l)%nat → player_at (<[i := q]> l) i = q.
Proof. intros H. unfold player_at. by rewrite list_lookup_insert_eq by done. Qed.

(** The last step of [SwissPairings], which takes the board number from
    the bye, leaves the boards as they are. *)
Lemma board_done_reset (plf : list Player) n first k b back :
  length plf = S n → plf !! n = Some back →
  board_done plf n first k b →
  board_done (<[n := set_board_num back (-1)]> plf) n first k b.
Proof.
  intros Hlen Hback (H1 & H2 & H3 & H4 & H5 & H6 & H7). unfold board_done. cbv zeta.
  rewrite (player_at_insert_ne _ _ b.1) by lia.
  destruct (decide (b.2 = n)) as [Hn|Hn].
  - rewrite Hn in *. rewrite player_at_insert_eq by lia.
    rewrite (ranked_player_at _ _ _ Hback) in *.
    split_and!; try done. lia.
  - rewrite (player_at_insert_ne _ _ b.2) by done. done.
Qed.

Lemma SwissPairings_boards fuel (pl : list Player) np tr fb depth uf so out :
  np = free_count pl →
  Forall (λ p, board_num p ≠ -1) (removelast pl) →
  SwissPairings fuel pl np tr fb depth uf so = Some out →
  let n := (length (fp_players out) - 1)%nat in
  ranked (fp_players out) ∧ same_but_boards pl (fp_players out) ∧
  (∀ r, (r < n)%nat → occurrences r (fp_pair out) = 1%nat) ∧
  fp_pair out = of_boards (to_boards (fp_pair out)) ∧
  ∃ first, ∀ k b, to_boards (fp_pair out) !! k = Some b →
    board_done (fp_players out) n first k b.
Proof.
  intros Hnp Hhints H. unfold SwissPairings in H. unfold PlayerVector, IndexVector in *.
  inv_bind H. inv_assert H. cbv zeta in H.
  rename select (forallb _ _ = true) into Hlast.
  inv_bind H. rename select (HintPairings _ _ = Some _) into Hhint.
  inv_bind H. inv_bind H. inv_bind H. inv_bind H.
  rename select ((if uf then _ else _) = Some _) into Hfirst.
  rename select ((if so then _ else _) = Some _) into Hopt.
  match type of Hopt with _ = Some ?t => destruct t as [[pair2 cost] acc] end.
  cbv beta iota in H. inv_assert H.
  rename select ((_ =? 0)%nat = true) into Hev. apply Nat.eqb_eq in Hev.
  inv_bind H. rename select (final_sort _ _ = Some _) into Hfs.
  match type of Hfs with _ = Some ?t => rename t into pair3 end.
  match type of H with context [set_board_of ?f] => set (first := f) in * end.
  inv_bind H. rename select (foldlM _ _ _ = Some _) into Hfold.
  match type of Hfold with _ = Some ?t => rename t into plf end.
  inv_bind H. inv_bind H. inv_assert H. injection H as <-.
  rename select (last plf = Some _) into Hback.
  match type of Hback with _ = Some ?t => rename t into back end.
  cbn [fp_players fp_pair]. cbv zeta. rewrite length_insert.
  destruct (HintPairings_asserts _ _ Hhint) as (Hlen & Hsorted & Hranks).
  pose proof (ranked_of_asserts pl Hlast Hranks) as Hr.
  destruct (HintPairings_spec pl _ Hr Hhints Hhint) as (B & -> & HS & HK & Hocc0).
  pose proof (free_prefix pl (assert_sorted_free pl tt Hsorted)) as Hfree.
  rewrite <- Hnp in Hfree.
  assert (Hnplt : (np < length pl)%nat).
  { destruct (lookup_lt_is_Some_2 pl (length pl - 1)) as [b Hb]; [lia|].
    pose proof (proj2 (proj2 (Hr _ _ Hb)) ltac:(lia)) as Hbye.
    pose proof (Hfree _ _ Hb) as Hf. unfold is_free in Hf. rewrite Hbye in Hf.
    cbn [negb] in Hf. rewrite andb_false_r in Hf.
    destruct (decide (length pl - 1 < np)%nat) as [Hd|Hd]; [|lia].
    discriminate (proj2 Hf Hd). }
  assert (Hperm1 : l ≡ₚ of_boards B).
  { destruct uf; [|by injection Hfirst as <-].
    by apply (FirstPairings_perm pl B np). }
  assert (Hperm2 : pair2 ≡ₚ l).
  { destruct so; [|by eapply MinimizePairingCost_perm].
    inv_bind Hopt. by injection Hopt as <- _ _. }
  pose proof (final_sort_perm _ _ _ Hfs) as Hperm3.
  assert (Hocc3 : ∀ r, (r < length pl - 1)%nat → occurrences r pair3 = 1%nat).
  { intros r Hlt. rewrite (occurrences_perm _ _ _ Hperm3), (occurrences_perm _ _ _ Hperm2),
      (occurrences_perm _ _ _ Hperm1). by apply Hocc0. }
  assert (Hev3 : (length pair3 mod 2 = 0)%nat).
  { by rewrite Hperm3. }
  pose proof (of_to_boards _ Hev3) as Hob.
  pose proof (length_to_boards _ Hev3) as Hlb.
  assert (Hboards : boards 0 (length pair3) = up2 (2 * length (@nil (nat * nat)))
                                                   (length (to_boards pair3))).
  { rewrite <- Hob at 1. rewrite length_of_boards. apply boards_of_even. }
  rewrite Hboards in Hfold.
  apply (set_boards_fold first (length pl - 1) pair3) in Hfold
    as (Hsame & Hframe & Hdone).
  2: { intros r Hlt. rewrite Hocc3 by done. lia. }
  2: { done. }
  2: { lia. }
  2: { intros r p' Hp'. destruct (Hr _ _ Hp') as [_ ->].
       pose proof (lookup_lt_Some _ _ _ Hp'). lia. }
  assert (HLf : length plf = length pl) by apply Hsame.
  rewrite HLf.
  assert (Hbk : plf !! (length pl - 1)%nat = Some back).
  { rewrite last_lookup in Hback. rewrite <- Hback. f_equal. lia. }
  assert (Hsame' : same_but_boards pl (<[(length pl - 1)%nat := set_board_num back (-1)]> plf)).
  { by apply same_but_boards_insert. }
  split_and!.
  - by eapply ranked_same_but_boards.
  - done.
  - done.
  - done.
  - exists first. intros k b Hb. apply board_done_reset; [lia|done|].
    by apply (Hdone k b).
Qed.

Lemma swiss_head (pl pl' : list Player) p0 :
  Forall is_swiss pl →
  CanonicalPlayerVector pl = Some pl' → head pl' = Some p0 →
  (Ascii.eqb (trn_type p0) "R" || Ascii.eqb (trn_type p0) "D") = false.
Proof.
  intros Hall Hc Hh.
  destruct (CanonicalPlayerVector_inv _ _ Hc) as (src & sorted & Hsrc & Hperm & Hset & _ & _).
  rewrite head_lookup in Hh.
  destruct (SetRanks_lookup _ _ _ _ Hset Hh) as (p & due & o & t & Hp & ->).
  change (trn_type (set_ranks p _ _ _ _)) with (trn_type p).
  assert (Hin : p ∈ src) by (rewrite <- Hperm; by eapply list_elem_of_lookup_2).
  assert (trn_type p ≠ "R"%char ∧ trn_type p ≠ "D"%char) as [H1 H2].
  { rewrite Forall_forall in Hall. destruct Hsrc as [->| ->]; [by apply Hall|].
    apply elem_of_app in Hin as [Hin|Hin]; [by apply Hall|].
    apply list_elem_of_singleton in Hin. by subst p. }
  apply orb_false_iff. split; by apply Ascii.eqb_neq.
Qed.

(** The boards that [FindPairings] leaves behind on a Swiss section in
    which every player comes with a board hint. *)
Lemma FindPairings_boards fuel (pl : list Player) tr fb depth uf so out :
  Forall is_swiss pl →
  Forall has_hint pl →
  FindPairings fuel pl tr fb depth uf so = Some out →
  let n := (length (fp_players out) - 1)%nat in
  ranked (fp_players out) ∧
  (∀ r, (r < n)%nat → occurrences r (fp_pair out) = 1%nat) ∧
  fp_pair out = of_boards (to_boards (fp_pair out)) ∧
  ∃ first, ∀ k b, to_boards (fp_pair out) !! k = Some b →
    board_done (fp_players out) n first k b.
Proof.
  intros Hswiss Hhints H. unfold FindPairings in H. inv_bind H.
  destruct (request_house_bye pl) as [pl2 np] eqn:Hreq.
  inv_bind H. inv_bind H.
  rename select (CanonicalPlayerVector _ = Some _) into Hcan.
  rename select (head _ = Some _) into Hhead.
  destruct (request_house_bye_spec _ _ _ Hreq) as [Hnp Hh2].
  destruct (canonical_free _ _ Hcan) as [Hfc Hh3].
  assert (Hsw2 : Forall is_swiss pl2).
  { clear -Hreq Hswiss.
    unfold request_house_bye in Hreq. unfold PlayerVector in *. destruct (house_player pl) as [[h|] c].
    - destruct (_ =? _)%nat; injection Hreq as <- <-; [done|].
      rewrite Forall_lookup in *. intros i q Hq.
      destruct (decide (i = h)) as [->|Hne].
      + rewrite list_lookup_alter_eq in Hq.
        destruct (pl !! h) as [p|] eqn:Hp; [|done]. injection Hq as <-.
        exact (Hswiss _ _ Hp).
      + rewrite list_lookup_alter_ne in Hq by done. exact (Hswiss _ _ Hq).
    - destruct (_ =? _)%nat; by injection Hreq as <- <-. }
  rewrite (swiss_head pl2 _ _ Hsw2 Hcan Hhead) in H.
  apply SwissPairings_boards in H; [|congruence|by apply Hh3, Hh2].
  cbv zeta in *. destruct H as (? & ? & ? & ? & ?). done.
Qed.

(** ** The final pairing vector and the boards *)

(** The final pairing vector need not be a permutation of the player
    ranks.  In the section [two_byes] two players have asked for a bye;
    each of them stands on a board of their own with the bye, so the rank
    4 of the bye stands twice in the final vector [0; 1; 2; 4; 3; 4],
    which is a permutation of no range of ranks. *)
Lemma bye_rank_stands_twice :
  ∃ out, FindPairings 30 two_byes 4 1 1 false false = Some out ∧
         fp_pair out = [0; 1; 2; 4; 3; 4]%nat ∧
         length (fp_players out) = 5%nat ∧
         ∀ k, ¬ fp_pair out ≡ₚ seq 0 k.
Proof.
  destruct (FindPairings 30 two_byes 4 1 1 false false) as [out|] eqn:E;
    [|vm_compute in E; discriminate].
  exists out. split; [done|]. vm_compute in E. injection E as <-.
  cbn [fp_pair fp_players]. split_and!; [done|done|].
  intros k Hp. apply (occurrences_perm 4%nat) in Hp.
  rewrite occurrences_seq in Hp.
  change (occurrences 4 [0; 1; 2; 4; 3; 4]%nat) with 2%nat in Hp.
  case_decide; discriminate.
Qed.

(** A player who comes without a board hint is left out by
    [HintPairings]: in [one_without_hint] the player of rank 3 stands on
    no board of the final pairing and keeps the board number -1, while
    the player of rank 2 gets the bye. *)
Lemma player_without_hint_is_left_out :
  ∃ out, FindPairings 30 one_without_hint 4 1 1 false false = Some out ∧
         fp_pair out = [0; 1; 2; 5; 4; 5]%nat ∧
         is_bye (player_at (fp_players out) 3) = false ∧
         board_num (player_at (fp_players out) 3) = -1.
Proof.
  destruct (FindPairings 30 one_without_hint 4 1 1 false false) as [out|] eqn:E;
    [|vm_compute in E; discriminate].
  exists out. split; [done|]. vm_compute in E. injection E as <-. done.
Qed.

(** X1: On a Swiss section in which every player comes with a board hint,
    whenever [FindPairings] returns, the final pairing vector
    holds the rank of every active player exactly once ([n] is the number
    of active players and the rank of the bye; the rank of the bye may
    stand in the vector any number of times).  The vector is the sequence
    of its boards; the first player of a board is an active one and is not
    the second one, and the active players of board [k] carry the board
    number [first + k].  The ranks are the indices of the player vector,
    whose last entry is the bye and the only one. *)
Theorem FindPairings_every_active_player_on_one_board
    fuel (pl : list Player) totalRounds firstBoardNum depth useFirstPairings skipOptimize out :
  Forall is_swiss pl → Forall has_hint pl →
  FindPairings fuel pl totalRounds firstBoardNum depth useFirstPairings skipOptimize
    = Some out →
  let n := (length (fp_players out) - 1)%nat in
  ranked (fp_players out) ∧
  (∀ r, (r < n)%nat → occurrences r (fp_pair out) = 1%nat) ∧
  fp_pair out = of_boards (to_boards (fp_pair out)) ∧
  ∃ first, ∀ k a b, to_boards (fp_pair out) !! k = Some (a, b) →
    (a < n)%nat ∧ (b <= n)%nat ∧ a ≠ b ∧
    board_num (player_at (fp_players out) a) = first + Z.of_nat k ∧
    ((b < n)%nat → board_num (player_at (fp_players out) b) = first + Z.of_nat k).
Proof.
  intros Hs Hh H. cbv zeta.
  destruct (FindPairings_boards _ _ _ _ _ _ _ _ Hs Hh H) as (Hr & Hocc & Hob & first & Hd).
  split_and!; [done|done|done|]. exists first. intros k a b Hk.
  destruct (Hd k (a, b) Hk) as (H1 & H2 & H3 & H4 & H5 & _). done.
Qed.

(** The section [c3_section]: five players, the bye has rank 5 and every
    rank stands once in the final vector. *)
Lemma FindPairings_every_active_player_on_one_board_witness :
  Forall is_swiss c3_section ∧ Forall has_hint c3_section ∧
  ∃ out, FindPairings 30 c3_section 5 1 1 false false = Some out ∧
         length (fp_players out) = 6%nat ∧
         ∀ r, (r < 5)%nat → occurrences r (fp_pair out) = 1%nat.
Proof.
  assert (Hs : Forall is_swiss c3_section) by (repeat constructor; done).
  assert (Hh : Forall has_hint c3_section) by (repeat constructor; done).
  split; [exact Hs|]. split; [exact Hh|].
  destruct (FindPairings 30 c3_section 5 1 1 false false) as [out|] eqn:E;
    [|vm_compute in E; discriminate].
  exists out. split; [exact eq_refl|].
  pose proof (FindPairings_every_active_player_on_one_board
                30 c3_section 5 1 1 false false out Hs Hh E) as HC.
  cbv zeta in HC. destruct HC as (_ & Hocc & _).
  assert (HL : length (fp_players out) = 6%nat).
  { vm_compute in E. injection E as <-. reflexivity. }
  rewrite HL in Hocc. split; [exact HL|exact Hocc].
Defined.

(** X2: On a Swiss section in which every player comes with a board hint,
    whenever [FindPairings] returns, on every board of the final
    pairing the two board colors are one 'W' and one 'B'; the first
    player of a board is never the bye, and when the second one is the
    bye the active player has White and the bye Black. *)
Theorem FindPairings_white_and_black_on_every_board
    fuel (pl : list Player) totalRounds firstBoardNum depth useFirstPairings skipOptimize out :
  Forall is_swiss pl → Forall has_hint pl →
  FindPairings fuel pl totalRounds firstBoardNum depth useFirstPairings skipOptimize
    = Some out →
  ∀ k a b, to_boards (fp_pair out) !! k = Some (a, b) →
    let pa := player_at (fp_players out) a in
    let pb := player_at (fp_players out) b in
    is_bye pa = false ∧
    white_and_black (board_color pa) (board_color pb) ∧
    (is_bye pb = true → board_color pa = "W"%char ∧ board_color pb = "B"%char).
Proof.
  intros Hs Hh H k a b Hk. cbv zeta.
  destruct (FindPairings_boards _ _ _ _ _ _ _ _ Hs Hh H) as (Hr & _ & _ & first & Hd).
  destruct (Hd k (a, b) Hk) as (H1 & H2 & _ & _ & _ & H6 & H7). cbn [fst snd] in *.
  destruct (lookup_lt_is_Some_2 (fp_players out) a) as [pa Hpa]; [lia|].
  destruct (lookup_lt_is_Some_2 (fp_players out) b) as [pb Hpb]; [lia|].
  rewrite (ranked_player_at _ _ _ Hpa), (ranked_player_at _ _ _ Hpb) in *.
  split_and!; [|done|].
  - by apply (ranked_active _ _ _ Hr Hpa).
  - intros Hbye. apply H7. apply (Hr _ _ Hpb) in Hbye. lia.
Qed.

(** The section [two_byes] with [useFirstPairings]: three boards, the
    last two with the bye. *)
Lemma FindPairings_white_and_black_on_every_board_witness :
  Forall is_swiss two_byes ∧ Forall has_hint two_byes ∧
  ∃ out, FindPairings 30 two_byes 4 1 1 true false = Some out ∧
         to_boards (fp_pair out) = [(0, 1); (2, 4); (3, 4)]%nat ∧
         board_color (player_at (fp_players out) 2) = "W"%char ∧
         board_color (player_at (fp_players out) 4) = "B"%char.
Proof.
  assert (Hs : Forall is_swiss two_byes) by (repeat constructor; done).
  assert (Hh : Forall has_hint two_byes) by (repeat constructor; done).
  split; [exact Hs|]. split; [exact Hh|].
  destruct (FindPairings 30 two_byes 4 1 1 true false) as [out|] eqn:E;
    [|vm_compute in E; discriminate].
  exists out. split; [exact eq_refl|].
  assert (HB : to_boards (fp_pair out) = [(0, 1); (2, 4); (3, 4)]%nat).
  { vm_compute in E. injection E as <-. reflexivity. }
  assert (Hbye : is_bye (player_at (fp_players out) 4) = true).
  { vm_compute in E. injection E as <-. reflexivity. }
  split; [exact HB|].
  assert (Hk : to_boards (fp_pair out) !! 1%nat = Some (2, 4)%nat).
  { rewrite HB. reflexivity. }
  pose proof (FindPairings_white_and_black_on_every_board
                30 two_byes 4 1 1 true false out Hs Hh E 1%nat 2%nat 4%nat Hk) as HC.
  cbv zeta in HC. destruct HC as (_ & _ & Hc). exact (Hc Hbye).
Defined.

(** * Further properties of the procedures *)

(** ** Costs *)

(** X3: two costs that [CostFunction] computes for the same player
    vector carry the same [players] word (the number of players without
    the bye), so [operator<] orders them by the first of the 26 counters
    in which they differ, whatever pairing vectors, ranges and flags the
    two calls were given. *)
Theorem CostFunction_costs_compare_by_counters
    pl pair1 pair2 rr1 rr2 b1 b2 e1 e2 d1 d2 u1 u2 cp1 cp2 c1 c2 s1 s2 :
  CostFunction pl pair1 rr1 b1 e1 d1 u1 cp1 = Some (c1, s1) →
  CostFunction pl pair2 rr2 b2 e2 d2 u2 cp2 = Some (c2, s2) →
  players c1 = Z.of_nat (length pl) - 1 ∧ players c2 = players c1 ∧
  (Cost_lt c1 c2 = true ↔ first_diff_smaller c1 c2).
Proof.
  intros H1 H2. apply CostFunction_players in H1, H2.
  split_and!; [done|congruence|]. apply Cost_lt_same_players. congruence.
Qed.

Lemma CostFunction_costs_compare_by_counters_witness :
  ∃ c1 c2 s1 s2,
    CostFunction c3_players c3_start 2 0 6 false false ∅ = Some (c1, s1) ∧
    CostFunction c3_players (seq 0 6) 2 0 6 false true ∅ = Some (c2, s2) ∧
    players c2 = players c1.
Proof.
  destruct (CostFunction c3_players c3_start 2 0 6 false false ∅) as [[c1 s1]|] eqn:E1;
    [|vm_compute in E1; discriminate].
  destruct (CostFunction c3_players (seq 0 6) 2 0 6 false true ∅) as [[c2 s2]|] eqn:E2;
    [|vm_compute in E2; discriminate].
  exists c1, c2, s1, s2. split; [exact eq_refl|]. split; [exact eq_refl|].
  exact (proj1 (proj2 (CostFunction_costs_compare_by_counters
    c3_players c3_start (seq 0 6) 2 2 0%nat 0%nat 6%nat 6%nat false false false true
    ∅ ∅ c1 c2 s1 s2 E1 E2))).
Defined.

(** X4: as long as the count [cv] and the geometric sum stay within
    2^53, where a [double] holds every integer, [Multiple] returns the sum
    of [players^k] for [k < cv]. *)
Theorem Multiple_is_the_geometric_sum cv nplayers :
  0 <= cv <= 2 ^ 53 → 0 <= nplayers →
  geometric_sum (Z.to_nat cv) nplayers <= 2 ^ 53 →
  Multiple cv nplayers = geometric_sum (Z.to_nat cv) nplayers.
Proof. apply Multiple_exact. Qed.

Lemma Multiple_is_the_geometric_sum_witness :
  Multiple 3 10 = 111.
Proof.
  rewrite (Multiple_is_the_geometric_sum 3 10); [reflexivity|lia|lia|].
  vm_compute. discriminate.
Defined.

(** ** The boards of a pairing vector *)

(** X5: [SortBoards] moves whole boards: the vector it leaves is the
    sequence of the boards of the vector it was given, rearranged so that
    the boards come in the order of the three leading keys of its
    comparison ([paired] of the first player, then whether the second one
    is the bye, then [bye_request] of the first player). *)
Theorem SortBoards_sorts_whole_boards (pl : list Player) (pair r : list nat) :
  SortBoards pl pair = Some r →
  r ≡ₚ pair ∧
  ∃ B, r = of_boards B ∧ B ≡ₚ to_boards pair ∧ StronglySorted (class_le pl) B.
Proof.
  intros H. split; [by eapply SortBoards_perm|].
  destruct (SortBoards_sorted _ _ _ H) as (B & HB & HS & ->). by exists B.
Qed.

Lemma SortBoards_sorts_whole_boards_witness :
  ∃ r, SortBoards c3_players [4; 5; 2; 3; 0; 1]%nat = Some r ∧
       r ≡ₚ [4; 5; 2; 3; 0; 1]%nat.
Proof.
  destruct (SortBoards c3_players [4; 5; 2; 3; 0; 1]%nat) as [r|] eqn:E;
    [|vm_compute in E; discriminate].
  exists r. split; [exact eq_refl|].
  exact (proj1 (SortBoards_sorts_whole_boards _ _ _ E)).
Defined.

(** X6: [HintPairings] on a vector as [CanonicalPlayerVector] leaves it
    (ranks are indices, the bye is last) in which every player comes with
    a board hint: the vector built holds the rank of every player exactly
    once; its boards are boards of players to pair (the second one may be
    the bye) or boards kept apart (two players paired by hand, or a
    player paired by hand or with a bye request together with the bye),
    and they come in the order of [SortBoards]. *)
Theorem HintPairings_places_every_player_once (pl : list Player) (pair0 : list nat) :
  ranked pl → Forall has_hint (removelast pl) →
  HintPairings pl true = Some pair0 →
  ∃ B, pair0 = of_boards B ∧ StronglySorted (class_le pl) B ∧
       Forall (hint_board pl) B ∧
       ∀ r, (r < length pl - 1)%nat → occurrences r pair0 = 1%nat.
Proof. apply HintPairings_spec. Qed.

Lemma ranked_c3_players : ranked c3_players.
Proof. apply ranked_of_asserts; by vm_compute. Qed.

Lemma HintPairings_places_every_player_once_witness :
  ranked c3_players ∧ Forall has_hint (removelast c3_players) ∧
  ∃ pair0, HintPairings c3_players true = Some pair0 ∧
           ∀ r, (r < 5)%nat → occurrences r pair0 = 1%nat.
Proof.
  assert (Hh : Forall has_hint (removelast c3_players)).
  { vm_compute. repeat constructor; discriminate. }
  split; [exact ranked_c3_players|]. split; [exact Hh|].
  destruct (HintPairings c3_players true) as [pair0|] eqn:E;
    [|vm_compute in E; discriminate].
  exists pair0. split; [exact eq_refl|].
  destruct (HintPairings_places_every_player_once _ _ ranked_c3_players Hh E)
    as (B & _ & _ & _ & Hocc).
  exact Hocc.
Defined.

Lemma FirstPairings_shape (pl : list Player) (pair pair' : list nat) np :
  FirstPairings pl pair np = Some pair' →
  (np <= length pair)%nat ∧
  ∃ PRE, pair' = PRE ++ drop np pair ∧ length PRE = np ∧ PRE ≡ₚ seq 0 np.
Proof.
  intros H. unfold FirstPairings in H.
  inv_assert H. inv_bind H. inv_assert H. cbv zeta in H.
  inv_bind H. inv_bind H. inv_assert H.
  rename select ((np <=? _)%nat = true) into Hle. apply Nat.leb_le in Hle.
  split; [done|].
  pose proof (FirstPairings_loop_inv pl np (S np) 0 _ [] _ pair' H eq_refl
                ltac:(lia)) as (PRE1 & -> & HL & HO).
  { intros r. rewrite occurrences_nil. case_decide; [lia|done]. }
  exists PRE1. rewrite Nat.sub_0_r, drop_app_length'.
  2: { unfold sort_nat. by rewrite merge_sort_Permutation, length_take, Nat.min_l. }
  split_and!; [done|done|].
  apply (Permutation_count_occ Nat.eq_dec). intros r.
  fold (occurrences r PRE1). fold (occurrences r (seq 0 np)).
  rewrite HO, occurrences_seq. repeat case_decide; lia.
Qed.

(** X7: [FirstPairings] writes the ranks 0 to [players - 1], each once,
    into the first [players] slots of the vector and leaves the other
    slots as they are, whatever stood in the first slots before. *)
Theorem FirstPairings_fills_the_leading_slots
    (pl : list Player) (pair pair' : list nat) nplayers :
  FirstPairings pl pair nplayers = Some pair' →
  length pair' = length pair ∧
  take nplayers pair' ≡ₚ seq 0 nplayers ∧
  drop nplayers pair' = drop nplayers pair.
Proof.
  intros H. destruct (FirstPairings_shape _ _ _ _ H) as (Hle & PRE & -> & HL & HP).
  split_and!.
  - rewrite length_app, length_drop. lia.
  - by rewrite take_app_length'.
  - by rewrite drop_app_length'.
Qed.

Lemma FirstPairings_fills_the_leading_slots_witness :
  ∃ pair', FirstPairings c3_players c3_start 5 = Some pair' ∧
           take 5 pair' ≡ₚ seq 0 5 ∧ drop 5 pair' = [5%nat].
Proof.
  destruct (FirstPairings c3_players c3_start 5) as [pair'|] eqn:E;
    [|vm_compute in E; discriminate].
  exists pair'. split; [exact eq_refl|].
  destruct (FirstPairings_fills_the_leading_slots _ _ _ _ E) as (_ & H1 & H2).
  split; [exact H1|]. rewrite H2. reflexivity.
Defined.

(** ** The moves of the optimiser *)

(** X8: [RotateColor] only rearranges the pairing vector, whether or not
    it reports a change. *)
Theorem RotateColor_rearranges pl pair x y pBegin pEnd oddDropDown oddPullUp changed pair' :
  RotateColor pl pair x y pBegin pEnd oddDropDown oddPullUp = Some (changed, pair') →
  pair' ≡ₚ pair ∧ length pair' = length pair.
Proof.
  intros H. apply RotateColor_perm in H. split; [done|by rewrite H].
Qed.

Lemma RotateColor_rearranges_witness :
  ∃ pair', RotateColor color_players eight_slots 1 6 0 8 false false = Some (true, pair') ∧
           pair' ≡ₚ eight_slots.
Proof.
  destruct (RotateColor color_players eight_slots 1 6 0 8 false false)
    as [[changed pair']|] eqn:E; [|vm_compute in E; discriminate].
  assert (changed = true) as ->.
  { vm_compute in E. injection E as <- _. reflexivity. }
  exists pair'. split; [exact eq_refl|].
  exact (proj1 (RotateColor_rearranges _ _ _ _ _ _ _ _ _ _ E)).
Defined.

(** X9: [MinimizePairingCost] only rearranges the pairing vector: the
    vector it leaves in [pair] is a permutation of the one it was given,
    whatever the searches accepted. *)
Theorem MinimizePairingCost_rearranges
    fuel pl pair remainingRounds depth pBegin pEndConst pair' c accepted :
  MinimizePairingCost fuel pl pair remainingRounds depth pBegin pEndConst
    = Some (pair', c, accepted) →
  pair' ≡ₚ pair ∧ length pair' = length pair.
Proof.
  intros H. apply MinimizePairingCost_perm in H. split; [done|by rewrite H].
Qed.

Lemma MinimizePairingCost_rearranges_witness :
  ∃ pair' c accepted,
    MinimizePairingCost 30 c3_players c3_start 2 1 0 5 = Some (pair', c, accepted) ∧
    pair' ≡ₚ c3_start.
Proof.
  destruct (MinimizePairingCost 30 c3_players c3_start 2 1 0 5)
    as [[[pair' c] accepted]|] eqn:E; [|vm_compute in E; discriminate].
  exists pair', c, accepted. split; [exact eq_refl|].
  exact (proj1 (MinimizePairingCost_rearranges _ _ _ _ _ _ _ _ _ _ E)).
Defined.

(** ** The canonical player vector *)





(** ** A search that accepts nothing *)

Lemma kept_unless_accepted_refl st : kept_unless_accepted st st.
Proof. by exists []. Qed.

Lemma kept_unless_accepted_trans st1 st2 st3 :
  kept_unless_accepted st1 st2 → kept_unless_accepted st2 st3 →
  kept_unless_accepted st1 st3.
Proof.
  intros (e1 & H1 & K1) (e2 & H2 & K2). exists (e2 ++ e1). split.
  - by rewrite H2, H1, app_assoc.
  - intros He. apply app_eq_nil in He as [-> ->].
    destruct (K1 eq_refl) as [<- <-]. by apply K2.
Qed.

Lemma try_move_kept pl rr pBegin pEnd hasBye upc d i st s st' :
  try_move pl rr pBegin pEnd hasBye upc d i st s = Some st' →
  kept_unless_accepted st st'.
Proof.
  unfold try_move. intros H. inv_bind H.
  destruct o as [testPair|]; [|injection H as <-; apply kept_unless_accepted_refl].
  inv_steps H.
  destruct (Cost_lt _ _); injection H as <-; [|apply kept_unless_accepted_refl].
  eexists [_]. split; [done|]. done.
Qed.

Lemma search_cycle_kept fuel pl rr pBegin pEnd hasBye upc d :
  ∀ i st st',
    search_cycle fuel pl rr pBegin pEnd hasBye upc d i st = Some st' →
    kept_unless_accepted st st'.
Proof.
  induction fuel as [|fuel IH]; intros i st st' H; [done|].
  cbn [search_cycle] in H.
  destruct (IsZero (os_bestCost st)); [injection H as <-; apply kept_unless_accepted_refl|].
  inv_bind H. destruct (bool_decide _); [injection H as <-; apply kept_unless_accepted_refl|].
  inv_bind H. destruct b; [by eapply IH|].
  inv_bind H. inv_bind H. eapply kept_unless_accepted_trans; [|by eapply IH].
  eapply (foldlM_inv (kept_unless_accepted st)); [|apply kept_unless_accepted_refl|exact E2].
  intros b a b' Hb Hf. eapply kept_unless_accepted_trans; [exact Hb|].
  by eapply try_move_kept.
Qed.

Lemma search_depths_kept fuel pl rr pBegin pEnd hasBye upc depth :
  ∀ d st st',
    search_depths fuel pl rr pBegin pEnd hasBye upc depth d st = Some st' →
    kept_unless_accepted st st'.
Proof.
  induction fuel as [|fuel IH]; intros d st st' H; [done|].
  cbn [search_depths] in H.
  destruct (negb _); [injection H as <-; apply kept_unless_accepted_refl|].
  inv_bind H. eapply kept_unless_accepted_trans; [|by eapply IH].
  apply search_cycle_kept in E. destruct E as (ext & E1 & E2).
  exists ext. split; [done|]. exact E2.
Qed.

Lemma minimize_search_kept fuel pl pair rr depth pBegin pEndConst upc pEnd st :
  minimize_search fuel pl pair rr depth pBegin pEndConst upc = Some (pEnd, st) →
  os_accepted st = [] → os_bestPair st = pair.
Proof.
  unfold minimize_search. intros H Hacc. inv_steps H. injection H as <- <-.
  apply search_depths_kept in E3 as (ext & K1 & K2). cbn [os_accepted os_bestPair] in *.
  rewrite app_nil_r in K1. rewrite K1 in Hacc. by apply K2.
Qed.

Lemma MinimizePairingCost_keeps_pair_helper
    fuel pl pair remainingRounds depth pBegin pEndConst pair' c :
  MinimizePairingCost fuel pl pair remainingRounds depth pBegin pEndConst
    = Some (pair', c, ([], [])) →
  pair' = pair.
Proof.
  unfold MinimizePairingCost. intros H. inv_bind H. destruct p as [pEnd st1].
  cbv beta iota in H. inv_bind H.
  destruct (Cost_ne _ _).
  - inv_bind H. destruct p as [pEnd' st2]. cbv beta iota in H. inv_bind H.
    injection H as <- _ Ha1 Ha2.
    rewrite (minimize_search_kept _ _ _ _ _ _ _ _ _ _ E1 Ha2).
    by apply (minimize_search_kept _ _ _ _ _ _ _ _ _ _ E Ha1).
  - inv_bind H. injection H as <- _ Ha1.
    by apply (minimize_search_kept _ _ _ _ _ _ _ _ _ _ E Ha1).
Qed.

(** X12: when neither of the two searches of [MinimizePairingCost]
    accepts a pairing, the vector left in [pair] is the vector the
    function was given: the optimiser changes a pairing only for one of
    strictly smaller cost. *)
Theorem MinimizePairingCost_keeps_the_pairing_when_nothing_is_accepted
    fuel pl pair remainingRounds depth pBegin pEndConst pair' c :
  MinimizePairingCost fuel pl pair remainingRounds depth pBegin pEndConst
    = Some (pair', c, ([], [])) →
  pair' = pair.
Proof. apply MinimizePairingCost_keeps_pair_helper. Qed.

Lemma MinimizePairingCost_keeps_the_pairing_when_nothing_is_accepted_witness :
  ∃ c, MinimizePairingCost 30 two_byes_players [0; 1; 2; 4; 3; 4]%nat 3 1 0 2
         = Some ([0; 1; 2; 4; 3; 4]%nat, c, ([], [])).
Proof.
  destruct (MinimizePairingCost 30 two_byes_players [0; 1; 2; 4; 3; 4]%nat 3 1 0 2)
    as [[[pair' c] [a1 a2]]|] eqn:E; [|vm_compute in E; discriminate].
  assert (a1 = [] ∧ a2 = []) as [-> ->].
  { vm_compute in E. injection E as _ _ <- <-. split; reflexivity. }
  exists c.
  rewrite (MinimizePairingCost_keeps_the_pairing_when_nothing_is_accepted
             _ _ _ _ _ _ _ _ _ E).
  exact eq_refl.
Defined.

(** X13: on a Swiss section, when the optimiser of [FindPairings]
    accepts no pairing (or is skipped), the final pairing vector is the
    starting position, the vector of [HintPairings] on the canonical
    player vector or that of [FirstPairings] when [useFirstPairings] is
    set, with its boards put into the final order. *)
Theorem FindPairings_returns_the_start_when_nothing_is_accepted
    fuel (pl : list Player) totalRounds firstBoardNum depth useFirstPairings skipOptimize out :
  Forall is_swiss pl →
  FindPairings fuel pl totalRounds firstBoardNum depth useFirstPairings skipOptimize
    = Some out →
  fp_accepted out = ([], []) →
  ∃ plc pair0 pair1,
    CanonicalPlayerVector (request_house_bye pl).1 = Some plc ∧
    HintPairings plc true = Some pair0 ∧
    (if useFirstPairings then FirstPairings plc pair0 (request_house_bye pl).2
     else Some pair0) = Some pair1 ∧
    final_sort plc pair1 = Some (fp_pair out).
Proof.
  intros Hswiss H Hacc. unfold FindPairings in H. inv_bind H.
  destruct (request_house_bye pl) as [pl2 np] eqn:Hreq.
  inv_bind H. inv_bind H.
  rename select (CanonicalPlayerVector _ = Some _) into Hcan.
  rename select (head _ = Some _) into Hhead.
  rename select PlayerVector into plc.
  assert (Hsw2 : Forall is_swiss pl2).
  { clear -Hreq Hswiss.
    unfold request_house_bye in Hreq. unfold PlayerVector in *.
    destruct (house_player pl) as [[h|] c].
    - destruct (_ =? _)%nat; injection Hreq as <- <-; [done|].
      rewrite Forall_lookup in *. intros i q Hq.
      destruct (decide (i = h)) as [->|Hne].
      + rewrite list_lookup_alter_eq in Hq.
        destruct (pl !! h) as [p|] eqn:Hp; [|done]. injection Hq as <-.
        exact (Hswiss _ _ Hp).
      + rewrite list_lookup_alter_ne in Hq by done. exact (Hswiss _ _ Hq).
    - destruct (_ =? _)%nat; by injection Hreq as <- <-. }
  rewrite (swiss_head pl2 _ _ Hsw2 Hcan Hhead) in H.
  unfold SwissPairings in H. unfold PlayerVector, IndexVector in *.
  inv_bind H. inv_assert H. cbv zeta in H.
  inv_bind H. rename select (HintPairings _ _ = Some _) into Hhint.
  inv_bind H. inv_bind H. inv_bind H. inv_bind H.
  rename select ((if useFirstPairings then _ else _) = Some _) into Hfirst.
  rename select ((if skipOptimize then _ else _) = Some _) into Hopt.
  match type of Hopt with _ = Some ?t => destruct t as [[pair2 cost] acc] end.
  cbv beta iota in H. inv_assert H.
  inv_bind H. rename select (final_sort _ _ = Some _) into Hfs.
  inv_bind H. inv_bind H. inv_bind H. inv_assert H. injection H as <-.
  cbn [fp_accepted fp_pair] in *. subst acc. cbn [fst snd].
  match type of Hhint with _ = Some ?t => rename t into pair0 end.
  match type of Hfirst with _ = Some ?t => rename t into pair1 end.
  exists plc, pair0, pair1. split_and!; [done|done|done|].
  assert (pair2 = pair1) as ->; [|done].
  destruct skipOptimize.
  - inv_bind Hopt. by injection Hopt as <- _.
  - by eapply MinimizePairingCost_keeps_pair_helper.
Qed.

Lemma FindPairings_returns_the_start_when_nothing_is_accepted_witness :
  Forall is_swiss two_byes ∧
  ∃ out, FindPairings 30 two_byes 4 1 1 false false = Some out ∧
         fp_accepted out = ([], []) ∧
         final_sort two_byes_players [0; 1; 2; 4; 3; 4]%nat = Some (fp_pair out).
Proof.
  assert (Hs : Forall is_swiss two_byes) by (repeat constructor; done).
  split; [exact Hs|].
  destruct (FindPairings 30 two_byes 4 1 1 false false) as [out|] eqn:E;
    [|vm_compute in E; discriminate].
  exists out. split; [exact eq_refl|].
  assert (Hacc : fp_accepted out = ([], [])).
  { vm_compute in E. injection E as <-. reflexivity. }
  split; [exact Hacc|].
  destruct (FindPairings_returns_the_start_when_nothing_is_accepted
              30 two_byes 4 1 1 false false out Hs E Hacc)
    as (plc & pair0 & pair1 & H1 & H2 & H3 & H4).
  vm_compute in H1. injection H1 as <-.
  vm_compute in H2. injection H2 as <-.
  injection H3 as <-. exact H4.
Defined.

(** ** RotatePairUp and RotatePairDown undo each other *)

Local Open Scope nat_scope.

Lemma swap_back {A} (v v' : list A) i j :
  swap v i j = Some v' → swap v' j i = Some v.
Proof.
  unfold swap. intros H. inv_bind H. inv_bind H. injection H as <-.
  rename select (v !! i = Some _) into Hi. rename select (v !! j = Some _) into Hj.
  pose proof (lookup_lt_Some _ _ _ Hi) as Li. pose proof (lookup_lt_Some _ _ _ Hj) as Lj.
  destruct (decide (i = j)) as [->|Hne].
  - rewrite Hi in Hj. injection Hj as <-.
    rewrite list_lookup_insert_eq by (by rewrite length_insert). simpl.
    f_equal. rewrite !list_insert_insert_eq. by apply list_insert_id.
  - rewrite list_lookup_insert_eq by (by rewrite length_insert). simpl.
    rewrite list_lookup_insert_ne, list_lookup_insert_eq by done. simpl.
    f_equal. apply list_eq. intros k.
    destruct (decide (k = i)) as [->|Hki].
    { rewrite list_lookup_insert_eq by (by rewrite !length_insert). done. }
    rewrite list_lookup_insert_ne by done.
    destruct (decide (k = j)) as [->|Hkj].
    { rewrite list_lookup_insert_eq by (by rewrite !length_insert). done. }
    by rewrite !list_lookup_insert_ne by done.
Qed.

Lemma foldlM_app {A B} (f : B → A → option B) l1 l2 b :
  foldlM f b (l1 ++ l2) = foldlM f b l1 ≫= λ b1, foldlM f b1 l2.
Proof.
  revert b. induction l1 as [|a l1 IH]; intros b; [done|]. simpl.
  destruct (f b a); [apply IH|done].
Qed.

Lemma up2_snoc lo k : up2 lo (S k) = up2 lo k ++ [lo + 2 * k].
Proof.
  revert lo. induction k as [|k IH]; intros lo.
  - simpl. f_equal. lia.
  - change (up2 lo (S (S k))) with (lo :: up2 (lo + 2) (S k)). rewrite IH.
    simpl. do 3 f_equal. lia.
Qed.

Lemma swap_shift_back shift pair a b pair' :
  swap_shift shift pair a b = Some pair' → swap_shift shift pair' b a = Some pair.
Proof.
  unfold swap_shift. unfold BoolVector, IndexVector in *. intros H. inv_bind H. inv_bind H.
  rename select (shift !! a = Some _) into Ha. rename select (shift !! b = Some _) into Hb.
  simpl. by apply swap_back.
Qed.

(** The loop of [RotatePairUp] runs through the swaps of the loop of
    [RotatePairDown] in the opposite order. *)
Lemma rotate_up_then_down shift lo : ∀ k pair pair',
  foldlM (λ pair z, swap_shift shift pair z (z + 2)) pair (up2 lo k) = Some pair' →
  foldlM (λ pair z, swap_shift shift pair z (z - 2)) pair' (down2 (lo + 2 * k) k) = Some pair.
Proof.
  induction k as [|k IH]; intros pair pair' H.
  { simpl in *. by injection H as <-. }
  rewrite up2_snoc, foldlM_app in H. inv_bind H. cbn [foldlM] in H. inv_bind H.
  injection H as <-. rename select (swap_shift _ _ _ _ = Some _) into Hs.
  apply swap_shift_back in Hs.
  cbn [down2 foldlM].
  replace (lo + 2 * S k - 2) with (lo + 2 * k) by lia.
  replace (lo + 2 * S k) with (lo + 2 * k + 2) by lia. rewrite Hs.
  change (mbind ?f (Some ?v)) with (f v). cbv beta.
  by apply IH.
Qed.

Lemma rotate_down_then_up shift lo : ∀ k pair pair',
  foldlM (λ pair z, swap_shift shift pair z (z - 2)) pair (down2 (lo + 2 * k) k) = Some pair' →
  foldlM (λ pair z, swap_shift shift pair z (z + 2)) pair' (up2 lo k) = Some pair.
Proof.
  induction k as [|k IH]; intros pair pair' H.
  { simpl in *. by injection H as <-. }
  cbn [down2 foldlM] in H. inv_bind H.
  rename select (swap_shift _ _ _ _ = Some _) into Hs.
  replace (lo + 2 * S k - 2) with (lo + 2 * k) in * by lia.
  apply swap_shift_back in Hs. apply IH in H.
  rewrite up2_snoc, foldlM_app, H.
  change (mbind ?f (Some ?v)) with (f v). cbv beta. cbn [foldlM].
  replace (lo + 2 * S k) with (lo + 2 * k + 2) in Hs by lia. by rewrite Hs.
Qed.

Lemma rotate_up_to_back shift lo hi lo2 hi2 k pair pair' :
  rotate_up_to shift lo hi pair = Some pair' →
  (hi - lo) / 2 = k → (hi2 - lo2) / 2 = k → (k = 0 ∨ hi2 = lo + 2 * k) →
  rotate_down_to shift hi2 lo2 pair' = Some pair.
Proof.
  unfold rotate_up_to, rotate_down_to. intros H Hk1 Hk2 [H0|H0].
  - rewrite Hk1 in H. rewrite Hk2. rewrite H0 in *.
    cbn [up2 down2 foldlM] in *. by injection H as <-.
  - rewrite Hk1 in H. rewrite Hk2, H0. by apply rotate_up_then_down.
Qed.

Lemma rotate_down_to_back shift lo hi lo2 hi2 k pair pair' :
  rotate_down_to shift hi lo pair = Some pair' →
  (hi - lo) / 2 = k → (hi2 - lo2) / 2 = k → (k = 0 ∨ hi = lo2 + 2 * k) →
  rotate_up_to shift lo2 hi2 pair' = Some pair.
Proof.
  unfold rotate_up_to, rotate_down_to. intros H Hk1 Hk2 [H0|H0].
  - rewrite Hk1 in H. rewrite Hk2. rewrite H0 in *.
    cbn [up2 down2 foldlM] in *. by injection H as <-.
  - rewrite Hk1, H0 in H. rewrite Hk2. by apply rotate_down_then_up.
Qed.

Ltac run_goal :=
  repeat first [ progress cbn [ASSERT]
               | progress change (mbind ?f (Some ?v)) with (f v)
               | progress cbv beta iota zeta ].

Ltac bool_props :=
  repeat match goal with
  | H : (_ && _) = true |- _ => apply andb_true_iff in H; destruct H
  | H : (_ =? _) = true |- _ => apply Nat.eqb_eq in H
  | H : (_ =? _) = false |- _ => apply Nat.eqb_neq in H
  | H : (_ <=? _) = true |- _ => apply Nat.leb_le in H
  | H : (_ <? _) = true |- _ => apply Nat.ltb_lt in H
  end.

Ltac div2_fact a :=
  lazymatch goal with
  | _ : a = 2 * (a / 2) + a mod 2 |- _ => fail
  | _ => pose proof (Nat.div_mod_eq a 2);
         pose proof (Nat.mod_upper_bound a 2 (Nat.neq_succ_0 1))
  end.

(** Linear arithmetic with the halves and parities that occur. *)
Ltac arith :=
  repeat match goal with
  | |- context [?a mod 2] => div2_fact a
  | |- context [?a / 2] => div2_fact a
  | H : context [?a mod 2] |- _ => div2_fact a
  | H : context [?a / 2] |- _ => div2_fact a
  end;
  lia.

(** An assertion of the function run second holds because the function
    run first has passed the same one. *)
Ltac pass_assert :=
  match goal with
  | |- context [ASSERT ?b] =>
      let Eb := fresh "Eb" in
      assert (b = true) as Eb;
      [ repeat (apply andb_true_iff; split);
        first [ apply Nat.eqb_eq | apply Nat.leb_le | apply Nat.ltb_lt ]; arith
      | rewrite Eb; clear Eb; run_goal ]
  end.

Ltac undo_swap :=
  match goal with
  | Hs : swap ?q ?i ?j = Some ?p |- context [swap ?p ?a ?b] =>
      let Hs' := fresh "Hs" in
      assert (swap q b a = Some p) as Hs'
        by (transitivity (swap q i j); [f_equal; arith | exact Hs]);
      rewrite (swap_back _ _ _ _ Hs'); clear Hs Hs'; run_goal
  end.

Ltac undo_rotate_up :=
  match goal with
  | Hr : rotate_up_to ?shift ?lo ?hi ?q = Some ?p
    |- context [rotate_down_to ?shift ?hi2 ?lo2 ?p] =>
      rewrite (rotate_up_to_back shift lo hi lo2 hi2 ((hi - lo) / 2) q p Hr eq_refl
                 ltac:(arith) ltac:(arith));
      clear Hr; run_goal
  end.

Ltac undo_rotate_down :=
  match goal with
  | Hr : rotate_down_to ?shift ?hi ?lo ?q = Some ?p
    |- context [rotate_up_to ?shift ?lo2 ?hi2 ?p] =>
      rewrite (rotate_down_to_back shift lo hi lo2 hi2 ((hi - lo) / 2) q p Hr eq_refl
                 ltac:(arith) ltac:(arith));
      clear Hr; run_goal
  end.

Ltac split_parity :=
  match goal with
  | |- context [if ?a mod 2 =? 0 then _ else _] =>
      let Ep := fresh "Ep" in destruct (a mod 2 =? 0) eqn:Ep
  end.

Ltac inv_front :=
  repeat match goal with
  | E : mbind _ (ASSERT _) = Some _ |- _ => inv_assert E
  | E : mbind _ (Some _) = Some _ |- _ =>
      change (mbind ?f (Some ?v)) with (f v) in E; cbv beta iota in E
  | E : mbind _ _ = Some _ |- _ => inv_bind E
  | E : (let '(_, _) := ?p in _) = Some _ |- _ => is_var p; destruct p; cbv beta iota in E
  | E : Some _ = Some _ |- _ => progress simplify_eq
  end.

Ltac undo_all :=
  repeat first [ progress run_goal | undo_rotate_up | undo_rotate_down
               | undo_swap | pass_assert ];
  try reflexivity.

Lemma RotatePairDown_back pair x y pBegin pEnd oddDropDown oddPullUp shift pair' :
  RotatePairDown pair x y pBegin pEnd oddDropDown oddPullUp shift = Some pair' →
  RotatePairUp pair' x y pBegin pEnd oddDropDown oddPullUp shift = Some pair.
Proof.
  unfold RotatePairDown, RotatePairUp. unfold IndexVector, BoolVector in *. intros H.
  destruct oddDropDown, oddPullUp; inv_front; bool_props; undo_all.
  all: repeat split_parity; inv_all; bool_props; undo_all.
Qed.

Lemma RotatePairUp_back pair x y pBegin pEnd oddDropDown oddPullUp shift pair' :
  RotatePairUp pair x y pBegin pEnd oddDropDown oddPullUp shift = Some pair' →
  RotatePairDown pair' x y pBegin pEnd oddDropDown oddPullUp shift = Some pair.
Proof.
  unfold RotatePairDown, RotatePairUp. unfold IndexVector, BoolVector in *. intros H.
  destruct oddDropDown, oddPullUp; inv_front; bool_props; undo_all.
  all: repeat split_parity; inv_all; bool_props; undo_all.
Qed.

(** X14: [RotatePairDown] only rearranges the pairing vector, and
    [RotatePairUp] undoes it: called with the same arguments on the
    vector that [RotatePairDown] has left, it restores the vector
    [RotatePairDown] was given (in all the cases of the odd player
    dropping down or being pulled up, and of the two slots being first or
    second slots of their boards). *)
Theorem RotatePairUp_undoes_RotatePairDown
    pair x y pBegin pEnd oddDropDown oddPullUp shift pair' :
  RotatePairDown pair x y pBegin pEnd oddDropDown oddPullUp shift = Some pair' →
  pair' ≡ₚ pair ∧
  RotatePairUp pair' x y pBegin pEnd oddDropDown oddPullUp shift = Some pair.
Proof.
  intros H. split; [by eapply RotatePairDown_perm|by apply RotatePairDown_back].
Qed.

Lemma RotatePairUp_undoes_RotatePairDown_witness :
  ∃ pair', RotatePairDown eight_slots 0 5 0 8 false false (replicate 8 false) = Some pair' ∧
           pair' = [2; 3; 4; 5; 6; 0; 1; 7] ∧
           RotatePairUp pair' 0 5 0 8 false false (replicate 8 false) = Some eight_slots.
Proof.
  destruct (RotatePairDown eight_slots 0 5 0 8 false false (replicate 8 false))
    as [pair'|] eqn:E; [|vm_compute in E; discriminate].
  exists pair'. split; [exact eq_refl|]. split.
  - vm_compute in E. injection E as <-. reflexivity.
  - exact (proj2 (RotatePairUp_undoes_RotatePairDown _ _ _ _ _ _ _ _ _ E)).
Defined.

(** X15: [RotatePairUp] only rearranges the pairing vector, and
    [RotatePairDown] with the same arguments undoes it. *)
Theorem RotatePairDown_undoes_RotatePairUp
    pair x y pBegin pEnd oddDropDown oddPullUp shift pair' :
  RotatePairUp pair x y pBegin pEnd oddDropDown oddPullUp shift = Some pair' →
  pair' ≡ₚ pair ∧
  RotatePairDown pair' x y pBegin pEnd oddDropDown oddPullUp shift = Some pair.
Proof.
  intros H. split; [by eapply RotatePairUp_perm|by apply RotatePairUp_back].
Qed.

Lemma RotatePairDown_undoes_RotatePairUp_witness :
  ∃ pair', RotatePairUp eight_slots 1 4 0 8 false true (replicate 8 false) = Some pair' ∧
           RotatePairDown pair' 1 4 0 8 false true (replicate 8 false) = Some eight_slots.
Proof.
  destruct (RotatePairUp eight_slots 1 4 0 8 false true (replicate 8 false))
    as [pair'|] eqn:E; [|vm_compute in E; discriminate].
  exists pair'. split; [exact eq_refl|].
  exact (proj2 (RotatePairDown_undoes_RotatePairUp _ _ _ _ _ _ _ _ _ E)).
Defined.

Local Close Scope nat_scope.

(** ** FirstPairings in one score group *)

Local Open Scope nat_scope.

Lemma Qeqb_eq a b : Qeqb a b = true ↔ (a == b)%Q.
Proof. apply Qeq_bool_iff. Qed.

Lemma group_end_same_score pl np sg : ∀ fuel y0 y,
  (∀ i p, i < np → pl !! i = Some p → Qeqb (score p) sg = true) →
  group_end fuel pl np sg y0 = Some y → y0 ≤ np → y = np.
Proof.
  induction fuel as [|fuel IH]; intros y0 y Hall H Hle; [done|].
  cbn [group_end] in H. destruct (Nat.leb_spec np y0).
  - injection H as <-. lia.
  - inv_bind H. rename select (pl !! y0 = Some _) into Hp.
    rewrite (Hall y0 _ ltac:(lia) Hp) in H. cbn [negb] in H.
    apply IH in H; [done|done|lia].
Qed.

Lemma FirstPairings_loop_exit pl np fuel num pair pair1 :
  FirstPairings_loop fuel pl np np num pair = Some pair1 → pair1 = pair.
Proof.
  destruct fuel; [done|]. cbn [FirstPairings_loop]. rewrite Nat.ltb_irrefl.
  cbn [negb]. by intros [= <-].
Qed.

Lemma FirstPairings_loop_one_group (pl : list Player) np s fuel num (D pair1 : list nat) :
  (∀ i p, i < np → pl !! i = Some p → Qeqb (score p) s = true) →
  0 < np →
  FirstPairings_loop fuel pl np 0 num D = Some pair1 →
  ∃ D', pair1 = of_boards (map (λ j, (j, np / 2 + j)) (seq 0 (np / 2))) ++ D' ∧
        (np mod 2 = 1 → D' !! 0 = Some (np - 1)).
Proof.
  intros Hall Hnp H. destruct fuel as [|fuel]; [done|].
  cbn [FirstPairings_loop] in H.
  destruct (Nat.ltb_spec 0 np) as [_|?]; [|lia]. cbn [negb] in H.
  inv_bind H. inv_assert H. inv_bind H. inv_bind H. inv_bind H. cbv zeta in H.
  inv_assert H.
  match goal with Hp : _ !! 0 = Some _ |- _ => rename Hp into Hp0 end.
  match goal with Ho : num !! _ = Some ?o |- _ => rename o into old end.
  match goal with Hy : group_end _ _ _ _ _ = Some ?v |- _ =>
    rename v into y; apply group_end_same_score in Hy; [subst y| |lia] end.
  2: { intros i q Hi Hq. apply Qeqb_eq. rewrite (proj1 (Qeqb_eq _ _) (Hall _ _ Hi Hq)).
       symmetry. apply Qeqb_eq. by apply (Hall 0). }
  match goal with Hn : (_ =? _) = true |- _ =>
    apply Nat.eqb_eq in Hn; rewrite Hn in H; clear Hn end.
  rewrite Nat.sub_0_r in H.
  inv_bind H. inv_bind H.
  match goal with Hh : pair_halves _ _ _ _ = Some ?v |- _ =>
    apply (pair_halves_spec 0 np _ 0 []) in Hh; [|done]; subst v end.
  pose proof (Nat.div_mod_eq np 2) as Hdm.
  pose proof (Nat.mod_upper_bound np 2 ltac:(lia)) as Hub.
  change (map (λ j, (0 + j, 0 + np / 2 + j)) ?l) with (map (λ j, (j, np / 2 + j)) l) in H.
  cbn [app] in H.
  set (W := of_boards _) in *.
  assert (HW : length W = 2 * (np / 2)).
  { unfold W. by rewrite length_of_boards, length_map, length_seq. }
  destruct (Nat.eqb_spec (np mod 2) 0) as [Hev|Hodd].
  - apply FirstPairings_loop_exit in H as ->. eexists. split; [done|]. lia.
  - rewrite Nat.ltb_irrefl in H. inv_bind H. inv_assert H. inv_bind H. inv_assert H.
    apply FirstPairings_loop_exit in H as ->.
    match goal with Hs : set_at _ _ _ = Some _ |- _ =>
      apply set_at_app in Hs as (a & D1 & HD1 & ->); [|lia] end.
    exists ((np - 1) :: D1). split; [by rewrite <- app_assoc|done].
Qed.

(** X16: when the players to pair are all in one score group,
    [FirstPairings] pairs the upper half with the lower half in order:
    board [j] holds the ranks [j] and [players/2 + j]; with an odd number
    of players the last of them, rank [players - 1], stands alone in the
    next slot. *)
Theorem FirstPairings_pairs_upper_half_with_lower_half
    (pl : list Player) (pair pair' : list nat) nplayers s :
  FirstPairings pl pair nplayers = Some pair' →
  (∀ i p, i < nplayers → pl !! i = Some p → Qeqb (score p) s = true) →
  take (2 * (nplayers / 2)) pair'
    = of_boards (map (λ j, (j, nplayers / 2 + j)) (seq 0 (nplayers / 2))) ∧
  (nplayers mod 2 = 1 → pair' !! (nplayers - 1) = Some (nplayers - 1)).
Proof.
  intros H Hall. destruct (decide (nplayers = 0)) as [->|Hne].
  { split; [done|]. intros Hodd. done. }
  unfold FirstPairings in H.
  inv_assert H. inv_bind H. inv_assert H. cbv zeta in H.
  inv_bind H. inv_bind H. inv_assert H.
  apply (FirstPairings_loop_one_group pl nplayers s) in H as (D' & -> & HD'); [|done|lia].
  set (W := of_boards _) in *.
  assert (HW : length W = 2 * (nplayers / 2)).
  { unfold W. by rewrite length_of_boards, length_map, length_seq. }
  pose proof (Nat.div_mod_eq nplayers 2) as Hdm.
  split.
  - by rewrite take_app_length'.
  - intros Hodd. rewrite lookup_app_r by lia.
    replace (nplayers - 1 - length W) with 0 by lia. by apply HD'.
Qed.

Lemma FirstPairings_pairs_upper_half_with_lower_half_witness :
  ∃ pair', FirstPairings color_players eight_slots 7 = Some pair' ∧
           take 6 pair' = [0; 3; 1; 4; 2; 5] ∧ pair' !! 6 = Some 6.
Proof.
  destruct (FirstPairings color_players eight_slots 7) as [pair'|] eqn:E;
    [|vm_compute in E; discriminate].
  exists pair'. split; [exact eq_refl|].
  destruct (FirstPairings_pairs_upper_half_with_lower_half
              color_players eight_slots pair' 7 1%Q E) as [H1 H2].
  { intros i p Hi Hp.
    do 7 (destruct i as [|i]; [vm_compute in Hp; injection Hp as <-; reflexivity|]). lia. }
  split; [exact H1|]. apply H2. reflexivity.
Defined.

Local Close Scope nat_scope.

(** ** The Crenshaw-Berger tables *)

Lemma filter_one {A} (f : A → bool) (l : list A) :
  match List.filter f l with [_] => true | _ => false end = true →
  ∃ x, x ∈ l ∧ f x = true ∧ ∀ y, y ∈ l → f y = true → y = x.
Proof.
  destruct (List.filter f l) as [|x [|? ?]] eqn:E; try discriminate. intros _.
  assert (Hin : ∀ y, In y l ∧ f y = true ↔ y = x).
  { intros y. rewrite <- filter_In, E. simpl. intuition. }
  exists x. split_and!.
  - apply list_elem_of_In. by apply (proj2 (Hin x)).
  - by apply (proj2 (Hin x)).
  - intros y Hy Hf. apply Hin. split; [by apply list_elem_of_In|done].
Qed.

Lemma forallb_elem_of {A} (f : A → bool) l x :
  forallb f l = true → x ∈ l → f x = true.
Proof. intros H Hx. rewrite forallb_forall in H. apply H. by apply list_elem_of_In. Qed.

Lemma CB_pairings_hit : ∀ fuel s y p st st',
  CB_pairings fuel s y p st = Some st' → st' ≠ st → p ∈ pairing_numbers fuel s.
Proof.
  induction fuel as [|fuel IH]; intros s y p st st' H Hne; [done|].
  cbn [CB_pairings pairing_numbers] in *. cbv zeta in H.
  inv_bind H.
  destruct (Z.eqb_spec (atoi s) p) as [->|Hp1]; [left|].
  destruct (Z.eqb_spec (atoi (substr s (n + 1))) p) as [->|Hp2]; [right; left|].
  change (mbind ?f (Some ?v)) with (f v) in H; cbv beta in H.
  destruct (find_from " " s (n + 1)) as [space|].
  - do 2 right. by eapply IH.
  - simpl in H. by simplify_eq.
Qed.

Lemma CB_rows_hit : ∀ rows c r p st st',
  CB_rows rows c r p st = Some st' → st' ≠ st →
  ∃ row nums, row ∈ rows ∧ row_numbers row = Some (c, r, nums) ∧ p ∈ nums.
Proof.
  induction rows as [|row rows IH]; intros c r p st st' H Hne.
  { simpl in H. by simplify_eq. }
  cbn [CB_rows] in H. cbv zeta in H. inv_bind H.
  assert (Hrec : ∀ st1, CB_rows rows c r p st1 = Some st' → st1 = st →
    ∃ row0 nums, row0 ∈ row :: rows ∧ row_numbers row0 = Some (c, r, nums) ∧ p ∈ nums).
  { intros st1 H1 ->. destruct (IH _ _ _ _ _ H1 Hne) as (row0 & nums & ? & ? & ?).
    exists row0, nums. split; [by right|done]. }
  destruct (Z.eqb_spec (atoi (substr row (n + 1))) c) as [Hc|Hc]; cbn [negb] in H;
    [|by eapply Hrec].
  inv_bind H.
  destruct (Z.eqb_spec (atoi (substr row (n0 + 1))) r) as [Hr|Hr]; cbn [negb] in H;
    [|by eapply Hrec].
  inv_bind H. inv_bind H.
  match goal with Hp : CB_pairings _ _ _ _ _ = Some ?s1 |- _ =>
    destruct (decide (s1 = st)) as [Heq|Hn1]; [by eapply Hrec|];
    apply CB_pairings_hit in Hp; [|done] end.
  eexists row, _. split; [left|]. split; [|done].
  unfold row_numbers.
  repeat (match goal with E : ?m = Some _ |- context [mbind _ ?m] => rewrite E end;
          change (mbind ?f (Some ?v)) with (f v); cbv beta).
  by rewrite Hc, Hr.
Qed.

Lemma rows_in_range : forallb row_in_range roundRobinPairings = true.
Proof. vm_compute. reflexivity. Qed.

Lemma rev_step (b : bool) (chk : option unit) (v st st1 : RevState) :
  (if b then chk;; Some v else Some st) = Some st1 → st1 = v ∨ st1 = st.
Proof. destruct b; [destruct chk; simpl|]; intros; simplify_eq; auto. Qed.

Lemma CB_reversals_color : ∀ fuel s p o c r rnd w isBye st st',
  CB_reversals fuel s p o c r rnd w isBye st = Some st' →
  st'.1 = st.1 ∨ st'.1 = "W"%char ∨ st'.1 = "B"%char.
Proof.
  induction fuel as [|fuel IH]; intros s p o c r rnd w isBye st st' H; [done|].
  cbn [CB_reversals] in H. cbv zeta in H. inv_bind H. inv_bind H. inv_bind H.
  repeat match goal with E : (if _ then _ else _) = Some _ |- _ =>
    apply rev_step in E end.
  destruct (find_from " " s (n + 1)).
  - apply IH in H. intuition (simplify_eq; simpl in *; eauto; congruence).
  - intuition (simplify_eq; simpl in *; eauto; congruence).
Qed.

Lemma CB_rev_rows_color : ∀ rows p o c r w isBye st st',
  CB_rev_rows rows p o c r w isBye st = Some st' →
  st'.1 = st.1 ∨ st'.1 = "W"%char ∨ st'.1 = "B"%char.
Proof.
  induction rows as [|row rows IH]; intros p o c r w isBye st st' H.
  { simpl in H. simplify_eq. by left. }
  cbn [CB_rev_rows] in H. cbv zeta in H. inv_bind H.
  destruct (negb _); [by eapply IH|]. inv_bind H. inv_bind H.
  destruct (negb _); [by eapply IH|]. inv_bind H. inv_bind H.
  apply IH in H.
  match goal with E : (if ?b then _ else _) = Some _ |- _ =>
    destruct b; [apply CB_reversals_color in E|simplify_eq] end;
    intuition congruence.
Qed.

Lemma seats_range c : 4 ≤ seats c ≤ 10 → seats c mod 2 = 0 → 3 ≤ c ≤ 10.
Proof.
  unfold seats. destruct (Z.eqb_spec (c mod 2) 1); intros; [lia|].
  split; [lia|lia].
Qed.

(** The steps of a lookup that returns, over any two tables. *)
Lemma CrenshawBergerLookup_steps (prs revs : list string) c r p w b col :
  ('(isBye, competitors) ←
     (if c mod 2 =? 1
      then ASSERT (w =? 0);; Some (true, c + 1)
      else Some (false, c));
   let withdrawnPlayer := if w =? 0 then competitors else w in
   '(opponent, board, color) ← CB_rows prs competitors r p (0, 0, "*"%char);
   ASSERT ((1 <=? opponent) && negb (opponent =? p) && (opponent <=? competitors));;
   ASSERT ((1 <=? board) && (board <=? competitors / 2));;
   ASSERT (Ascii.eqb color "W" || Ascii.eqb color "B");;
   '(color, _) ←
     CB_rev_rows revs p opponent competitors r withdrawnPlayer isBye (color, false);
   Some (board, color)) = Some (b, col) →
  ∃ opp color0 isBye ww rev,
    CB_rows prs (seats c) r p (0, 0, "*"%char) = Some (opp, b, color0) ∧
    1 ≤ opp ∧ 1 ≤ b ≤ seats c / 2 ∧ (color0 = "W"%char ∨ color0 = "B"%char) ∧
    CB_rev_rows revs p opp (seats c) r ww isBye (color0, false) = Some (col, rev).
Proof.
  intros H. apply bind_Some in H as ([isBye c'] & E & H).
  assert (c' = seats c) as ->.
  { unfold seats. destruct (c mod 2 =? 1); [|by simplify_eq].
    apply bind_Some in E as ([] & _ & E). by simplify_eq. }
  clear E. cbv beta iota zeta in H.
  apply bind_Some in H as ([[opp board] color] & Hrows & H). cbv beta iota in H.
  apply bind_Some in H as ([] & E1 & H). apply ASSERT_Some in E1.
  apply bind_Some in H as ([] & E2 & H). apply ASSERT_Some in E2.
  apply bind_Some in H as ([] & E3 & H). apply ASSERT_Some in E3.
  apply bind_Some in H as ([color' rev] & Hrev & H). cbv beta iota in H.
  injection H as <- <-.
  apply andb_prop in E1 as [E1 _]. apply andb_prop in E1 as [E1 _].
  apply andb_prop in E2 as [E2 E2'].
  apply Z.leb_le in E1, E2, E2'.
  apply orb_prop in E3. rewrite !Ascii.eqb_eq in E3.
  exists opp, color, isBye, (if w =? 0 then seats c else w), rev.
  split_and!; assumption.
Qed.

(** What a lookup that returns tells about its arguments and result. *)
Lemma CrenshawBergerLookup_inv c r p w b col :
  CrenshawBergerLookup c r p w = Some (b, col) →
  (3 ≤ c ≤ 10 ∧ 1 ≤ r < seats c ∧ 1 ≤ p ≤ seats c) ∧
  (1 ≤ b ≤ seats c / 2 ∧ (col = "W"%char ∨ col = "B"%char)) ∧
  ∃ opp col0, CB_rows roundRobinPairings (seats c) r p (0, 0, "*"%char)
              = Some (opp, b, col0).
Proof.
  intros H.
  apply (CrenshawBergerLookup_steps roundRobinPairings roundRobinReversals) in H
    as (opp & color & isBye & ww & rev & Hrows & Hopp & Hb & Hcol & Hrev).
  apply CB_rev_rows_color in Hrev. cbn [fst] in Hrev.
  pose proof Hrows as Hhit.
  apply CB_rows_hit in Hhit as (row & nums & Hrow & Hnum & Hp).
  2: { intros Heq. injection Heq as Heq _ _. lia. }
  pose proof (forallb_elem_of _ _ _ rows_in_range Hrow) as Hok.
  unfold row_in_range in Hok. rewrite Hnum in Hok.
  apply andb_prop in Hok as [Hok Hnums].
  pose proof (forallb_elem_of _ _ _ Hnums Hp) as Hpp. cbv beta in Hpp.
  repeat match goal with Hx : (_ && _) = true |- _ => apply andb_prop in Hx as [? ?] end.
  repeat match goal with
         | Hx : (_ <=? _) = true |- _ => apply Z.leb_le in Hx
         | Hx : (_ <? _) = true |- _ => apply Z.ltb_lt in Hx
         | Hx : (_ =? _) = true |- _ => apply Z.eqb_eq in Hx
         end.
  split_and!; try lia.
  - apply seats_range; [lia|assumption].
  - apply seats_range; [lia|assumption].
  - intuition congruence.
  - exists opp, color. exact Hrows.
Qed.

(** X17: [CrenshawBergerLookup] returns only inside its tables: for 3 to
    10 competitors, a round below the table's size and a player number of
    the table; the board it gives is one of the table's boards and the
    color is White or Black.  For every other argument, a section of more
    than 10 players among them, the lookup stops at one of its
    assertions. *)
Theorem CrenshawBergerLookup_answers_within_the_tables c r p w b col :
  CrenshawBergerLookup c r p w = Some (b, col) →
  3 ≤ c ≤ 10 ∧ 1 ≤ r < seats c ∧ 1 ≤ p ≤ seats c ∧
  1 ≤ b ≤ seats c / 2 ∧ (col = "W"%char ∨ col = "B"%char).
Proof.
  intros H. apply CrenshawBergerLookup_inv in H as ((? & ? & ?) & (? & ?) & _).
  done.
Qed.

Lemma CrenshawBergerLookup_answers_within_the_tables_witness :
  CrenshawBergerLookup 5 2 3 0 = Some (3, "W"%char) ∧ 1 ≤ 3 ≤ seats 5 / 2.
Proof.
  split; [reflexivity|].
  exact (proj1 (proj2 (proj2 (proj2
    (CrenshawBergerLookup_answers_within_the_tables 5 2 3 0 3 "W"%char eq_refl))))).
Defined.

Lemma rounds_seated :
  forallb (λ n, forallb (λ r, forallb (λ w, one_on_each_seat n (round_seats n r w))
                                (withdrawals n))
                  (seqZ 1 (seats n - 1)))
          (seqZ 3 8) = true.
Proof. vm_compute. reflexivity. Qed.

Lemma seats_cases n : 3 ≤ n ≤ 10 → 4 ≤ seats n ≤ 10 ∧ n ≤ seats n ≤ n + 1.
Proof.
  unfold seats. pose proof (Z.div_mod n 2 ltac:(lia)).
  pose proof (Z.mod_pos_bound n 2 ltac:(lia)).
  destruct (Z.eqb_spec (n mod 2) 1); cbv iota; intros; lia.
Qed.

Lemma round_seated n r w :
  3 ≤ n ≤ 10 → 1 ≤ r < seats n → 0 ≤ w ≤ n → (n mod 2 = 1 → w = 0) →
  one_on_each_seat n (round_seats n r w) = true.
Proof.
  intros Hn Hr Hw Hodd. pose proof (seats_cases n Hn) as Hs.
  assert (H1 : n ∈ seqZ 3 8) by (apply elem_of_seqZ; lia).
  assert (H2 : r ∈ seqZ 1 (seats n - 1)) by (apply elem_of_seqZ; lia).
  assert (H3 : w ∈ withdrawals n).
  { unfold withdrawals. destruct (Z.eqb_spec (n mod 2) 1) as [Ho|Ho].
    - rewrite (Hodd Ho). apply list_elem_of_singleton. reflexivity.
    - apply elem_of_seqZ. lia. }
  exact (forallb_elem_of _ _ w
           (forallb_elem_of _ _ r (forallb_elem_of _ _ n rounds_seated H1) H2) H3).
Qed.

Lemma seat_given n r w p :
  3 ≤ n ≤ 10 → 1 ≤ r < seats n → 0 ≤ w ≤ n → (n mod 2 = 1 → w = 0) →
  1 ≤ p ≤ seats n → is_Some (CrenshawBergerLookup n r p w).
Proof.
  intros Hn Hr Hw Hodd Hp.
  pose proof (round_seated n r w Hn Hr Hw Hodd) as H.
  apply andb_prop in H as [H _].
  apply (forallb_elem_of _ _ (p, CrenshawBergerLookup n r p w)) in H.
  - cbn [snd] in H. destruct (CrenshawBergerLookup n r p w) as [s|].
    + exists s. reflexivity.
    + discriminate H.
  - apply list_elem_of_fmap. exists p. split; [reflexivity|].
    apply elem_of_seqZ. lia.
Qed.

Lemma has_seat_lookup b c q (o : option (Z * ascii)) :
  has_seat b c (q, o) = true ↔ o = Some (b, c).
Proof.
  unfold has_seat. cbn [snd]. destruct o as [[b' c']|]; [|split; discriminate].
  rewrite andb_true_iff, Z.eqb_eq, Ascii.eqb_eq. split.
  - intros [-> ->]. reflexivity.
  - intros [= -> ->]. split; reflexivity.
Qed.

(** The seat [(b, c)] of a round has exactly one player. *)
Lemma seat_taken n r w b c :
  3 ≤ n ≤ 10 → 1 ≤ r < seats n → 0 ≤ w ≤ n → (n mod 2 = 1 → w = 0) →
  1 ≤ b ≤ seats n / 2 → c = "W"%char ∨ c = "B"%char →
  ∃ p, 1 ≤ p ≤ seats n ∧ CrenshawBergerLookup n r p w = Some (b, c) ∧
       ∀ q, CrenshawBergerLookup n r q w = Some (b, c) → q = p.
Proof.
  intros Hn Hr Hw Hodd Hb Hc.
  pose proof (round_seated n r w Hn Hr Hw Hodd) as H.
  apply andb_prop in H as [_ H].
  apply (forallb_elem_of _ _ b) in H; [|apply elem_of_seqZ; lia].
  apply (forallb_elem_of _ _ c) in H.
  2: { destruct Hc as [-> | ->]; [left|right; left]. }
  apply filter_one in H as ([p e] & Hin & Hf & Huniq).
  apply list_elem_of_fmap in Hin as (p' & Hpe & Hp').
  injection Hpe as -> ->.
  apply elem_of_seqZ in Hp'.
  apply has_seat_lookup in Hf.
  exists p'. split; [lia|]. split; [exact Hf|].
  intros q Hq.
  pose proof (CrenshawBergerLookup_inv _ _ _ _ _ _ Hq) as ((_ & _ & Hqr) & _).
  assert (Hqin : (q, CrenshawBergerLookup n r q w) ∈ round_seats n r w).
  { apply list_elem_of_fmap. exists q. split; [reflexivity|]. apply elem_of_seqZ. lia. }
  assert (Hqs : has_seat b c (q, CrenshawBergerLookup n r q w) = true).
  { apply has_seat_lookup. exact Hq. }
  pose proof (Huniq _ Hqin Hqs) as Heq.
  exact (f_equal fst Heq).
Qed.



Lemma pairs_meet_once :
  forallb (λ n, let sch := schedule n in
                forallb (λ p, forallb (λ q,
                  if p <? q then match List.filter (meet_in p q) sch with
                                 | [_] => true
                                 | _ => false
                                 end
                  else true) (seqZ 1 (seats n))) (seqZ 1 (seats n)))
          (seqZ 3 8) = true.
Proof. vm_compute. reflexivity. Qed.

Lemma board_in_map (g : Z → option Z) (ps : list Z) p :
  p ∈ ps → board_in (map (λ p, (p, g p)) ps) p = g p.
Proof.
  induction ps as [|a ps IH]; intros Hin; [by apply elem_of_nil in Hin|].
  unfold board_in. simpl. destruct (Z.eqb_spec a p) as [->|Hne]; [done|].
  apply IH. apply elem_of_cons in Hin as [->|]; done.
Qed.

Lemma meet_in_same_board n r p q :
  1 ≤ p ≤ seats n → 1 ≤ q ≤ seats n →
  meet_in p q (r, map (λ p, (p, fst <$> CrenshawBergerLookup n r p 0)) (seqZ 1 (seats n)))
    = true ↔ same_board n r p q.
Proof.
  intros Hp Hq. unfold meet_in, same_board. cbn [snd].
  rewrite !(board_in_map (λ p, fst <$> CrenshawBergerLookup n r p 0))
    by (apply elem_of_seqZ; lia).
  destruct (CrenshawBergerLookup n r p 0) as [[b1 c1]|],
           (CrenshawBergerLookup n r q 0) as [[b2 c2]|]; cbn [fmap option_fmap option_map fst].
  - rewrite Z.eqb_eq. split.
    + intros ->. exists b2, c1, c2. split; reflexivity.
    + intros (b & ? & ? & [= -> ->] & [= -> ->]). reflexivity.
  - split; [discriminate|]. intros (? & ? & ? & _ & ?). discriminate.
  - split; [discriminate|]. intros (? & ? & ? & ? & _). discriminate.
  - split; [discriminate|]. intros (? & ? & ? & ? & _). discriminate.
Qed.

(** X19: over the rounds of a round robin of 3 to 10 competitors, every
    two players of the table sit at the same board in exactly one
    round. *)
Theorem CrenshawBergerLookup_every_two_players_meet_once n p q :
  3 ≤ n ≤ 10 → 1 ≤ p → p < q → q ≤ seats n →
  ∃ r, 1 ≤ r < seats n ∧ same_board n r p q ∧ ∀ r', same_board n r' p q → r' = r.
Proof.
  intros Hn Hp Hpq Hq. pose proof (seats_cases n Hn) as Hs.
  assert (H1 : n ∈ seqZ 3 8) by (apply elem_of_seqZ; lia).
  assert (H2 : p ∈ seqZ 1 (seats n)) by (apply elem_of_seqZ; lia).
  assert (H3 : q ∈ seqZ 1 (seats n)) by (apply elem_of_seqZ; lia).
  pose proof (forallb_elem_of _ _ n pairs_meet_once H1) as H. cbv beta zeta in H.
  apply (forallb_elem_of _ _ p) in H; [|exact H2].
  apply (forallb_elem_of _ _ q) in H; [|exact H3]. cbv beta in H.
  destruct (Z.ltb_spec p q); [|lia].
  apply filter_one in H as (e & Hin & Hf & Huniq).
  apply list_elem_of_fmap in Hin as (r & -> & Hr).
  apply elem_of_seqZ in Hr.
  exists r. split; [lia|]. split.
  { apply meet_in_same_board in Hf; [exact Hf|lia|lia]. }
  intros r' Hm.
  assert (Hr' : 1 ≤ r' < seats n).
  { destruct Hm as (b & c1 & c2 & Hl & _).
    apply CrenshawBergerLookup_inv in Hl as ((_ & Hl & _) & _). exact Hl. }
  assert (Hin' : (r', map (λ p, (p, fst <$> CrenshawBergerLookup n r' p 0))
                          (seqZ 1 (seats n))) ∈ schedule n).
  { apply list_elem_of_fmap. exists r'. split; [reflexivity|]. apply elem_of_seqZ. lia. }
  assert (Hf' : meet_in p q (r', map (λ p, (p, fst <$> CrenshawBergerLookup n r' p 0))
                                     (seqZ 1 (seats n))) = true).
  { apply meet_in_same_board; [lia|lia|exact Hm]. }
  exact (f_equal fst (Huniq _ Hin' Hf')).
Qed.

Lemma CrenshawBergerLookup_every_two_players_meet_once_witness :
  ∃ r, 1 ≤ r < 8 ∧ same_board 7 r 2 5.
Proof.
  destruct (CrenshawBergerLookup_every_two_players_meet_once 7 2 5
              ltac:(lia) ltac:(lia) ltac:(lia) ltac:(vm_compute; discriminate))
    as (r & Hr & Hm & _).
  exists r. split; [exact Hr|exact Hm].
Defined.

(** X20: a withdrawn player changes colors only: the lookup with a
    withdrawn player gives every player the board that the lookup
    without one gives. *)
Theorem CrenshawBergerLookup_withdrawal_keeps_the_boards c r p w b col :
  CrenshawBergerLookup c r p w = Some (b, col) →
  ∃ col0, CrenshawBergerLookup c r p 0 = Some (b, col0).
Proof.
  intros H.
  apply CrenshawBergerLookup_inv in H as ((Hc & Hr & Hp) & _ & (opp & c1 & Hrows)).
  pose proof (seats_cases c Hc) as Hs.
  destruct (seat_given c r 0 p Hc Hr ltac:(lia) ltac:(reflexivity) Hp) as [[b0 c0] H0].
  exists c0. rewrite H0.
  apply CrenshawBergerLookup_inv in H0 as (_ & _ & (opp0 & c2 & Hrows0)).
  rewrite Hrows in Hrows0. injection Hrows0 as _ -> _. reflexivity.
Qed.

Lemma CrenshawBergerLookup_withdrawal_keeps_the_boards_witness :
  CrenshawBergerLookup 4 3 3 2 = Some (2, "B"%char) ∧
  ∃ col0, CrenshawBergerLookup 4 3 3 0 = Some (2, col0).
Proof.
  split; [reflexivity|].
  exact (CrenshawBergerLookup_withdrawal_keeps_the_boards 4 3 3 2 2 "B"%char eq_refl).
Defined.

(** ** The boards of a round robin *)

Lemma withdrawn_player_range : ∀ xps n tr w0 w,
  withdrawn_player xps n tr w0 = Some w →
  w = w0 ∨ ∃ x px, (x, px) ∈ xps ∧ w = Z.of_nat x + 1.
Proof.
  induction xps as [|[x px] xps IH]; intros n tr w0 w H.
  { simpl in H. injection H as <-. by left. }
  cbn [withdrawn_player] in H. inv_assert H.
  assert (Hrec : ∀ w1, withdrawn_player xps n tr w1 = Some w →
            w1 = w0 ∨ w1 = Z.of_nat x + 1 →
            w = w0 ∨ ∃ x' px', (x', px') ∈ (x, px) :: xps ∧ w = Z.of_nat x' + 1).
  { intros w1 H1 Hw1. destruct (IH _ _ _ _ H1) as [->|(x' & px' & Hin & ->)].
    - destruct Hw1 as [->| ->]; [by left|]. right. exists x, px. split; [left|done].
    - right. exists x', px'. split; [by right|done]. }
  destruct (bye_rounds px) as [|b rest]; [by eapply Hrec; [|left]|].
  destruct (b <=? (tr + 1) `quot` 2).
  - inv_assert H. eapply Hrec; [exact H|by right].
  - eapply Hrec; [exact H|by left].
Qed.

(** X21: a round robin on a vector of even length whose players are all
    in the same round: on every board of the tables exactly two players
    of the vector sit, one with White and one with Black. *)
Theorem RoundRobinPairings_white_and_black_on_every_board
    (pl out : list Player) totalRounds firstBoardNum r :
  RoundRobinPairings pl totalRounds firstBoardNum = Some out →
  Z.even (Z.of_nat (length pl)) = true →
  (∀ p, p ∈ pl → robin_round p = r) →
  ∀ b, 1 ≤ b ≤ Z.of_nat (length pl) / 2 →
    ∃ i j qi qj,
      out !! i = Some qi ∧ out !! j = Some qj ∧
      board_num qi = b + (firstBoardNum - 1) ∧ board_color qi = "W"%char ∧
      board_num qj = b + (firstBoardNum - 1) ∧ board_color qj = "B"%char ∧
      ∀ k qk, out !! k = Some qk → board_num qk = b + (firstBoardNum - 1) →
              k = i ∨ k = j.
Proof.
  intros H Heven Hround b Hb.
  destruct (RoundRobinPairings_seats _ _ _ _ H) as (p0 & w & Hhead & Hw & Hlen & Hseat).
  set (sorted := sort_by LessRobinSort pl) in *.
  assert (Hperm : sorted ≡ₚ pl) by apply merge_sort_Permutation.
  assert (Hn : length sorted = length pl) by (by rewrite Hperm).
  assert (Hrnd : ∀ x px, sorted !! x = Some px → robin_round px = r).
  { intros x px Hx. apply Hround. rewrite <- Hperm. by eapply list_elem_of_lookup_2. }
  rewrite <- Hn in Heven, Hb.
  remember (Z.of_nat (length sorted)) as n eqn:Hndef.
  (* the lookup of a position *)
  assert (Hat : ∀ x px, sorted !! x = Some px →
    ∃ board color qx,
      CrenshawBergerLookup n r (Z.of_nat x + 1) w = Some (board, color) ∧
      out !! x = Some qx ∧ board_num qx = board + (firstBoardNum - 1) ∧
      robin_color_rule sorted out x color (board_color qx)).
  { intros x px Hx. destruct (Hseat x px Hx) as (board & color & qx & Hl & Hq & Hqx & Hc).
    rewrite (Hrnd x px Hx) in Hl. exists board, color, qx.
    split; [exact Hl|]. split; [exact Hq|]. split; [by rewrite Hqx|exact Hc]. }
  (* the arguments are in the range of the tables *)
  assert (H0 : sorted !! 0%nat = Some p0) by (by rewrite <- head_lookup).
  destruct (Hat _ _ H0) as (b0 & c0 & q0 & Hl0 & _).
  apply CrenshawBergerLookup_inv in Hl0 as ((Hnr & Hrr & _) & _).
  assert (Hsn : seats n = n).
  { unfold seats. rewrite Z.even_spec in Heven. destruct Heven as [k Hk].
    destruct (Z.eqb_spec (n mod 2) 1) as [Ho|Ho]; [|done].
    rewrite Hk, Z.mul_comm, Z.mod_mul in Ho by lia. lia. }
  rewrite Hsn in Hrr.
  assert (Hwr : 0 ≤ w ≤ n).
  { apply withdrawn_player_range in Hw as [->|(x & px & Hin & ->)]; [lia|].
    apply list_elem_of_lookup in Hin as [i Hi].
    rewrite list_lookup_imap in Hi. destruct (sorted !! i) as [pi|] eqn:Ei; [|done].
    injection Hi as <- <-. apply lookup_lt_Some in Ei. lia. }
  assert (Hodd : n mod 2 = 1 → w = 0).
  { intros Ho. rewrite Z.even_spec in Heven. destruct Heven as [k Hk].
    rewrite Hk, Z.mul_comm, Z.mod_mul in Ho by lia. lia. }
  (* the two players of the board *)
  assert (Hr2 : 1 ≤ r < seats n) by (rewrite Hsn; exact Hrr).
  assert (Hb2 : 1 ≤ b ≤ seats n / 2) by (rewrite Hsn; exact Hb).
  destruct (seat_taken n r w b "W"%char Hnr Hr2 Hwr Hodd Hb2 (or_introl eq_refl))
    as (pW & HpW & HlW & HuW).
  destruct (seat_taken n r w b "B"%char Hnr Hr2 Hwr Hodd Hb2 (or_intror eq_refl))
    as (pB & HpB & HlB & HuB).
  rewrite Hsn in HpW, HpB.
  assert (HWB : pW ≠ pB).
  { intros Heq. rewrite Heq, HlB in HlW. discriminate HlW. }
  set (iW := Z.to_nat (pW - 1)). set (iB := Z.to_nat (pB - 1)).
  assert (HiW : Z.of_nat iW + 1 = pW) by (unfold iW; lia).
  assert (HiB : Z.of_nat iB + 1 = pB) by (unfold iB; lia).
  assert (HiWB : iW ≠ iB) by (unfold iW, iB; lia).
  destruct (sorted !! iW) as [sW|] eqn:EW.
  2: { apply lookup_ge_None in EW. unfold iW in *. lia. }
  destruct (sorted !! iB) as [sB|] eqn:EB.
  2: { apply lookup_ge_None in EB. unfold iB in *. lia. }
  destruct (Hat _ _ EW) as (bW & cW & qW & HlW' & HoW & HbW & HcW).
  destruct (Hat _ _ EB) as (bB & cB & qB & HlB' & HoB & HbB & HcB).
  rewrite HiW, HlW in HlW'. injection HlW' as <- <-.
  rewrite HiB, HlB in HlB'. injection HlB' as <- <-.
  (* every player on the board is one of the two *)
  assert (Honly : ∀ k qk, out !! k = Some qk → board_num qk = b + (firstBoardNum - 1) →
            k = iW ∨ k = iB).
  { intros k qk Hk Hbk.
    destruct (sorted !! k) as [sk|] eqn:Ek.
    2: { apply lookup_ge_None in Ek. apply lookup_lt_Some in Hk. lia. }
    destruct (Hat _ _ Ek) as (bk & ck & qk' & Hlk & Hok & Hbk' & _).
    rewrite Hk in Hok. injection Hok as <-.
    assert (bk = b) as -> by lia.
    pose proof (CrenshawBergerLookup_inv _ _ _ _ _ _ Hlk) as (_ & (_ & [->| ->]) & _).
    - left. apply HuW in Hlk. lia.
    - right. apply HuB in Hlk. lia. }
  unfold robin_color_rule in HcW, HcB.
  destruct (last sorted) as [back|] eqn:Elast.
  2: { apply last_None in Elast. rewrite Elast in H0. discriminate H0. }
  destruct (is_bye back) eqn:Ebye.
  2: { exists iW, iB, qW, qB. by split_and!. }
  (* the bye is last *)
  pose proof (lookup_lt_Some _ _ _ EW) as HltW.
  pose proof (lookup_lt_Some _ _ _ EB) as HltB.
  set (m := (length sorted - 1)%nat) in *.
  assert (Hlast_out : ∃ qm, last out = Some qm ∧ out !! m = Some qm).
  { destruct (out !! m) as [qm|] eqn:Em.
    - exists qm. split; [|done]. rewrite last_lookup. rewrite <- Em. f_equal. unfold m. lia.
    - apply lookup_ge_None in Em. unfold m in Em. lia. }
  destruct Hlast_out as (qm & Hqm & Hom).
  (* a player before the last who shares the board of the last is the first *)
  assert (Hfirst : ∀ x qx, (x < m)%nat → out !! x = Some qx →
            board_num qx = b + (firstBoardNum - 1) →
            board_num qm = b + (firstBoardNum - 1) →
            first_on_last_board out x).
  { intros x qx Hx Hox Hbx Hbm. exists qx, qm.
    split; [exact Hox|]. split; [exact Hqm|]. split; [unfold m in Hx; lia|].
    split; [lia|]. intros y qy Hy Hoy Hby.
    destruct (Honly y qy Hoy ltac:(lia)) as [->| ->];
      destruct (Honly x qx Hox Hbx) as [->| ->];
      destruct (Honly m qm Hom Hbm) as [Hm'|Hm']; lia. }
  assert (Hnotfirst : ∀ x, first_on_last_board out x →
            board_num qm ≠ b + (firstBoardNum - 1) →
            ∀ qx, out !! x = Some qx → board_num qx ≠ b + (firstBoardNum - 1)).
  { intros x (qx' & bk & Hox' & Hbk & _ & Heq & _) Hne qx Hox.
    unfold PlayerVector in *.
    assert (bk = qm) as -> by congruence. assert (qx' = qx) as -> by congruence.
    lia. }
  destruct (decide (board_num qm = b + (firstBoardNum - 1))) as [Hbm|Hbm].
  - (* the board of the bye *)
    destruct (Honly m qm Hom Hbm) as [HmW|HmB].
    + (* the bye has the White seat of the tables: the colors are turned *)
      assert (Hxb : (iB < m)%nat) by lia.
      destruct HcB as [_ HcB]. destruct (HcB Hxb) as [HcB1 _].
      destruct HcW as [HcW _].
      exists iB, iW, qB, qW. split_and!; try done.
      * apply HcB1. by eapply Hfirst.
      * apply HcW. lia.
      * intros k qk Hk Hbk. destruct (Honly k qk Hk Hbk); [by right|by left].
    + assert (Hxw : (iW < m)%nat) by lia.
      destruct HcW as [_ HcW]. destruct (HcW Hxw) as [HcW1 _].
      destruct HcB as [HcB _].
      exists iW, iB, qW, qB. split_and!; try done.
      * apply HcW1. by eapply Hfirst.
      * apply HcB. lia.
  - (* another board: the colors of the tables *)
    assert (HxW : (iW < m)%nat).
    { destruct (decide (iW = m)) as [Hm'|Hm']; [|lia].
      rewrite Hm', Hom in HoW. injection HoW as <-. lia. }
    assert (HxB : (iB < m)%nat).
    { destruct (decide (iB = m)) as [Hm'|Hm']; [|lia].
      rewrite Hm', Hom in HoB. injection HoB as <-. lia. }
    destruct HcW as [_ HcW]. destruct (HcW HxW) as [_ HcW2].
    destruct HcB as [_ HcB]. destruct (HcB HxB) as [_ HcB2].
    exists iW, iB, qW, qB. split_and!; try done.
    + apply HcW2. intros Hf. by apply (Hnotfirst _ Hf Hbm qW HoW).
    + apply HcB2. intros Hf. by apply (Hnotfirst _ Hf Hbm qB HoB).
Qed.

Lemma RoundRobinPairings_white_and_black_on_every_board_witness :
  ∃ out i j qi qj,
    RoundRobinPairings robin3_players 3 1 = Some out ∧
    out !! i = Some qi ∧ out !! j = Some qj ∧
    board_num qi = 2 ∧ board_color qi = "W"%char ∧
    board_num qj = 2 ∧ board_color qj = "B"%char.
Proof.
  destruct (RoundRobinPairings robin3_players 3 1) as [out|] eqn:E;
    [|vm_compute in E; discriminate].
  assert (Hr : forallb (λ p, robin_round p =? 2) robin3_players = true)
    by (vm_compute; reflexivity).
  destruct (RoundRobinPairings_white_and_black_on_every_board
              robin3_players out 3 1 2 E eq_refl
              (λ p Hp, proj1 (Z.eqb_eq _ _) (forallb_elem_of _ _ p Hr Hp))
              2 ltac:(vm_compute; split; discriminate))
    as (i & j & qi & qj & Hi & Hj & H1 & H2 & H3 & H4 & _).
  exists out, i, j, qi, qj.
  split; [exact eq_refl|]. split; [exact Hi|]. split; [exact Hj|].
  split; [exact H1|]. split; [exact H2|]. split; [exact H3|exact H4].
Defined.

(** ** The order of the costs *)

Lemma lex_lt_irrefl l : lex_lt l l = false.
Proof.
  induction l as [|v l IH]; simpl; [done|].
  by rewrite Z.ltb_irrefl, Z.gtb_ltb, Z.ltb_irrefl.
Qed.

Lemma lex_lt_trans : ∀ l1 l2 l3,
  length l1 = length l2 → length l2 = length l3 →
  lex_lt l1 l2 = true → lex_lt l2 l3 = true → lex_lt l1 l3 = true.
Proof.
  induction l1 as [|a l1 IH]; intros [|b l2] [|c l3] H12 H23; simpl in *; try done.
  rewrite !Z.gtb_ltb.
  destruct (Z.ltb_spec a b), (Z.ltb_spec b a), (Z.ltb_spec b c), (Z.ltb_spec c b),
    (Z.ltb_spec a c), (Z.ltb_spec c a); try done; try lia.
  apply IH; lia.
Qed.

Lemma lex_lt_total : ∀ l1 l2,
  length l1 = length l2 → lex_lt l1 l2 = false → lex_lt l2 l1 = false → l1 = l2.
Proof.
  induction l1 as [|a l1 IH]; intros [|b l2] Hlen; simpl in *; try done.
  rewrite !Z.gtb_ltb.
  destruct (Z.ltb_spec a b), (Z.ltb_spec b a); try done; try lia.
  intros H1 H2. assert (a = b) as -> by lia. f_equal. apply IH; [lia|done|done].
Qed.

Lemma Cost_lt_words c1 c2 :
  Cost_lt c1 c2 = lex_lt (counters c1 ++ [as_int64 (players c1)])
                         (counters c2 ++ [as_int64 (players c2)]).
Proof. unfold Cost_lt. by rewrite Cost_lt_loop_lex, !words_of_Cost. Qed.

(** X22: [operator<] on costs is a strict total order of the 27 words of
    the record (the 26 counters and [players]): no cost is below itself,
    the order is transitive, and two costs neither of which is below the
    other have the same counters and the same [players] word; these are
    the costs that [operator==] takes for equal. *)
Theorem Cost_lt_is_a_strict_total_order (a b c : Cost) :
  Cost_lt a a = false ∧
  (Cost_lt a b = true → Cost_lt b c = true → Cost_lt a c = true) ∧
  (Cost_eq a b = true ↔
     counters a = counters b ∧ as_int64 (players a) = as_int64 (players b)).
Proof.
  unfold Cost_eq. rewrite !Cost_lt_words.
  assert (Hlen : ∀ x y : Cost, length (counters x ++ [as_int64 (players x)])
                           = length (counters y ++ [as_int64 (players y)])).
  { intros x y. by rewrite !length_app, !length_counters. }
  split_and!.
  - apply lex_lt_irrefl.
  - apply lex_lt_trans; apply Hlen.
  - rewrite negb_true_iff, orb_false_iff. split.
    + intros [H1 H2]. pose proof (lex_lt_total _ _ (Hlen a b) H1 H2) as Heq.
      apply app_inj_1 in Heq as [Hc Hp]; [|by rewrite !length_counters].
      split; [done|]. by injection Hp.
    + intros [-> ->]. by rewrite lex_lt_irrefl.
Qed.

Lemma Cost_lt_is_a_strict_total_order_witness :
  Cost_lt cost_of_3 cost_of_4 = true ∧ Cost_eq cost_of_3 cost_of_4 = false ∧
  Cost_lt cost_of_4 cost_of_4 = false.
Proof.
  split; [reflexivity|]. split; [reflexivity|].
  exact (proj1 (Cost_lt_is_a_strict_total_order cost_of_4 cost_of_4 cost_of_4)).
Defined.
